(** * Stuffed record stream: word-stuffing codec and record stream iterator

    A shallow embedding of [src/word_stuff.c] and [src/record_stream.c].

    Conventions of the embedding:
    - a byte is a [Byte.byte]; a [size_t], a [ssize_t] and a pointer are
      integers in [Z], with the 64-bit wrap-around written out wherever the
      source does not guard the operation;
    - a [const uint8_t *] is modelled by the list of bytes that can be read
      through it (its _view_): reading past the view is the fault
      [OutOfBounds], and pointer arithmetic [p + n] is [drop n];
    - an output buffer is the list of its bytes (its length is its capacity)
      with an offset for the write pointer: writing past the capacity is the
      fault [OutOfBounds];
    - [assert] is compiled in unless [ndebug] is set, and a failed assertion
      is the fault [AssertFailed];
    - the loops of the source that are not structurally recursive take a
      fuel argument; the entry points supply enough fuel, which the theorems
      establish by showing an [Ok] result;
    - the kernel and the C library are oracles: a descriptor carries the
      answers the kernel will give to its [write] calls, and the answers to
      [read] and to [fstat], [lseek(SEEK_DATA)] and [mmap] are arguments of
      the functions that issue these calls; a [FILE] stream is the state of
      its file once flushed. *)

From Stdlib Require Import ZArith List Lia Bool.
From Stdlib Require Import Init.Byte Strings.Byte.
From Stdlib Require Strings.String.
Import String.StringSyntax.
Delimit Scope string_scope with string.
Import ListNotations.
Local Open Scope Z_scope.

(** ** Outcomes of running a piece of C code *)

Inductive fault : Type :=
| OutOfBounds
| AssertFailed
| OutOfFuel.

Inductive result (A : Type) : Type :=
| Ok (a : A)
| Fault (f : fault).

Arguments Ok {A} a.
Arguments Fault {A} f.

Definition bind {A B : Type} (c : result A) (k : A -> result B) : result B :=
  match c with
  | Ok a => k a
  | Fault f => Fault f
  end.

Notation "x <- c ;; k" := (bind c (fun x => k))
  (at level 61, c at next level, right associativity).
Notation "' pat <- c ;; k" := (bind c (fun x => match x with pat => k end))
  (at level 61, pat pattern, c at next level, right associativity).

(** [assert(cond)]: nothing under [NDEBUG], otherwise abort when false. *)
Definition assert_ (ndebug : bool) (cond : bool) : result unit :=
  if ndebug then Ok tt
  else if cond then Ok tt else Fault AssertFailed.

(** ** Integers *)

Definition SIZE_MAX : Z := 18446744073709551615.
Definition SSIZE_MAX : Z := 9223372036854775807.
Definition UINT32_MAX : Z := 4294967295.

(** Conversion to [size_t]. *)
Definition to_size_t (z : Z) : Z := z mod 18446744073709551616.

(** Conversion to [uint32_t]. *)
Definition to_uint32 (z : Z) : Z := z mod 4294967296.

(** Value of a byte. *)
Definition byte_val (b : byte) : Z := Z.of_N (Byte.to_N b).

(** Conversion to [uint8_t]. *)
Definition u8 (z : Z) : byte :=
  match Byte.of_N (Z.to_N (z mod 256)) with
  | Some b => b
  | None => x00
  end.

(** ** Buffers *)

Definition len {A : Type} (l : list A) : Z := Z.of_nat (length l).
Definition take {A : Type} (n : Z) (l : list A) : list A := firstn (Z.to_nat n) l.
Definition drop {A : Type} (n : Z) (l : list A) : list A := skipn (Z.to_nat n) l.

(** [p[i]] *)
Definition read (p : list byte) (i : Z) : result byte :=
  if i <? 0 then Fault OutOfBounds
  else match nth_error p (Z.to_nat i) with
       | Some b => Ok b
       | None => Fault OutOfBounds
       end.

(** The bytes [p[0 ... n - 1]]. *)
Definition load (p : list byte) (n : Z) : result (list byte) :=
  if (0 <=? n) && (n <=? len p) then Ok (take n p) else Fault OutOfBounds.

(** Overwrite [dst[off ... off + |bs| - 1]] with [bs]. *)
Definition store (dst : list byte) (off : Z) (bs : list byte) : result (list byte) :=
  if (0 <=? off) && (off + len bs <=? len dst)
  then Ok (take off dst ++ bs ++ drop (off + len bs) dst)
  else Fault OutOfBounds.

(** [memcpy(dst + d, src + s, n)] *)
Definition memcpy (dst : list byte) (d : Z) (src : list byte) (s : Z) (n : Z)
  : result (list byte) :=
  bs <- load (drop s src) n ;;
  store dst d bs.

(** * word_stuff.c *)

Definition RADIX : Z := 253.
Definition MAX_INITIAL_RUN : Z := RADIX - 1.
Definition MAX_REMAINING_RUN : Z := RADIX * RADIX - 1.
Definition CACHE_LINE_SIZE : Z := 64.
Definition CRDB_WORD_STUFF_HEADER_SIZE : Z := 2.

(** [static const uint8_t header[] = { RADIX + 1, RADIX }] *)
Definition header : list byte := [u8 (RADIX + 1); u8 RADIX].

(** [actual == needle.word] on the two bytes read at [data + i]. *)
Definition is_header (a b : byte) : bool :=
  Byte.eqb a (u8 (RADIX + 1)) && Byte.eqb b (u8 RADIX).

(** The [for] loop of [crdb_word_stuff_header_find]; [p] is the view at
    [data + i].  The result is an offset from [data]. *)
Fixpoint header_find_loop (p : list byte) (i num_prefix : Z) {struct p} : result Z :=
  if i <? num_prefix then
    match p with
    | a :: ((b :: _) as p') =>
        if is_header a b then Ok i
        else header_find_loop p' (i + 1) num_prefix
    | _ => Fault OutOfBounds
    end
  else Ok (num_prefix + 1).

Definition crdb_word_stuff_header_find (data : list byte) (num : Z) : result Z :=
  if num <? CRDB_WORD_STUFF_HEADER_SIZE then Ok num
  else header_find_loop data 0 (num - 1).

Definition CRDB_WORD_STUFFED_BOUND (in_size : Z) : Z :=
  to_size_t (CRDB_WORD_STUFF_HEADER_SIZE + in_size
             + CRDB_WORD_STUFF_HEADER_SIZE * (2 + in_size / (253 * 253 - 1))).

Definition crdb_word_stuffed_size (ndebug : bool) (in_size : Z) (with_header : bool)
  : result Z :=
  let static_estimate := CRDB_WORD_STUFFED_BOUND in_size in
  let ret := in_size in
  if in_size >? SSIZE_MAX then Ok SIZE_MAX
  else
    let ret := ret + (if with_header then len header + 1 else 1) in
    if in_size <? MAX_INITIAL_RUN then
      _ <- assert_ ndebug (ret <=? static_estimate) ;;
      Ok ret
    else
      let in_size := in_size - MAX_INITIAL_RUN in
      let ret := ret + 2 * (1 + in_size / MAX_REMAINING_RUN) in
      _ <- assert_ ndebug (ret <=? static_estimate) ;;
      Ok ret.

(** Writes the header at [dst + d]; the caller advances the pointer by
    [CRDB_WORD_STUFF_HEADER_SIZE]. *)
Definition crdb_word_stuff_header (dst : list byte) (d : Z) : result (list byte) :=
  store dst d header.

(** The [for (i = 0; i < tail; i += 8)] loop of [short_memcpy]. *)
Fixpoint short_memcpy_loop (fuel : nat) (dst : list byte) (d : Z)
         (src : list byte) (i tail : Z) : result (list byte) :=
  if i <? tail then
    match fuel with
    | O => Fault OutOfFuel
    | S fuel' =>
        dst <- memcpy dst (d + i) src i 8 ;;
        short_memcpy_loop fuel' dst d src (i + 8) tail
    end
  else Ok dst.

Definition short_memcpy (dst : list byte) (d : Z) (src : list byte) (n : Z)
  : result (list byte) :=
  if 8 <=? n then
    let tail := n - 8 in
    if CACHE_LINE_SIZE <=? n then memcpy dst d src 0 n
    else
      dst <- short_memcpy_loop (Z.to_nat tail) dst d src 0 tail ;;
      memcpy dst (d + tail) src tail 8
  else if 4 <=? n then
    let tail := n - 4 in
    dst <- memcpy dst d src 0 4 ;;
    memcpy dst (d + tail) src tail 4
  else
    dst <- (if Z.land n 2 =? 0 then Ok dst else memcpy dst d src 0 2) ;;
    if Z.land n 1 =? 0 then Ok dst else memcpy dst (d + (n - 1)) src (n - 1) 1.

Definition encode_run_size (ndebug : bool) (dst : list byte) (d : Z) (distance : Z)
  : result (list byte) :=
  _ <- assert_ ndebug (distance <=? MAX_REMAINING_RUN) ;;
  dst <- store dst d [u8 (distance mod RADIX)] ;;
  store dst (d + 1) [u8 (distance / RADIX)].

Definition decode_run_size (src : list byte) : result Z :=
  b0 <- read src 0 ;;
  b1 <- read src 1 ;;
  Ok (byte_val b0 + RADIX * byte_val b1).

(** The [for (;;)] loop of [crdb_word_stuff_encode].  [dst] is the output
    buffer and [ret] the offset of the write pointer in it; [src] is the
    view at the read pointer. *)
Fixpoint encode_loop (fuel : nat) (ndebug : bool) (first_header : bool)
         (dst : list byte) (ret : Z) (src : list byte) (src_size : Z)
  : result (list byte * Z) :=
  match fuel with
  | O => Fault OutOfFuel
  | S fuel' =>
      let max_run_size := if first_header then MAX_INITIAL_RUN else MAX_REMAINING_RUN in
      next_forbidden <- crdb_word_stuff_header_find src (Z.min max_run_size src_size) ;;
      let run_size := next_forbidden in
      '(dst, ret) <-
         (if first_header then
            _ <- assert_ ndebug (run_size <=? MAX_INITIAL_RUN) ;;
            dst <- store dst ret [u8 run_size] ;;
            Ok (dst, ret + 1)
          else
            dst <- encode_run_size ndebug dst ret run_size ;;
            Ok (dst, ret + 2)) ;;
      dst <- short_memcpy dst ret src run_size ;;
      let ret := ret + run_size in
      let src := drop run_size src in
      let src_size := src_size - run_size in
      if run_size <? max_run_size then
        if src_size =? 0 then Ok (dst, ret)
        else
          _ <- (if ndebug then Ok tt
                else if src_size <? CRDB_WORD_STUFF_HEADER_SIZE then Fault AssertFailed
                else
                  b0 <- read src 0 ;;
                  b1 <- read src 1 ;;
                  assert_ ndebug (is_header b0 b1)) ;;
          encode_loop fuel' ndebug false dst ret
                      (drop CRDB_WORD_STUFF_HEADER_SIZE src)
                      (src_size - CRDB_WORD_STUFF_HEADER_SIZE)
      else encode_loop fuel' ndebug false dst ret src src_size
  end.

(** Returns the buffer and the offset one past the last byte written. *)
Definition crdb_word_stuff_encode (ndebug : bool) (dst : list byte)
           (src : list byte) (src_size : Z) : result (list byte * Z) :=
  encode_loop (S (length src)) ndebug true dst 0 src src_size.

(** The [for (;;)] loop of [crdb_word_stuff_decode].  The result is the
    output buffer together with the returned pointer, as an offset in the
    buffer; [None] is the [NULL] return. *)
Fixpoint decode_loop (fuel : nat) (first_header : bool)
         (dst : list byte) (ret : Z) (src : list byte) (src_size : Z)
  : result (list byte * option Z) :=
  match fuel with
  | O => Fault OutOfFuel
  | S fuel' =>
      run_header <-
        (if first_header then
           if src_size <? 1 then Ok None
           else
             b <- read src 0 ;;
             Ok (Some (MAX_INITIAL_RUN, byte_val b, drop 1 src, src_size - 1))
         else
           if src_size <? CRDB_WORD_STUFF_HEADER_SIZE then Ok None
           else
             run_size <- decode_run_size src ;;
             Ok (Some (MAX_REMAINING_RUN, run_size,
                       drop CRDB_WORD_STUFF_HEADER_SIZE src,
                       src_size - CRDB_WORD_STUFF_HEADER_SIZE))) ;;
      match run_header with
      | None => Ok (dst, None)
      | Some (max_run_size, run_size, src, src_size) =>
          if (src_size <? run_size) || (run_size >? max_run_size) then Ok (dst, None)
          else
            dst <- short_memcpy dst ret src run_size ;;
            let ret := ret + run_size in
            let src := drop run_size src in
            let src_size := src_size - run_size in
            if run_size <? max_run_size then
              if src_size =? 0 then Ok (dst, Some ret)
              else if src_size <? CRDB_WORD_STUFF_HEADER_SIZE then Ok (dst, None)
              else
                dst <- crdb_word_stuff_header dst ret ;;
                decode_loop fuel' false dst (ret + CRDB_WORD_STUFF_HEADER_SIZE)
                            src src_size
            else decode_loop fuel' false dst ret src src_size
      end
  end.

Definition crdb_word_stuff_decode (dst : list byte) (src : list byte) (src_size : Z)
  : result (list byte * option Z) :=
  decode_loop (S (length src)) true dst 0 src src_size.

(** * record_stream.c *)

Definition CRDB_RECORD_STREAM_MAX_LEN : Z := 512.
Definition CRDB_RECORD_STREAM_BUF_LEN : Z := 2 * CRDB_RECORD_STREAM_MAX_LEN.

(** [CRC_INITIAL_VALUE ((uint32_t)-1)]: the value of the [crc] field while
    the checksum is computed. *)
Definition CRC_INITIAL_VALUE : Z := to_uint32 (-1).

(** Layout of [struct record_header { uint32_t crc; uint32_t generation; }],
    of [struct write_record] and of [struct read_record]: the header, then
    the data bytes. *)
Definition OFFSET_crc : Z := 0.
Definition OFFSET_generation : Z := 4.
Definition OFFSET_data : Z := 8.
Definition SIZEOF_record_header : Z := 8.
Definition SIZEOF_write_record : Z := SIZEOF_record_header + CRDB_RECORD_STREAM_MAX_LEN.
Definition SIZEOF_read_record : Z := SIZEOF_record_header + CRDB_RECORD_STREAM_BUF_LEN.

(** A [uint32_t] in memory: the source is x86 code (it uses the SSE4.2
    intrinsics), so the host byte order is little-endian. *)
Definition bytes_of_uint32 (v : Z) : list byte :=
  [u8 v; u8 (Z.shiftr v 8); u8 (Z.shiftr v 16); u8 (Z.shiftr v 24)].

Definition uint32_of_bytes (b0 b1 b2 b3 : byte) : Z :=
  byte_val b0 + Z.shiftl (byte_val b1) 8 + Z.shiftl (byte_val b2) 16
  + Z.shiftl (byte_val b3) 24.

(** Read, resp. write, a [uint32_t] field at the start of the view [p],
    resp. at offset [off] of [dst]. *)
Definition load_uint32 (p : list byte) : result Z :=
  match p with
  | b0 :: b1 :: b2 :: b3 :: _ => Ok (uint32_of_bytes b0 b1 b2 b3)
  | _ => Fault OutOfBounds
  end.

Definition store_uint32 (dst : list byte) (off : Z) (v : Z) : result (list byte) :=
  store dst off (bytes_of_uint32 v).

(** [struct crdb_error] and [crdb_error_set]; [None] is a [NULL] pointer. *)
Record crdb_error : Type := { message : String.string; error : Z }.

Definition _crdb_error_set (ce : option crdb_error) (msg : String.string) (n : Z)
  : option crdb_error :=
  match ce with
  | None => None
  | Some _ => Some {| message := msg; error := n |}
  end.

(** ** The CRC32C instructions

    [_mm_crc32_u8] and [_mm_crc32_u32] are the SSE4.2 [crc32] instruction:
    the accumulator, xored with the operand, is divided by the Castagnoli
    polynomial [0x11EDC6F41], one bit of the operand at a time, in the
    bit-reflected representation. *)
Definition CRC32C_POLYNOMIAL : Z := 0x1EDC6F41.

(** Bit reversal of the low [n] bits. *)
Fixpoint reflect (n : nat) (x : Z) : Z :=
  match n with
  | O => 0
  | S n' => Z.lor (Z.shiftl (Z.land x 1) (Z.of_nat n')) (reflect n' (Z.shiftr x 1))
  end.

Definition CRC32C_POLYNOMIAL_REFLECTED : Z := Eval cbv in reflect 32 CRC32C_POLYNOMIAL.

Definition crc32c_shift (acc : Z) : Z :=
  Z.lxor (Z.shiftr acc 1) (if Z.testbit acc 0 then CRC32C_POLYNOMIAL_REFLECTED else 0).

Definition _mm_crc32_u8 (acc : Z) (v : Z) : Z :=
  Nat.iter 8 crc32c_shift (Z.lxor acc v).

Definition _mm_crc32_u32 (acc : Z) (v : Z) : Z :=
  Nat.iter 32 crc32c_shift (Z.lxor acc v).

(** The first loop of [crdb_crc32c]; [p] is the view at [buf + i].  Returns
    the accumulator, [i] and the view at [buf + i]. *)
Fixpoint crc32c_words (p : list byte) (i len acc : Z) {struct p}
  : result (Z * Z * list byte) :=
  if i + 4 <=? len then
    match p with
    | b0 :: b1 :: b2 :: b3 :: p' =>
        crc32c_words p' (i + 4) len (_mm_crc32_u32 acc (uint32_of_bytes b0 b1 b2 b3))
    | _ => Fault OutOfBounds
    end
  else Ok (acc, i, p).

(** The second loop of [crdb_crc32c]. *)
Fixpoint crc32c_bytes (p : list byte) (i len acc : Z) {struct p} : result Z :=
  if i <? len then
    match p with
    | b :: p' => crc32c_bytes p' (i + 1) len (_mm_crc32_u8 acc (byte_val b))
    | [] => Fault OutOfBounds
    end
  else Ok acc.

Definition crdb_crc32c (buf : list byte) (len : Z) : result Z :=
  let acc := 0 in
  '(acc, i, p) <- crc32c_words buf 0 len acc ;;
  crc32c_bytes p i len acc.

(** ** Appending *)

Definition MAX_ENCODED : Z := CRDB_WORD_STUFFED_BOUND SIZEOF_write_record.

(** Result of [encode_record]: the return value, [*encoded_size], and the
    three objects it may write. *)
Record encode_record_out : Type := {
  er_ret : bool;
  er_encoded : list byte;
  er_encoded_size : Z;
  er_record : list byte;
  er_ce : option crdb_error
}.

(** [encoded_size] is the value of [*encoded_size] on entry.  The argument
    of the assertion calls [crdb_word_stuffed_size], which has no effect and
    whose own assertions are compiled out together with this one. *)
Definition encode_record (ndebug : bool) (encoded : list byte) (encoded_size : Z)
           (record : list byte) (data_len : Z) (ce : option crdb_error)
  : result encode_record_out :=
  if data_len >? CRDB_RECORD_STREAM_MAX_LEN then
    Ok {| er_ret := false; er_encoded := encoded; er_encoded_size := encoded_size;
          er_record := record;
          er_ce := _crdb_error_set ce "crdb_record_stream data too long"%string 0 |}
  else
    record <- store_uint32 record OFFSET_crc CRC_INITIAL_VALUE ;;
    let record_size := SIZEOF_record_header + data_len in
    crc <- crdb_crc32c record record_size ;;
    record <- store_uint32 record OFFSET_crc crc ;;
    bound <- crdb_word_stuffed_size ndebug record_size true ;;
    _ <- assert_ ndebug (bound <=? MAX_ENCODED) ;;
    '(encoded, write_ptr) <- crdb_word_stuff_encode ndebug encoded record record_size ;;
    encoded <- crdb_word_stuff_header encoded write_ptr ;;
    let write_ptr := write_ptr + CRDB_WORD_STUFF_HEADER_SIZE in
    Ok {| er_ret := true; er_encoded := encoded; er_encoded_size := write_ptr;
          er_record := record; er_ce := ce |}.

(** The file behind a descriptor opened with [O_APPEND], and what the
    kernel will answer to the next [write] and [writev] calls: [Written n]
    accepts at most [n] bytes, [Failed e] returns -1 with [errno = e].
    When the list of answers is exhausted every write is complete. *)
Inductive write_answer : Type :=
| Written (n : Z)
| Failed (e : Z).

Record fd_state : Type := {
  contents : list byte;
  answers : list write_answer;
  errno : Z
}.

(** [write(fd, data, |data|)] in append mode; returns the new state and the
    return value. *)
Definition write (fd : fd_state) (data : list byte) : fd_state * Z :=
  match answers fd with
  | [] =>
      ({| contents := contents fd ++ data; answers := []; errno := errno fd |},
       len data)
  | Written n :: rest =>
      let n := Z.max 0 (Z.min n (len data)) in
      ({| contents := contents fd ++ take n data; answers := rest; errno := errno fd |},
       n)
  | Failed e :: rest =>
      ({| contents := contents fd; answers := rest; errno := e |}, -1)
  end.

(** [writev(fd, iov, 2)] *)
Definition writev (fd : fd_state) (iov0 iov1 : list byte) : fd_state * Z :=
  write fd (iov0 ++ iov1).

(** State of the retry loop of [append_to_fd]: [iov[0]] (empty, then the
    header), [expected], [written] and [partial_write]. *)
Record append_state : Type := {
  as_iov0 : list byte;
  as_expected : Z;
  as_written : Z;
  as_partial_write : bool
}.

Fixpoint append_to_fd_loop (tries : nat) (fd : fd_state) (buf : list byte) (count : Z)
         (st : append_state) : fd_state * append_state :=
  match tries with
  | O => (fd, st)
  | S tries' =>
      let '(fd, written) := writev fd (as_iov0 st) (take count buf) in
      let st := {| as_iov0 := as_iov0 st; as_expected := as_expected st;
                   as_written := written; as_partial_write := as_partial_write st |} in
      if to_size_t written =? as_expected st then (fd, st)
      else if written <=? 0 then append_to_fd_loop tries' fd buf count st
      else
        append_to_fd_loop tries' fd buf count
          {| as_iov0 := header; as_expected := count + len header;
             as_written := written; as_partial_write := true |}
  end.

Definition append_to_fd (fd : fd_state) (buf : list byte) (count : Z)
           (ce : option crdb_error) : fd_state * bool * option crdb_error :=
  let num_tries := 3%nat in
  let '(fd, st) :=
    append_to_fd_loop num_tries fd buf count
      {| as_iov0 := []; as_expected := count; as_written := 0;
         as_partial_write := false |} in
  let err := errno fd in
  let fd :=
    if as_partial_write st && negb (to_size_t (as_written st) =? as_expected st)
    then fst (write fd (as_iov0 st))
    else fd in
  if as_written st <? 0 then
    (fd, false, _crdb_error_set ce "record_stream write(2) failed."%string err)
  else if negb (to_size_t (as_written st) =? as_expected st) then
    (fd, false, _crdb_error_set ce "Short write in record_stream."%string 0)
  else (fd, true, ce).

(** [encoded] is the uninitialised local array of
    [record_stream_append_record]. *)
Definition record_stream_append_record (ndebug : bool) (fd : fd_state)
           (encoded : list byte) (record : list byte) (data_len : Z)
           (ce : option crdb_error)
  : result (fd_state * bool * option crdb_error) :=
  r <- encode_record ndebug encoded 0 record data_len ce ;;
  if negb (er_ret r) then Ok (fd, false, er_ce r)
  else Ok (append_to_fd fd (er_encoded r) (er_encoded_size r) (er_ce r)).

(** [struct write_record record = { .header.generation = generation }] *)
Definition write_record_init (generation : Z) : list byte :=
  bytes_of_uint32 0 ++ bytes_of_uint32 generation
  ++ repeat x00 (Z.to_nat CRDB_RECORD_STREAM_MAX_LEN).

Definition crdb_record_stream_append_buf (ndebug : bool) (fd : fd_state)
           (encoded : list byte) (generation : Z) (buf : list byte) (len : Z)
           (ce : option crdb_error)
  : result (fd_state * bool * option crdb_error) :=
  let record := write_record_init generation in
  if len >? CRDB_RECORD_STREAM_MAX_LEN then
    Ok (fd, false, _crdb_error_set ce "crdb_record_stream data too long"%string 0)
  else
    record <- memcpy record OFFSET_data buf 0 len ;;
    record_stream_append_record ndebug fd encoded record len ce.

(** ** Iterating *)

(** The bytes the iterator reads: an object of [|bytes|] bytes at the
    address [base].  A [NULL] buffer of size zero has [base = 0]. *)
Record memory : Type := { base : Z; bytes : list byte }.

(** What can be read through the pointer [p]: the bytes from [p] to the end
    of the object, and nothing when [p] does not point into it. *)
Definition view (m : memory) (p : Z) : list byte :=
  if (base m <=? p) && (p <=? base m + len (bytes m))
  then drop (p - base m) (bytes m)
  else [].

(** [struct crdb_record_stream_iterator]; the pointers are addresses.
    [mapped] and [map_size] only serve [munmap] and are left out. *)
Record crdb_record_stream_iterator : Type := {
  it_cursor : Z;
  it_end : Z;
  it_stop_at : Z;
  it_begin : Z;
  it_header : Z;
  it_first_record : bool;
  it_first_nonzero : Z
}.

Definition set_cursor (it : crdb_record_stream_iterator) (p : Z) :=
  {| it_cursor := p; it_end := it_end it; it_stop_at := it_stop_at it;
     it_begin := it_begin it; it_header := it_header it;
     it_first_record := it_first_record it;
     it_first_nonzero := it_first_nonzero it |}.

Definition set_end (it : crdb_record_stream_iterator) (p : Z) :=
  {| it_cursor := it_cursor it; it_end := p; it_stop_at := it_stop_at it;
     it_begin := it_begin it; it_header := it_header it;
     it_first_record := it_first_record it;
     it_first_nonzero := it_first_nonzero it |}.

Definition set_stop_at (it : crdb_record_stream_iterator) (p : Z) :=
  {| it_cursor := it_cursor it; it_end := it_end it; it_stop_at := p;
     it_begin := it_begin it; it_header := it_header it;
     it_first_record := it_first_record it;
     it_first_nonzero := it_first_nonzero it |}.

Definition set_header (it : crdb_record_stream_iterator) (p : Z) :=
  {| it_cursor := it_cursor it; it_end := it_end it; it_stop_at := it_stop_at it;
     it_begin := it_begin it; it_header := p;
     it_first_record := it_first_record it;
     it_first_nonzero := it_first_nonzero it |}.

Definition set_first_record (it : crdb_record_stream_iterator) (b : bool) :=
  {| it_cursor := it_cursor it; it_end := it_end it; it_stop_at := it_stop_at it;
     it_begin := it_begin it; it_header := it_header it;
     it_first_record := b;
     it_first_nonzero := it_first_nonzero it |}.

(** The fields the compound literal does not name are zero. *)
Definition crdb_record_stream_iterator_init_buf (buf : Z) (size : Z)
  : crdb_record_stream_iterator :=
  {| it_cursor := buf; it_end := buf + size; it_stop_at := buf + size;
     it_begin := buf; it_header := 0; it_first_record := true;
     it_first_nonzero := buf |}.

Definition crdb_record_stream_iterator_size (it : crdb_record_stream_iterator) : Z :=
  to_size_t (it_end it - it_begin it).

Definition crdb_record_stream_iterator_locate_at
           (it : crdb_record_stream_iterator) (start_offset : Z)
  : bool * crdb_record_stream_iterator :=
  if (start_offset <? to_size_t (it_first_nonzero it - it_begin it))
     || (start_offset >? to_size_t (it_stop_at it - it_begin it))
  then (false, it)
  else if start_offset =? to_size_t (it_first_nonzero it - it_begin it) then
    (true, set_cursor (set_first_record it true) (it_first_nonzero it))
  else
    (true, set_cursor (set_first_record it false) (it_begin it + start_offset)).

Definition crdb_record_stream_iterator_stop_at
           (it : crdb_record_stream_iterator) (stop_offset : Z)
  : crdb_record_stream_iterator :=
  if stop_offset >? to_size_t (it_end it - it_begin it) then it
  else set_stop_at it (it_begin it + stop_offset).

(** [record] is the [struct read_record] as bytes; returns the comparison
    and the record with its [crc] field overwritten. *)
Definition crc_matches (record : list byte) (total_len : Z)
  : result (bool * list byte) :=
  expected <- load_uint32 (drop OFFSET_crc record) ;;
  record <- store_uint32 record OFFSET_crc CRC_INITIAL_VALUE ;;
  crc <- crdb_crc32c record total_len ;;
  Ok (expected =? crc, record).

(** The [eof] label of [record_stream_iterator_next_record]. *)
Definition next_record_eof (it : crdb_record_stream_iterator) (dst : list byte)
  : result (Z * crdb_record_stream_iterator * list byte) :=
  Ok (-1, set_cursor it (it_end it), dst).

(** [record_stream_iterator_next_record] from the test of [it->header]
    against [it->stop_at] on. *)
Definition next_record_decode (m : memory) (it : crdb_record_stream_iterator)
           (encoded_data : Z) (dst : list byte)
  : result (Z * crdb_record_stream_iterator * list byte) :=
  if it_header it >=? it_stop_at it then next_record_eof it dst
  else
    found <- crdb_word_stuff_header_find (view m encoded_data)
                                         (to_size_t (it_end it - encoded_data)) ;;
    let next_header := encoded_data + found in
    let it := set_cursor it next_header in
    let encoded_len := to_size_t (next_header - encoded_data) in
    if encoded_len >? CRDB_RECORD_STREAM_BUF_LEN then Ok (-1, it, dst)
    else
      '(dst, decoded_end) <-
         crdb_word_stuff_decode dst (view m encoded_data) encoded_len ;;
      match decoded_end with
      | None => Ok (-1, it, dst)
      | Some decoded_end =>
          let decoded_len := decoded_end in
          if decoded_len <? SIZEOF_record_header then Ok (-1, it, dst)
          else
            '(matches, dst) <- crc_matches dst decoded_len ;;
            if negb matches then Ok (-1, it, dst)
            else Ok (decoded_len - SIZEOF_record_header, it, dst)
      end.

(** Returns the [ssize_t] result, the iterator and the [struct read_record]
    [dst]. *)
Definition record_stream_iterator_next_record (ndebug : bool) (m : memory)
           (it : crdb_record_stream_iterator) (dst : list byte)
  : result (Z * crdb_record_stream_iterator * list byte) :=
  if it_first_record it then
    let it := set_first_record it false in
    let it := set_header it (it_cursor it) in
    let encoded_data := it_cursor it in
    next_record_decode m it encoded_data dst
  else
    found <- crdb_word_stuff_header_find (view m (it_cursor it))
                                         (to_size_t (it_end it - it_cursor it)) ;;
    let first_header := it_cursor it + found in
    if first_header >=? it_stop_at it then next_record_eof it dst
    else
      let it := set_header it first_header in
      let encoded_data := first_header + CRDB_WORD_STUFF_HEADER_SIZE in
      _ <- assert_ ndebug (encoded_data <=? it_end it) ;;
      next_record_decode m it encoded_data dst.

(** The [while] loop of [record_stream_iterator_next]. *)
Fixpoint iterator_next_loop (fuel : nat) (ndebug : bool) (m : memory)
         (it : crdb_record_stream_iterator) (dst : list byte)
  : result (Z * crdb_record_stream_iterator * list byte) :=
  if it_cursor it <? it_stop_at it then
    match fuel with
    | O => Fault OutOfFuel
    | S fuel' =>
        '(r, it, dst) <- record_stream_iterator_next_record ndebug m it dst ;;
        if r >=? 0 then Ok (r, it, dst)
        else iterator_next_loop fuel' ndebug m it dst
    end
  else Ok (-1, set_end (set_cursor it 0) 0, dst).

Definition record_stream_iterator_next (ndebug : bool) (m : memory)
           (it : crdb_record_stream_iterator) (dst : list byte)
  : result (Z * crdb_record_stream_iterator * list byte) :=
  iterator_next_loop (S (S (length (bytes m)))) ndebug m it dst.

(** What [crdb_record_stream_iterator_next_buf] returns and leaves in
    [*generation], [*len], [dst] and the iterator. *)
Record next_buf_out : Type := {
  nb_ret : bool;
  nb_generation : Z;
  nb_len : Z;
  nb_dst : list byte;
  nb_it : crdb_record_stream_iterator
}.

(** [buf] is the uninitialised local [struct read_record]. *)
Definition crdb_record_stream_iterator_next_buf (ndebug : bool) (m : memory)
           (it : crdb_record_stream_iterator) (buf : list byte) (dst : list byte)
  : result next_buf_out :=
  let generation := 0 in
  let len := 0 in
  '(payload_size, it, buf) <- record_stream_iterator_next ndebug m it buf ;;
  if payload_size <? 0 then
    Ok {| nb_ret := false; nb_generation := generation; nb_len := len;
          nb_dst := dst; nb_it := it |}
  else
    _ <- assert_ ndebug (payload_size <=? CRDB_RECORD_STREAM_BUF_LEN) ;;
    generation <- load_uint32 (drop OFFSET_generation buf) ;;
    dst <- memcpy dst 0 buf OFFSET_data payload_size ;;
    Ok {| nb_ret := true; nb_generation := generation; nb_len := payload_size;
          nb_dst := dst; nb_it := it |}.

(** ** Sequences of records

    The records an iterator yields: [next_buf] is called until it returns
    false.  Each call gets fresh buffers. *)
Definition record : Type := (Z * list byte)%type.

Definition stack_read_record : list byte := repeat x00 (Z.to_nat SIZEOF_read_record).
Definition caller_dst : list byte := repeat x00 (Z.to_nat CRDB_RECORD_STREAM_BUF_LEN).

Fixpoint iterate (fuel : nat) (ndebug : bool) (m : memory)
         (it : crdb_record_stream_iterator) : result (list record) :=
  match fuel with
  | O => Fault OutOfFuel
  | S fuel' =>
      r <- crdb_record_stream_iterator_next_buf ndebug m it stack_read_record caller_dst ;;
      if nb_ret r then
        rest <- iterate fuel' ndebug m (nb_it r) ;;
        Ok ((nb_generation r, take (nb_len r) (nb_dst r)) :: rest)
      else Ok []
  end.

Definition records (ndebug : bool) (m : memory) (it : crdb_record_stream_iterator)
  : result (list record) :=
  iterate (S (S (length (bytes m)))) ndebug m it.

(** * Notions used to state the properties *)

(** The buffer [dst] after [src[0 ... n - 1]] was copied to offset [d]. *)
Definition copied (dst : list byte) (d : Z) (src : list byte) (n : Z) : list byte :=
  take d dst ++ take n src ++ drop (d + n) dst.

(** The buffer [dst] with [bs] written at offset [off]. *)
Definition patched (dst : list byte) (off : Z) (bs : list byte) : list byte :=
  take off dst ++ bs ++ drop (off + len bs) dst.

(** Offset of the first occurrence of the header in [l], or [len l]. *)
Fixpoint first_marker (l : list byte) : Z :=
  match l with
  | a :: ((b :: _) as l') => if is_header a b then 0 else 1 + first_marker l'
  | _ => len l
  end.

Definition marker_free (l : list byte) : Prop := first_marker l = len l.

(** The run size as [crdb_word_stuff_encode] writes it. *)
Definition run_header (first_header : bool) (run_size : Z) : list byte :=
  if first_header then [u8 run_size]
  else [u8 (run_size mod RADIX); u8 (run_size / RADIX)].

Definition max_run (first_header : bool) : Z :=
  if first_header then MAX_INITIAL_RUN else MAX_REMAINING_RUN.

(** [Stuffed first src out]: [out] is the word-stuffed form of [src], read
    off the three ways an iteration of the encoding loop can go: a last
    short run, a short run that ends at a header, a full run. *)
Inductive Stuffed : bool -> list byte -> list byte -> Prop :=
| Stuffed_last first lit :
    len lit < max_run first -> marker_free lit ->
    Stuffed first lit (run_header first (len lit) ++ lit)
| Stuffed_header first lit rest out :
    len lit < max_run first -> marker_free lit ->
    Stuffed false rest out ->
    Stuffed first (lit ++ xfe :: xfd :: rest) (run_header first (len lit) ++ lit ++ out)
| Stuffed_full first lit rest out :
    len lit = max_run first -> marker_free lit ->
    Stuffed false rest out ->
    Stuffed first (lit ++ rest) (run_header first (len lit) ++ lit ++ out).

(** Bytes the encoding loop may still write for [n] remaining input bytes. *)
Definition stuffed_room (first_header : bool) (n : Z) : Z :=
  if first_header then
    if n <? MAX_INITIAL_RUN then n + 1
    else n + 1 + 2 * (1 + (n - MAX_INITIAL_RUN) / MAX_REMAINING_RUN)
  else n + 2 + 2 * (n / MAX_REMAINING_RUN).

(** What [crdb_word_stuff_decode] may have done to the output buffer [dst]
    when it started writing at offset [ret]: the capacity is unchanged,
    nothing at or after offset [bound] is modified, and a returned pointer
    [n] lies between [ret] and [bound], with nothing at or after [n]
    modified. *)
Definition decode_frame (dst : list byte) (ret bound : Z)
           (res : list byte * option Z) : Prop :=
  len (fst res) = len dst
  /\ drop bound (fst res) = drop bound dst
  /\ match snd res with
     | Some n => ret <= n <= bound /\ drop n (fst res) = drop n dst
     | None => True
     end.

(** The checksum in the words of the specification: the CRC with the
    Castagnoli polynomial [0x1EDC6F41] (bit-reflected, as CRC32C is
    defined), computed a bit at a time over the bytes of [buf], from the
    initial accumulator [init] and without a final xor. *)
Fixpoint crc_bits (n : nat) (poly : Z) (acc : Z) : Z :=
  match n with
  | O => acc
  | S n' =>
      crc_bits n' poly
               (if Z.odd acc then Z.lxor (Z.shiftr acc 1) poly else Z.shiftr acc 1)
  end.

Definition castagnoli_crc (init : Z) (buf : list byte) : Z :=
  fold_left (fun acc b => crc_bits 8 (reflect 32 0x1EDC6F41) (Z.lxor acc (byte_val b)))
            buf init.

(** The values of a [uint32_t]. *)
Definition is_uint32 (x : Z) : Prop := 0 <= x <= UINT32_MAX.

(** The bytes of a record as the structs lay them out: the [crc] and
    [generation] fields, little-endian, then the payload. *)
Definition envelope (crc generation : Z) (payload : list byte) : list byte :=
  bytes_of_uint32 crc ++ bytes_of_uint32 generation ++ payload.

(** The decoder as a function on byte strings: the bytes
    [crdb_word_stuff_decode] leaves in its output when it does not return
    [NULL].  The run size is read from one byte ([first_header]) or from
    two. *)
Definition run_size_of (first_header : bool) (src : list byte) : Z :=
  if first_header then byte_val (nth 0 src x00)
  else byte_val (nth 0 src x00) + RADIX * byte_val (nth 1 src x00).

Fixpoint unstuff (fuel : nat) (first_header : bool) (src : list byte)
  : option (list byte) :=
  match fuel with
  | O => None
  | S fuel' =>
      let header_size := if first_header then 1 else 2 in
      if len src <? header_size then None
      else
        let run_size := run_size_of first_header src in
        let src := drop header_size src in
        if (len src <? run_size) || (run_size >? max_run first_header) then None
        else
          let lit := take run_size src in
          let src := drop run_size src in
          if run_size <? max_run first_header then
            if len src =? 0 then Some lit
            else if len src <? 2 then None
            else option_map (fun out => lit ++ header ++ out) (unstuff fuel' false src)
          else option_map (fun out => lit ++ out) (unstuff fuel' false src)
  end.

Definition decode_chunk (chunk : list byte) : option (list byte) :=
  unstuff (S (length chunk)) true chunk.

(** The record held by a chunk of the stream (the bytes between two
    headers), as [record_stream_iterator_next_record] extracts it: the
    chunk is at most [CRDB_RECORD_STREAM_BUF_LEN] bytes, it decodes to an
    envelope [crc || generation || payload], and [crc] is the checksum of
    the envelope with its [crc] field set to [CRC_INITIAL_VALUE]. *)
Definition parse_record (chunk : list byte) : option record :=
  if len chunk >? CRDB_RECORD_STREAM_BUF_LEN then None
  else
    match decode_chunk chunk with
    | Some (c0 :: c1 :: c2 :: c3 :: g0 :: g1 :: g2 :: g3 :: payload) =>
        let generation := uint32_of_bytes g0 g1 g2 g3 in
        if uint32_of_bytes c0 c1 c2 c3
           =? castagnoli_crc 0 (envelope CRC_INITIAL_VALUE generation payload)
        then Some (generation, payload)
        else None
    | _ => None
    end.

(** Offset of the first header of [buf] at or after offset [k], or
    [len buf]. *)
Definition next_marker (buf : list byte) (k : Z) : Z := k + first_marker (drop k buf).

(** The bytes [buf[a ... b - 1]]. *)
Definition chunk (buf : list byte) (a b : Z) : list byte := take (b - a) (drop a buf).

(** An object in memory does not wrap around the address space, and only
    an empty one is at [NULL]. *)
Definition valid_memory (m : memory) : Prop :=
  0 <= base m /\ base m + len (bytes m) <= SIZE_MAX
  /\ (base m = 0 -> bytes m = []).

(** An iterator over [m] that has not signalled the end: what
    [init_buf], [locate_at], [stop_at] and a successful [next] establish
    and preserve. *)
Definition wf_iterator (m : memory) (it : crdb_record_stream_iterator) : Prop :=
  valid_memory m
  /\ it_begin it = base m
  /\ it_end it = base m + len (bytes m)
  /\ base m <= it_first_nonzero it <= base m + len (bytes m)
  /\ base m <= it_cursor it <= base m + len (bytes m)
  /\ base m <= it_stop_at it <= base m + len (bytes m).

(** Adds a record to a list when there is one. *)
Definition cons_opt {A : Type} (o : option A) (l : list A) : list A :=
  match o with
  | Some a => a :: l
  | None => l
  end.

(** The records of [buf] that follow a header at an offset from [h] on and
    before [stop], in order; [h] is the offset of a header, or [len buf].
    Each record is what [parse_record] finds between a header and the next
    one. *)
Fixpoint scan_headers (fuel : nat) (buf : list byte) (h stop : Z) : list record :=
  match fuel with
  | O => []
  | S fuel' =>
      if h >=? stop then []
      else
        let data := h + CRDB_WORD_STUFF_HEADER_SIZE in
        let next := next_marker buf data in
        cons_opt (parse_record (chunk buf data next)) (scan_headers fuel' buf next stop)
  end.

Definition scan (buf : list byte) (h stop : Z) : list record :=
  scan_headers (S (length buf)) buf h stop.

(** The same for a stream read from its first byte, at offset [c], where
    no header is needed. *)
Definition scan_first (buf : list byte) (c stop : Z) : list record :=
  if c >=? stop then []
  else
    let next := next_marker buf c in
    cons_opt (parse_record (chunk buf c next)) (scan buf next stop).

(** The records an iterator has yet to yield. *)
Definition pending (m : memory) (it : crdb_record_stream_iterator) : list record :=
  let c := it_cursor it - base m in
  let stop := it_stop_at it - base m in
  if it_first_record it then scan_first (bytes m) c stop
  else scan (bytes m) (next_marker (bytes m) c) stop.

(** What is left to read, for termination. *)
Definition remaining (m : memory) (it : crdb_record_stream_iterator) : Z :=
  base m + len (bytes m) - it_cursor it + (if it_first_record it then 1 else 0).

(** What [next] leaves in the [struct read_record] for a record. *)
Definition holds_record (dst : list byte) (r : Z) (rec : record) : Prop :=
  r = len (snd rec)
  /\ load_uint32 (drop OFFSET_generation dst) = Ok (fst rec)
  /\ take (len (snd rec)) (drop OFFSET_data dst) = snd rec
  /\ len (snd rec) <= CRDB_RECORD_STREAM_BUF_LEN.

(** What a call of [next] on the iterator [it] finds, in terms of the
    records still to come [todo]: none, and it returns -1; or the first of
    them, which it leaves in the [struct read_record]. *)
Definition next_outcome (m : memory) (it : crdb_record_stream_iterator)
           (todo : list record)
           (res : Z * crdb_record_stream_iterator * list byte) : Prop :=
  len (snd res) = SIZEOF_read_record
  /\ match todo with
     | [] => fst (fst res) = -1
     | rec :: rest =>
         holds_record (snd res) (fst (fst res)) rec
         /\ wf_iterator m (snd (fst res))
         /\ it_first_record (snd (fst res)) = false
         /\ it_stop_at (snd (fst res)) = it_stop_at it
         /\ it_cursor it <= it_cursor (snd (fst res))
         /\ pending m (snd (fst res)) = rest
         /\ exists a,
             0 <= a <= it_cursor (snd (fst res)) - base m
             /\ it_cursor (snd (fst res)) - base m <= len (bytes m)
             /\ parse_record (chunk (bytes m) a (it_cursor (snd (fst res)) - base m))
                = Some rec
     end.

(** What [crdb_record_stream_iterator_next_buf] returns, in terms of the
    records still to come [todo], when the caller's buffer was [dst]. *)
Definition next_buf_outcome (m : memory) (it : crdb_record_stream_iterator)
           (todo : list record) (dst : list byte) (r : next_buf_out) : Prop :=
  match todo with
  | [] =>
      nb_ret r = false /\ nb_generation r = 0 /\ nb_len r = 0 /\ nb_dst r = dst
  | rec :: rest =>
      nb_ret r = true
      /\ nb_generation r = fst rec
      /\ nb_len r = len (snd rec)
      /\ nb_dst r = snd rec ++ drop (len (snd rec)) dst
      /\ wf_iterator m (nb_it r)
      /\ pending m (nb_it r) = rest
      /\ remaining m (nb_it r) < remaining m it
      /\ it_stop_at (nb_it r) = it_stop_at it
      /\ exists a,
          0 <= a <= it_cursor (nb_it r) - base m
          /\ it_cursor (nb_it r) - base m <= len (bytes m)
          /\ parse_record (chunk (bytes m) a (it_cursor (nb_it r) - base m))
             = Some rec
  end.

(** A stream for examples: a header, the record of generation 7 and payload
    ["hello"], and the header written after it; mapped at address 4096. *)
Definition sample_stream : list byte :=
  [xfe; xfd; x0d; x78; x59; xc7; x5b; x07; x00; x00; x00;
   x68; x65; x6c; x6c; x6f; xfe; xfd].

Definition sample_memory : memory := {| base := 4096; bytes := sample_stream |}.

Definition sample_iterator : crdb_record_stream_iterator :=
  crdb_record_stream_iterator_init_buf 4096 (len sample_stream).

(** What the first call of [next_buf] on the sample stream returns. *)
Definition sample_next : next_buf_out :=
  Eval vm_compute in
    match crdb_record_stream_iterator_next_buf
            false sample_memory sample_iterator stack_read_record caller_dst with
    | Ok r => r
    | Fault _ =>
        {| nb_ret := false; nb_generation := 0; nb_len := 0; nb_dst := [];
           nb_it := sample_iterator |}
    end.

(** The bytes [w] read as one little-endian integer. *)
Fixpoint le_val (w : list byte) : Z :=
  match w with
  | [] => 0
  | b :: w' => byte_val b + Z.shiftl (le_val w') 8
  end.

(** The records found by iterating over the whole of [m]. *)
Definition stream_records (ndebug : bool) (m : memory) : result (list record) :=
  records ndebug m (crdb_record_stream_iterator_init_buf (base m) (len (bytes m))).

(** The bytes [c] mapped at the address [b]. *)
Definition mapped_at (b : Z) (c : list byte) : memory := {| base := b; bytes := c |}.

(** An address range for [c] at [b]: not at [NULL] and within the address
    space. *)
Definition mappable (b : Z) (c : list byte) : Prop := 0 < b /\ b + len c <= SIZE_MAX.

(** The file left by appending a record to the sample stream when the
    kernel first accepts three bytes only. *)
Definition sample_short_append : fd_state :=
  Eval vm_compute in
    match crdb_record_stream_append_buf
            false {| contents := sample_stream; answers := [Written 3]; errno := 0 |}
            (repeat x00 526) 9 [x68; x69] 2 None with
    | Ok (fd', _, _) => fd'
    | Fault _ => {| contents := []; answers := []; errno := 0 |}
    end.

(** * Descriptors, mappings and streams *)

(** ** Reading the end of a file *)

(** What the kernel answers to a [read]: [ReadUpTo n] returns at most [n]
    bytes, [ReadFailed e] returns -1 with [errno = e].  When the list of
    answers is exhausted every read is complete. *)
Inductive read_answer : Type :=
| ReadUpTo (n : Z)
| ReadFailed (e : Z).

Definition EINTR : Z := 4.
Definition EINVAL : Z := 22.

Definition set_errno (fd : fd_state) (e : Z) : fd_state :=
  {| contents := contents fd; answers := answers fd; errno := e |}.

(** [lseek(fd, off, SEEK_END)] on a regular file: the new offset, or -1
    with [EINVAL] when it would be negative. *)
Definition lseek_end (fd : fd_state) (off : Z) : fd_state * Z :=
  let pos := len (contents fd) + off in
  if pos <? 0 then (set_errno fd EINVAL, -1) else (fd, pos).

(** [read(fd, buf, count)] at the offset [pos], with the kernel's answer
    ([None]: a complete read): the state, the return value and the bytes
    stored at the start of [buf]. *)
Definition read_fd (fd : fd_state) (pos count : Z) (a : option read_answer)
  : fd_state * Z * list byte :=
  let avail := take count (drop pos (contents fd)) in
  match a with
  | None => (fd, len avail, avail)
  | Some (ReadUpTo n) => (fd, len (take n avail), take n avail)
  | Some (ReadFailed e) => (set_errno fd e, -1, [])
  end.

(** [do ret = read(fd, buf, count); while (ret == -1 && errno == EINTR)];
    returns the answers left, the state, [ret] and the bytes read. *)
Fixpoint read_retry (reads : list read_answer) (fd : fd_state) (pos count : Z)
  : list read_answer * fd_state * Z * list byte :=
  match reads with
  | [] =>
      let '(fd, ret, data) := read_fd fd pos count None in
      ([], fd, ret, data)
  | a :: reads' =>
      let '(fd, ret, data) := read_fd fd pos count (Some a) in
      if (ret =? -1) && (errno fd =? EINTR) then read_retry reads' fd pos count
      else (reads', fd, ret, data)
  end.

(** [memcmp(a, b, n) == 0] on buffers that hold at least [n] bytes. *)
Fixpoint bytes_eqb (a b : list byte) : bool :=
  match a, b with
  | [], [] => true
  | x :: a', y :: b' => Byte.eqb x y && bytes_eqb a' b'
  | _, _ => false
  end.

Definition memcmp_eq (a b : list byte) (n : Z) : bool :=
  bytes_eqb (take n a) (take n b).

(** [hdr] is the caller's array holding the header. *)
Definition fd_ends_with_header (reads : list read_answer) (fd : fd_state)
           (hdr : list byte) : list read_answer * fd_state * bool :=
  let '(fd, off) := lseek_end fd (- CRDB_WORD_STUFF_HEADER_SIZE) in
  if off <? 0 then (reads, fd, false)
  else
    let '(reads, fd, ret, buf) :=
      read_retry reads fd off CRDB_WORD_STUFF_HEADER_SIZE in
    if negb (to_size_t ret =? CRDB_WORD_STUFF_HEADER_SIZE) then (reads, fd, false)
    else (reads, fd, memcmp_eq buf hdr CRDB_WORD_STUFF_HEADER_SIZE).

(** [hdr] is the uninitialised local array [header] of
    [crdb_record_stream_append_initial]. *)
Definition crdb_record_stream_append_initial (ndebug : bool)
           (reads : list read_answer) (fd : fd_state) (hdr : list byte)
           (ce : option crdb_error)
  : result (list read_answer * fd_state * bool * option crdb_error) :=
  hdr <- crdb_word_stuff_header hdr 0 ;;
  let end_ := 0 + CRDB_WORD_STUFF_HEADER_SIZE in
  _ <- assert_ ndebug (end_ =? 0 + len hdr) ;;
  let '(reads, fd, ends) := fd_ends_with_header reads fd hdr in
  if ends then Ok (reads, fd, true, ce)
  else
    let '(fd, r, ce) := append_to_fd fd hdr (len hdr) ce in
    Ok (reads, fd, r, ce).

(** Appending the records of a list in turn, until one append fails. *)
Fixpoint append_all (ndebug : bool) (fd : fd_state) (encoded : list byte)
         (rs : list record) (ce : option crdb_error)
  : result (fd_state * bool * option crdb_error) :=
  match rs with
  | [] => Ok (fd, true, ce)
  | (g, p) :: rs' =>
      '(fd, r, ce) <- crdb_record_stream_append_buf ndebug fd encoded g p (len p) ce ;;
      if r then append_all ndebug fd encoded rs' ce else Ok (fd, false, ce)
  end.

(** A record that [crdb_record_stream_append_buf] accepts. *)
Definition writable (r : record) : Prop :=
  is_uint32 (fst r) /\ len (snd r) <= CRDB_RECORD_STREAM_MAX_LEN.

(** ** Iterating over a mapped file *)

(** [struct crdb_record_stream_iterator] with the two fields that only
    serve [munmap]. *)
Record fd_iterator : Type := {
  fi_it : crdb_record_stream_iterator;
  fi_mapped : Z;
  fi_map_size : Z
}.

(** What the kernel answers to the calls of
    [crdb_record_stream_iterator_init_fd]: the return value of [fstat] and
    the size it reports, the offset [lseek(fd, 0, SEEK_DATA)] returns, the
    address [mmap] returns, and the [errno] a failed [fstat] or [mmap]
    leaves. *)
Record map_answers : Type := {
  fstat_ret : Z;
  fstat_errno : Z;
  st_size : Z;
  seek_data : Z;
  mmap_ret : Z;
  mmap_errno : Z
}.

(** [MAP_FAILED]: the address -1. *)
Definition MAP_FAILED : Z := SIZE_MAX.

Definition set_first_nonzero (it : crdb_record_stream_iterator) (p : Z) :=
  {| it_cursor := it_cursor it; it_end := it_end it; it_stop_at := it_stop_at it;
     it_begin := it_begin it; it_header := it_header it;
     it_first_record := it_first_record it;
     it_first_nonzero := p |}.

(** The [while] loop of [find_first_nonzero]; [p] is the view at
    [cursor]. *)
Fixpoint find_first_nonzero_loop (p : list byte) (cursor end_ : Z) {struct p}
  : result Z :=
  if cursor <? end_ then
    match p with
    | b :: p' =>
        if byte_val b =? 0 then find_first_nonzero_loop p' (cursor + 1) end_
        else Ok cursor
    | [] => Fault OutOfBounds
    end
  else Ok cursor.

Definition find_first_nonzero (m : memory) (cursor end_ : Z) : result Z :=
  find_first_nonzero_loop (view m cursor) cursor end_.

(** [it] is the caller's iterator, left as it is when the function fails;
    [m] is the memory the mapping gives access to. *)
Definition crdb_record_stream_iterator_init_fd (m : memory) (k : map_answers)
           (it : fd_iterator) (ce : option crdb_error)
  : result (bool * fd_iterator * option crdb_error) :=
  if fstat_ret k =? -1 then
    Ok (false, it,
        _crdb_error_set ce "failed to fstat record stream"%string (fstat_errno k))
  else if st_size k <=? 0 then
    Ok (true,
        {| fi_it := crdb_record_stream_iterator_init_buf 0 0;
           fi_mapped := 0; fi_map_size := 0 |}, ce)
  else
    let first_data := seek_data k in
    let mapped := mmap_ret k in
    if mapped =? MAP_FAILED then
      Ok (false, it,
          _crdb_error_set ce "failed to mmap record stream"%string (mmap_errno k))
    else
      let it :=
        {| it_cursor := mapped; it_end := mapped + st_size k;
           it_stop_at := mapped + st_size k; it_begin := mapped; it_header := 0;
           it_first_record := true; it_first_nonzero := 0 |} in
      let it :=
        if first_data >? 0 then
          let first_data := if first_data >=? st_size k then st_size k else first_data in
          set_cursor it (it_cursor it + first_data)
        else it in
      p <- find_first_nonzero m (it_cursor it) (it_end it) ;;
      let it := set_first_nonzero (set_cursor it p) p in
      Ok (true, {| fi_it := it; fi_mapped := mapped; fi_map_size := st_size k |}, ce).

(** [crdb_record_stream_iterator_deinit]: the [munmap(addr, length)] it
    issues, if any. *)
Definition crdb_record_stream_iterator_deinit (it : fd_iterator) : option (Z * Z) :=
  if fi_mapped it =? 0 then None else Some (fi_mapped it, fi_map_size it).

(** The offset at which [crdb_record_stream_iterator_init_fd] starts to
    look for a non-zero byte. *)
Definition data_start (k : map_answers) : Z :=
  if seek_data k >? 0 then Z.min (seek_data k) (st_size k) else 0.

(** The iterator over the records whose header lies in
    [buf[a ... c - 1]]: [stop_at(c)], then [locate_at(a)]. *)
Definition range_iterator (it : crdb_record_stream_iterator) (a c : Z)
  : bool * crdb_record_stream_iterator :=
  crdb_record_stream_iterator_locate_at (crdb_record_stream_iterator_stop_at it c) a.

(** ** Writing to a stream *)

(** [fwrite(ptr, size, 1, stream)] on an unbuffered stream.  A stream is
    modelled by the state of its file once flushed; an answer says how many
    of the [size] bytes reach the file ([Written n]) or that none does
    ([Failed e], which sets [errno]).  The result is the number of items
    written in full: 1 or 0, and 0 when [size] is zero.  On a buffered
    stream [fwrite] can return 1 before the kernel refuses the bytes: the
    properties of the stream functions are stated for complete writes,
    where the two agree. *)
Definition fwrite (stream : fd_state) (data : list byte) : fd_state * Z :=
  if len data =? 0 then (stream, 0)
  else
    let '(stream, n) := write stream data in
    (stream, if n =? len data then 1 else 0).

(** [encoded] is the uninitialised local array of
    [record_stream_write_record]. *)
Definition record_stream_write_record (ndebug : bool) (stream : fd_state)
           (encoded : list byte) (record : list byte) (data_len : Z)
           (ce : option crdb_error)
  : result (fd_state * bool * option crdb_error) :=
  r <- encode_record ndebug encoded 0 record data_len ce ;;
  if negb (er_ret r) then Ok (stream, false, er_ce r)
  else
    let '(stream, written) :=
      fwrite stream (take (er_encoded_size r) (er_encoded r)) in
    if negb (written =? 1) then
      Ok (stream, false,
          _crdb_error_set (er_ce r) "crdb_record_stream fwrite(3) failed."%string
                          (errno stream))
    else Ok (stream, true, er_ce r).

(** [hdr] is the uninitialised local array [header] of
    [crdb_record_stream_write_initial]. *)
Definition crdb_record_stream_write_initial (ndebug : bool) (stream : fd_state)
           (hdr : list byte) (ce : option crdb_error)
  : result (fd_state * bool * option crdb_error) :=
  hdr <- crdb_word_stuff_header hdr 0 ;;
  let end_ := 0 + CRDB_WORD_STUFF_HEADER_SIZE in
  _ <- assert_ ndebug (end_ =? 0 + len hdr) ;;
  let '(stream, written) := fwrite stream (take (len hdr) hdr) in
  if negb (written =? 1) then
    Ok (stream, false,
        _crdb_error_set ce "crdb_record_stream initial fwrite(3) failed."%string
                        (errno stream))
  else Ok (stream, true, ce).

Definition crdb_record_stream_write_buf (ndebug : bool) (stream : fd_state)
           (encoded : list byte) (generation : Z) (buf : list byte) (len : Z)
           (ce : option crdb_error)
  : result (fd_state * bool * option crdb_error) :=
  let record := write_record_init generation in
  if len >? CRDB_RECORD_STREAM_MAX_LEN then
    Ok (stream, false,
        _crdb_error_set ce "crdb_record_stream data too long"%string 0)
  else
    record <- memcpy record OFFSET_data buf 0 len ;;
    record_stream_write_record ndebug stream encoded record len ce.

(** * Further notions: relocated iterators, offsets of records, files *)

(** The sample iterator after it signalled the end of the stream and was
    then repositioned with [locate_at(0)], with assertions compiled out,
    and what the next call of [next_buf] on it returns. *)
Definition sample_relocated : crdb_record_stream_iterator :=
  Eval vm_compute in
    match crdb_record_stream_iterator_next_buf
            true sample_memory sample_iterator stack_read_record caller_dst with
    | Ok r1 =>
        match crdb_record_stream_iterator_next_buf
                true sample_memory (nb_it r1) stack_read_record caller_dst with
        | Ok r2 => snd (crdb_record_stream_iterator_locate_at (nb_it r2) 0)
        | Fault _ => sample_iterator
        end
    | Fault _ => sample_iterator
    end.

Definition sample_relocated_next : next_buf_out :=
  Eval vm_compute in
    match crdb_record_stream_iterator_next_buf
            true sample_memory sample_relocated stack_read_record caller_dst with
    | Ok r => r
    | Fault _ =>
        {| nb_ret := false; nb_generation := 0; nb_len := 0; nb_dst := [];
           nb_it := sample_relocated |}
    end.

(** A record with the offset, in the buffer, of its first byte. *)
Definition located : Type := (Z * record)%type.

(** [scan_headers], each record with the offset of its header. *)
Fixpoint scan_headers_at (fuel : nat) (buf : list byte) (h stop : Z) : list located :=
  match fuel with
  | O => []
  | S fuel' =>
      if h >=? stop then []
      else
        let data := h + CRDB_WORD_STUFF_HEADER_SIZE in
        let next := next_marker buf data in
        cons_opt (option_map (pair h) (parse_record (chunk buf data next)))
                 (scan_headers_at fuel' buf next stop)
  end.

Definition scan_at (buf : list byte) (h stop : Z) : list located :=
  scan_headers_at (S (length buf)) buf h stop.

(** [scan_first], the first record with the offset [c] it starts at. *)
Definition scan_first_at (buf : list byte) (c stop : Z) : list located :=
  if c >=? stop then []
  else
    let next := next_marker buf c in
    cons_opt (option_map (pair c) (parse_record (chunk buf c next)))
             (scan_at buf next stop).

(** [pending], each record with the offset of its first byte. *)
Definition pending_at (m : memory) (it : crdb_record_stream_iterator) : list located :=
  let c := it_cursor it - base m in
  let stop := it_stop_at it - base m in
  if it_first_record it then scan_first_at (bytes m) c stop
  else scan_at (bytes m) (next_marker (bytes m) c) stop.

(** The records an iterator yields, each with the offset of its first
    byte in the buffer: [it->header - it->begin] as the call that yields
    the record leaves them. *)
Fixpoint iterate_located (fuel : nat) (ndebug : bool) (m : memory)
         (it : crdb_record_stream_iterator) : result (list located) :=
  match fuel with
  | O => Fault OutOfFuel
  | S fuel' =>
      r <- crdb_record_stream_iterator_next_buf ndebug m it stack_read_record caller_dst ;;
      if nb_ret r then
        rest <- iterate_located fuel' ndebug m (nb_it r) ;;
        Ok ((it_header (nb_it r) - it_begin (nb_it r),
             (nb_generation r, take (nb_len r) (nb_dst r))) :: rest)
      else Ok []
  end.

Definition located_records (ndebug : bool) (m : memory)
           (it : crdb_record_stream_iterator) : result (list located) :=
  iterate_located (S (S (length (bytes m)))) ndebug m it.

(** The stream of two records left by appending the record
    [(9, "hi")] to the sample stream. *)
Definition sample_two_records : list byte :=
  Eval vm_compute in
    match crdb_record_stream_append_buf
            false {| contents := sample_stream; answers := []; errno := 0 |}
            (repeat x00 526) 9 [x68; x69] 2 None with
    | Ok (fd', _, _) => contents fd'
    | Fault _ => []
    end.

(** The number of zero bytes at the start of [l]. *)
Fixpoint leading_zeros (l : list byte) : Z :=
  match l with
  | b :: l' => if byte_val b =? 0 then 1 + leading_zeros l' else 0
  | [] => 0
  end.

(** What the kernel answers to [crdb_record_stream_iterator_init_fd] for
    a file of contents [c] that [mmap] maps at the address [b], when
    [lseek(fd, 0, SEEK_DATA)] answers [seek]. *)
Definition file_map (b seek : Z) (c : list byte) : map_answers :=
  {| fstat_ret := 0; fstat_errno := 0; st_size := len c; seek_data := seek;
     mmap_ret := b; mmap_errno := 0 |}.

(** Reading a file back: the records yielded by an iterator that
    [crdb_record_stream_iterator_init_fd] sets up on the file. *)
Definition file_records (ndebug : bool) (b seek : Z) (c : list byte)
  : result (list record) :=
  '(ok, it, _) <-
     crdb_record_stream_iterator_init_fd
       (mapped_at b c) (file_map b seek c)
       {| fi_it := crdb_record_stream_iterator_init_buf 0 0;
          fi_mapped := 0; fi_map_size := 0 |} None ;;
  if ok then records ndebug (mapped_at b c) (fi_it it) else Ok [].

(** The offset at which the iterator of a file starts, for a file that
    holds [a] followed by a header, when the data start [seek] that the
    kernel reports lies in [a]: the first non-zero byte at or after
    [seek]. *)
Definition first_data (seek : Z) (a : list byte) : Z :=
  let s := if seek >? 0 then seek else 0 in
  s + leading_zeros (drop s a ++ [xfe]).

(* ================================================================== *)
(** * Properties *)

(** ** Arithmetic and bytes *)

Ltac divlia := Z.to_euclidean_division_equations; lia.

Lemma byte_val_range (b : byte) : 0 <= byte_val b < 256.
Proof.
  unfold byte_val. pose proof (Byte.to_N_bounded b). lia.
Qed.

Lemma byte_val_u8 (z : Z) : byte_val (u8 z) = z mod 256.
Proof.
  unfold byte_val, u8.
  assert (Hr : 0 <= z mod 256 < 256) by (apply Z.mod_pos_bound; lia).
  destruct (Byte.of_N (Z.to_N (z mod 256))) as [b|] eqn:E.
  - apply Byte.to_of_N in E. rewrite E. lia.
  - apply Byte.of_N_None_iff in E. lia.
Qed.

Lemma u8_byte_val (b : byte) : u8 (byte_val b) = b.
Proof.
  unfold u8. pose proof (byte_val_range b) as Hr.
  rewrite Z.mod_small by lia. unfold byte_val.
  rewrite N2Z.id, Byte.of_to_N. reflexivity.
Qed.

Lemma byte_val_inj (a b : byte) : byte_val a = byte_val b -> a = b.
Proof.
  intros H. rewrite <- (u8_byte_val a), <- (u8_byte_val b). now rewrite H.
Qed.

Lemma byte_eqb_eq (a b : byte) : Byte.eqb a b = true <-> a = b.
Proof.
  split; [apply Byte.byte_dec_bl | apply Byte.byte_dec_lb].
Qed.

Lemma is_header_true (a b : byte) : is_header a b = true <-> a = xfe /\ b = xfd.
Proof.
  unfold is_header. rewrite andb_true_iff, !byte_eqb_eq.
  change (u8 (RADIX + 1)) with xfe. change (u8 RADIX) with xfd. tauto.
Qed.

Lemma is_header_false (a b : byte) : is_header a b = false <-> ~ (a = xfe /\ b = xfd).
Proof.
  rewrite <- is_header_true. destruct (is_header a b); split; congruence.
Qed.

Lemma header_eq : header = [xfe; xfd].
Proof. reflexivity. Qed.

Lemma assert_true (ndebug : bool) : assert_ ndebug true = Ok tt.
Proof. now destruct ndebug. Qed.

(** ** Lists indexed by integers *)

Lemma len_nonneg {A} (l : list A) : 0 <= len l.
Proof. unfold len. lia. Qed.

Lemma len_nil {A} : len (@nil A) = 0.
Proof. reflexivity. Qed.

Lemma len_cons {A} (a : A) l : len (a :: l) = 1 + len l.
Proof. unfold len. cbn [length]. lia. Qed.

Lemma len_app {A} (a b : list A) : len (a ++ b) = len a + len b.
Proof. unfold len. rewrite length_app. lia. Qed.

Lemma len_zero {A} (l : list A) : len l = 0 -> l = [].
Proof. destruct l; [reflexivity | rewrite len_cons; pose proof (len_nonneg l); lia]. Qed.

Lemma len_take {A} n (l : list A) : 0 <= n <= len l -> len (take n l) = n.
Proof. unfold len, take. intros H. rewrite length_firstn. lia. Qed.

Lemma len_take_le {A} n (l : list A) : len (take n l) <= len l.
Proof. unfold len, take. rewrite length_firstn. lia. Qed.

Lemma len_drop {A} n (l : list A) : 0 <= n <= len l -> len (drop n l) = len l - n.
Proof. unfold len, drop. intros H. rewrite length_skipn. lia. Qed.

Lemma len_drop_le {A} n (l : list A) : len (drop n l) <= len l.
Proof. unfold len, drop. rewrite length_skipn. lia. Qed.

Lemma len_repeat {A} (a : A) n : len (repeat a n) = Z.of_nat n.
Proof. unfold len. now rewrite repeat_length. Qed.

Lemma take_drop {A} n (l : list A) : take n l ++ drop n l = l.
Proof. apply firstn_skipn. Qed.

Lemma take_0 {A} (l : list A) : take 0 l = [].
Proof. reflexivity. Qed.

Lemma drop_0 {A} (l : list A) : drop 0 l = l.
Proof. reflexivity. Qed.

Lemma take_neg {A} n (l : list A) : n <= 0 -> take n l = [].
Proof. unfold take. intros. now replace (Z.to_nat n) with O by lia. Qed.

Lemma drop_neg {A} n (l : list A) : n <= 0 -> drop n l = l.
Proof. unfold drop. intros. now replace (Z.to_nat n) with O by lia. Qed.

Lemma take_all {A} n (l : list A) : len l <= n -> take n l = l.
Proof. unfold len, take. intros. apply firstn_all2. lia. Qed.

Lemma drop_all {A} n (l : list A) : len l <= n -> drop n l = [].
Proof. unfold len, drop. intros. apply skipn_all2. lia. Qed.

Lemma take_app_le {A} n (a b : list A) : n <= len a -> take n (a ++ b) = take n a.
Proof.
  unfold len, take. intros. rewrite firstn_app.
  replace (Z.to_nat n - length a)%nat with O by lia.
  cbn. apply app_nil_r.
Qed.

Lemma take_app_ge {A} n (a b : list A) :
  len a <= n -> take n (a ++ b) = a ++ take (n - len a) b.
Proof.
  unfold len, take. intros. rewrite firstn_app.
  rewrite firstn_all2 by lia. f_equal. f_equal. lia.
Qed.

Lemma drop_app_le {A} n (a b : list A) : n <= len a -> drop n (a ++ b) = drop n a ++ b.
Proof.
  unfold len, drop. intros. rewrite skipn_app.
  now replace (Z.to_nat n - length a)%nat with O by lia.
Qed.

Lemma drop_app_ge {A} n (a b : list A) :
  len a <= n -> drop n (a ++ b) = drop (n - len a) b.
Proof.
  unfold len, drop. intros. rewrite skipn_app.
  rewrite skipn_all2 by lia. cbn. f_equal. lia.
Qed.

Lemma take_app_len {A} (a b : list A) : take (len a) (a ++ b) = a.
Proof. rewrite take_app_le by lia. apply take_all. lia. Qed.

Lemma drop_app_len {A} (a b : list A) : drop (len a) (a ++ b) = b.
Proof. rewrite drop_app_ge by lia. now rewrite Z.sub_diag. Qed.

Lemma drop_drop {A} a b (l : list A) : 0 <= a -> 0 <= b -> drop a (drop b l) = drop (b + a) l.
Proof.
  unfold drop. intros. rewrite skipn_skipn. f_equal. lia.
Qed.

Lemma take_take {A} a b (l : list A) : a <= b -> take a (take b l) = take a l.
Proof.
  unfold take. intros. rewrite firstn_firstn. f_equal. lia.
Qed.

Lemma take_drop_comm {A} a b (l : list A) :
  0 <= a -> 0 <= b -> take a (drop b l) = drop b (take (b + a) l).
Proof.
  unfold take, drop. intros. rewrite firstn_skipn_comm. do 2 f_equal. lia.
Qed.

Lemma take_split {A} a b (l : list A) :
  0 <= a -> 0 <= b -> take (a + b) l = take a l ++ take b (drop a l).
Proof.
  intros Ha Hb.
  replace (take (a + b) l) with (take (a + b) (take a l ++ drop a l))
    by (now rewrite take_drop).
  destruct (Z_le_gt_dec (len l) a).
  - rewrite (take_all a l) by lia. rewrite (drop_all a l) by lia.
    rewrite app_nil_r. rewrite (take_all b []) by (rewrite len_nil; lia).
    rewrite app_nil_r. apply take_all. lia.
  - rewrite take_app_ge by (rewrite len_take; lia).
    rewrite len_take by lia. do 2 f_equal. lia.
Qed.

Lemma drop_cons {A} n (a : A) l : 0 < n -> drop n (a :: l) = drop (n - 1) l.
Proof.
  unfold drop. intros. replace (Z.to_nat n) with (S (Z.to_nat (n - 1))) by lia.
  reflexivity.
Qed.

Lemma take_cons {A} n (a : A) l : 0 < n -> take n (a :: l) = a :: take (n - 1) l.
Proof.
  unfold take. intros. replace (Z.to_nat n) with (S (Z.to_nat (n - 1))) by lia.
  reflexivity.
Qed.

(** ** The result monad, loads and stores *)

Lemma bind_Ok {A B} (c : result A) (k : A -> result B) b :
  bind c k = Ok b -> exists a, c = Ok a /\ k a = Ok b.
Proof. destruct c; cbn; [eauto | discriminate]. Qed.

Lemma load_Ok p n : 0 <= n <= len p -> load p n = Ok (take n p).
Proof.
  intros H. unfold load.
  now replace ((0 <=? n) && (n <=? len p)) with true by lia.
Qed.

Lemma load_inv p n bs : load p n = Ok bs -> 0 <= n <= len p /\ bs = take n p.
Proof.
  unfold load. destruct ((0 <=? n) && (n <=? len p)) eqn:E; [|discriminate].
  intros [= <-]. split; [lia | reflexivity].
Qed.

Lemma store_Ok dst off bs :
  0 <= off -> off + len bs <= len dst ->
  store dst off bs = Ok (take off dst ++ bs ++ drop (off + len bs) dst).
Proof.
  intros H1 H2. unfold store.
  now replace ((0 <=? off) && (off + len bs <=? len dst)) with true by lia.
Qed.

Lemma store_inv dst off bs dst' :
  store dst off bs = Ok dst' ->
  0 <= off /\ off + len bs <= len dst
  /\ dst' = take off dst ++ bs ++ drop (off + len bs) dst.
Proof.
  unfold store. destruct ((0 <=? off) && (off + len bs <=? len dst)) eqn:E; [|discriminate].
  intros [= <-]. repeat split; lia.
Qed.

Lemma read_Ok p i b : 0 <= i -> nth_error p (Z.to_nat i) = Some b -> read p i = Ok b.
Proof.
  intros H E. unfold read. replace (i <? 0) with false by lia. now rewrite E.
Qed.

Lemma read_cons_0 a p : read (a :: p) 0 = Ok a.
Proof. reflexivity. Qed.

Lemma read_cons_1 a b p : read (a :: b :: p) 1 = Ok b.
Proof. reflexivity. Qed.

Lemma memcpy_Ok dst d src s n :
  0 <= s -> 0 <= n -> s + n <= len src -> 0 <= d -> d + n <= len dst ->
  memcpy dst d src s n = Ok (take d dst ++ take n (drop s src) ++ drop (d + n) dst).
Proof.
  intros. unfold memcpy.
  assert (len (drop s src) = len src - s) by (apply len_drop; lia).
  rewrite load_Ok by lia. cbn [bind].
  assert (len (take n (drop s src)) = n) by (apply len_take; lia).
  rewrite store_Ok by lia. now replace (len (take n (drop s src))) with n.
Qed.

(** ** [short_memcpy] is a copy *)

Lemma len_copied dst d src n :
  0 <= d -> 0 <= n <= len src -> d + n <= len dst -> len (copied dst d src n) = len dst.
Proof.
  intros. unfold copied. rewrite !len_app, !len_take, len_drop by lia. lia.
Qed.

Lemma copied_0 dst d src : copied dst d src 0 = dst.
Proof. unfold copied. rewrite take_0, Z.add_0_r. cbn. apply take_drop. Qed.

Lemma take_copied dst d src n :
  0 <= d -> 0 <= n <= len src -> d + n <= len dst ->
  take (d + n) (copied dst d src n) = take d dst ++ take n src.
Proof.
  intros. unfold copied. rewrite app_assoc.
  rewrite <- (take_app_len (take d dst ++ take n src) (drop (d + n) dst)) at 2.
  f_equal. rewrite len_app, !len_take by lia. reflexivity.
Qed.

Lemma drop_copied dst d src n :
  0 <= d -> 0 <= n <= len src -> d + n <= len dst ->
  drop (d + n) (copied dst d src n) = drop (d + n) dst.
Proof.
  intros. unfold copied. rewrite app_assoc.
  rewrite <- (drop_app_len (take d dst ++ take n src) (drop (d + n) dst)) at 2.
  f_equal. rewrite len_app, !len_take by lia. reflexivity.
Qed.

Lemma memcpy_copied dst d src a t k :
  0 <= d -> 0 <= t <= a -> a <= t + k -> t + k <= len src -> d + t + k <= len dst ->
  memcpy (copied dst d src a) (d + t) src t k = Ok (copied dst d src (t + k)).
Proof.
  intros Hd Ht Ha Hs Hc.
  rewrite memcpy_Ok by (rewrite ?len_copied; lia). f_equal.
  unfold copied.
  assert (E1 : take (d + t) (take d dst ++ take a src ++ drop (d + a) dst)
               = take d dst ++ take t src).
  { rewrite take_app_ge by (rewrite len_take; lia).
    rewrite len_take by lia. f_equal.
    rewrite take_app_le by (rewrite len_take; lia).
    replace (d + t - d) with t by lia. apply take_take. lia. }
  assert (E2 : drop (d + t + k) (take d dst ++ take a src ++ drop (d + a) dst)
               = drop (d + (t + k)) dst).
  { rewrite drop_app_ge by (rewrite len_take; lia).
    rewrite len_take by lia.
    rewrite drop_app_ge by (rewrite len_take; lia).
    rewrite len_take by lia.
    rewrite drop_drop by lia. f_equal. lia. }
  rewrite E1, E2, (take_split t k) by lia.
  now rewrite <- !app_assoc.
Qed.

Lemma short_memcpy_loop_copied dst d src tail fuel i :
  0 <= d -> 0 <= i <= tail + 7 -> tail + 8 <= len src -> d + tail + 8 <= len dst ->
  tail - i <= Z.of_nat fuel ->
  exists i', Z.max i tail <= i' <= tail + 7 /\
    short_memcpy_loop fuel (copied dst d src i) d src i tail = Ok (copied dst d src i').
Proof.
  revert i. induction fuel as [|fuel IH]; intros i Hd Hi Hs Hc Hf.
  - exists i. cbn. replace (i <? tail) with false by lia. split; [lia | reflexivity].
  - cbn [short_memcpy_loop]. destruct (i <? tail) eqn:E.
    + rewrite (memcpy_copied dst d src i i 8) by lia. cbn [bind].
      destruct (IH (i + 8)) as (i' & Hi' & ->); try lia.
      exists i'. split; [lia | reflexivity].
    + exists i. split; [lia | reflexivity].
Qed.

Lemma memcpy_first dst d src k :
  0 <= d -> 0 <= k <= len src -> d + k <= len dst ->
  memcpy dst d src 0 k = Ok (copied dst d src k).
Proof.
  intros. rewrite memcpy_Ok by lia. now rewrite drop_0.
Qed.

Lemma short_memcpy_copied dst d src n :
  0 <= d -> 0 <= n <= len src -> d + n <= len dst ->
  short_memcpy dst d src n = Ok (copied dst d src n).
Proof.
  intros Hd Hn Hc. unfold short_memcpy, CACHE_LINE_SIZE.
  destruct (8 <=? n) eqn:E8.
  - destruct (64 <=? n) eqn:E64.
    + apply memcpy_first; lia.
    + destruct (short_memcpy_loop_copied dst d src (n - 8) (Z.to_nat (n - 8)) 0)
        as (i' & Hi' & E); try lia.
      rewrite copied_0 in E. rewrite E. cbn [bind].
      rewrite (memcpy_copied dst d src i' (n - 8) 8) by lia.
      do 2 f_equal. lia.
  - destruct (4 <=? n) eqn:E4.
    + rewrite memcpy_first by lia. cbn [bind].
      rewrite (memcpy_copied dst d src 4 (n - 4) 4) by lia.
      do 2 f_equal. lia.
    + assert (Hcases : n = 0 \/ n = 1 \/ n = 2 \/ n = 3) by lia.
      destruct Hcases as [-> | [-> | [-> | ->]]].
      * change (Z.land 0 2 =? 0) with true. change (Z.land 0 1 =? 0) with true.
        cbn [bind]. now rewrite copied_0.
      * change (Z.land 1 2 =? 0) with true. change (Z.land 1 1 =? 0) with false.
        cbn [bind]. change (1 - 1) with 0. rewrite Z.add_0_r.
        apply memcpy_first; lia.
      * change (Z.land 2 2 =? 0) with false. change (Z.land 2 1 =? 0) with true.
        rewrite memcpy_first by lia. reflexivity.
      * change (Z.land 3 2 =? 0) with false. change (Z.land 3 1 =? 0) with false.
        rewrite memcpy_first by lia. cbn [bind].
        rewrite (memcpy_copied dst d src 2 (3 - 1) 1) by lia. reflexivity.
Qed.

(** ** Finding the header *)

Lemma first_marker_cons2 a b l :
  first_marker (a :: b :: l) = if is_header a b then 0 else 1 + first_marker (b :: l).
Proof. reflexivity. Qed.

Lemma first_marker_range l : 0 <= first_marker l <= len l.
Proof.
  induction l as [|a l IH].
  - cbn. lia.
  - destruct l as [|b l]; [cbn; lia|].
    rewrite first_marker_cons2, (len_cons a).
    destruct (is_header a b); lia.
Qed.

Lemma header_find_loop_spec p : forall i num_prefix,
  0 <= num_prefix - i -> num_prefix - i + 1 <= len p ->
  header_find_loop p i num_prefix = Ok (i + first_marker (take (num_prefix - i + 1) p)).
Proof.
  induction p as [|a p IH]; intros i np Hk Hl.
  - rewrite len_nil in Hl. lia.
  - cbn [header_find_loop]. rewrite len_cons in Hl.
    rewrite take_cons by lia.
    destruct (i <? np) eqn:E.
    + destruct p as [|b p']; [rewrite len_nil in Hl; lia|].
      replace (np - i + 1 - 1) with (np - (i + 1) + 1) by lia.
      rewrite (take_cons _ b) by lia.
      rewrite first_marker_cons2.
      destruct (is_header a b); [f_equal; lia|].
      rewrite IH by lia. rewrite (take_cons _ b) by lia. f_equal. lia.
    + replace (np - i + 1 - 1) with 0 by lia. rewrite take_0. cbn. f_equal. lia.
Qed.

Lemma header_find_spec data num :
  0 <= num <= len data ->
  crdb_word_stuff_header_find data num = Ok (first_marker (take num data)).
Proof.
  intros H. unfold crdb_word_stuff_header_find, CRDB_WORD_STUFF_HEADER_SIZE.
  destruct (num <? 2) eqn:E.
  - f_equal. assert (Hc : num = 0 \/ num = 1) by lia. destruct Hc as [-> | ->].
    + reflexivity.
    + destruct data; [change (len (@nil byte)) with 0 in H; lia | reflexivity].
  - rewrite header_find_loop_spec by lia. f_equal. cbn. f_equal. f_equal. lia.
Qed.

Lemma first_marker_found l :
  first_marker l < len l ->
  exists rest, l = take (first_marker l) l ++ xfe :: xfd :: rest.
Proof.
  induction l as [|a [|b l] IH].
  - cbn. lia.
  - cbn. lia.
  - rewrite first_marker_cons2. destruct (is_header a b) eqn:E.
    + intros _. apply is_header_true in E as [-> ->]. now exists l.
    + intros H. rewrite (len_cons a) in H.
      destruct IH as [rest Hrest]; [lia|].
      exists rest. pose proof (first_marker_range (b :: l)).
      rewrite take_cons by lia.
      replace (1 + first_marker (b :: l) - 1) with (first_marker (b :: l)) by lia.
      cbn [app]. now f_equal.
Qed.

Lemma marker_free_nil : marker_free [].
Proof. reflexivity. Qed.

Lemma marker_free_cons a l : marker_free (a :: l) -> marker_free l.
Proof.
  unfold marker_free. destruct l as [|b l]; [reflexivity|].
  rewrite first_marker_cons2, (len_cons a).
  pose proof (len_nonneg (b :: l)).
  destruct (is_header a b); lia.
Qed.

Lemma marker_free_cons2 a b l :
  marker_free (a :: b :: l) <-> is_header a b = false /\ marker_free (b :: l).
Proof.
  unfold marker_free. rewrite first_marker_cons2, (len_cons a).
  pose proof (len_nonneg (b :: l)).
  destruct (is_header a b).
  - split; [lia | intros [? _]; discriminate].
  - split; [intros; split; [reflexivity | lia] | intros [_ ?]; lia].
Qed.

(** A prefix that stops at most one byte into the first header has none. *)
Lemma marker_free_take l : forall n,
  n <= first_marker l + 1 -> marker_free (take n l).
Proof.
  induction l as [|a [|b l] IH]; intros n Hn.
  - unfold take. rewrite firstn_nil. apply marker_free_nil.
  - destruct (Z_le_gt_dec n 0).
    + rewrite take_neg by lia. apply marker_free_nil.
    + rewrite take_cons by lia. unfold take. rewrite firstn_nil. reflexivity.
  - rewrite first_marker_cons2 in Hn.
    destruct (Z_le_gt_dec n 0); [rewrite take_neg by lia; apply marker_free_nil|].
    rewrite take_cons by lia.
    destruct (Z_le_gt_dec n 1).
    + rewrite take_neg by lia. reflexivity.
    + rewrite take_cons by lia. apply marker_free_cons2.
      destruct (is_header a b) eqn:E; [lia|]. split; [reflexivity|].
      rewrite <- take_cons by lia. apply IH. lia.
Qed.

Lemma marker_free_app a b :
  marker_free a -> marker_free b ->
  (forall a' b', a = a' ++ [xfe] -> b = xfd :: b' -> False) ->
  marker_free (a ++ b).
Proof.
  induction a as [|x [|y a] IH]; intros Ha Hb Hj.
  - exact Hb.
  - cbn [app]. destruct b as [|z b]; [reflexivity|].
    apply marker_free_cons2. split; [|exact Hb].
    apply is_header_false. intros [-> ->]. exact (Hj [] b eq_refl eq_refl).
  - apply marker_free_cons2 in Ha as [Hxy Ha].
    change ((x :: y :: a) ++ b) with (x :: y :: (a ++ b)).
    apply marker_free_cons2. split; [exact Hxy|].
    apply (IH Ha Hb). intros a' b' Ea Eb.
    apply (Hj (x :: a') b'); [now rewrite Ea | exact Eb].
Qed.

(** No header starts in a marker-free prefix that is followed by a header. *)
Lemma first_marker_app_header a rest :
  marker_free a -> first_marker (a ++ xfe :: xfd :: rest) = len a.
Proof.
  induction a as [|x [|y a] IH]; intros Ha.
  - reflexivity.
  - cbn [app]. rewrite first_marker_cons2.
    assert (E : is_header x xfe = false) by (apply is_header_false; intros [_ ?]; discriminate).
    rewrite E. reflexivity.
  - apply marker_free_cons2 in Ha as [Hxy Ha].
    change ((x :: y :: a) ++ xfe :: xfd :: rest) with (x :: y :: (a ++ xfe :: xfd :: rest)).
    rewrite first_marker_cons2, Hxy.
    change (y :: a ++ xfe :: xfd :: rest) with ((y :: a) ++ xfe :: xfd :: rest).
    rewrite (IH Ha). rewrite (len_cons x). reflexivity.
Qed.

Lemma marker_free_no_occurrence l :
  marker_free l ->
  forall i, ~ (nth_error l i = Some xfe /\ nth_error l (S i) = Some xfd).
Proof.
  induction l as [|a [|b l] IH]; intros Hl i [H1 H2].
  - destruct i; discriminate.
  - destruct i; cbn in H2; [discriminate | destruct i; discriminate].
  - apply marker_free_cons2 in Hl as [Hab Hl].
    destruct i as [|i].
    + cbn in H1, H2. apply is_header_false in Hab. apply Hab. split; congruence.
    + apply (IH Hl i). split; assumption.
Qed.

(** ** Buffers with a written range *)

Lemma store_patched dst off bs :
  0 <= off -> off + len bs <= len dst -> store dst off bs = Ok (patched dst off bs).
Proof. apply store_Ok. Qed.

Lemma len_patched dst off bs :
  0 <= off -> off + len bs <= len dst -> len (patched dst off bs) = len dst.
Proof.
  intros. unfold patched. pose proof (len_nonneg bs).
  rewrite !len_app, len_take, len_drop by lia. lia.
Qed.

Lemma take_patched dst off bs :
  0 <= off <= len dst -> take (off + len bs) (patched dst off bs) = take off dst ++ bs.
Proof.
  intros. unfold patched. rewrite app_assoc.
  rewrite <- (take_app_len (take off dst ++ bs) (drop (off + len bs) dst)) at 2.
  f_equal. rewrite len_app, len_take by lia. reflexivity.
Qed.

Lemma take_patched_before dst off bs n :
  0 <= n <= off -> off <= len dst -> take n (patched dst off bs) = take n dst.
Proof.
  intros. unfold patched. rewrite take_app_le by (rewrite len_take; lia).
  apply take_take. lia.
Qed.

Lemma drop_patched dst off bs n :
  0 <= off -> off + len bs <= n -> off + len bs <= len dst ->
  drop n (patched dst off bs) = drop n dst.
Proof.
  intros. unfold patched. pose proof (len_nonneg bs).
  rewrite drop_app_ge by (rewrite len_take; lia). rewrite len_take by lia.
  rewrite drop_app_ge by lia. rewrite drop_drop by lia. f_equal. lia.
Qed.

Lemma patched_patched dst off a b :
  0 <= off -> off + len a + len b <= len dst ->
  patched (patched dst off a) (off + len a) b = patched dst off (a ++ b).
Proof.
  intros. pose proof (len_nonneg a). pose proof (len_nonneg b).
  unfold patched at 1.
  rewrite take_patched by lia.
  rewrite drop_patched by lia.
  unfold patched. rewrite len_app, <- !app_assoc.
  now replace (off + (len a + len b)) with (off + len a + len b) by lia.
Qed.

Lemma patched_nil dst off : patched dst off [] = dst.
Proof. unfold patched. rewrite len_nil, Z.add_0_r. cbn. apply take_drop. Qed.

Lemma copied_patched dst d src n :
  0 <= n <= len src -> copied dst d src n = patched dst d (take n src).
Proof.
  intros. unfold copied, patched. now rewrite len_take by lia.
Qed.

(** ** The encoder produces a stuffed form *)

Lemma len_run_header fh r : len (run_header fh r) = if fh then 1 else 2.
Proof. now destruct fh. Qed.

Lemma max_run_pos fh : 0 < max_run fh.
Proof. destruct fh; reflexivity. Qed.

Lemma encode_run_size_patched ndebug dst d r :
  0 <= r <= MAX_REMAINING_RUN -> 0 <= d -> d + 2 <= len dst ->
  encode_run_size ndebug dst d r = Ok (patched dst d (run_header false r)).
Proof.
  intros Hr Hd Hc. unfold encode_run_size.
  replace (r <=? MAX_REMAINING_RUN) with true by lia.
  rewrite assert_true. cbn [bind].
  rewrite store_patched by (change (len [u8 (r mod RADIX)]) with 1; lia). cbn [bind].
  rewrite store_patched
    by (rewrite ?len_patched; change (len [u8 (r / RADIX)]) with 1;
        change (len [u8 (r mod RADIX)]) with 1; lia).
  f_equal.
  change (d + 1) with (d + len [u8 (r mod RADIX)]).
  now rewrite patched_patched by (cbn; lia).
Qed.

Lemma stuffed_room_last (fh : bool) n :
  0 <= n -> (if fh then 1 else 2) + n <= stuffed_room fh n.
Proof.
  intros. unfold stuffed_room, MAX_INITIAL_RUN, MAX_REMAINING_RUN, RADIX.
  destruct fh; [destruct (n <? 253 - 1) eqn:E|]; divlia.
Qed.

Lemma stuffed_room_header (fh : bool) n r :
  0 <= r < max_run fh -> r + 2 <= n ->
  (if fh then 1 else 2) + r + stuffed_room false (n - r - 2) <= stuffed_room fh n.
Proof.
  unfold stuffed_room, max_run, MAX_INITIAL_RUN, MAX_REMAINING_RUN, RADIX.
  intros. destruct fh; [destruct (n <? 253 - 1) eqn:E|]; divlia.
Qed.

Lemma stuffed_room_full (fh : bool) n :
  max_run fh <= n ->
  (if fh then 1 else 2) + max_run fh + stuffed_room false (n - max_run fh)
  <= stuffed_room fh n.
Proof.
  unfold stuffed_room, max_run, MAX_INITIAL_RUN, MAX_REMAINING_RUN, RADIX.
  intros. destruct fh; [destruct (n <? 253 - 1) eqn:E|]; divlia.
Qed.

Lemma stuffed_room_run (fh : bool) n r :
  0 <= r <= n -> (if fh then 1 else 2) + r <= stuffed_room fh n.
Proof.
  intros. unfold stuffed_room, MAX_INITIAL_RUN, MAX_REMAINING_RUN, RADIX.
  destruct fh; [destruct (n <? 253 - 1) eqn:E|]; divlia.
Qed.

Lemma encode_loop_stuffed ndebug : forall fuel (fh : bool) dst ret src junk,
  (length src < fuel)%nat -> 0 <= ret -> ret + stuffed_room fh (len src) <= len dst ->
  exists out, Stuffed fh src out /\ len out <= stuffed_room fh (len src) /\
    encode_loop fuel ndebug fh dst ret (src ++ junk) (len src)
    = Ok (patched dst ret out, ret + len out).
Proof.
  induction fuel as [|fuel IH]; intros fh dst ret src junk Hfuel Hret Hroom; [lia|].
  cbn [encode_loop].
  change (if fh then MAX_INITIAL_RUN else MAX_REMAINING_RUN) with (max_run fh) in *.
  set (k := Z.min (max_run fh) (len src)).
  pose proof (len_nonneg src) as Hlen. pose proof (max_run_pos fh) as Hmax.
  pose proof (len_nonneg junk) as Hjunk.
  rewrite header_find_spec by (rewrite len_app; lia).
  rewrite take_app_le by lia.
  assert (Hk : len (take k src) = k) by (apply len_take; lia).
  pose proof (first_marker_range (take k src)) as Hr. rewrite Hk in Hr.
  set (r := first_marker (take k src)) in *.
  cbn [bind].
  set (hl := if fh then 1 else 2).
  assert (Hhl : len (run_header fh r) = hl) by apply len_run_header.
  assert (Hhl12 : 1 <= hl <= 2) by (subst hl; destruct fh; lia).
  pose proof (stuffed_room_run fh (len src) r) as Hlast. fold hl in Hlast.
  assert (Hkk : k <= max_run fh /\ k <= len src /\ (k = max_run fh \/ k = len src)) by (subst k; lia).
  specialize (Hlast ltac:(lia)).
  match goal with |- exists out, _ /\ _ /\ bind ?c _ = _ =>
    assert (Hstep : c = Ok (patched dst ret (run_header fh r), ret + hl)) end.
  { subst hl. destruct fh; unfold max_run in *.
    - replace (r <=? MAX_INITIAL_RUN) with true by lia.
      rewrite assert_true. cbn [bind].
      rewrite store_patched by (change (len [u8 r]) with 1; lia). reflexivity.
    - rewrite encode_run_size_patched by lia. reflexivity. }
  rewrite Hstep. cbn [bind].
  assert (Hsrcj : len (src ++ junk) = len src + len junk) by apply len_app.
  rewrite short_memcpy_copied by (rewrite ?len_patched; lia).
  rewrite copied_patched by lia. rewrite take_app_le by lia.
  assert (Hlit : len (take r src) = r) by (apply len_take; lia).
  assert (Hpp : patched (patched dst ret (run_header fh r)) (ret + hl) (take r src)
                = patched dst ret (run_header fh r ++ take r src))
    by (rewrite <- Hhl; apply patched_patched; lia).
  rewrite Hpp.
  cbn [bind].
  assert (Hmf : marker_free (take r src)).
  { replace (take r src) with (take r (take k src)) by (apply take_take; lia).
    apply marker_free_take. fold r. lia. }
  assert (Hlhl : len (run_header fh r ++ take r src) = hl + r)
    by (rewrite len_app; lia).
  destruct (r <? max_run fh) eqn:Er.
  - destruct (len src - r =? 0) eqn:Ez.
    + (* last run *)
      assert (r = len src) by lia. assert (k = len src) by lia.
      assert (Esrc : take r src = src) by (apply take_all; lia).
      exists (run_header fh r ++ src). rewrite Esrc in *.
      split; [|split].
      * replace r with (len src) by lia. apply Stuffed_last; [lia | exact Hmf].
      * lia.
      * rewrite Hlhl. now rewrite Z.add_assoc.
    + (* a header follows the run *)
      assert (Hrk : r < k) by lia.
      destruct (first_marker_found (take k src)) as [rest0 Hrest0]; [fold r; lia|].
      fold r in Hrest0. rewrite take_take in Hrest0 by lia.
      assert (Esrc : src = take r src ++ xfe :: xfd :: rest0 ++ drop k src).
      { rewrite <- (take_drop k src) at 1. rewrite Hrest0.
        now rewrite <- app_assoc. }
      set (rest := rest0 ++ drop k src) in *.
      assert (Hlrest : len src = r + 2 + len rest).
      { rewrite Esrc at 1. rewrite len_app, !len_cons. lia. }
      assert (Edrop : drop r (src ++ junk) = xfe :: xfd :: rest ++ junk).
      { rewrite Esrc at 1. rewrite <- app_assoc.
        rewrite <- Hlit at 1. rewrite drop_app_len. reflexivity. }
      rewrite Edrop.
      pose proof (len_nonneg rest) as Hrest.
      assert (Hassert : (if ndebug then Ok tt
                else if len src - r <? CRDB_WORD_STUFF_HEADER_SIZE then Fault AssertFailed
                else b0 <- read (xfe :: xfd :: rest ++ junk) 0;;
                     b1 <- read (xfe :: xfd :: rest ++ junk) 1;;
                     assert_ ndebug (is_header b0 b1)) = Ok tt).
      { destruct ndebug; [reflexivity|].
        unfold CRDB_WORD_STUFF_HEADER_SIZE.
        replace (len src - r <? 2) with false by lia. reflexivity. }
      rewrite Hassert. cbn [bind].
      change (drop CRDB_WORD_STUFF_HEADER_SIZE (xfe :: xfd :: rest ++ junk))
        with (rest ++ junk).
      replace (len src - r - CRDB_WORD_STUFF_HEADER_SIZE) with (len rest)
        by (unfold CRDB_WORD_STUFF_HEADER_SIZE; lia).
      pose proof (stuffed_room_header fh (len src) r ltac:(lia) ltac:(lia)) as Hroom'.
      fold hl in Hroom'. replace (len src - r - 2) with (len rest) in Hroom' by lia.
      destruct (IH false (patched dst ret (run_header fh r ++ take r src))
                   (ret + hl + r) rest junk)
        as (out & HS & Hout & E).
      { apply (f_equal (@length byte)) in Esrc.
        rewrite length_app in Esrc. cbn [length] in Esrc. subst rest. lia. }
      { lia. }
      { rewrite len_patched by lia. lia. }
      rewrite E.
      exists (run_header fh r ++ take r src ++ out).
      split; [|split].
      * rewrite Esrc at 1. rewrite <- Hlit at 2.
        apply Stuffed_header; [lia | exact Hmf | exact HS].
      * rewrite !len_app. lia.
      * f_equal. f_equal.
        -- replace (ret + hl + r) with (ret + len (run_header fh r ++ take r src)) by lia.
           rewrite patched_patched by lia. now rewrite <- app_assoc.
        -- rewrite !len_app. lia.
  - (* a full run *)
    assert (Hrmax : r = max_run fh) by lia. assert (k = r) by lia.
    assert (Hldrop : len (drop r src) = len src - r) by (apply len_drop; lia).
    rewrite drop_app_le by lia. rewrite <- Hldrop.
    pose proof (stuffed_room_full fh (len src) ltac:(lia)) as Hroom'.
    fold hl in Hroom'. rewrite <- Hrmax in Hroom'. rewrite <- Hldrop in Hroom'.
    destruct (IH false (patched dst ret (run_header fh r ++ take r src))
                 (ret + hl + r) (drop r src) junk)
      as (out & HS & Hout & E).
    { unfold len in Hldrop. lia. }
    { lia. }
    { rewrite len_patched by lia. lia. }
    rewrite E.
    exists (run_header fh r ++ take r src ++ out).
    split; [|split].
    * rewrite <- (take_drop r src) at 1. rewrite <- Hlit at 3.
      apply Stuffed_full; [lia | exact Hmf | exact HS].
    * rewrite !len_app. lia.
    * f_equal. f_equal.
      -- replace (ret + hl + r) with (ret + len (run_header fh r ++ take r src)) by lia.
         rewrite patched_patched by lia. now rewrite <- app_assoc.
      -- rewrite !len_app. lia.
Qed.

(** ** The stuffed form has no header *)

Lemma u8_small z : 0 <= z < 256 -> byte_val (u8 z) = z.
Proof. intros. rewrite byte_val_u8. apply Z.mod_small. lia. Qed.

Lemma u8_neq z (b : byte) : 0 <= z < 256 -> z <> byte_val b -> u8 z <> b.
Proof.
  intros Hz Hne E. apply Hne. rewrite <- E. symmetry. now apply u8_small.
Qed.

Lemma run_header_shape (fh : bool) n :
  0 <= n <= max_run fh ->
  marker_free (run_header fh n)
  /\ (forall a', run_header fh n <> a' ++ [xfe])
  /\ (exists b0 tl, run_header fh n = b0 :: tl /\ b0 <> xfd).
Proof.
  intros Hn.
  assert (Hlast : last (run_header fh n) x00 <> xfe).
  { destruct fh; cbn [run_header last]; unfold max_run, MAX_INITIAL_RUN,
      MAX_REMAINING_RUN, RADIX in *; apply u8_neq;
      change (byte_val xfe) with 254; divlia. }
  split; [|split].
  - destruct fh; [reflexivity|]. cbn [run_header].
    apply marker_free_cons2. split; [|reflexivity].
    apply is_header_false. intros [E _]. revert E. unfold RADIX.
    apply u8_neq; change (byte_val xfe) with 254; divlia.
  - intros a' E. apply Hlast. rewrite E. apply last_last.
  - destruct fh; cbn [run_header]; eexists; eexists; (split; [reflexivity|]);
      unfold max_run, MAX_INITIAL_RUN, MAX_REMAINING_RUN, RADIX in *;
      apply u8_neq; change (byte_val xfd) with 253; divlia.
Qed.

Lemma stuffed_marker_free fh src out :
  Stuffed fh src out ->
  marker_free out /\ (exists b0 tl, out = b0 :: tl /\ b0 <> xfd).
Proof.
  induction 1 as [fh lit Hlen Hmf | fh lit rest out Hlen Hmf HS [IHmf IHhd]
                 | fh lit rest out Hlen Hmf HS [IHmf IHhd]];
    pose proof (len_nonneg lit) as Hl;
    destruct (run_header_shape fh (len lit) ltac:(lia)) as (Hh & Hne & b0 & tl & E & Hb0).
  - split.
    + apply marker_free_app; [exact Hh | exact Hmf |].
      intros a' b' Ea _. exact (Hne a' Ea).
    + rewrite E. cbn [app]. eauto.
  - split.
    + apply marker_free_app; [exact Hh | |].
      * apply marker_free_app; [exact Hmf | exact IHmf |].
        intros a' b' _ Eb. destruct IHhd as (c0 & ctl & Ec & Hc).
        rewrite Ec in Eb. injection Eb as -> _. now apply Hc.
      * intros a' b' Ea _. exact (Hne a' Ea).
    + rewrite E. cbn [app]. eauto.
  - split.
    + apply marker_free_app; [exact Hh | |].
      * apply marker_free_app; [exact Hmf | exact IHmf |].
        intros a' b' _ Eb. destruct IHhd as (c0 & ctl & Ec & Hc).
        rewrite Ec in Eb. injection Eb as -> _. now apply Hc.
      * intros a' b' Ea _. exact (Hne a' Ea).
    + rewrite E. cbn [app]. eauto.
Qed.

Lemma stuffed_len fh src out :
  Stuffed fh src out -> (if fh then 1 else 2) <= len out.
Proof.
  intros HS.
  destruct HS as [fh lit _ _ | fh lit rest out _ _ _ | fh lit rest out _ _ _];
    rewrite !len_app, len_run_header;
    pose proof (len_nonneg lit); try pose proof (len_nonneg out); lia.
Qed.

(** ** Decoding a stuffed form *)

Lemma decode_run_size_header n tl :
  0 <= n <= MAX_REMAINING_RUN ->
  decode_run_size (run_header false n ++ tl) = Ok n.
Proof.
  intros Hn. unfold decode_run_size. cbn [run_header app].
  rewrite read_cons_0, read_cons_1. cbn [bind]. f_equal.
  unfold MAX_REMAINING_RUN, RADIX in *.
  rewrite !u8_small by divlia. divlia.
Qed.

Lemma decode_read_run_header (fh : bool) n W T :
  0 <= n <= max_run fh -> 0 <= T ->
  (if fh then
     if len (run_header fh n) + T <? 1 then Ok None
     else
       b <- read (run_header fh n ++ W) 0 ;;
       Ok (Some (MAX_INITIAL_RUN, byte_val b, drop 1 (run_header fh n ++ W),
                 len (run_header fh n) + T - 1))
   else
     if len (run_header fh n) + T <? CRDB_WORD_STUFF_HEADER_SIZE then Ok None
     else
       run_size <- decode_run_size (run_header fh n ++ W) ;;
       Ok (Some (MAX_REMAINING_RUN, run_size,
                 drop CRDB_WORD_STUFF_HEADER_SIZE (run_header fh n ++ W),
                 len (run_header fh n) + T - CRDB_WORD_STUFF_HEADER_SIZE)))
  = Ok (Some (max_run fh, n, W, T)).
Proof.
  intros Hn HT. rewrite len_run_header. destruct fh; cbn [max_run] in *.
  - replace (1 + T <? 1) with false by lia.
    cbn [run_header app]. rewrite read_cons_0. cbn [bind].
    unfold MAX_INITIAL_RUN, RADIX in *. rewrite u8_small by lia.
    change (drop 1 (u8 n :: W)) with W. do 4 f_equal. lia.
  - unfold CRDB_WORD_STUFF_HEADER_SIZE.
    replace (2 + T <? 2) with false by lia.
    rewrite decode_run_size_header by lia. cbn [bind].
    change (drop 2 (run_header false n ++ W)) with W. do 4 f_equal. lia.
Qed.

Lemma decode_loop_stuffed fh src out :
  Stuffed fh src out ->
  forall fuel dst ret junk,
    (length out < fuel)%nat -> 0 <= ret -> ret + len src <= len dst ->
    decode_loop fuel fh dst ret (out ++ junk) (len out)
    = Ok (patched dst ret src, Some (ret + len src)).
Proof.
  induction 1 as [fh lit Hlen Hmf | fh lit rest out Hlen Hmf HS IH
                 | fh lit rest out Hlen Hmf HS IH];
    intros fuel dst ret junk Hfuel Hret Hroom;
    (destruct fuel as [|fuel]; [lia|]);
    pose proof (len_nonneg lit) as Hlit;
    cbn [decode_loop];
    rewrite <- !app_assoc, (len_app (run_header fh (len lit)));
    rewrite decode_read_run_header by (try apply len_nonneg; lia);
    cbn [bind].
  - (* the last run *)
    replace ((len lit <? len lit) || (len lit >? max_run fh)) with false by lia.
    rewrite short_memcpy_copied by (rewrite ?len_app; pose proof (len_nonneg junk); lia).
    cbn [bind]. rewrite copied_patched by (rewrite ?len_app; pose proof (len_nonneg junk); lia).
    rewrite take_app_len.
    replace (len lit <? max_run fh) with true by lia.
    replace (len lit - len lit =? 0) with true by lia. reflexivity.
  - (* a run followed by a header *)
    pose proof (stuffed_len _ _ _ HS) as Hout. cbn in Hout.
    pose proof (len_nonneg rest) as Hrest. pose proof (len_nonneg junk) as Hjunk.
    rewrite len_app, !len_cons in Hroom.
    replace ((len (lit ++ out) <? len lit) || (len lit >? max_run fh)) with false
      by (rewrite len_app; lia).
    rewrite short_memcpy_copied by (rewrite ?len_app; lia).
    cbn [bind]. rewrite copied_patched by (rewrite ?len_app; lia).
    rewrite take_app_len, drop_app_len.
    replace (len lit <? max_run fh) with true by lia.
    replace (len (lit ++ out) - len lit) with (len out) by (rewrite len_app; lia).
    replace (len out =? 0) with false by lia.
    unfold CRDB_WORD_STUFF_HEADER_SIZE.
    replace (len out <? 2) with false by lia.
    unfold crdb_word_stuff_header. rewrite header_eq.
    rewrite store_patched by (rewrite ?len_patched; change (len [xfe; xfd]) with 2; lia).
    cbn [bind]. rewrite patched_patched by (change (len [xfe; xfd]) with 2; lia).
    rewrite IH.
    + rewrite len_app, !len_cons. f_equal. f_equal.
      * replace (ret + len lit + 2) with (ret + len (lit ++ [xfe; xfd]))
          by (rewrite ?len_app; change (len [xfe; xfd]) with 2; lia).
        rewrite patched_patched
          by (rewrite ?len_app; change (len [xfe; xfd]) with 2; lia).
        now rewrite <- app_assoc.
      * f_equal. lia.
    + rewrite !length_app in Hfuel.
      assert (1 <= length (run_header fh (len lit)))%nat by (destruct fh; cbn; lia).
      lia.
    + lia.
    + rewrite len_patched by (rewrite ?len_app; change (len [xfe; xfd]) with 2; lia). lia.
  - (* a full run *)
    pose proof (stuffed_len _ _ _ HS) as Hout. cbn in Hout.
    pose proof (len_nonneg rest) as Hrest. pose proof (len_nonneg junk) as Hjunk.
    rewrite len_app in Hroom.
    replace ((len (lit ++ out) <? len lit) || (len lit >? max_run fh)) with false
      by (rewrite len_app; lia).
    rewrite short_memcpy_copied by (rewrite ?len_app; lia).
    cbn [bind]. rewrite copied_patched by (rewrite ?len_app; lia).
    rewrite take_app_len, drop_app_len.
    replace (len lit <? max_run fh) with false by lia.
    replace (len (lit ++ out) - len lit) with (len out) by (rewrite len_app; lia).
    rewrite IH.
    + rewrite len_app. f_equal. f_equal.
      * now rewrite patched_patched by lia.
      * f_equal. lia.
    + rewrite !length_app in Hfuel.
      assert (1 <= length (run_header fh (len lit)))%nat by (destruct fh; cbn; lia).
      lia.
    + lia.
    + rewrite len_patched by lia. lia.
Qed.


Lemma stuffed_len_src fh src out :
  Stuffed fh src out -> (if fh then 1 else 2) + len src <= len out.
Proof.
  induction 1 as [fh lit _ _ | fh lit rest out _ _ _ IH | fh lit rest out _ _ _ IH];
    rewrite !len_app, ?len_cons, len_run_header; try change (if false then 1 else 2) with 2 in IH; lia.
Qed.

(** ** The size bound *)

Lemma crdb_word_stuffed_size_room ndebug n :
  0 <= n <= SSIZE_MAX ->
  crdb_word_stuffed_size ndebug n false = Ok (stuffed_room true n).
Proof.
  intros Hn. unfold crdb_word_stuffed_size, stuffed_room, CRDB_WORD_STUFFED_BOUND,
    CRDB_WORD_STUFF_HEADER_SIZE, to_size_t, SSIZE_MAX, MAX_INITIAL_RUN,
    MAX_REMAINING_RUN, RADIX in *.
  replace (n >? 9223372036854775807) with false by lia.
  destruct (n <? 253 - 1) eqn:E.
  - match goal with |- context [assert_ _ ?c] => replace c with true by divlia end.
    now rewrite assert_true.
  - match goal with |- context [assert_ _ ?c] => replace c with true by divlia end.
    now rewrite assert_true.
Qed.

Lemma encode_stuffed ndebug dst s junk :
  stuffed_room true (len s) <= len dst ->
  exists out, Stuffed true s out /\
    crdb_word_stuff_encode ndebug dst (s ++ junk) (len s)
    = Ok (patched dst 0 out, len out).
Proof.
  intros Hroom. unfold crdb_word_stuff_encode.
  destruct (encode_loop_stuffed ndebug (S (length (s ++ junk))) true dst 0 s junk)
    as (out & HS & _ & E); [rewrite length_app; lia | lia | lia |].
  exists out. split; [exact HS|]. rewrite E. now rewrite Z.add_0_l.
Qed.

Lemma take_patched_0 dst out :
  len out <= len dst -> take (len out) (patched dst 0 out) = out.
Proof.
  intros. rewrite <- (Z.add_0_l (len out)) at 1.
  rewrite take_patched by (pose proof (len_nonneg dst); lia). reflexivity.
Qed.

Lemma decode_stuffed src out dst junk :
  Stuffed true src out -> len src <= len dst ->
  crdb_word_stuff_decode dst (out ++ junk) (len out)
  = Ok (patched dst 0 src, Some (len src)).
Proof.
  intros HS Hroom. unfold crdb_word_stuff_decode.
  rewrite (decode_loop_stuffed _ _ _ HS) by (rewrite ?length_app; lia).
  now rewrite Z.add_0_l.
Qed.

(** ** C1 and C2 *)

(** C1. Decoding the encoder's output gives back the input: for every byte
    string [s] and every output buffer with the documented room
    ([crdb_word_stuffed_size(|s|, false)] bytes), the encoder succeeds and
    writes [n] bytes; decoding those [n] bytes into any buffer with room
    for [n - 1] bytes succeeds (the result is not [NULL]), returns the
    offset [|s|] and leaves exactly [s] there. *)
Theorem decode_encode_roundtrip (ndebug : bool) (s dst : list byte) (room : Z) :
  len s <= SSIZE_MAX ->
  crdb_word_stuffed_size ndebug (len s) false = Ok room ->
  room <= len dst ->
  exists dst' n,
    crdb_word_stuff_encode ndebug dst s (len s) = Ok (dst', n)
    /\ forall out, n - 1 <= len out ->
       exists out',
         crdb_word_stuff_decode out (take n dst') n = Ok (out', Some (len s))
         /\ take (len s) out' = s.
Proof.
  intros Hs Hsize Hroom. pose proof (len_nonneg s) as Hl.
  rewrite crdb_word_stuffed_size_room in Hsize by lia.
  assert (Er : room = stuffed_room true (len s)) by congruence. subst room.
  destruct (encode_stuffed ndebug dst s [] Hroom) as (enc & HS & E).
  rewrite app_nil_r in E.
  pose proof (stuffed_len_src _ _ _ HS) as Hlen. change (if true then 1 else 2) with 1 in Hlen.
  assert (Henc : len enc <= len dst).
  { destruct (encode_loop_stuffed ndebug (S (length s)) true dst 0 s [])
      as (enc' & HS' & Hb & E'); [lia | lia | lia |].
    unfold crdb_word_stuff_encode in E. rewrite app_nil_r in E'.
    rewrite E in E'. assert (len enc = 0 + len enc') by congruence. lia. }
  exists (patched dst 0 enc), (len enc). split; [exact E|].
  intros out Hout. exists (patched out 0 s).
  rewrite take_patched_0 by exact Henc.
  rewrite <- (app_nil_r enc) at 1.
  rewrite (decode_stuffed s enc out [] HS) by lia.
  split; [reflexivity|]. apply take_patched_0. lia.
Qed.

Lemma decode_encode_roundtrip_witness :
  exists dst' n,
    crdb_word_stuff_encode false (repeat x00 6) [xfe; xfd; x2a] 3 = Ok (dst', n)
    /\ forall out, n - 1 <= len out ->
       exists out',
         crdb_word_stuff_decode out (take n dst') n = Ok (out', Some 3)
         /\ take 3 out' = [xfe; xfd; x2a].
Proof.
  apply (decode_encode_roundtrip false [xfe; xfd; x2a] (repeat x00 6) 4).
  - vm_compute. discriminate.
  - reflexivity.
  - vm_compute. discriminate.
Defined.

(** C2. The encoder's output contains no header: for every byte string [s]
    (and output buffer with the documented room) no two consecutive bytes
    of the [n] bytes written are [0xFE 0xFD], and
    [crdb_word_stuff_header_find] on them returns [n], one past the last
    byte. *)
Theorem encode_marker_free (ndebug : bool) (s dst : list byte) (room : Z) :
  len s <= SSIZE_MAX ->
  crdb_word_stuffed_size ndebug (len s) false = Ok room ->
  room <= len dst ->
  exists dst' n,
    crdb_word_stuff_encode ndebug dst s (len s) = Ok (dst', n)
    /\ len (take n dst') = n
    /\ (forall i, ~ (nth_error (take n dst') i = Some xfe
                     /\ nth_error (take n dst') (S i) = Some xfd))
    /\ crdb_word_stuff_header_find (take n dst') n = Ok n.
Proof.
  intros Hs Hsize Hroom. pose proof (len_nonneg s) as Hl.
  rewrite crdb_word_stuffed_size_room in Hsize by lia.
  assert (Er : room = stuffed_room true (len s)) by congruence. subst room.
  destruct (encode_loop_stuffed ndebug (S (length s)) true dst 0 s [])
    as (enc & HS & Hb & E); [lia | lia | lia |].
  rewrite app_nil_r, Z.add_0_l in E.
  exists (patched dst 0 enc), (len enc). split; [exact E|].
  rewrite take_patched_0 by lia.
  destruct (stuffed_marker_free _ _ _ HS) as [Hmf _].
  split; [reflexivity|]. split.
  - now apply marker_free_no_occurrence.
  - pose proof (len_nonneg enc).
    rewrite header_find_spec by lia. rewrite take_all by lia. now rewrite Hmf.
Qed.

Lemma encode_marker_free_witness :
  exists dst' n,
    crdb_word_stuff_encode false (repeat x00 6) [xfe; xfd; x2a] 3 = Ok (dst', n)
    /\ len (take n dst') = n
    /\ (forall i, ~ (nth_error (take n dst') i = Some xfe
                     /\ nth_error (take n dst') (S i) = Some xfd))
    /\ crdb_word_stuff_header_find (take n dst') n = Ok n.
Proof.
  apply (encode_marker_free false [xfe; xfd; x2a] (repeat x00 6) 4).
  - vm_compute. discriminate.
  - reflexivity.
  - vm_compute. discriminate.
Defined.


(** ** The decoder on arbitrary input *)

Lemma decode_frame_base dst ret bound r :
  match r with Some n => n = ret | None => True end -> ret <= bound ->
  decode_frame dst ret bound (dst, r).
Proof.
  intros Hr Hb. unfold decode_frame. cbn [fst snd].
  split; [reflexivity|]. split; [reflexivity|].
  destruct r as [n|]; [subst n; split; [lia | reflexivity] | exact I].
Qed.

Lemma decode_frame_patched dst ret bs bound res :
  0 <= ret -> ret + len bs <= len dst -> ret + len bs <= bound ->
  decode_frame (patched dst ret bs) (ret + len bs) bound res ->
  decode_frame dst ret bound res.
Proof.
  intros Hret Hroom Hb (Hlen & Hdrop & Hr). pose proof (len_nonneg bs).
  unfold decode_frame. rewrite len_patched in Hlen by lia.
  rewrite drop_patched in Hdrop by lia.
  split; [exact Hlen|]. split; [exact Hdrop|].
  destruct (snd res) as [n|]; [|exact I].
  destruct Hr as [Hn Hd]. rewrite drop_patched in Hd by lia.
  split; [lia | exact Hd].
Qed.

Lemma decode_loop_frame : forall fuel (fh : bool) dst ret src bound,
  (length src < fuel)%nat -> 0 <= ret ->
  ret + Z.max 0 (len src - (if fh then 1 else 2)) <= bound ->
  ret + Z.max 0 (len src - (if fh then 1 else 2)) <= len dst ->
  exists res,
    decode_loop fuel fh dst ret src (len src) = Ok res
    /\ decode_frame dst ret bound res.
Proof.
  induction fuel as [|fuel IH]; intros fh dst ret src bound Hfuel Hret Hbound Hroom;
    [lia|].
  cbn [decode_loop].
  (* the run header *)
  set (hl := if fh then 1 else 2) in *.
  assert (Hhl : 1 <= hl <= 2) by (subst hl; destruct fh; lia).
  match goal with |- exists res, bind ?c ?k = _ /\ _ =>
    assert (Hstep : c = Ok None /\ len src < hl \/
                    exists run_size src',
                      c = Ok (Some (max_run fh, run_size, src', len src'))
                      /\ 0 <= run_size /\ len src = hl + len src'
                      /\ (length src' < length src)%nat)
  end.
  { subst hl. destruct fh.
    - destruct src as [|b src'].
      + left. split; [reflexivity | rewrite len_nil; lia].
      + right. exists (byte_val b), src'. rewrite len_cons.
        replace (1 + len src' <? 1) with false by (pose proof (len_nonneg src'); lia).
        rewrite read_cons_0. cbn [bind]. change (drop 1 (b :: src')) with src'.
        pose proof (byte_val_range b).
        repeat split; [do 4 f_equal; lia | lia | cbn; lia].
    - unfold CRDB_WORD_STUFF_HEADER_SIZE.
      destruct src as [|b0 [|b1 src']].
      + left. split; [reflexivity | rewrite len_nil; lia].
      + left. split; [reflexivity | rewrite len_cons, len_nil; lia].
      + right. exists (byte_val b0 + RADIX * byte_val b1), src'. rewrite !len_cons.
        replace (1 + (1 + len src') <? 2) with false by (pose proof (len_nonneg src'); lia).
        unfold decode_run_size. rewrite read_cons_0, read_cons_1. cbn [bind].
        change (drop 2 (b0 :: b1 :: src')) with src'.
        pose proof (byte_val_range b0). pose proof (byte_val_range b1).
        unfold RADIX.
        repeat split; [do 4 f_equal; lia | lia | lia | cbn; lia]. }
  destruct Hstep as [[-> Hshort] | (run_size & src' & -> & Hrun & Hlen & Hlt)].
  { cbn [bind]. eexists. split; [reflexivity|].
    apply decode_frame_base; [exact I | lia]. }
  cbn [bind]. pose proof (len_nonneg src') as Hsrc'.
  destruct ((len src' <? run_size) || (run_size >? max_run fh)) eqn:Echeck.
  { eexists. split; [reflexivity|]. apply decode_frame_base; [exact I | lia]. }
  assert (Hrs : run_size <= len src' /\ run_size <= max_run fh) by lia.
  rewrite short_memcpy_copied by lia. cbn [bind].
  rewrite copied_patched by lia.
  assert (Hlit : len (take run_size src') = run_size) by (apply len_take; lia).
  assert (Hldrop : len (drop run_size src') = len src' - run_size) by (apply len_drop; lia).
  rewrite <- Hldrop.
  destruct (run_size <? max_run fh) eqn:Emax.
  - destruct (len (drop run_size src') =? 0) eqn:Ezero.
    + eexists. split; [reflexivity|].
      apply (decode_frame_patched dst ret (take run_size src')); try lia.
      rewrite Hlit. apply decode_frame_base; [reflexivity | lia].
    + unfold CRDB_WORD_STUFF_HEADER_SIZE.
      destruct (len (drop run_size src') <? 2) eqn:Etwo.
      * eexists. split; [reflexivity|].
        apply (decode_frame_patched dst ret (take run_size src')); try lia.
        rewrite Hlit. apply decode_frame_base; [exact I | lia].
      * unfold crdb_word_stuff_header. rewrite header_eq.
        rewrite store_patched
          by (rewrite ?len_patched; change (len [xfe; xfd]) with 2; lia).
        cbn [bind].
        replace (patched (patched dst ret (take run_size src')) (ret + run_size) [xfe; xfd])
          with (patched dst ret (take run_size src' ++ [xfe; xfd]))
          by (rewrite <- Hlit at 3; symmetry; apply patched_patched;
              change (len [xfe; xfd]) with 2; lia).
        destruct (IH false (patched dst ret (take run_size src' ++ [xfe; xfd]))
                     (ret + run_size + 2) (drop run_size src') bound)
          as (res & E & Hres).
        { unfold len in Hldrop. lia. }
        { lia. }
        { lia. }
        { rewrite len_patched
            by (rewrite ?len_app; change (len [xfe; xfd]) with 2; lia). lia. }
        exists res. split; [exact E|].
        apply (decode_frame_patched dst ret (take run_size src' ++ [xfe; xfd]));
          rewrite ?len_app; change (len [xfe; xfd]) with 2; try lia.
        now replace (ret + (len (take run_size src') + 2)) with (ret + run_size + 2) by lia.
  - destruct (IH false (patched dst ret (take run_size src'))
                 (ret + run_size) (drop run_size src') bound)
      as (res & E & Hres).
    { unfold len in Hldrop. lia. }
    { lia. }
    { lia. }
    { rewrite len_patched by lia. lia. }
    exists res. split; [exact E|].
    apply (decode_frame_patched dst ret (take run_size src')); try lia.
    now rewrite Hlit.
Qed.

(** C3. The decoder is total and stays within its buffers: for every byte
    string [e], read through a view of exactly [|e|] bytes, and every
    output buffer with room for [|e| - 1] bytes, [crdb_word_stuff_decode]
    returns (a pointer or [NULL]) without reading past the input or writing
    past the output; whatever it returns, no output byte at offset
    [|e| - 1] or beyond is modified; and when it succeeds, the returned
    offset [n] is at most [|e| - 1] and only the first [n] output bytes
    were written. *)
Theorem decode_robust (e dst : list byte) :
  len e - 1 <= len dst ->
  exists dst' r,
    crdb_word_stuff_decode dst e (len e) = Ok (dst', r)
    /\ len dst' = len dst
    /\ drop (len e - 1) dst' = drop (len e - 1) dst
    /\ match r with
       | Some n => 0 <= n <= len e - 1 /\ drop n dst' = drop n dst
       | None => True
       end.
Proof.
  intros Hroom. unfold crdb_word_stuff_decode. pose proof (len_nonneg e) as He.
  pose proof (len_nonneg dst) as Hd.
  pose proof (decode_loop_frame (S (length e)) true dst 0 e (Z.max 0 (len e - 1)))
    as Hframe.
  change (if true then 1 else 2) with 1 in Hframe.
  destruct Hframe as ([dst' r] & E & Hlen & Hdrop & Hr); try lia.
  exists dst', r. cbn [fst snd] in *. split; [exact E|]. split; [exact Hlen|].
  destruct (Z_le_gt_dec 1 (len e)) as [H1|H1].
  - replace (Z.max 0 (len e - 1)) with (len e - 1) in * by lia.
    split; [exact Hdrop|]. exact Hr.
  - replace (Z.max 0 (len e - 1)) with 0 in * by lia.
    rewrite !drop_0 in Hdrop. rewrite (drop_neg (len e - 1)) by lia.
    rewrite (drop_neg (len e - 1)) by lia. split; [exact Hdrop|].
    destruct r as [n|]; [|exact I]. destruct Hr as [Hn _].
    assert (len e = 0) by lia. apply len_zero in H. subst e.
    cbn in E. discriminate.
Qed.

Lemma decode_robust_witness :
  exists dst' r,
    crdb_word_stuff_decode (repeat x00 3) [x02; x2a; xfe; xff] 4 = Ok (dst', r)
    /\ len dst' = 3
    /\ drop 3 dst' = drop 3 (repeat x00 3)
    /\ match r with
       | Some n => 0 <= n <= 3 /\ drop n dst' = drop n (repeat x00 3)
       | None => True
       end.
Proof.
  apply (decode_robust [x02; x2a; xfe; xff] (repeat x00 3)).
  vm_compute. discriminate.
Defined.


(** ** The checksum *)

Lemma crc32c_shift_lxor x y :
  crc32c_shift (Z.lxor x (Z.shiftl y 1)) = Z.lxor (crc32c_shift x) y.
Proof.
  unfold crc32c_shift.
  rewrite Z.lxor_spec, Z.shiftl_spec_low by lia. rewrite xorb_false_r.
  rewrite Z.shiftr_lxor, Z.shiftr_shiftl_l by lia.
  rewrite Z.sub_diag, Z.shiftl_0_r.
  rewrite !Z.lxor_assoc. f_equal. apply Z.lxor_comm.
Qed.

Lemma crc32c_iter_lxor k : forall x y,
  Nat.iter k crc32c_shift (Z.lxor x (Z.shiftl y (Z.of_nat k)))
  = Z.lxor (Nat.iter k crc32c_shift x) y.
Proof.
  induction k as [|k IH]; intros x y.
  - change (Z.of_nat 0) with 0. now rewrite Z.shiftl_0_r.
  - rewrite !Nat.iter_succ_r.
    replace (Z.of_nat (S k)) with (Z.of_nat k + 1) by lia.
    rewrite <- Z.shiftl_shiftl by lia.
    rewrite crc32c_shift_lxor. apply IH.
Qed.

Lemma byte_val_high_bits b i : 8 <= i -> Z.testbit (byte_val b) i = false.
Proof.
  intros Hi. pose proof (byte_val_range b) as Hb.
  destruct (Z.eq_dec (byte_val b) 0) as [E|E].
  - rewrite E. apply Z.bits_0.
  - apply Z.bits_above_log2; [lia|].
    assert (Z.log2 (byte_val b) < 8) by (apply Z.log2_lt_pow2; lia). lia.
Qed.

Lemma byte_add_shift b y :
  byte_val b + Z.shiftl y 8 = Z.lxor (byte_val b) (Z.shiftl y 8).
Proof.
  apply Z.add_nocarry_lxor. apply Z.bits_inj'. intros i Hi.
  rewrite Z.land_spec, Z.bits_0.
  destruct (Z_lt_ge_dec i 8).
  - rewrite Z.shiftl_spec_low by lia. apply andb_false_r.
  - rewrite byte_val_high_bits by lia. reflexivity.
Qed.

Lemma crc32_u8_step acc b y :
  Nat.iter 8 crc32c_shift (Z.lxor acc (byte_val b + Z.shiftl y 8))
  = Z.lxor (_mm_crc32_u8 acc (byte_val b)) y.
Proof.
  rewrite byte_add_shift, <- Z.lxor_assoc. apply (crc32c_iter_lxor 8).
Qed.

(** One [crc32] on a word is four [crc32] on its bytes, lowest first. *)
Lemma crc32_u32_bytes acc b0 b1 b2 b3 :
  _mm_crc32_u32 acc (uint32_of_bytes b0 b1 b2 b3)
  = _mm_crc32_u8 (_mm_crc32_u8 (_mm_crc32_u8 (_mm_crc32_u8 acc (byte_val b0))
                                             (byte_val b1)) (byte_val b2)) (byte_val b3).
Proof.
  unfold _mm_crc32_u32.
  replace (uint32_of_bytes b0 b1 b2 b3)
    with (byte_val b0
          + Z.shiftl (byte_val b1
                      + Z.shiftl (byte_val b2 + Z.shiftl (byte_val b3) 8) 8) 8)
    by (unfold uint32_of_bytes; rewrite !Z.shiftl_mul_pow2 by lia; lia).
  change 32%nat with (8 + (8 + (8 + 8)))%nat.
  rewrite !Nat.iter_add.
  rewrite crc32_u8_step, crc32_u8_step, crc32_u8_step.
  unfold _mm_crc32_u8. reflexivity.
Qed.

Lemma crc_bits_iter n : forall acc,
  crc_bits n CRC32C_POLYNOMIAL_REFLECTED acc = Nat.iter n crc32c_shift acc.
Proof.
  induction n as [|n IH]; intros acc; [reflexivity|].
  rewrite Nat.iter_succ_r. cbn [crc_bits]. rewrite IH. f_equal.
  unfold crc32c_shift. rewrite Z.bit0_odd.
  destruct (Z.odd acc); [reflexivity | now rewrite Z.lxor_0_r].
Qed.

Lemma castagnoli_crc_cons init b buf :
  castagnoli_crc init (b :: buf) = castagnoli_crc (_mm_crc32_u8 init (byte_val b)) buf.
Proof.
  unfold castagnoli_crc. cbn [fold_left]. f_equal.
  change (reflect 32 0x1EDC6F41) with CRC32C_POLYNOMIAL_REFLECTED.
  apply crc_bits_iter.
Qed.

Lemma crc32c_bytes_spec b : forall i total acc junk,
  total - i = len b ->
  crc32c_bytes (b ++ junk) i total acc = Ok (castagnoli_crc acc b).
Proof.
  induction b as [|x b IH]; intros i total acc junk Hlen.
  - rewrite len_nil in Hlen. cbn [app].
    destruct junk; cbn [crc32c_bytes]; replace (i <? total) with false by lia;
      reflexivity.
  - rewrite len_cons in Hlen. pose proof (len_nonneg b).
    cbn [app crc32c_bytes]. replace (i <? total) with true by lia.
    rewrite castagnoli_crc_cons. apply IH. lia.
Qed.

Lemma crc32c_words_spec : forall (n : nat) b i total acc junk,
  (length b <= n)%nat -> total - i = len b ->
  exists b1 b2,
    b = b1 ++ b2 /\ len b2 < 4 /\
    crc32c_words (b ++ junk) i total acc
    = Ok (castagnoli_crc acc b1, total - len b2, b2 ++ junk).
Proof.
  induction n as [|n IH]; intros b i total acc junk Hn Hlen.
  - destruct b; [|cbn in Hn; lia]. exists [], []. rewrite len_nil in *.
    split; [reflexivity|]. split; [lia|]. cbn [app].
    destruct junk; cbn [crc32c_words]; replace (i + 4 <=? total) with false by lia;
      do 3 f_equal; lia.
  - destruct (Z_lt_ge_dec (len b) 4) as [Hs|Hs].
    + exists [], b. split; [reflexivity|]. split; [exact Hs|].
      destruct (b ++ junk) as [|? ?]; cbn [crc32c_words];
        replace (i + 4 <=? total) with false by lia; do 3 f_equal; lia.
    + destruct b as [|b0 [|b1 [|b2 [|b3 b]]]];
        rewrite ?len_cons, ?len_nil in Hs; try lia.
      rewrite !len_cons in Hlen. pose proof (len_nonneg b).
      destruct (IH b (i + 4) total
                   (_mm_crc32_u32 acc (uint32_of_bytes b0 b1 b2 b3)) junk)
        as (c1 & c2 & Eb & Hc2 & E); [cbn in Hn; lia | lia |].
      exists (b0 :: b1 :: b2 :: b3 :: c1), c2.
      split; [now rewrite Eb|]. split; [exact Hc2|].
      cbn [app crc32c_words]. replace (i + 4 <=? total) with true by lia.
      rewrite E. rewrite crc32_u32_bytes, !castagnoli_crc_cons. reflexivity.
Qed.

Lemma castagnoli_crc_app init a b :
  castagnoli_crc init (a ++ b) = castagnoli_crc (castagnoli_crc init a) b.
Proof. apply fold_left_app. Qed.

Lemma crdb_crc32c_spec b junk :
  crdb_crc32c (b ++ junk) (len b) = Ok (castagnoli_crc 0 b).
Proof.
  unfold crdb_crc32c.
  destruct (crc32c_words_spec (length b) b 0 (len b) 0 junk)
    as (b1 & b2 & Eb & Hb2 & E); [lia | lia |].
  rewrite E. cbn [bind].
  rewrite crc32c_bytes_spec by lia.
  now rewrite Eb, castagnoli_crc_app.
Qed.

(** C8, as the code has it.  [crdb_crc32c] is the Castagnoli CRC without a
    final xor, and its initial accumulator is 0: for every byte string [b],
    [crdb_crc32c(b)] is the bitwise CRC of [b] with the polynomial
    [0x1EDC6F41] started from the accumulator 0.  ([0xFFFFFFFF] is not the
    initial accumulator but the value the [crc] field holds while a record
    is checksummed.) *)
Theorem crdb_crc32c_castagnoli (b : list byte) :
  crdb_crc32c b (len b) = Ok (castagnoli_crc 0 b).
Proof.
  rewrite <- (app_nil_r b) at 1. apply crdb_crc32c_spec.
Qed.

(** C8 as stated fails: on the nine bytes ["123456789"] the code returns
    [0x58E3FA20], while the Castagnoli CRC started from the accumulator
    [0xFFFFFFFF] without a final xor is [0x1CF96D7C]. *)
Lemma crdb_crc32c_initial_value_counterexample :
  crdb_crc32c [x31; x32; x33; x34; x35; x36; x37; x38; x39] 9 = Ok 0x58E3FA20
  /\ castagnoli_crc 0xFFFFFFFF [x31; x32; x33; x34; x35; x36; x37; x38; x39]
     = 0x1CF96D7C
  /\ crdb_crc32c [x31; x32; x33; x34; x35; x36; x37; x38; x39] 9
     <> Ok (castagnoli_crc 0xFFFFFFFF [x31; x32; x33; x34; x35; x36; x37; x38; x39]).
Proof.
  split; [vm_compute; reflexivity|]. split; [vm_compute; reflexivity|].
  vm_compute. discriminate.
Qed.

(** The bit-at-a-time definition is CRC32C: with the standard initial value
    and final xor it gives the check value of the CRC catalogue. *)
Example castagnoli_crc_check_value :
  Z.lxor (castagnoli_crc 0xFFFFFFFF [x31; x32; x33; x34; x35; x36; x37; x38; x39])
         0xFFFFFFFF = 0xE3069283.
Proof. vm_compute. reflexivity. Qed.

(** ** 32-bit fields *)

Lemma lxor_uint32 a b : is_uint32 a -> is_uint32 b -> is_uint32 (Z.lxor a b).
Proof.
  unfold is_uint32, UINT32_MAX. intros Ha Hb.
  assert (Hnn : 0 <= Z.lxor a b) by (apply Z.lxor_nonneg; lia).
  split; [exact Hnn|].
  destruct (Z.eq_dec (Z.lxor a b) 0) as [E|E]; [lia|].
  assert (Hlog : forall x, 0 <= x <= 4294967295 -> Z.log2 x < 32).
  { intros x Hx. destruct (Z.eq_dec x 0) as [->|]; [reflexivity|].
    apply Z.log2_lt_pow2; lia. }
  assert (Z.lxor a b < 2 ^ 32); [|lia].
  apply Z.log2_lt_pow2; [lia|].
  pose proof (Z.log2_lxor a b ltac:(lia) ltac:(lia)).
  pose proof (Hlog a Ha). pose proof (Hlog b Hb). lia.
Qed.

Lemma crc32c_shift_uint32 x : is_uint32 x -> is_uint32 (crc32c_shift x).
Proof.
  intros Hx. unfold crc32c_shift. apply lxor_uint32.
  - unfold is_uint32, UINT32_MAX in *. rewrite Z.shiftr_div_pow2 by lia.
    change (2 ^ 1) with 2. divlia.
  - destruct (Z.testbit x 0); unfold is_uint32, UINT32_MAX, CRC32C_POLYNOMIAL_REFLECTED; lia.
Qed.

Lemma crc32_u8_uint32 acc b : is_uint32 acc -> is_uint32 (_mm_crc32_u8 acc (byte_val b)).
Proof.
  intros Ha. unfold _mm_crc32_u8.
  assert (H : is_uint32 (Z.lxor acc (byte_val b))).
  { apply lxor_uint32; [exact Ha|]. pose proof (byte_val_range b).
    unfold is_uint32, UINT32_MAX. lia. }
  revert H. generalize (Z.lxor acc (byte_val b)). intros x Hx.
  do 8 (rewrite Nat.iter_succ; apply crc32c_shift_uint32). exact Hx.
Qed.

Lemma castagnoli_crc_uint32 b : forall init,
  is_uint32 init -> is_uint32 (castagnoli_crc init b).
Proof.
  induction b as [|x b IH]; intros init Hi; [exact Hi|].
  rewrite castagnoli_crc_cons. apply IH. now apply crc32_u8_uint32.
Qed.

Lemma uint32_of_bytes_of_uint32 v tl :
  is_uint32 v -> load_uint32 (bytes_of_uint32 v ++ tl) = Ok v.
Proof.
  unfold is_uint32, UINT32_MAX. intros Hv.
  cbn [bytes_of_uint32 app load_uint32]. f_equal. unfold uint32_of_bytes.
  rewrite !byte_val_u8. rewrite !Z.shiftr_div_pow2, !Z.shiftl_mul_pow2 by lia.
  change (2 ^ 8) with 256. change (2 ^ 16) with 65536. change (2 ^ 24) with 16777216.
  divlia.
Qed.

Lemma len_bytes_of_uint32 v : len (bytes_of_uint32 v) = 4.
Proof. reflexivity. Qed.

Lemma store_uint32_head v w tl :
  store_uint32 (bytes_of_uint32 v ++ tl) OFFSET_crc w = Ok (bytes_of_uint32 w ++ tl).
Proof.
  unfold store_uint32, OFFSET_crc. pose proof (len_nonneg tl).
  rewrite store_patched by (rewrite ?len_app, ?len_bytes_of_uint32; lia).
  reflexivity.
Qed.

(** ** The record envelope *)

Lemma len_envelope c g p : len (envelope c g p) = SIZEOF_record_header + len p.
Proof.
  unfold envelope, SIZEOF_record_header. rewrite !len_app, !len_bytes_of_uint32. lia.
Qed.

Lemma store_uint32_envelope c g p pad w :
  store_uint32 (envelope c g p ++ pad) OFFSET_crc w = Ok (envelope w g p ++ pad).
Proof.
  unfold envelope. rewrite <- !app_assoc. apply store_uint32_head.
Qed.

Lemma crdb_word_stuffed_size_header ndebug n :
  0 <= n <= SSIZE_MAX ->
  crdb_word_stuffed_size ndebug n true = Ok (stuffed_room true n + 2).
Proof.
  intros Hn. unfold crdb_word_stuffed_size, stuffed_room, CRDB_WORD_STUFFED_BOUND,
    CRDB_WORD_STUFF_HEADER_SIZE, to_size_t, SSIZE_MAX, MAX_INITIAL_RUN,
    MAX_REMAINING_RUN, RADIX in *.
  change (len header) with 2.
  replace (n >? 9223372036854775807) with false by lia.
  destruct (n <? 253 - 1) eqn:E.
  - match goal with |- context [assert_ _ ?c] => replace c with true by divlia end.
    rewrite assert_true. cbn [bind]. f_equal. lia.
  - match goal with |- context [assert_ _ ?c] => replace c with true by divlia end.
    rewrite assert_true. cbn [bind]. f_equal. lia.
Qed.

Lemma stuffed_room_record n :
  0 <= n <= SIZEOF_write_record -> stuffed_room true n + 2 <= MAX_ENCODED.
Proof.
  change MAX_ENCODED with 526. change SIZEOF_write_record with 520.
  unfold stuffed_room, MAX_INITIAL_RUN, MAX_REMAINING_RUN, RADIX.
  intros. destruct (n <? 253 - 1); divlia.
Qed.

Lemma write_record_memcpy g p :
  len p <= CRDB_RECORD_STREAM_MAX_LEN ->
  memcpy (write_record_init g) OFFSET_data p 0 (len p)
  = Ok (envelope 0 g p
        ++ drop (len p) (repeat x00 (Z.to_nat CRDB_RECORD_STREAM_MAX_LEN))).
Proof.
  intros Hp. pose proof (len_nonneg p) as Hp0.
  unfold CRDB_RECORD_STREAM_MAX_LEN, OFFSET_data in *.
  assert (Hl : len (write_record_init g) = 520) by reflexivity.
  rewrite memcpy_Ok by lia. f_equal.
  rewrite drop_0, (take_all (len p) p) by lia.
  unfold write_record_init, envelope, CRDB_RECORD_STREAM_MAX_LEN.
  rewrite <- !app_assoc. cbn [bytes_of_uint32 app].
  do 8 (rewrite take_cons by lia; rewrite drop_cons by lia).
  cbn [app]. do 8 f_equal.
  rewrite take_neg by lia. cbn [app]. do 2 f_equal. lia.
Qed.

Lemma encode_record_envelope ndebug encoded encoded_size c0 g p pad ce :
  len p <= CRDB_RECORD_STREAM_MAX_LEN -> MAX_ENCODED <= len encoded ->
  let crc := castagnoli_crc 0 (envelope CRC_INITIAL_VALUE g p) in
  exists out,
    Stuffed true (envelope crc g p) out
    /\ len out + 2 <= MAX_ENCODED
    /\ encode_record ndebug encoded encoded_size (envelope c0 g p ++ pad) (len p) ce
       = Ok {| er_ret := true;
               er_encoded := patched encoded 0 (out ++ header);
               er_encoded_size := len out + 2;
               er_record := envelope crc g p ++ pad;
               er_ce := ce |}.
Proof.
  intros Hp Henc crc. pose proof (len_nonneg p) as Hp0.
  assert (Hroom : stuffed_room true (SIZEOF_record_header + len p) + 2 <= MAX_ENCODED).
  { apply stuffed_room_record. unfold SIZEOF_write_record, SIZEOF_record_header,
      CRDB_RECORD_STREAM_MAX_LEN in *. lia. }
  destruct (encode_loop_stuffed ndebug (S (length (envelope crc g p ++ pad))) true
              encoded 0 (envelope crc g p) pad)
    as (out & HS & Hout & E); [rewrite length_app; lia | lia | |].
  { rewrite len_envelope. lia. }
  rewrite len_envelope in *.
  exists out. split; [exact HS|]. split; [lia|].
  unfold encode_record.
  replace (len p >? CRDB_RECORD_STREAM_MAX_LEN) with false by lia.
  rewrite store_uint32_envelope. cbn [bind].
  rewrite <- (len_envelope CRC_INITIAL_VALUE g p).
  rewrite crdb_crc32c_spec. cbn [bind]. fold crc.
  rewrite store_uint32_envelope. cbn [bind].
  rewrite len_envelope.
  rewrite crdb_word_stuffed_size_header
    by (unfold SSIZE_MAX, SIZEOF_record_header, CRDB_RECORD_STREAM_MAX_LEN in *; lia).
  cbn [bind].
  replace (stuffed_room true (SIZEOF_record_header + len p) + 2 <=? MAX_ENCODED)
    with true by lia.
  rewrite assert_true. cbn [bind].
  unfold crdb_word_stuff_encode. rewrite E.
  cbn [bind]. unfold crdb_word_stuff_header.
  pose proof (len_nonneg out).
  rewrite store_patched by (rewrite ?len_patched; change (len header) with 2; lia).
  cbn [bind]. rewrite patched_patched by (change (len header) with 2; lia).
  unfold CRDB_WORD_STUFF_HEADER_SIZE. now rewrite Z.add_0_l.
Qed.

(** [crc_matches] on a record that holds an envelope: the stored [crc] is
    compared with the checksum of the envelope whose [crc] field is
    [CRC_INITIAL_VALUE]. *)
Lemma crc_matches_envelope c g p junk :
  is_uint32 c ->
  crc_matches (envelope c g p ++ junk) (SIZEOF_record_header + len p)
  = Ok (c =? castagnoli_crc 0 (envelope CRC_INITIAL_VALUE g p),
        envelope CRC_INITIAL_VALUE g p ++ junk).
Proof.
  intros Hc. unfold crc_matches, OFFSET_crc. rewrite drop_0.
  replace (load_uint32 (envelope c g p ++ junk)) with (Ok c)
    by (unfold envelope; rewrite <- !app_assoc; symmetry;
        now apply uint32_of_bytes_of_uint32).
  cbn [bind]. rewrite store_uint32_envelope. cbn [bind].
  rewrite <- (len_envelope CRC_INITIAL_VALUE g p).
  rewrite crdb_crc32c_spec. reflexivity.
Qed.

(** C5. Packing then verifying an envelope: for every generation [g] (a
    [uint32_t]) and payload [p] of at most 512 bytes, building the
    [struct write_record] as [crdb_record_stream_append_buf] does and
    running [encode_record] succeeds and leaves in the record the envelope
    [crc || g || p], where [crc] is the checksum of
    [0xFFFFFFFF || g || p]; and on every [struct read_record] that starts
    with these bytes [crc_matches] answers true, after which the
    [generation] field reads [g] and the first [|p|] data bytes are [p]. *)
Theorem envelope_roundtrip (ndebug : bool) (g : Z) (p encoded : list byte)
        (ce : option crdb_error) :
  is_uint32 g ->
  len p <= CRDB_RECORD_STREAM_MAX_LEN ->
  MAX_ENCODED <= len encoded ->
  exists record r,
    memcpy (write_record_init g) OFFSET_data p 0 (len p) = Ok record
    /\ encode_record ndebug encoded 0 record (len p) ce = Ok r
    /\ er_ret r = true
    /\ take (SIZEOF_record_header + len p) (er_record r)
       = envelope (castagnoli_crc 0 (envelope CRC_INITIAL_VALUE g p)) g p
    /\ forall rd,
         take (SIZEOF_record_header + len p) rd
         = take (SIZEOF_record_header + len p) (er_record r) ->
         exists rd',
           crc_matches rd (SIZEOF_record_header + len p) = Ok (true, rd')
           /\ load_uint32 (drop OFFSET_generation rd') = Ok g
           /\ take (len p) (drop OFFSET_data rd') = p.
Proof.
  intros Hg Hp Henc.
  set (pad := drop (len p) (repeat x00 (Z.to_nat CRDB_RECORD_STREAM_MAX_LEN))).
  set (crc := castagnoli_crc 0 (envelope CRC_INITIAL_VALUE g p)).
  destruct (encode_record_envelope ndebug encoded 0 0 g p pad ce Hp Henc)
    as (out & HS & Hout & E).
  eexists. eexists. split; [apply write_record_memcpy; exact Hp|].
  fold pad. split; [exact E|]. cbn [er_ret er_record]. split; [reflexivity|].
  fold crc.
  assert (Etake : take (SIZEOF_record_header + len p) (envelope crc g p ++ pad)
                  = envelope crc g p)
    by (rewrite <- (len_envelope crc g p); apply take_app_len).
  split; [exact Etake|].
  intros rd Hrd. rewrite Etake in Hrd.
  assert (Erd : rd = envelope crc g p ++ drop (SIZEOF_record_header + len p) rd)
    by (rewrite <- Hrd at 1; symmetry; apply take_drop).
  rewrite Erd.
  assert (Hcrc : is_uint32 crc).
  { apply castagnoli_crc_uint32. unfold is_uint32, UINT32_MAX. lia. }
  rewrite crc_matches_envelope by exact Hcrc.
  fold crc. rewrite Z.eqb_refl.
  eexists. split; [reflexivity|].
  unfold envelope, OFFSET_generation, OFFSET_data.
  rewrite <- !app_assoc. cbn [bytes_of_uint32 app].
  split.
  - change (drop 4 ?l) with (skipn 4 l). cbn [skipn].
    apply (uint32_of_bytes_of_uint32 g); exact Hg.
  - change (drop 8 ?l) with (skipn 8 l). cbn [skipn]. apply take_app_len.
Qed.

Lemma envelope_roundtrip_witness :
  exists record r,
    memcpy (write_record_init 7) OFFSET_data [x68; x69] 0 2 = Ok record
    /\ encode_record false (repeat x00 526) 0 record 2 None = Ok r
    /\ er_ret r = true
    /\ take (SIZEOF_record_header + 2) (er_record r)
       = envelope (castagnoli_crc 0 (envelope CRC_INITIAL_VALUE 7 [x68; x69])) 7
                  [x68; x69]
    /\ forall rd,
         take (SIZEOF_record_header + 2) rd
         = take (SIZEOF_record_header + 2) (er_record r) ->
         exists rd',
           crc_matches rd (SIZEOF_record_header + 2) = Ok (true, rd')
           /\ load_uint32 (drop OFFSET_generation rd') = Ok 7
           /\ take 2 (drop OFFSET_data rd') = [x68; x69].
Proof.
  apply (envelope_roundtrip false 7 [x68; x69] (repeat x00 526) None).
  - unfold is_uint32, UINT32_MAX. lia.
  - vm_compute. discriminate.
  - vm_compute. discriminate.
Defined.

(** ** Appending *)

(** C9. A buffer of more than 512 bytes is rejected before anything is
    written: for every state of the file descriptor, generation and buffer,
    when [len > 512], [crdb_record_stream_append_buf] returns false with
    the error "data too long" and the descriptor is as before (same
    contents, and no [write] or [writev] was issued: no answer of the
    kernel was consumed).  [record_stream_append_record], through
    [encode_record], rejects such a length the same way. *)
Theorem append_buf_too_long (ndebug : bool) (fd : fd_state) (encoded : list byte)
        (generation : Z) (buf : list byte) (len : Z) (ce : option crdb_error) :
  len > CRDB_RECORD_STREAM_MAX_LEN ->
  crdb_record_stream_append_buf ndebug fd encoded generation buf len ce
  = Ok (fd, false, _crdb_error_set ce "crdb_record_stream data too long"%string 0)
  /\ forall record,
       record_stream_append_record ndebug fd encoded record len ce
       = Ok (fd, false, _crdb_error_set ce "crdb_record_stream data too long"%string 0).
Proof.
  intros Hlen. split.
  - unfold crdb_record_stream_append_buf.
    now replace (len >? CRDB_RECORD_STREAM_MAX_LEN) with true by lia.
  - intros record. unfold record_stream_append_record, encode_record.
    now replace (len >? CRDB_RECORD_STREAM_MAX_LEN) with true by lia.
Qed.

Lemma append_buf_too_long_witness :
  let fd := {| contents := [xfe; xfd]; answers := [Written 3]; errno := 0 |} in
  let ce := Some {| message := ""%string; error := 0 |} in
  crdb_record_stream_append_buf false fd (repeat x00 526) 7 (repeat x2a 513) 513 ce
  = Ok (fd, false, _crdb_error_set ce "crdb_record_stream data too long"%string 0)
  /\ forall record,
       record_stream_append_record false fd (repeat x00 526) record 513 ce
       = Ok (fd, false, _crdb_error_set ce "crdb_record_stream data too long"%string 0).
Proof.
  apply (append_buf_too_long false
           {| contents := [xfe; xfd]; answers := [Written 3]; errno := 0 |}
           (repeat x00 526) 7 (repeat x2a 513) 513
           (Some {| message := ""%string; error := 0 |})).
  vm_compute. reflexivity.
Defined.

(** By contrast a buffer of 512 bytes or less is written: a five-byte
    payload appended after an initial header, with no write failure. *)
Example append_buf_hello :
  crdb_record_stream_append_buf
    false {| contents := header; answers := []; errno := 0 |}
    (repeat x00 526) 7 [x68; x65; x6c; x6c; x6f] 5 None
  = Ok ({| contents := [xfe; xfd; x0d; x78; x59; xc7; x5b; x07; x00; x00; x00;
                        x68; x65; x6c; x6c; x6f; xfe; xfd];
           answers := []; errno := 0 |}, true, None).
Proof. vm_compute. reflexivity. Qed.

(** ** Decoding as a function *)

Lemma decode_loop_unstuff : forall fuel fuel' (fh : bool) dst ret src junk,
  (length src < fuel)%nat -> (length src < fuel')%nat -> 0 <= ret ->
  ret + Z.max 0 (len src - (if fh then 1 else 2)) <= len dst ->
  exists dst',
    decode_loop fuel fh dst ret (src ++ junk) (len src)
    = Ok (dst', option_map (fun out => ret + len out) (unstuff fuel' fh src))
    /\ len dst' = len dst
    /\ take ret dst' = take ret dst
    /\ forall out, unstuff fuel' fh src = Some out ->
                   take (ret + len out) dst' = take ret dst ++ out.
Proof.
  induction fuel as [|fuel IH]; intros fuel' fh dst ret src junk Hfuel Hfuel' Hret Hroom;
    [lia|].
  destruct fuel' as [|fuel']; [lia|].
  cbn [decode_loop unstuff].
  set (hl := if fh then 1 else 2) in *.
  assert (Hhl : 1 <= hl <= 2) by (subst hl; destruct fh; lia).
  pose proof (len_nonneg src) as Hsrc.
  match goal with |- exists dst', bind ?c ?k = _ /\ _ =>
    assert (Hstep : c = Ok None /\ len src < hl \/
                    exists src',
                      c = Ok (Some (max_run fh, run_size_of fh src, src' ++ junk, len src'))
                      /\ 0 <= run_size_of fh src /\ len src = hl + len src'
                      /\ drop hl src = src'
                      /\ (length src' < length src)%nat)
  end.
  { subst hl. destruct fh.
    - destruct src as [|b src'].
      + left. split; [reflexivity | rewrite len_nil; lia].
      + right. exists src'. rewrite len_cons.
        replace (1 + len src' <? 1) with false by (pose proof (len_nonneg src'); lia).
        cbn [app]. rewrite read_cons_0. cbn [bind].
        change (drop 1 (b :: src' ++ junk)) with (src' ++ junk).
        change (run_size_of true (b :: src')) with (byte_val b).
        pose proof (byte_val_range b).
        repeat split; [do 4 f_equal; lia | lia | cbn; lia].
    - unfold CRDB_WORD_STUFF_HEADER_SIZE.
      destruct src as [|b0 [|b1 src']].
      + left. split; [reflexivity | rewrite len_nil; lia].
      + left. split; [reflexivity | rewrite len_cons, len_nil; lia].
      + right. exists src'. rewrite !len_cons.
        replace (1 + (1 + len src') <? 2) with false by (pose proof (len_nonneg src'); lia).
        cbn [app]. unfold decode_run_size. rewrite read_cons_0, read_cons_1. cbn [bind].
        change (drop 2 (b0 :: b1 :: src' ++ junk)) with (src' ++ junk).
        change (run_size_of false (b0 :: b1 :: src'))
          with (byte_val b0 + RADIX * byte_val b1).
        pose proof (byte_val_range b0). pose proof (byte_val_range b1).
        unfold RADIX.
        repeat split; [do 4 f_equal; lia | lia | lia | cbn; lia]. }
  destruct Hstep as [[-> Hshort] | (src' & -> & Hrun & Hlen & Hdrop & Hlt)].
  { cbn [bind]. replace (len src <? hl) with true by lia. cbn [option_map].
    exists dst. repeat split; try reflexivity. intros out [=]. }
  pose proof (len_nonneg src') as Hsrc'.
  replace (len src <? hl) with false by lia. rewrite Hdrop.
  set (run_size := run_size_of fh src) in *.
  cbn [bind]. pose proof (len_nonneg junk) as Hjunk.
  destruct ((len src' <? run_size) || (run_size >? max_run fh)) eqn:Echeck.
  { cbn [option_map]. exists dst. repeat split; try reflexivity. intros out [=]. }
  assert (Hrs : run_size <= len src' /\ run_size <= max_run fh) by lia.
  rewrite short_memcpy_copied by (rewrite ?len_app; lia). cbn [bind].
  rewrite copied_patched by (rewrite ?len_app; lia).
  rewrite take_app_le, drop_app_le by lia.
  set (lit := take run_size src') in *.
  assert (Hlit : len lit = run_size) by (apply len_take; lia).
  assert (Hldrop : len (drop run_size src') = len src' - run_size) by (apply len_drop; lia).
  rewrite <- Hldrop.
  assert (Hp1 : take (ret + len lit) (patched dst ret lit) = take ret dst ++ lit)
    by (apply take_patched; lia).
  destruct (run_size <? max_run fh) eqn:Emax.
  - destruct (len (drop run_size src') =? 0) eqn:Ezero.
    + cbn [option_map]. exists (patched dst ret lit).
      split; [do 3 f_equal; lia|]. split; [apply len_patched; lia|].
      split; [apply take_patched_before; lia|].
      intros out [= <-]. exact Hp1.
    + unfold CRDB_WORD_STUFF_HEADER_SIZE.
      destruct (len (drop run_size src') <? 2) eqn:Etwo.
      * cbn [option_map]. exists (patched dst ret lit).
        split; [reflexivity|]. split; [apply len_patched; lia|].
        split; [apply take_patched_before; lia|]. intros out [=].
      * unfold crdb_word_stuff_header.
        rewrite store_patched
          by (rewrite ?len_patched; change (len header) with 2; lia).
        cbn [bind].
        replace (patched (patched dst ret lit) (ret + run_size) header)
          with (patched dst ret (lit ++ header))
          by (rewrite <- Hlit; symmetry; apply patched_patched;
              change (len header) with 2; lia).
        assert (Hlh : len (lit ++ header) = run_size + 2)
          by (rewrite len_app; change (len header) with 2; lia).
        destruct (IH fuel' false (patched dst ret (lit ++ header))
                     (ret + run_size + 2) (drop run_size src') junk)
          as (dst' & E & Hlen' & Hpre & Hout).
        { unfold len in Hldrop. lia. }
        { unfold len in Hldrop. lia. }
        { lia. }
        { rewrite len_patched by lia. lia. }
        rewrite E. exists dst'.
        assert (Hp2 : take (ret + run_size + 2) (patched dst ret (lit ++ header))
                      = take ret dst ++ lit ++ header).
        { replace (ret + run_size + 2) with (ret + len (lit ++ header)) by lia.
          apply take_patched. lia. }
        rewrite len_patched in Hlen' by lia. rewrite Hp2 in Hpre.
        split.
        { f_equal. f_equal. destruct (unstuff fuel' false (drop run_size src'));
            [|reflexivity]. cbn [option_map]. f_equal.
          rewrite !len_app. change (len header) with 2. lia. }
        split; [exact Hlen'|].
        split.
        { rewrite <- (take_take ret (ret + run_size + 2)) by lia. rewrite Hpre.
          rewrite take_app_le by (rewrite len_take; lia). apply take_take. lia. }
        intros out Eo.
        destruct (unstuff fuel' false (drop run_size src')) as [o|] eqn:Eu;
          [|discriminate]. cbn [option_map] in Eo.
        assert (Eout : out = lit ++ header ++ o) by congruence. subst out.
        specialize (Hout o eq_refl). rewrite Hp2 in Hout.
        rewrite !len_app. change (len header) with 2.
        replace (ret + (len lit + (2 + len o))) with (ret + run_size + 2 + len o) by lia.
        rewrite Hout. now rewrite <- !app_assoc.
  - destruct (IH fuel' false (patched dst ret lit)
                 (ret + run_size) (drop run_size src') junk)
      as (dst' & E & Hlen' & Hpre & Hout).
    { unfold len in Hldrop. lia. }
    { unfold len in Hldrop. lia. }
    { lia. }
    { rewrite len_patched by lia. lia. }
    rewrite E. exists dst'.
    rewrite len_patched in Hlen' by lia.
    replace (ret + run_size) with (ret + len lit) in Hpre, Hout by lia.
    rewrite Hp1 in Hpre.
    split.
    { f_equal. f_equal. destruct (unstuff fuel' false (drop run_size src'));
        [|reflexivity]. cbn [option_map]. f_equal. rewrite !len_app. lia. }
    split; [exact Hlen'|].
    split.
    { rewrite <- (take_take ret (ret + len lit)) by lia. rewrite Hpre.
      rewrite take_app_le by (rewrite len_take; lia). apply take_take. lia. }
    intros out Eo.
    destruct (unstuff fuel' false (drop run_size src')) as [o|] eqn:Eu;
      [|discriminate]. cbn [option_map] in Eo.
    assert (Eout : out = lit ++ o) by congruence. subst out.
    specialize (Hout o eq_refl). rewrite Hp1 in Hout.
    rewrite !len_app.
    replace (ret + (len lit + len o)) with (ret + len lit + len o) by lia.
    rewrite Hout. now rewrite <- !app_assoc.
Qed.

(** ** One record *)

Lemma uint32_of_bytes_uint32 b0 b1 b2 b3 : is_uint32 (uint32_of_bytes b0 b1 b2 b3).
Proof.
  unfold is_uint32, UINT32_MAX, uint32_of_bytes.
  pose proof (byte_val_range b0). pose proof (byte_val_range b1).
  pose proof (byte_val_range b2). pose proof (byte_val_range b3).
  rewrite !Z.shiftl_mul_pow2 by lia.
  change (2 ^ 8) with 256. change (2 ^ 16) with 65536. change (2 ^ 24) with 16777216.
  lia.
Qed.

Lemma bytes_of_uint32_of_bytes b0 b1 b2 b3 :
  bytes_of_uint32 (uint32_of_bytes b0 b1 b2 b3) = [b0; b1; b2; b3].
Proof.
  unfold bytes_of_uint32, uint32_of_bytes.
  pose proof (byte_val_range b0). pose proof (byte_val_range b1).
  pose proof (byte_val_range b2). pose proof (byte_val_range b3).
  rewrite !Z.shiftl_mul_pow2, !Z.shiftr_div_pow2 by lia.
  change (2 ^ 8) with 256. change (2 ^ 16) with 65536. change (2 ^ 24) with 16777216.
  repeat f_equal; apply byte_val_inj; rewrite byte_val_u8; divlia.
Qed.

Lemma run_size_of_nonneg fh src : 0 <= run_size_of fh src.
Proof.
  unfold run_size_of, RADIX.
  pose proof (byte_val_range (nth 0 src x00)).
  pose proof (byte_val_range (nth 1 src x00)).
  destruct fh; lia.
Qed.

Lemma unstuff_len : forall fuel (fh : bool) src out,
  unstuff fuel fh src = Some out -> len out + (if fh then 1 else 2) <= len src.
Proof.
  induction fuel as [|fuel IH]; intros fh src out; [discriminate|].
  cbn [unstuff]. set (hl := if fh then 1 else 2).
  assert (Hhl : 1 <= hl <= 2) by (subst hl; destruct fh; lia).
  destruct (len src <? hl) eqn:E1; [discriminate|].
  assert (Hd : len (drop hl src) = len src - hl) by (apply len_drop; lia).
  set (run := run_size_of fh src).
  destruct ((len (drop hl src) <? run) || (run >? max_run fh)) eqn:E2; [discriminate|].
  assert (Hrun : run <= len (drop hl src)) by lia.
  assert (Hpos : 0 <= run) by apply run_size_of_nonneg.
  assert (Hlit : len (take run (drop hl src)) = run) by (apply len_take; lia).
  assert (Hrest : len (drop run (drop hl src)) = len src - hl - run)
    by (rewrite len_drop; lia).
  destruct (run <? max_run fh).
  - destruct (len (drop run (drop hl src)) =? 0) eqn:E3; [intros [= <-]; lia|].
    destruct (len (drop run (drop hl src)) <? 2) eqn:E4; [discriminate|].
    destruct (unstuff fuel false (drop run (drop hl src))) as [o|] eqn:Eu; [|discriminate].
    cbn [option_map]. intros Eo. apply IH in Eu.
    assert (Eout : out = take run (drop hl src) ++ header ++ o) by congruence.
    rewrite Eout, !len_app. change (len header) with 2. lia.
  - destruct (unstuff fuel false (drop run (drop hl src))) as [o|] eqn:Eu; [|discriminate].
    cbn [option_map]. intros Eo. apply IH in Eu.
    assert (Eout : out = take run (drop hl src) ++ o) by congruence.
    rewrite Eout, !len_app. lia.
Qed.

Lemma decode_unstuff dst src junk :
  len src - 1 <= len dst ->
  exists dst',
    crdb_word_stuff_decode dst (src ++ junk) (len src)
    = Ok (dst', option_map (@len byte) (decode_chunk src))
    /\ len dst' = len dst
    /\ forall out, decode_chunk src = Some out -> take (len out) dst' = out.
Proof.
  intros Hroom. unfold crdb_word_stuff_decode, decode_chunk.
  pose proof (len_nonneg src). pose proof (len_nonneg dst).
  destruct (decode_loop_unstuff (S (length (src ++ junk))) (S (length src)) true
              dst 0 src junk)
    as (dst' & E & Hlen & _ & Hout); [rewrite length_app; lia | lia | lia | lia |].
  exists dst'. split.
  - rewrite E. reflexivity.
  - split; [exact Hlen|]. intros out Eo. specialize (Hout out Eo).
    now rewrite take_0 in Hout.
Qed.

(** ** The next header *)

Lemma first_marker_drop l : forall j,
  0 <= j <= first_marker l -> first_marker (drop j l) = first_marker l - j.
Proof.
  induction l as [|a l IH]; intros j Hj.
  - cbn in Hj. assert (j = 0) by lia. subst j. reflexivity.
  - destruct (Z.eq_dec j 0) as [->|Hj0]; [rewrite drop_0; lia|].
    rewrite drop_cons by lia.
    destruct l as [|b l].
    + cbn in Hj. assert (j = 1) by lia. subst j. reflexivity.
    + rewrite first_marker_cons2 in *.
      destruct (is_header a b); [lia|].
      rewrite IH by lia. lia.
Qed.

Lemma first_marker_cons_other a l :
  a <> xfe -> first_marker (a :: l) = 1 + first_marker l.
Proof.
  intros Ha. destruct l as [|b l]; [reflexivity|].
  rewrite first_marker_cons2.
  replace (is_header a b) with false; [reflexivity|].
  symmetry. apply is_header_false. intros [? _]. contradiction.
Qed.

Section NextMarker.
Variable buf : list byte.

Lemma next_marker_range k :
  0 <= k <= len buf -> k <= next_marker buf k <= len buf.
Proof.
  intros Hk. unfold next_marker.
  pose proof (first_marker_range (drop k buf)) as H.
  rewrite len_drop in H by lia. lia.
Qed.

Lemma next_marker_between k j :
  0 <= k <= len buf -> k <= j <= next_marker buf k ->
  next_marker buf j = next_marker buf k.
Proof.
  intros Hk Hj. pose proof (next_marker_range k Hk) as Hr. unfold next_marker in *.
  replace (drop j buf) with (drop (j - k) (drop k buf))
    by (rewrite drop_drop by lia; f_equal; lia).
  rewrite first_marker_drop by lia. lia.
Qed.

Lemma next_marker_fix k :
  0 <= k <= len buf -> next_marker buf (next_marker buf k) = next_marker buf k.
Proof.
  intros Hk. pose proof (next_marker_range k Hk).
  apply next_marker_between; lia.
Qed.

Lemma next_marker_mono k j :
  0 <= k <= j -> j <= len buf -> next_marker buf k <= next_marker buf j.
Proof.
  intros Hk Hj.
  destruct (Z_le_gt_dec j (next_marker buf k)).
  - rewrite (next_marker_between k j) by lia. lia.
  - pose proof (next_marker_range j ltac:(lia)). lia.
Qed.

Lemma next_marker_found k :
  0 <= k <= len buf -> next_marker buf k < len buf ->
  exists rest, drop (next_marker buf k) buf = xfe :: xfd :: rest.
Proof.
  intros Hk Hlt. unfold next_marker in *.
  pose proof (first_marker_range (drop k buf)) as Hr.
  rewrite len_drop in Hr by lia.
  destruct (first_marker_found (drop k buf)) as [rest E];
    [rewrite len_drop by lia; lia|].
  exists rest.
  replace (drop (k + first_marker (drop k buf)) buf)
    with (drop (first_marker (drop k buf)) (drop k buf))
    by (rewrite drop_drop by lia; reflexivity).
  rewrite E at 2.
  rewrite <- (len_take (first_marker (drop k buf)) (drop k buf)) at 1
    by (rewrite len_drop by lia; lia).
  apply drop_app_len.
Qed.

Lemma next_marker_found_len k :
  0 <= k <= len buf -> next_marker buf k < len buf ->
  next_marker buf k + 2 <= len buf.
Proof.
  intros Hk Hlt. destruct (next_marker_found k Hk Hlt) as [rest E].
  pose proof (next_marker_range k Hk).
  assert (Hl : len (drop (next_marker buf k) buf) = len buf - next_marker buf k)
    by (apply len_drop; lia).
  rewrite E, !len_cons in Hl. pose proof (len_nonneg rest). lia.
Qed.

(** No header starts on the second byte of a header. *)
Lemma next_marker_skip h :
  0 <= h < len buf -> next_marker buf h = h ->
  next_marker buf (h + 1) = next_marker buf (h + 2).
Proof.
  intros Hh Hfix.
  destruct (next_marker_found h ltac:(lia) ltac:(lia)) as [rest E].
  rewrite Hfix in E. unfold next_marker.
  replace (drop (h + 1) buf) with (drop 1 (drop h buf))
    by (rewrite drop_drop by lia; reflexivity).
  replace (drop (h + 2) buf) with (drop 2 (drop h buf))
    by (rewrite drop_drop by lia; reflexivity).
  rewrite E. change (drop 1 (xfe :: xfd :: rest)) with (xfd :: rest).
  change (drop 2 (xfe :: xfd :: rest)) with rest.
  rewrite first_marker_cons_other by discriminate. lia.
Qed.

Lemma header_find_next_marker k :
  0 <= k <= len buf ->
  crdb_word_stuff_header_find (drop k buf) (len buf - k)
  = Ok (next_marker buf k - k).
Proof.
  intros Hk.
  assert (Hl : len (drop k buf) = len buf - k) by (apply len_drop; lia).
  rewrite header_find_spec by lia.
  rewrite take_all by lia. unfold next_marker. f_equal. lia.
Qed.

Lemma drop_chunk a b :
  0 <= a <= b -> b <= len buf -> drop a buf = chunk buf a b ++ drop b buf.
Proof.
  intros Ha Hb. unfold chunk.
  replace (drop b buf) with (drop (b - a) (drop a buf))
    by (rewrite drop_drop by lia; f_equal; lia).
  symmetry. apply take_drop.
Qed.

Lemma len_chunk a b :
  0 <= a <= b -> b <= len buf -> len (chunk buf a b) = b - a.
Proof.
  intros Ha Hb. unfold chunk. apply len_take. rewrite len_drop by lia. lia.
Qed.
End NextMarker.

(** ** One step of the iterator *)

Lemma view_offset m p :
  base m <= p <= base m + len (bytes m) -> view m p = drop (p - base m) (bytes m).
Proof.
  intros Hp. unfold view.
  now replace ((base m <=? p) && (p <=? base m + len (bytes m))) with true by lia.
Qed.

Lemma to_size_t_small z : 0 <= z <= SIZE_MAX -> to_size_t z = z.
Proof. unfold to_size_t, SIZE_MAX. intros. apply Z.mod_small. lia. Qed.

Lemma parse_record_envelope ch :
  parse_record ch
  = if len ch >? CRDB_RECORD_STREAM_BUF_LEN then None
    else match decode_chunk ch with
         | Some d =>
             if len d <? SIZEOF_record_header then None
             else
               let c := uint32_of_bytes (nth 0 d x00) (nth 1 d x00) (nth 2 d x00) (nth 3 d x00) in
               let g := uint32_of_bytes (nth 4 d x00) (nth 5 d x00) (nth 6 d x00) (nth 7 d x00) in
               let p := drop 8 d in
               if c =? castagnoli_crc 0 (envelope CRC_INITIAL_VALUE g p)
               then Some (g, p) else None
         | None => None
         end.
Proof.
  unfold parse_record. destruct (len ch >? CRDB_RECORD_STREAM_BUF_LEN); [reflexivity|].
  destruct (decode_chunk ch) as [d|]; [|reflexivity].
  unfold SIZEOF_record_header.
  destruct d as [|c0 [|c1 [|c2 [|c3 [|g0 [|g1 [|g2 [|g3 p]]]]]]]];
    try reflexivity.
  rewrite !len_cons. pose proof (len_nonneg p).
  replace (1 + (1 + (1 + (1 + (1 + (1 + (1 + (1 + len p))))))) <? 8) with false by lia.
  reflexivity.
Qed.

Lemma envelope_of_bytes d :
  SIZEOF_record_header <= len d ->
  d = envelope (uint32_of_bytes (nth 0 d x00) (nth 1 d x00) (nth 2 d x00) (nth 3 d x00))
               (uint32_of_bytes (nth 4 d x00) (nth 5 d x00) (nth 6 d x00) (nth 7 d x00))
               (drop 8 d).
Proof.
  unfold SIZEOF_record_header. intros Hd.
  destruct d as [|c0 [|c1 [|c2 [|c3 [|g0 [|g1 [|g2 [|g3 p]]]]]]]];
    rewrite ?len_cons, ?len_nil in Hd; try lia.
  unfold envelope. cbn [nth]. rewrite !bytes_of_uint32_of_bytes. reflexivity.
Qed.

Lemma next_record_decode_spec m it a dst :
  valid_memory m -> it_end it = base m + len (bytes m) ->
  0 <= a <= len (bytes m) -> it_header it < it_stop_at it ->
  len dst = SIZEOF_read_record ->
  exists r dst',
    next_record_decode m it (base m + a) dst
    = Ok (r, set_cursor it (base m + next_marker (bytes m) a), dst')
    /\ len dst' = SIZEOF_read_record
    /\ match parse_record (chunk (bytes m) a (next_marker (bytes m) a)) with
       | Some (g, p) =>
           r = len p
           /\ load_uint32 (drop OFFSET_generation dst') = Ok g
           /\ take (len p) (drop OFFSET_data dst') = p
           /\ len p <= CRDB_RECORD_STREAM_BUF_LEN
       | None => r = -1
       end.
Proof.
  intros (Hb0 & Hb1 & _) Hend Ha Hhdr Hdst.
  set (buf := bytes m) in *. set (b := next_marker buf a).
  pose proof (next_marker_range buf a Ha) as Hb. fold b in Hb.
  unfold next_record_decode.
  replace (it_header it >=? it_stop_at it) with false by lia.
  rewrite view_offset by (fold buf; lia). fold buf.
  replace (base m + a - base m) with a by lia.
  rewrite Hend. replace (base m + len buf - (base m + a)) with (len buf - a) by lia.
  rewrite to_size_t_small by lia.
  rewrite header_find_next_marker by lia. fold b. cbn [bind].
  replace (base m + a + (b - a)) with (base m + b) by lia.
  replace (base m + b - (base m + a)) with (b - a) by lia.
  rewrite to_size_t_small by lia.
  cbn [it_end set_cursor].
  set (ch := chunk buf a b).
  assert (Hch : len ch = b - a) by (apply len_chunk; lia).
  rewrite parse_record_envelope. rewrite Hch.
  unfold SIZEOF_read_record, SIZEOF_record_header, CRDB_RECORD_STREAM_BUF_LEN,
    CRDB_RECORD_STREAM_MAX_LEN in *.
  destruct (b - a >? 2 * 512) eqn:Ebig.
  { exists (-1), dst. split; [reflexivity|]. split; [exact Hdst | reflexivity]. }
  rewrite (drop_chunk buf a b) by lia. fold ch. rewrite <- Hch.
  destruct (decode_unstuff dst ch (drop b buf)) as (dst1 & E & Hlen1 & Hout); [lia|].
  rewrite E. cbn [bind].
  destruct (decode_chunk ch) as [d|] eqn:Ed; cbn [option_map].
  2:{ exists (-1), dst1. split; [reflexivity|]. split; [lia | reflexivity]. }
  specialize (Hout d eq_refl).
  pose proof (unstuff_len _ _ _ _ Ed) as Hdlen. change (if true then 1 else 2) with 1 in Hdlen.
  destruct (len d <? 8) eqn:Eshort.
  { exists (-1), dst1. split; [reflexivity|]. split; [lia | reflexivity]. }
  set (c := uint32_of_bytes (nth 0 d x00) (nth 1 d x00) (nth 2 d x00) (nth 3 d x00)).
  set (g := uint32_of_bytes (nth 4 d x00) (nth 5 d x00) (nth 6 d x00) (nth 7 d x00)).
  set (p := drop 8 d).
  assert (Ed8 : d = envelope c g p) by (apply envelope_of_bytes; unfold SIZEOF_record_header; lia).
  assert (Edst1 : dst1 = envelope c g p ++ drop (len d) dst1).
  { rewrite <- Ed8. rewrite <- Hout at 1. symmetry. apply take_drop. }
  assert (Hlp : len d = SIZEOF_record_header + len p)
    by (rewrite Ed8 at 1; apply len_envelope).
  rewrite Edst1, Hlp.
  rewrite crc_matches_envelope by apply uint32_of_bytes_uint32.
  cbn [bind]. cbn zeta. unfold SIZEOF_record_header in *.
  destruct (c =? castagnoli_crc 0 (envelope CRC_INITIAL_VALUE g p)) eqn:Ecrc; cbn [negb].
  - exists (len p), (envelope CRC_INITIAL_VALUE g p ++ drop (8 + len p) dst1).
    split.
    { replace (8 + len p - 8) with (len p) by lia. reflexivity. }
    assert (Hld : len (drop (8 + len p) dst1) = len dst1 - (8 + len p))
      by (apply len_drop; pose proof (len_nonneg p); lia).
    split; [rewrite len_app, len_envelope, Hld; unfold SIZEOF_record_header in *; lia|].
    unfold envelope, OFFSET_generation, OFFSET_data. rewrite <- !app_assoc.
    cbn [bytes_of_uint32 app].
    split; [reflexivity|]. split; [|split].
    + change (drop 4 ?l) with (skipn 4 l). cbn [skipn].
      apply (uint32_of_bytes_of_uint32 g). apply uint32_of_bytes_uint32.
    + change (drop 8 ?l) with (skipn 8 l). cbn [skipn]. apply take_app_len.
    + lia.
  - exists (-1), (envelope CRC_INITIAL_VALUE g p ++ drop (8 + len p) dst1).
    split; [reflexivity|]. split; [|reflexivity].
    assert (Hld : len (drop (8 + len p) dst1) = len dst1 - (8 + len p))
      by (apply len_drop; pose proof (len_nonneg p); lia).
    rewrite len_app, len_envelope, Hld. unfold SIZEOF_record_header in *. lia.
Qed.

(** ** The records of a buffer *)

Lemma next_marker_advance buf k : k <= next_marker buf k.
Proof.
  unfold next_marker. pose proof (first_marker_range (drop k buf)). lia.
Qed.

Lemma scan_headers_enough buf stop : forall f1 f2 h,
  stop - h < Z.of_nat f1 -> stop - h < Z.of_nat f2 ->
  scan_headers f1 buf h stop = scan_headers f2 buf h stop.
Proof.
  induction f1 as [|f1 IH]; intros f2 h H1 H2.
  - destruct f2; [reflexivity|]. cbn [scan_headers].
    now replace (h >=? stop) with true by lia.
  - destruct f2 as [|f2].
    + cbn [scan_headers]. now replace (h >=? stop) with true by lia.
    + cbn [scan_headers]. destruct (h >=? stop) eqn:E; [reflexivity|].
      f_equal. unfold CRDB_WORD_STUFF_HEADER_SIZE.
      pose proof (next_marker_advance buf (h + 2)).
      apply IH; lia.
Qed.

Lemma scan_eq buf h stop :
  0 <= h -> stop <= len buf ->
  scan buf h stop
  = if h >=? stop then []
    else cons_opt (parse_record (chunk buf (h + 2) (next_marker buf (h + 2))))
                  (scan buf (next_marker buf (h + 2)) stop).
Proof.
  intros Hh Hstop. unfold scan at 1. cbn [scan_headers].
  destruct (h >=? stop) eqn:E; [reflexivity|].
  unfold CRDB_WORD_STUFF_HEADER_SIZE. f_equal.
  pose proof (next_marker_advance buf (h + 2)).
  apply scan_headers_enough; unfold len in *; lia.
Qed.

Lemma scan_past buf h stop : stop <= h -> scan buf h stop = [].
Proof.
  intros H. unfold scan. cbn [scan_headers]. now replace (h >=? stop) with true by lia.
Qed.

(** ** The iterator yields the records of the buffer *)

Section Iterator.
Variable ndebug : bool.
Variable m : memory.
Hypothesis Hm : valid_memory m.

Local Abbreviation buf := (bytes m).

Lemma wf_set_cursor it p :
  wf_iterator m it -> base m <= p <= base m + len buf ->
  wf_iterator m (set_cursor it p).
Proof.
  intros (H1 & H2 & H3 & H4 & H5 & H6) Hp. unfold wf_iterator. cbn. tauto.
Qed.

(** The step taken for the first record. *)
Lemma next_record_first it dst :
  wf_iterator m it -> it_first_record it = true ->
  it_cursor it < it_stop_at it ->
  len dst = SIZEOF_read_record ->
  let c := it_cursor it - base m in
  exists r it' dst',
    record_stream_iterator_next_record ndebug m it dst = Ok (r, it', dst')
    /\ len dst' = SIZEOF_read_record
    /\ wf_iterator m it' /\ it_first_record it' = false
    /\ it_stop_at it' = it_stop_at it
    /\ it_cursor it' = base m + next_marker buf c
    /\ match parse_record (chunk buf c (next_marker buf c)) with
       | Some rec => holds_record dst' r rec
       | None => r = -1
       end.
Proof.
  intros Hwf Hfr Hlt Hdst c.
  destruct Hwf as (_ & Hbeg & Hend & Hfn & Hcur & Hstop).
  unfold record_stream_iterator_next_record. rewrite Hfr.
  cbn [it_cursor set_header set_first_record].
  set (it1 := set_header (set_first_record it false) (it_cursor it)).
  replace (it_cursor it) with (base m + c) by (subst c; lia).
  assert (Hc : 0 <= c <= len (bytes m)) by (subst c; lia).
  assert (Hh1 : it_header it1 < it_stop_at it1) by (cbn; lia).
  destruct (next_record_decode_spec m it1 c dst Hm Hend Hc Hh1 Hdst)
    as (r & dst' & E & Hlen & Hrec).
  exists r, (set_cursor it1 (base m + next_marker (bytes m) c)), dst'.
  split; [exact E|]. split; [exact Hlen|].
  pose proof (next_marker_range buf c Hc).
  split; [unfold wf_iterator; split; [exact Hm|]; cbn; repeat split; try tauto; lia|].
  split; [reflexivity|]. split; [reflexivity|]. split; [reflexivity|].
  destruct (parse_record _) as [[g p]|]; [exact Hrec | exact Hrec].
Qed.

(** The step taken after the first record, when no header is left before
    [stop_at]. *)
Lemma next_record_at_end it dst :
  wf_iterator m it -> it_first_record it = false ->
  it_stop_at it - base m <= next_marker buf (it_cursor it - base m) ->
  record_stream_iterator_next_record ndebug m it dst
  = Ok (-1, set_cursor it (it_end it), dst).
Proof.
  intros Hwf Hfr Hge.
  destruct Hwf as ((Hb0 & Hb1 & _) & Hbeg & Hend & Hfn & Hcur & Hstop).
  unfold record_stream_iterator_next_record. rewrite Hfr.
  rewrite view_offset by lia.
  rewrite Hend.
  replace (base m + len buf - it_cursor it) with (len buf - (it_cursor it - base m)) by lia.
  rewrite to_size_t_small by lia.
  rewrite header_find_next_marker by lia. cbn [bind].
  match goal with |- (if ?c then _ else _) = _ => replace c with true by lia end.
  unfold next_record_eof. now rewrite Hend.
Qed.

(** The step taken after the first record, at the next header. *)
Lemma next_record_later it dst :
  wf_iterator m it -> it_first_record it = false ->
  next_marker buf (it_cursor it - base m) < it_stop_at it - base m ->
  len dst = SIZEOF_read_record ->
  let h := next_marker buf (it_cursor it - base m) in
  exists r it' dst',
    record_stream_iterator_next_record ndebug m it dst = Ok (r, it', dst')
    /\ len dst' = SIZEOF_read_record
    /\ wf_iterator m it' /\ it_first_record it' = false
    /\ it_stop_at it' = it_stop_at it
    /\ it_cursor it' = base m + next_marker buf (h + 2)
    /\ h + 2 <= len buf
    /\ match parse_record (chunk buf (h + 2) (next_marker buf (h + 2))) with
       | Some rec => holds_record dst' r rec
       | None => r = -1
       end.
Proof.
  intros Hwf Hfr Hlt Hdst h.
  destruct Hwf as ((Hb0 & Hb1 & Hb2) & Hbeg & Hend & Hfn & Hcur & Hstop).
  pose proof (next_marker_range buf (it_cursor it - base m) ltac:(lia)) as Hh.
  fold h in Hh, Hlt.
  pose proof (next_marker_found_len buf (it_cursor it - base m) ltac:(lia)) as Hh2.
  fold h in Hh2. specialize (Hh2 ltac:(lia)).
  unfold record_stream_iterator_next_record. rewrite Hfr.
  rewrite view_offset by lia.
  rewrite Hend.
  replace (base m + len buf - it_cursor it) with (len buf - (it_cursor it - base m)) by lia.
  rewrite to_size_t_small by lia.
  rewrite header_find_next_marker by lia. fold h. cbn [bind].
  replace (it_cursor it + (h - (it_cursor it - base m))) with (base m + h) by lia.
  replace (base m + h >=? it_stop_at it) with false by lia.
  unfold CRDB_WORD_STUFF_HEADER_SIZE. cbn [it_end set_header]. rewrite Hend.
  replace (base m + h + 2 <=? base m + len buf) with true by lia.
  rewrite assert_true. cbn [bind].
  set (it1 := set_header it (base m + h)).
  replace (base m + h + 2) with (base m + (h + 2)) by lia.
  assert (Hc : 0 <= h + 2 <= len (bytes m)) by lia.
  assert (Hh1 : it_header it1 < it_stop_at it1) by (cbn; lia).
  destruct (next_record_decode_spec m it1 (h + 2) dst Hm Hend Hc Hh1 Hdst)
    as (r & dst' & E & Hlen & Hrec).
  exists r, (set_cursor it1 (base m + next_marker (bytes m) (h + 2))), dst'.
  split; [exact E|]. split; [exact Hlen|].
  pose proof (next_marker_range buf (h + 2) Hc).
  split; [unfold wf_iterator; split; [exact Hm|]; cbn; repeat split; try tauto; lia|].
  split; [exact Hfr|]. split; [reflexivity|]. split; [reflexivity|].
  split; [exact Hh2|].
  destruct (parse_record _) as [[g p]|]; [exact Hrec | exact Hrec].
Qed.
End Iterator.

Section IteratorNext.
Variable ndebug : bool.
Variable m : memory.
Hypothesis Hm : valid_memory m.

Local Abbreviation buf := (bytes m).

Lemma next_loop_done fuel it dst :
  it_stop_at it <= it_cursor it ->
  iterator_next_loop fuel ndebug m it dst = Ok (-1, set_end (set_cursor it 0) 0, dst).
Proof.
  intros H. destruct fuel; cbn [iterator_next_loop];
    now replace (it_cursor it <? it_stop_at it) with false by lia.
Qed.

Lemma holds_record_nonneg dst r rec : holds_record dst r rec -> 0 <= r.
Proof. intros (-> & _). apply len_nonneg. Qed.

Lemma next_loop_later : forall fuel it dst,
  wf_iterator m it -> it_first_record it = false ->
  len dst = SIZEOF_read_record ->
  base m + len buf - it_cursor it < Z.of_nat fuel ->
  exists res,
    iterator_next_loop fuel ndebug m it dst = Ok res
    /\ next_outcome m it (pending m it) res
    /\ (pending m it <> [] -> it_cursor it < it_cursor (snd (fst res))).
Proof.
  induction fuel as [|fuel IH]; intros it dst Hwf Hfr Hdst Hfuel.
  { destruct Hwf as (_ & _ & _ & _ & Hcur & _). lia. }
  pose proof Hwf as (_ & Hbeg & Hend & Hfn & Hcur & Hstop).
  set (c := it_cursor it - base m). set (s := it_stop_at it - base m).
  assert (Hc : 0 <= c <= len buf) by (subst c; lia).
  assert (Hcc : it_cursor it = base m + c) by (subst c; lia).
  pose proof (next_marker_range buf c Hc) as Hh.
  assert (Hpend : pending m it = scan buf (next_marker buf c) s)
    by (unfold pending; rewrite Hfr; reflexivity).
  rewrite Hpend.
  destruct (Z_le_gt_dec s (next_marker buf c)) as [Hge|Hlt].
  - (* no header before stop_at *)
    rewrite scan_past by exact Hge.
    destruct (Z_le_gt_dec (it_stop_at it) (it_cursor it)) as [Hdone|Hgo].
    + rewrite next_loop_done by exact Hdone.
      eexists. split; [reflexivity|]. split; [|congruence].
      unfold next_outcome. cbn [fst snd]. split; [exact Hdst | reflexivity].
    + cbn [iterator_next_loop].
      replace (it_cursor it <? it_stop_at it) with true by lia.
      rewrite next_record_at_end by (try assumption; subst c s; lia).
      cbn [bind]. change (-1 >=? 0) with false. cbv iota.
      rewrite next_loop_done by (cbn; lia).
      eexists. split; [reflexivity|]. split; [|congruence].
      unfold next_outcome. cbn [fst snd]. split; [exact Hdst | reflexivity].
  - (* a header before stop_at *)
    assert (Hs : s <= len buf) by (subst s; lia).
    rewrite scan_eq by lia.
    replace (next_marker buf c >=? s) with false by lia.
    cbn [iterator_next_loop].
    replace (it_cursor it <? it_stop_at it) with true by (subst c s; lia).
    destruct (next_record_later ndebug m Hm it dst Hwf Hfr ltac:(subst c s; lia) Hdst)
      as (r & it' & dst' & E & Hlen' & Hwf' & Hfr' & Hstop' & Hcur' & Hh2 & Hrec).
    fold c in Hcur', Hh2, Hrec.
    set (h := next_marker buf c) in *.
    pose proof (next_marker_range buf (h + 2) ltac:(lia)) as Hn.
    rewrite E. cbn [bind].
    destruct (parse_record (chunk buf (h + 2) (next_marker buf (h + 2))))
      as [rec|] eqn:Eparse; cbn [cons_opt].
    + pose proof (holds_record_nonneg _ _ _ Hrec) as Hr.
      replace (r >=? 0) with true by lia.
      eexists. split; [reflexivity|]. cbn [fst snd]. split; [|intros _; lia].
      unfold next_outcome. cbn [fst snd]. split; [exact Hlen'|]. split; [exact Hrec|].
      split; [exact Hwf'|]. split; [exact Hfr'|]. split; [exact Hstop'|].
      split; [lia|]. split.
      * unfold pending. rewrite Hfr', Hcur', Hstop'.
        replace (base m + next_marker buf (h + 2) - base m)
          with (next_marker buf (h + 2)) by lia.
        now rewrite next_marker_fix by lia.
      * exists (h + 2). rewrite Hcur'.
        replace (base m + next_marker buf (h + 2) - base m)
          with (next_marker buf (h + 2)) by lia.
        split; [lia|]. split; [lia | exact Eparse].
    + subst r. change (-1 >=? 0) with false. cbv iota.
      destruct (IH it' dst' Hwf' Hfr' Hlen' ltac:(lia)) as (res & E' & Hout & Hprog).
      assert (Hpend' : pending m it' = scan buf (next_marker buf (h + 2)) s).
      { unfold pending. rewrite Hfr', Hcur', Hstop'.
        replace (base m + next_marker buf (h + 2) - base m)
          with (next_marker buf (h + 2)) by lia.
        now rewrite next_marker_fix by lia. }
      rewrite Hpend' in Hout, Hprog.
      exists res. split; [exact E'|].
      destruct res as [[r it''] dst'']. cbn [fst snd] in *.
      split; [|intros Hne; specialize (Hprog Hne); lia].
      destruct Hout as [Hl Hout]. split; [exact Hl|].
      destruct (scan buf (next_marker buf (h + 2)) s) as [|rec rest]; [exact Hout|].
      destruct Hout as (H1 & H2 & H3 & H4 & H5 & H6 & H7).
      split; [exact H1|]. split; [exact H2|]. split; [exact H3|].
      split; [congruence|]. split; [lia|]. split; [exact H6 | exact H7].
Qed.
End IteratorNext.

Section IteratorRecords.
Variable ndebug : bool.
Variable m : memory.
Hypothesis Hm : valid_memory m.

Local Abbreviation buf := (bytes m).

Lemma next_loop_first fuel it dst :
  wf_iterator m it -> it_first_record it = true ->
  len dst = SIZEOF_read_record ->
  base m + len buf - it_cursor it + 1 < Z.of_nat fuel ->
  exists res,
    iterator_next_loop fuel ndebug m it dst = Ok res
    /\ next_outcome m it (pending m it) res.
Proof.
  intros Hwf Hfr Hdst Hfuel.
  pose proof Hwf as (_ & Hbeg & Hend & Hfn & Hcur & Hstop).
  set (c := it_cursor it - base m). set (s := it_stop_at it - base m).
  assert (Hc : 0 <= c <= len buf) by (subst c; lia).
  assert (Hcc : it_cursor it = base m + c) by (subst c; lia).
  pose proof (next_marker_range buf c Hc) as Hh.
  assert (Hpend : pending m it = scan_first buf c s)
    by (unfold pending; rewrite Hfr; reflexivity).
  rewrite Hpend. unfold scan_first.
  destruct (Z_le_gt_dec (it_stop_at it) (it_cursor it)) as [Hdone|Hgo].
  - rewrite next_loop_done by exact Hdone.
    replace (c >=? s) with true by (subst c s; lia).
    eexists. split; [reflexivity|].
    unfold next_outcome. cbn [fst snd]. split; [exact Hdst | reflexivity].
  - replace (c >=? s) with false by (subst c s; lia).
    destruct fuel as [|fuel]; [lia|].
    cbn [iterator_next_loop].
    replace (it_cursor it <? it_stop_at it) with true by lia.
    destruct (next_record_first ndebug m Hm it dst Hwf Hfr ltac:(lia) Hdst)
      as (r & it' & dst' & E & Hlen' & Hwf' & Hfr' & Hstop' & Hcur' & Hrec).
    fold c in Hcur', Hrec. rewrite E. cbn [bind].
    assert (Hpend' : pending m it' = scan buf (next_marker buf c) s).
    { unfold pending. rewrite Hfr', Hcur', Hstop'.
      replace (base m + next_marker buf c - base m) with (next_marker buf c) by lia.
      now rewrite next_marker_fix by lia. }
    destruct (parse_record (chunk buf c (next_marker buf c)))
      as [rec|] eqn:Eparse; cbn [cons_opt].
    + pose proof (holds_record_nonneg _ _ _ Hrec) as Hr.
      replace (r >=? 0) with true by lia.
      eexists. split; [reflexivity|].
      unfold next_outcome. cbn [fst snd]. split; [exact Hlen'|]. split; [exact Hrec|].
      split; [exact Hwf'|]. split; [exact Hfr'|]. split; [exact Hstop'|].
      split; [lia|]. split; [exact Hpend'|].
      exists c. rewrite Hcur'.
      replace (base m + next_marker buf c - base m) with (next_marker buf c) by lia.
      split; [lia|]. split; [lia | exact Eparse].
    + subst r. change (-1 >=? 0) with false. cbv iota.
      destruct (next_loop_later ndebug m Hm fuel it' dst' Hwf' Hfr' Hlen' ltac:(lia))
        as (res & E' & Hout & _).
      rewrite Hpend' in Hout.
      exists res. split; [exact E'|].
      destruct Hout as [Hl Hout]. split; [exact Hl|].
      destruct (scan buf (next_marker buf c) s) as [|rec rest]; [exact Hout|].
      destruct Hout as (H1 & H2 & H3 & H4 & H5 & H6 & H7).
      split; [exact H1|]. split; [exact H2|]. split; [exact H3|].
      split; [congruence|]. split; [lia|]. split; [exact H6 | exact H7].
Qed.

Lemma remaining_nonneg it : wf_iterator m it -> 0 <= remaining m it.
Proof.
  intros (_ & _ & _ & _ & Hcur & _). unfold remaining.
  destruct (it_first_record it); lia.
Qed.

Lemma next_pending it dst :
  wf_iterator m it -> len dst = SIZEOF_read_record ->
  exists res,
    record_stream_iterator_next ndebug m it dst = Ok res
    /\ next_outcome m it (pending m it) res
    /\ (pending m it <> [] ->
        remaining m (snd (fst res)) < remaining m it).
Proof.
  intros Hwf Hdst. unfold record_stream_iterator_next.
  pose proof Hwf as (_ & _ & _ & _ & Hcur & _).
  destruct (it_first_record it) eqn:Hfr.
  - destruct (next_loop_first (S (S (length buf))) it dst Hwf Hfr Hdst)
      as (res & E & Hout); [unfold len; lia|].
    exists res. split; [exact E|]. split; [exact Hout|].
    intros Hne. destruct Hout as [_ Hout].
    destruct (pending m it) as [|rec rest]; [congruence|].
    destruct Hout as (_ & _ & Hfr' & _ & Hle & _).
    unfold remaining. rewrite Hfr, Hfr'. lia.
  - destruct (next_loop_later ndebug m Hm (S (S (length buf))) it dst Hwf Hfr Hdst)
      as (res & E & Hout & Hprog); [unfold len; lia|].
    exists res. split; [exact E|]. split; [exact Hout|].
    intros Hne. specialize (Hprog Hne). destruct Hout as [_ Hout].
    destruct (pending m it) as [|rec rest]; [congruence|].
    destruct Hout as (_ & _ & Hfr' & _).
    unfold remaining. rewrite Hfr, Hfr'. lia.
Qed.

Lemma next_buf_pending it stack dst :
  wf_iterator m it -> len stack = SIZEOF_read_record ->
  CRDB_RECORD_STREAM_BUF_LEN <= len dst ->
  exists r,
    crdb_record_stream_iterator_next_buf ndebug m it stack dst = Ok r
    /\ next_buf_outcome m it (pending m it) dst r.
Proof.
  intros Hwf Hstack Hdst. unfold crdb_record_stream_iterator_next_buf.
  destruct (next_pending it stack Hwf Hstack) as ([[r it'] stack'] & E & Hout & Hprog).
  rewrite E. cbn [bind]. cbn [fst snd] in *.
  destruct Hout as [Hlen Hout]. unfold next_buf_outcome.
  destruct (pending m it) as [|[g p] rest].
  - cbn [fst snd] in Hout. subst r. change (-1 <? 0) with true. cbv iota.
    eexists. split; [reflexivity|]. cbn. tauto.
  - destruct Hout as ((Hr & Hg & Hp & Hbound) & Hwf' & Hfr' & Hstop' & Hle & Hpend' & Hchunk).
    cbn [fst snd] in *. pose proof (len_nonneg p) as Hp0.
    replace (r <? 0) with false by lia.
    replace (r <=? CRDB_RECORD_STREAM_BUF_LEN) with true by lia.
    rewrite assert_true. cbn [bind]. rewrite Hg. cbn [bind].
    unfold SIZEOF_read_record, SIZEOF_record_header, OFFSET_data,
      CRDB_RECORD_STREAM_BUF_LEN, CRDB_RECORD_STREAM_MAX_LEN in *.
    rewrite memcpy_Ok by lia. subst r. rewrite Hp. cbn [bind].
    eexists. split; [reflexivity|]. cbn [nb_ret nb_generation nb_len nb_dst nb_it].
    rewrite take_0, Z.add_0_l. cbn [app].
    repeat (split; [first [reflexivity | assumption | apply Hprog; congruence]|]).
    exact Hchunk.
Qed.

Lemma iterate_pending : forall fuel it,
  wf_iterator m it -> remaining m it < Z.of_nat fuel ->
  iterate fuel ndebug m it = Ok (pending m it).
Proof.
  induction fuel as [|fuel IH]; intros it Hwf Hfuel.
  { pose proof (remaining_nonneg it Hwf). lia. }
  cbn [iterate].
  destruct (next_buf_pending it stack_read_record caller_dst Hwf)
    as (r & E & Hout); [reflexivity | vm_compute; discriminate |].
  rewrite E. cbn [bind]. unfold next_buf_outcome in Hout.
  destruct (pending m it) as [|[g p] rest].
  - destruct Hout as (-> & _). reflexivity.
  - destruct Hout as (-> & -> & -> & -> & Hwf' & Hpend' & Hrem & _).
    rewrite IH by (try assumption; lia). cbn [bind fst snd].
    rewrite Hpend', take_app_len. reflexivity.
Qed.

(** An iterator that has not signalled the end yields its pending
    records. *)
Lemma records_pending it :
  wf_iterator m it -> records ndebug m it = Ok (pending m it).
Proof.
  intros Hwf. apply iterate_pending; [exact Hwf|].
  pose proof Hwf as (_ & _ & _ & _ & Hcur & _).
  unfold remaining, len. destruct (it_first_record it); lia.
Qed.
End IteratorRecords.

(** ** Well-formed iterators *)

Lemma wf_init_buf m :
  valid_memory m ->
  wf_iterator m (crdb_record_stream_iterator_init_buf (base m) (len (bytes m))).
Proof.
  intros Hm. pose proof Hm as (H0 & H1 & _). pose proof (len_nonneg (bytes m)).
  unfold wf_iterator. split; [exact Hm|]. cbn. repeat split; lia.
Qed.

Lemma wf_stop_at m it o :
  wf_iterator m it -> 0 <= o ->
  wf_iterator m (crdb_record_stream_iterator_stop_at it o).
Proof.
  intros Hwf Ho. pose proof Hwf as ((H0 & H1 & _) & Hbeg & Hend & Hfn & Hcur & Hstop).
  unfold crdb_record_stream_iterator_stop_at.
  rewrite Hend, Hbeg.
  replace (base m + len (bytes m) - base m) with (len (bytes m)) by lia.
  rewrite to_size_t_small by lia.
  destruct (o >? len (bytes m)) eqn:E; [exact Hwf|].
  unfold wf_iterator. split; [apply Hwf|]. cbn. repeat split; try tauto; lia.
Qed.

Lemma wf_locate_at m it o :
  wf_iterator m it -> it_first_nonzero it <= it_stop_at it ->
  wf_iterator m (snd (crdb_record_stream_iterator_locate_at it o)).
Proof.
  intros Hwf Hle. pose proof Hwf as ((H0 & H1 & _) & Hbeg & Hend & Hfn & Hcur & Hstop).
  unfold crdb_record_stream_iterator_locate_at. rewrite Hbeg.
  rewrite !to_size_t_small by lia.
  destruct ((o <? it_first_nonzero it - base m) || (o >? it_stop_at it - base m)) eqn:E;
    [exact Hwf|].
  destruct (o =? it_first_nonzero it - base m) eqn:E2; cbn [snd];
    (unfold wf_iterator; split; [apply Hwf|]; cbn; repeat split; try tauto; lia).
Qed.

(** ** C10 and C4 *)

Lemma memcpy_inv dst d src s n dst' :
  memcpy dst d src s n = Ok dst' ->
  0 <= n /\ len (take n (drop s src)) = n
  /\ 0 <= d /\ d + n <= len dst
  /\ dst' = patched dst d (take n (drop s src)).
Proof.
  unfold memcpy. intros H. apply bind_Ok in H as (bs & Hload & Hstore).
  apply load_inv in Hload as (Hn & ->).
  assert (Hl : len (take n (drop s src)) = n) by (apply len_take; lia).
  apply store_inv in Hstore as (Hd & Hroom & ->). rewrite Hl in Hroom.
  repeat split; first [lia | exact Hl | reflexivity].
Qed.

(** C10. What [crdb_record_stream_iterator_next_buf] leaves behind, for
    every memory, iterator state and buffers: whenever it returns false,
    [*generation] and [*len] are 0 and the caller's [dst] is unmodified;
    whenever it returns true, [*len] is the size [record_stream_iterator_next]
    returned, [*generation] is the [generation] field of the record it
    decoded, the first [*len] bytes of [dst] are the first [*len] data bytes
    of that record, and the rest of [dst] is unmodified. *)
Theorem next_buf_frame (ndebug : bool) (m : memory) (it : crdb_record_stream_iterator)
        (stack dst : list byte) (r : next_buf_out) :
  crdb_record_stream_iterator_next_buf ndebug m it stack dst = Ok r ->
  (nb_ret r = false ->
   nb_generation r = 0 /\ nb_len r = 0 /\ nb_dst r = dst)
  /\ (nb_ret r = true ->
      exists stack',
        record_stream_iterator_next ndebug m it stack = Ok (nb_len r, nb_it r, stack')
        /\ 0 <= nb_len r
        /\ load_uint32 (drop OFFSET_generation stack') = Ok (nb_generation r)
        /\ len (nb_dst r) = len dst
        /\ len (take (nb_len r) (nb_dst r)) = nb_len r
        /\ take (nb_len r) (nb_dst r) = take (nb_len r) (drop OFFSET_data stack')
        /\ drop (nb_len r) (nb_dst r) = drop (nb_len r) dst).
Proof.
  unfold crdb_record_stream_iterator_next_buf. intros H.
  apply bind_Ok in H as ([[ps it'] stack'] & Enext & H).
  destruct (ps <? 0) eqn:Eneg.
  - injection H as <-. cbn. split; [tauto | discriminate].
  - apply bind_Ok in H as (_ & _ & H).
    apply bind_Ok in H as (g & Hg & H).
    apply bind_Ok in H as (dst' & Hcpy & H).
    injection H as <-. cbn [nb_ret nb_generation nb_len nb_dst nb_it].
    split; [discriminate|]. intros _.
    apply memcpy_inv in Hcpy as (Hps & Hlen & _ & Hroom & ->).
    set (bs := take ps (drop OFFSET_data stack')) in *.
    exists stack'. split; [exact Enext|]. split; [exact Hps|]. split; [exact Hg|].
    split; [apply len_patched; lia|].
    assert (Htake : take ps (patched dst 0 bs) = bs).
    { rewrite <- Hlen at 1. apply take_patched_0. lia. }
    rewrite Htake. split; [exact Hlen|]. split; [reflexivity|].
    apply drop_patched; lia.
Qed.

Lemma next_buf_frame_witness :
  (nb_ret sample_next = false ->
   nb_generation sample_next = 0 /\ nb_len sample_next = 0
   /\ nb_dst sample_next = caller_dst)
  /\ (nb_ret sample_next = true ->
      exists stack',
        record_stream_iterator_next false sample_memory sample_iterator
                                    stack_read_record
        = Ok (nb_len sample_next, nb_it sample_next, stack')
        /\ 0 <= nb_len sample_next
        /\ load_uint32 (drop OFFSET_generation stack') = Ok (nb_generation sample_next)
        /\ len (nb_dst sample_next) = len caller_dst
        /\ len (take (nb_len sample_next) (nb_dst sample_next)) = nb_len sample_next
        /\ take (nb_len sample_next) (nb_dst sample_next)
           = take (nb_len sample_next) (drop OFFSET_data stack')
        /\ drop (nb_len sample_next) (nb_dst sample_next)
           = drop (nb_len sample_next) caller_dst).
Proof.
  apply (next_buf_frame false sample_memory sample_iterator stack_read_record
                        caller_dst sample_next).
  vm_compute. reflexivity.
Defined.

Example sample_next_record :
  nb_ret sample_next = true /\ nb_generation sample_next = 7
  /\ take (nb_len sample_next) (nb_dst sample_next) = [x68; x65; x6c; x6c; x6f].
Proof. vm_compute. repeat split. Qed.

(** A record that [parse_record] finds in a chunk comes from an envelope
    whose checksum verifies. *)
Lemma parse_record_verified ch g p :
  parse_record ch = Some (g, p) ->
  len ch <= CRDB_RECORD_STREAM_BUF_LEN
  /\ exists decoded,
      crdb_word_stuff_decode stack_read_record ch (len ch)
      = Ok (decoded, Some (SIZEOF_record_header + len p))
      /\ take (SIZEOF_record_header + len p) decoded
         = envelope (castagnoli_crc 0 (envelope CRC_INITIAL_VALUE g p)) g p.
Proof.
  rewrite parse_record_envelope.
  destruct (len ch >? CRDB_RECORD_STREAM_BUF_LEN) eqn:Ebig; [discriminate|].
  destruct (decode_chunk ch) as [d|] eqn:Ed; [|discriminate].
  destruct (len d <? SIZEOF_record_header) eqn:Eshort; [discriminate|].
  cbn zeta.
  destruct (_ =? _) eqn:Ecrc; [|discriminate].
  intros Hgp.
  pose proof (envelope_of_bytes d ltac:(lia)) as Hd.
  assert (Eg : uint32_of_bytes (nth 4 d x00) (nth 5 d x00) (nth 6 d x00) (nth 7 d x00) = g)
    by congruence.
  assert (Ep : drop 8 d = p) by congruence.
  rewrite Eg, Ep in Hd, Ecrc. apply Z.eqb_eq in Ecrc. rewrite Ecrc in Hd.
  split; [lia|].
  destruct (decode_unstuff stack_read_record ch []) as (decoded & E & _ & Hout).
  { change (len stack_read_record) with 1032.
    unfold CRDB_RECORD_STREAM_BUF_LEN, CRDB_RECORD_STREAM_MAX_LEN in Ebig. lia. }
  rewrite app_nil_r, Ed in E. cbn [option_map] in E.
  specialize (Hout d Ed).
  assert (Hl : len d = SIZEOF_record_header + len p)
    by (rewrite Hd at 1; apply len_envelope).
  exists decoded. rewrite <- Hl. split; [exact E|]. now rewrite Hout.
Qed.

(** ** One step of the iterator, in every state *)

Lemma header_find_loop_inv : forall p i n r,
  header_find_loop p i n = Ok r -> i < n -> i <= r <= n + 1 /\ r - i <= len p.
Proof.
  induction p as [|a p IH]; intros i n r H Hi; cbn [header_find_loop] in H;
    replace (i <? n) with true in H by lia; [discriminate|].
  destruct p as [|b p']; [discriminate|].
  destruct (is_header a b).
  - injection H as <-. rewrite !len_cons. pose proof (len_nonneg p'). lia.
  - destruct (Z_lt_ge_dec (i + 1) n) as [Hlt|Hge].
    + apply IH in H; [|exact Hlt]. rewrite len_cons. lia.
    + cbn [header_find_loop] in H. replace (i + 1 <? n) with false in H by lia.
      injection H as <-. rewrite !len_cons. pose proof (len_nonneg p'). lia.
Qed.

Lemma header_find_inv data num found :
  crdb_word_stuff_header_find data num = Ok found -> 0 <= num ->
  0 <= found <= num /\ (found <= len data \/ num < 2).
Proof.
  unfold crdb_word_stuff_header_find, CRDB_WORD_STUFF_HEADER_SIZE. intros H Hnum.
  destruct (num <? 2) eqn:E.
  - injection H as <-. lia.
  - apply header_find_loop_inv in H; lia.
Qed.

Lemma to_size_t_range z : 0 <= to_size_t z <= SIZE_MAX.
Proof.
  unfold to_size_t, SIZE_MAX.
  pose proof (Z.mod_pos_bound z 18446744073709551616 ltac:(lia)). lia.
Qed.

Ltac ok_triple H :=
  match type of H with
  | Ok (?a, ?b, ?c) = Ok (?x, ?y, ?z) =>
      let H1 := fresh in let H2 := fresh in let H3 := fresh in
      assert (H1 : x = a) by congruence; assert (H2 : y = b) by congruence;
      assert (H3 : z = c) by congruence; clear H; subst x y z
  end.

(** Whatever the state of the iterator, a step that returns a size has
    decoded a chunk of the memory whose checksum verifies, and has left
    the cursor at the end of that chunk. *)
Lemma next_record_decode_inv m it e dst r it' dst' :
  len dst = SIZEOF_read_record ->
  next_record_decode m it e dst = Ok (r, it', dst') ->
  len dst' = SIZEOF_read_record
  /\ it_header it' = it_header it /\ it_stop_at it' = it_stop_at it
  /\ it_begin it' = it_begin it /\ it_end it' = it_end it
  /\ it_first_nonzero it' = it_first_nonzero it
  /\ it_first_record it' = it_first_record it
  /\ (r = -1
      \/ it_header it < it_stop_at it
         /\ exists a b rec,
             e = base m + a /\ 0 <= a <= b /\ b <= len (bytes m)
             /\ it_cursor it' = base m + b
             /\ parse_record (chunk (bytes m) a b) = Some rec
             /\ holds_record dst' r rec).
Proof.
  intros Hdst H. unfold next_record_decode in H.
  destruct (it_header it >=? it_stop_at it) eqn:Ehdr.
  { unfold next_record_eof in H. injection H as <- <- <-. cbn. tauto. }
  apply bind_Ok in H as (found & Hfind & H). cbn zeta in H.
  pose proof (to_size_t_range (it_end it - e)) as Hnum.
  apply header_find_inv in Hfind as (Hfound & Hview); [|lia].
  replace (e + found - e) with found in H by lia.
  rewrite (to_size_t_small found) in H by lia.
  unfold SIZEOF_read_record, SIZEOF_record_header, CRDB_RECORD_STREAM_BUF_LEN,
    CRDB_RECORD_STREAM_MAX_LEN in *.
  destruct (found >? 2 * 512) eqn:Ebig.
  { injection H as <- <- <-. cbn. tauto. }
  apply bind_Ok in H as ([dst1 de] & Hdec & H).
  assert (Hle : found <= len (view m e)).
  { destruct Hview as [Hle|Hsmall]; [exact Hle|].
    destruct (view m e) as [|x v] eqn:Ev; [|rewrite len_cons; pose proof (len_nonneg v); lia].
    assert (found = 0 \/ found = 1) as [->| ->] by lia; [unfold len; cbn; lia|].
    unfold crdb_word_stuff_decode in Hdec. cbn in Hdec. discriminate. }
  set (ch := take found (view m e)) in *.
  assert (Hch : len ch = found) by (apply len_take; lia).
  assert (Ev : view m e = ch ++ drop found (view m e)) by (symmetry; apply take_drop).
  destruct (decode_unstuff dst ch (drop found (view m e))) as (dst1' & E & Hlen1 & Hout);
    [lia|].
  rewrite <- Ev, Hch, Hdec in E. injection E as <- ->.
  destruct (decode_chunk ch) as [d|] eqn:Ed; cbn [option_map] in H.
  2:{ injection H as <- <- <-. cbn. repeat split; try reflexivity; try lia; try (now left). }
  specialize (Hout d eq_refl).
  destruct (len d <? 8) eqn:Eshort.
  { injection H as <- <- <-. cbn. repeat split; try reflexivity; try lia; try (now left). }
  set (c := uint32_of_bytes (nth 0 d x00) (nth 1 d x00) (nth 2 d x00) (nth 3 d x00)).
  set (g := uint32_of_bytes (nth 4 d x00) (nth 5 d x00) (nth 6 d x00) (nth 7 d x00)).
  set (p := drop 8 d).
  assert (Ed8 : d = envelope c g p) by (apply envelope_of_bytes; unfold SIZEOF_record_header; lia).
  assert (Edst1 : dst1 = envelope c g p ++ drop (len d) dst1).
  { rewrite <- Ed8. rewrite <- Hout at 1. symmetry. apply take_drop. }
  assert (Hlp : len d = SIZEOF_record_header + len p)
    by (rewrite Ed8 at 1; apply len_envelope).
  pose proof (unstuff_len _ _ _ _ Ed) as Hdlen.
  change (if true then 1 else 2) with 1 in Hdlen.
  rewrite Edst1, Hlp in H.
  rewrite crc_matches_envelope in H by apply uint32_of_bytes_uint32.
  cbn [bind] in H. unfold SIZEOF_record_header in *.
  assert (Hld : len (drop (8 + len p) dst1) = len dst1 - (8 + len p))
    by (apply len_drop; pose proof (len_nonneg p); lia).
  destruct (c =? castagnoli_crc 0 (envelope CRC_INITIAL_VALUE g p)) eqn:Ecrc;
    cbn [negb] in H; ok_triple H;
    (split; [rewrite len_app, len_envelope, Hld; unfold SIZEOF_record_header; lia|]);
    repeat (split; [reflexivity|]); [|now left].
  right. split; [lia|].
  assert (Hin : (base m <=? e) && (e <=? base m + len (bytes m)) = true).
  { destruct ((base m <=? e) && (e <=? base m + len (bytes m))) eqn:Er; [reflexivity|].
    exfalso. assert (Hnil : view m e = []) by (unfold view; now rewrite Er).
    unfold ch in Ed. rewrite Hnil in Ed.
    unfold take in Ed. rewrite firstn_nil in Ed. discriminate. }
  assert (Hv : view m e = drop (e - base m) (bytes m)) by (unfold view; now rewrite Hin).
  assert (Hlv : len (view m e) = len (bytes m) - (e - base m))
    by (rewrite Hv; apply len_drop; lia).
  exists (e - base m), (e - base m + found), (g, p).
  split; [lia|]. split; [lia|]. split; [lia|].
  split; [change (it_cursor (set_cursor it (e + found))) with (e + found); lia|].
  assert (Echunk : chunk (bytes m) (e - base m) (e - base m + found) = ch).
  { unfold chunk. replace (e - base m + found - (e - base m)) with found by lia.
    subst ch. now rewrite Hv. }
  rewrite Echunk. split.
  - rewrite parse_record_envelope, Hch.
    unfold CRDB_RECORD_STREAM_BUF_LEN, CRDB_RECORD_STREAM_MAX_LEN, SIZEOF_record_header.
    rewrite Ebig, Ed, Eshort. cbn zeta. fold c g p. now rewrite Ecrc.
  - unfold holds_record. cbn [fst snd].
    unfold envelope, OFFSET_generation, OFFSET_data, CRDB_RECORD_STREAM_BUF_LEN,
      CRDB_RECORD_STREAM_MAX_LEN. rewrite <- !app_assoc.
    cbn [bytes_of_uint32 app].
    split; [lia|]. split; [|split].
    + change (drop 4 ?l) with (skipn 4 l). cbn [skipn].
      apply (uint32_of_bytes_of_uint32 g). apply uint32_of_bytes_uint32.
    + change (drop 8 ?l) with (skipn 8 l). cbn [skipn]. apply take_app_len.
    + lia.
Qed.

Lemma next_record_inv ndebug m it dst r it' dst' :
  len dst = SIZEOF_read_record ->
  record_stream_iterator_next_record ndebug m it dst = Ok (r, it', dst') ->
  len dst' = SIZEOF_read_record
  /\ it_stop_at it' = it_stop_at it
  /\ it_begin it' = it_begin it /\ it_end it' = it_end it
  /\ it_first_nonzero it' = it_first_nonzero it
  /\ (r = -1
      \/ it_header it' < it_stop_at it
         /\ it_first_record it' = false
         /\ exists a b rec,
             0 <= a <= b /\ b <= len (bytes m)
             /\ it_cursor it' = base m + b
             /\ parse_record (chunk (bytes m) a b) = Some rec
             /\ holds_record dst' r rec
             /\ (if it_first_record it
                 then it_header it' = it_cursor it /\ base m + a = it_cursor it
                 else base m + a = it_header it' + CRDB_WORD_STUFF_HEADER_SIZE
                      /\ exists found,
                          crdb_word_stuff_header_find
                            (view m (it_cursor it))
                            (to_size_t (it_end it - it_cursor it)) = Ok found
                          /\ it_header it' = it_cursor it + found)).
Proof.
  intros Hdst H. unfold record_stream_iterator_next_record in H.
  destruct (it_first_record it) eqn:Hfr.
  - apply next_record_decode_inv in H; [|exact Hdst].
    destruct H as (Hl & Hh & Hs & Hb & He & Hn & Hf & H).
    cbn [set_header set_first_record it_header it_stop_at it_begin it_end
         it_first_nonzero it_first_record it_cursor] in *.
    repeat (split; [assumption|]).
    destruct H as [->|(Hlt & a & b & rec & Ea & Ha & Hb' & Hc & Hp & Hr)]; [now left|].
    right. split; [lia|]. split; [exact Hf|].
    exists a, b, rec. repeat (split; [first [assumption | lia]|]). lia.
  - apply bind_Ok in H as (found & Hfind & H). cbn zeta in H.
    destruct (it_cursor it + found >=? it_stop_at it) eqn:Estop.
    { unfold next_record_eof in H. ok_triple H. split; [exact Hdst|].
      repeat (split; [reflexivity|]). now left. }
    apply bind_Ok in H as (_ & _ & H).
    apply next_record_decode_inv in H; [|exact Hdst].
    destruct H as (Hl & Hh & Hs & Hb & He & Hn & Hf & H).
    cbn [set_header set_first_record it_header it_stop_at it_begin it_end
         it_first_nonzero it_first_record it_cursor] in *.
    repeat (split; [assumption|]).
    destruct H as [->|(Hlt & a & b & rec & Ea & Ha & Hb' & Hc & Hp & Hr)]; [now left|].
    right. split; [lia|]. split; [congruence|].
    exists a, b, rec. repeat (split; [first [assumption | lia]|]).
    exists found. split; [exact Hfind | exact Hh].
Qed.

(** Whatever the state of the iterator, a size returned by
    [record_stream_iterator_next] is that of a record held by a chunk of
    the memory. *)
Lemma next_loop_inv ndebug m : forall fuel it dst r it' dst',
  len dst = SIZEOF_read_record ->
  iterator_next_loop fuel ndebug m it dst = Ok (r, it', dst') ->
  r = -1
  \/ exists a b rec,
      0 <= a <= b /\ b <= len (bytes m)
      /\ it_cursor it' = base m + b
      /\ parse_record (chunk (bytes m) a b) = Some rec
      /\ holds_record dst' r rec.
Proof.
  induction fuel as [|fuel IH]; intros it dst r it' dst' Hdst H;
    cbn [iterator_next_loop] in H.
  - destruct (it_cursor it <? it_stop_at it); [discriminate|]. ok_triple H. now left.
  - destruct (it_cursor it <? it_stop_at it); [|ok_triple H; now left].
    apply bind_Ok in H as ([[r1 it1] dst1] & Hstep & H).
    apply next_record_inv in Hstep; [|exact Hdst].
    destruct Hstep as (Hl & _ & _ & _ & _ & Hstep).
    destruct (r1 >=? 0) eqn:Er.
    + ok_triple H.
      destruct Hstep as [->|(_ & _ & a & b & rec & Ha & Hb & Hc & Hp & Hr & _)];
        [discriminate|].
      right. exists a, b, rec. tauto.
    + apply (IH it1 dst1); assumption.
Qed.

Lemma next_buf_inv ndebug m it stack dst r :
  len stack = SIZEOF_read_record ->
  crdb_record_stream_iterator_next_buf ndebug m it stack dst = Ok r ->
  nb_ret r = true ->
  exists a b,
    0 <= a <= b /\ b <= len (bytes m)
    /\ it_cursor (nb_it r) = base m + b
    /\ parse_record (chunk (bytes m) a b)
       = Some (nb_generation r, take (nb_len r) (nb_dst r)).
Proof.
  intros Hstack H Hret. unfold crdb_record_stream_iterator_next_buf in H.
  apply bind_Ok in H as ([[ps it'] stack'] & Hnext & H).
  destruct (ps <? 0) eqn:Eneg.
  { assert (nb_ret r = false) by (injection H as <-; reflexivity). congruence. }
  apply bind_Ok in H as (_ & _ & H).
  apply bind_Ok in H as (g & Hg & H).
  apply bind_Ok in H as (dst' & Hcpy & H).
  injection H as <-. cbn [nb_ret nb_generation nb_len nb_dst nb_it].
  unfold record_stream_iterator_next in Hnext.
  apply next_loop_inv in Hnext; [|exact Hstack].
  destruct Hnext as [->|(a & b & [g' p] & Ha & Hb & Hc & Hp & Hr)]; [discriminate|].
  destruct Hr as (Hps & Hg' & Hpay & _). cbn [fst snd] in *.
  apply memcpy_inv in Hcpy as (_ & Hlen & _ & Hroom & ->).
  exists a, b. repeat (split; [first [assumption | lia]|]).
  rewrite Hp. f_equal. f_equal; [congruence|].
  subst ps. rewrite Hpay. symmetry. apply take_patched_0. lia.
Qed.

Lemma next_loop_keeps ndebug m : forall fuel it dst r it' dst',
  len dst = SIZEOF_read_record ->
  iterator_next_loop fuel ndebug m it dst = Ok (r, it', dst') ->
  0 <= r ->
  it_begin it' = it_begin it /\ it_end it' = it_end it.
Proof.
  induction fuel as [|fuel IH]; intros it dst r it' dst' Hdst H Hr;
    cbn [iterator_next_loop] in H.
  - destruct (it_cursor it <? it_stop_at it); [discriminate|]. ok_triple H. lia.
  - destruct (it_cursor it <? it_stop_at it); [|ok_triple H; lia].
    apply bind_Ok in H as ([[r1 it1] dst1] & Hstep & H).
    apply next_record_inv in Hstep; [|exact Hdst].
    destruct Hstep as (Hl & _ & Hb & He & _ & _).
    destruct (r1 >=? 0).
    + ok_triple H. tauto.
    + apply IH in H; [|assumption..]. destruct H. split; congruence.
Qed.

Lemma next_buf_false ndebug m it stack dst r :
  crdb_record_stream_iterator_next_buf ndebug m it stack dst = Ok r ->
  nb_ret r = false ->
  nb_generation r = 0 /\ nb_len r = 0 /\ nb_dst r = dst.
Proof.
  intros E Hret. unfold crdb_record_stream_iterator_next_buf in E.
  apply bind_Ok in E as ([[ps it'] stack'] & _ & E).
  destruct (ps <? 0).
  - injection E as <-. cbn. tauto.
  - apply bind_Ok in E as (_ & _ & E). apply bind_Ok in E as (g & _ & E).
    apply bind_Ok in E as (dst' & _ & E).
    assert (nb_ret r = true) by (injection E as <-; reflexivity). congruence.
Qed.

(** C4. Every record [next_buf] emits has a verifying checksum, whatever
    the state of the iterator: for every memory and every iterator state
    (reachable or not: before or after the end was signalled, after any
    [locate_at] and [stop_at], with or without assertions), a call that
    returns false leaves [*generation] and [*len] zero and [dst]
    untouched, and a call that returns true yields a record [(g, p)] such
    that some chunk [bytes[a ... b - 1]] of the stream, of at most 1024
    bytes and ending at the new cursor, decodes to the envelope
    [crc || g || p] where [crc] is the CRC32C of the envelope with its
    [crc] field set to [0xFFFFFFFF].  Nothing else is ever surfaced.
    Moreover, on an iterator that has not signalled the end the call
    returns, and the iterator it leaves after a record is again such an
    iterator. *)
Theorem next_buf_crc_verified (ndebug : bool) (m : memory)
        (it : crdb_record_stream_iterator) (stack dst : list byte) :
  len stack = SIZEOF_read_record ->
  (forall r,
     crdb_record_stream_iterator_next_buf ndebug m it stack dst = Ok r ->
     (nb_ret r = false ->
      nb_generation r = 0 /\ nb_len r = 0 /\ nb_dst r = dst)
     /\ (nb_ret r = true ->
         exists a decoded,
           let b := it_cursor (nb_it r) - base m in
           let g := nb_generation r in
           let p := take (nb_len r) (nb_dst r) in
           0 <= a <= b /\ b <= len (bytes m)
           /\ b - a <= CRDB_RECORD_STREAM_BUF_LEN
           /\ crdb_word_stuff_decode stack_read_record (chunk (bytes m) a b) (b - a)
              = Ok (decoded, Some (SIZEOF_record_header + len p))
           /\ take (SIZEOF_record_header + len p) decoded
              = envelope (castagnoli_crc 0 (envelope CRC_INITIAL_VALUE g p)) g p))
  /\ (wf_iterator m it -> CRDB_RECORD_STREAM_BUF_LEN <= len dst ->
      exists r,
        crdb_record_stream_iterator_next_buf ndebug m it stack dst = Ok r
        /\ (nb_ret r = true -> wf_iterator m (nb_it r))).
Proof.
  intros Hstack. split.
  - intros r E. split; [now apply (next_buf_false ndebug m it stack dst)|].
    intros Hret.
    destruct (next_buf_inv ndebug m it stack dst r Hstack E Hret)
      as (a & b & Ha & Hb & Hc & Hparse).
    apply parse_record_verified in Hparse as (Hbig & decoded & Edec & Henv).
    rewrite len_chunk in Hbig, Edec by lia.
    exists a, decoded. cbn zeta.
    replace (it_cursor (nb_it r) - base m) with b by lia.
    repeat split; try lia; assumption.
  - intros Hwf Hdst. pose proof Hwf as (Hm & _).
    destruct (next_buf_pending ndebug m Hm it stack dst Hwf Hstack Hdst) as (r & E & Hout).
    exists r. split; [exact E|]. unfold next_buf_outcome in Hout.
    destruct (pending m it) as [|[g p] rest].
    + destruct Hout as (Hret & _). congruence.
    + intros _. apply Hout.
Qed.

Lemma next_buf_crc_verified_witness :
  (exists a decoded,
      let b := it_cursor (nb_it sample_next) - base sample_memory in
      let g := nb_generation sample_next in
      let p := take (nb_len sample_next) (nb_dst sample_next) in
      0 <= a <= b /\ b <= len (bytes sample_memory)
      /\ b - a <= CRDB_RECORD_STREAM_BUF_LEN
      /\ crdb_word_stuff_decode stack_read_record
                                (chunk (bytes sample_memory) a b) (b - a)
         = Ok (decoded, Some (SIZEOF_record_header + len p))
      /\ take (SIZEOF_record_header + len p) decoded
         = envelope (castagnoli_crc 0 (envelope CRC_INITIAL_VALUE g p)) g p)
  /\ (exists a decoded,
         let b := it_cursor (nb_it sample_relocated_next) - base sample_memory in
         let g := nb_generation sample_relocated_next in
         let p := take (nb_len sample_relocated_next) (nb_dst sample_relocated_next) in
         0 <= a <= b /\ b <= len (bytes sample_memory)
         /\ b - a <= CRDB_RECORD_STREAM_BUF_LEN
         /\ crdb_word_stuff_decode stack_read_record
                                   (chunk (bytes sample_memory) a b) (b - a)
            = Ok (decoded, Some (SIZEOF_record_header + len p))
         /\ take (SIZEOF_record_header + len p) decoded
            = envelope (castagnoli_crc 0 (envelope CRC_INITIAL_VALUE g p)) g p).
Proof.
  split.
  - apply (proj1 (next_buf_crc_verified false sample_memory sample_iterator
                                         stack_read_record caller_dst eq_refl)
                 sample_next); reflexivity.
  - apply (proj1 (next_buf_crc_verified true sample_memory sample_relocated
                                         stack_read_record caller_dst eq_refl)
                 sample_relocated_next); reflexivity.
Defined.

(** ** Splitting a stream *)

Lemma cons_opt_app {A} (x : option A) (a b : list A) :
  cons_opt x (a ++ b) = cons_opt x a ++ b.
Proof. destruct x; reflexivity. Qed.

Lemma pending_init_buf m :
  pending m (crdb_record_stream_iterator_init_buf (base m) (len (bytes m)))
  = scan_first (bytes m) 0 (len (bytes m)).
Proof.
  unfold pending. cbn. f_equal; lia.
Qed.

(** ** Records and the offsets of their first bytes *)

Lemma scan_headers_at_enough buf stop : forall f1 f2 h,
  stop - h < Z.of_nat f1 -> stop - h < Z.of_nat f2 ->
  scan_headers_at f1 buf h stop = scan_headers_at f2 buf h stop.
Proof.
  induction f1 as [|f1 IH]; intros f2 h H1 H2.
  - destruct f2; [reflexivity|]. cbn [scan_headers_at].
    now replace (h >=? stop) with true by lia.
  - destruct f2 as [|f2].
    + cbn [scan_headers_at]. now replace (h >=? stop) with true by lia.
    + cbn [scan_headers_at]. destruct (h >=? stop) eqn:E; [reflexivity|].
      f_equal. unfold CRDB_WORD_STUFF_HEADER_SIZE.
      pose proof (next_marker_advance buf (h + 2)).
      apply IH; lia.
Qed.

Lemma scan_at_eq buf h stop :
  0 <= h -> stop <= len buf ->
  scan_at buf h stop
  = if h >=? stop then []
    else cons_opt (option_map (pair h)
                     (parse_record (chunk buf (h + 2) (next_marker buf (h + 2)))))
                  (scan_at buf (next_marker buf (h + 2)) stop).
Proof.
  intros Hh Hstop. unfold scan_at at 1. cbn [scan_headers_at].
  destruct (h >=? stop) eqn:E; [reflexivity|].
  unfold CRDB_WORD_STUFF_HEADER_SIZE. f_equal.
  pose proof (next_marker_advance buf (h + 2)).
  apply scan_headers_at_enough; unfold len in *; lia.
Qed.

Lemma scan_at_past buf h stop : stop <= h -> scan_at buf h stop = [].
Proof.
  intros H. unfold scan_at. cbn [scan_headers_at].
  now replace (h >=? stop) with true by lia.
Qed.

Lemma map_snd_cons_opt {A} (pos : Z) (x : option A) (l : list (Z * A)) :
  map snd (cons_opt (option_map (pair pos) x) l) = cons_opt x (map snd l).
Proof. destruct x; reflexivity. Qed.

Lemma scan_headers_at_records buf stop : forall fuel h,
  map snd (scan_headers_at fuel buf h stop) = scan_headers fuel buf h stop.
Proof.
  induction fuel as [|fuel IH]; intros h; [reflexivity|].
  cbn [scan_headers_at scan_headers]. destruct (h >=? stop); [reflexivity|].
  cbn zeta. now rewrite map_snd_cons_opt, IH.
Qed.

Lemma pending_at_records m it : map snd (pending_at m it) = pending m it.
Proof.
  unfold pending_at, pending, scan_first_at, scan_first, scan_at, scan.
  destruct (it_first_record it).
  - destruct (_ >=? _); [reflexivity|]. cbn zeta.
    now rewrite map_snd_cons_opt, scan_headers_at_records.
  - apply scan_headers_at_records.
Qed.

(** The offsets found from [h] on lie between [h] and [stop]. *)
Lemma scan_headers_at_bounds buf stop : forall fuel h,
  Forall (fun x : located => h <= fst x < stop) (scan_headers_at fuel buf h stop).
Proof.
  induction fuel as [|fuel IH]; intros h; [constructor|].
  cbn [scan_headers_at]. destruct (h >=? stop) eqn:E; [constructor|]. cbn zeta.
  unfold CRDB_WORD_STUFF_HEADER_SIZE.
  pose proof (next_marker_advance buf (h + 2)) as Hadv.
  assert (Hrest : Forall (fun x : located => h <= fst x < stop)
                         (scan_headers_at fuel buf (next_marker buf (h + 2)) stop)).
  { eapply Forall_impl; [|apply IH]. cbn beta. intros x Hx. lia. }
  destruct (parse_record _); cbn [option_map cons_opt]; [|exact Hrest].
  constructor; [cbn; lia | exact Hrest].
Qed.

Lemma scan_at_split buf o :
  0 < o <= len buf ->
  forall (n : nat) h,
    0 <= h <= len buf -> next_marker buf h = h -> h <= next_marker buf o ->
    len buf - h <= Z.of_nat n ->
    scan_at buf h (len buf)
    = scan_at buf h o ++ scan_at buf (next_marker buf o) (len buf).
Proof.
  intros Ho. induction n as [|n IH]; intros h Hh Hfix Hle Hn.
  - assert (h = len buf) by lia. subst h.
    assert (E : next_marker buf o = len buf).
    { pose proof (next_marker_range buf o ltac:(lia)). lia. }
    rewrite E. rewrite (scan_at_past buf (len buf) o) by lia. reflexivity.
  - destruct (Z_le_gt_dec o h) as [Hoh|Hoh].
    + rewrite (scan_at_past buf h o) by lia. cbn [app].
      pose proof (next_marker_mono buf o h ltac:(lia) ltac:(lia)) as Hm.
      rewrite Hfix in Hm. now replace (next_marker buf o) with h by lia.
    + pose proof (next_marker_found_len buf h ltac:(lia) ltac:(lia)) as H2.
      rewrite Hfix in H2.
      pose proof (next_marker_range buf (h + 2) ltac:(lia)) as Hr.
      rewrite (scan_at_eq buf h (len buf)) by lia.
      rewrite (scan_at_eq buf h o) by lia.
      replace (h >=? len buf) with false by lia.
      replace (h >=? o) with false by lia.
      rewrite <- cons_opt_app. f_equal.
      apply IH; try lia.
      * apply next_marker_fix. lia.
      * destruct (Z_le_gt_dec (h + 2) o).
        -- apply next_marker_mono; lia.
        -- replace o with (h + 1) by lia.
           rewrite (next_marker_skip buf h) by lia. lia.
Qed.

Lemma iterate_located_records ndebug m : forall fuel it l,
  iterate_located fuel ndebug m it = Ok l ->
  iterate fuel ndebug m it = Ok (map snd l).
Proof.
  induction fuel as [|fuel IH]; intros it l H; [discriminate|].
  cbn [iterate_located iterate] in *.
  apply bind_Ok in H as (r & E & H). rewrite E. cbn [bind].
  destruct (nb_ret r).
  - apply bind_Ok in H as (rest & Erest & H). rewrite (IH _ _ Erest). cbn [bind].
    injection H as <-. reflexivity.
  - injection H as <-. reflexivity.
Qed.

Section IteratorLocated.
Variable ndebug : bool.
Variable m : memory.
Hypothesis Hm : valid_memory m.

Local Abbreviation buf := (bytes m).

Lemma next_loop_later_at : forall fuel it dst r it' dst',
  wf_iterator m it -> it_first_record it = false ->
  len dst = SIZEOF_read_record ->
  iterator_next_loop fuel ndebug m it dst = Ok (r, it', dst') -> 0 <= r ->
  exists rec rest,
    pending_at m it = (it_header it' - base m, rec) :: rest
    /\ pending_at m it' = rest.
Proof.
  induction fuel as [|fuel IH]; intros it dst r it' dst' Hwf Hfr Hdst H Hr;
    cbn [iterator_next_loop] in H.
  { destruct (it_cursor it <? it_stop_at it); [discriminate | ok_triple H; lia]. }
  destruct (it_cursor it <? it_stop_at it) eqn:Elt; [|ok_triple H; lia].
  pose proof Hwf as ((Hb0 & Hb1 & _) & Hbeg & Hend & Hfn & Hcur & Hstop).
  set (c := it_cursor it - base m). set (s := it_stop_at it - base m).
  assert (Hc : 0 <= c <= len buf) by (subst c; lia).
  pose proof (next_marker_range buf c Hc) as Hh.
  assert (Hs : s <= len buf) by (subst s; lia).
  assert (Hpend : pending_at m it = scan_at buf (next_marker buf c) s)
    by (unfold pending_at; rewrite Hfr; reflexivity).
  destruct (Z_le_gt_dec s (next_marker buf c)) as [Hge|Hlt].
  - rewrite next_record_at_end in H by (try assumption; subst c s; lia).
    cbn [bind] in H. change (-1 >=? 0) with false in H. cbv iota in H.
    rewrite next_loop_done in H by (cbn; lia). ok_triple H. lia.
  - destruct (next_record_later ndebug m Hm it dst Hwf Hfr ltac:(subst c s; lia) Hdst)
      as (r1 & it1 & dst1 & E & Hlen' & Hwf' & Hfr' & Hstop' & Hcur' & Hh2 & Hrec).
    fold c in Hcur', Hh2, Hrec.
    set (h := next_marker buf c) in *.
    pose proof (next_marker_range buf (h + 2) ltac:(lia)) as Hn.
    pose proof (next_record_inv ndebug m it dst r1 it1 dst1 Hdst E)
      as (_ & _ & _ & _ & _ & Hinv).
    rewrite E in H. cbn [bind] in H.
    assert (Hpend' : pending_at m it1 = scan_at buf (next_marker buf (h + 2)) s).
    { unfold pending_at. rewrite Hfr', Hcur', Hstop'.
      replace (base m + next_marker buf (h + 2) - base m)
        with (next_marker buf (h + 2)) by lia.
      now rewrite next_marker_fix by lia. }
    rewrite Hpend, scan_at_eq by lia.
    replace (h >=? s) with false by lia.
    destruct (parse_record (chunk buf (h + 2) (next_marker buf (h + 2))))
      as [rec|] eqn:Eparse; cbn [option_map cons_opt].
    + pose proof (holds_record_nonneg _ _ _ Hrec) as Hr1.
      replace (r1 >=? 0) with true in H by lia. ok_triple H.
      destruct Hinv as [->|(_ & _ & a & b & rec' & _ & _ & _ & _ & _ & Hhdr)]; [lia|].
      rewrite Hfr in Hhdr. destruct Hhdr as (_ & found & Hfind & Hhdr).
      rewrite view_offset, Hend in Hfind by lia.
      replace (base m + len buf - it_cursor it) with (len buf - c) in Hfind
        by (subst c; lia).
      rewrite to_size_t_small in Hfind by lia. fold c in Hfind.
      rewrite header_find_next_marker in Hfind by lia. fold h in Hfind.
      assert (found = h - c) by congruence.
      exists rec, (scan_at buf (next_marker buf (h + 2)) s).
      split; [|exact Hpend']. f_equal. f_equal. subst c found. lia.
    + subst r1. change (-1 >=? 0) with false in H. cbv iota in H.
      rewrite <- Hpend'. apply (IH it1 dst1 r it' dst'); assumption.
Qed.

Lemma next_loop_first_at fuel it dst r it' dst' :
  wf_iterator m it -> it_first_record it = true ->
  len dst = SIZEOF_read_record ->
  iterator_next_loop fuel ndebug m it dst = Ok (r, it', dst') -> 0 <= r ->
  exists rec rest,
    pending_at m it = (it_header it' - base m, rec) :: rest
    /\ pending_at m it' = rest.
Proof.
  intros Hwf Hfr Hdst H Hr. destruct fuel as [|fuel]; cbn [iterator_next_loop] in H.
  { destruct (it_cursor it <? it_stop_at it); [discriminate | ok_triple H; lia]. }
  destruct (it_cursor it <? it_stop_at it) eqn:Elt; [|ok_triple H; lia].
  pose proof Hwf as ((Hb0 & Hb1 & _) & Hbeg & Hend & Hfn & Hcur & Hstop).
  set (c := it_cursor it - base m). set (s := it_stop_at it - base m).
  assert (Hc : 0 <= c <= len buf) by (subst c; lia).
  pose proof (next_marker_range buf c Hc) as Hh.
  destruct (next_record_first ndebug m Hm it dst Hwf Hfr ltac:(lia) Hdst)
    as (r1 & it1 & dst1 & E & Hlen' & Hwf' & Hfr' & Hstop' & Hcur' & Hrec).
  fold c in Hcur', Hrec.
  pose proof (next_record_inv ndebug m it dst r1 it1 dst1 Hdst E)
    as (_ & _ & _ & _ & _ & Hinv).
  rewrite E in H. cbn [bind] in H.
  assert (Hpend' : pending_at m it1 = scan_at buf (next_marker buf c) s).
  { unfold pending_at. rewrite Hfr', Hcur', Hstop'.
    replace (base m + next_marker buf c - base m) with (next_marker buf c) by lia.
    now rewrite next_marker_fix by lia. }
  unfold pending_at at 1. rewrite Hfr. fold c s. unfold scan_first_at.
  replace (c >=? s) with false by (subst c s; lia). cbn zeta.
  destruct (parse_record (chunk buf c (next_marker buf c)))
    as [rec|] eqn:Eparse; cbn [option_map cons_opt].
  - pose proof (holds_record_nonneg _ _ _ Hrec) as Hr1.
    replace (r1 >=? 0) with true in H by lia. ok_triple H.
    destruct Hinv as [->|(_ & _ & a & b & rec' & _ & _ & _ & _ & _ & Hhdr)]; [lia|].
    rewrite Hfr in Hhdr. destruct Hhdr as (Hhdr & _).
    exists rec, (scan_at buf (next_marker buf c) s).
    split; [|exact Hpend']. f_equal. f_equal. subst c. lia.
  - subst r1. change (-1 >=? 0) with false in H. cbv iota in H.
    rewrite <- Hpend'. apply (next_loop_later_at fuel it1 dst1 r it' dst'); assumption.
Qed.

Lemma pending_at_nil it : pending m it = [] -> pending_at m it = [].
Proof.
  intros H. rewrite <- pending_at_records in H.
  destruct (pending_at m it); [reflexivity | discriminate].
Qed.

(** A call of [next_buf] on an iterator that has not signalled the end
    yields the first of the pending records and leaves its offset in
    [header]. *)
Lemma next_buf_pending_at it :
  wf_iterator m it ->
  exists r,
    crdb_record_stream_iterator_next_buf ndebug m it stack_read_record caller_dst = Ok r
    /\ match pending_at m it with
       | [] => nb_ret r = false
       | x :: rest =>
           nb_ret r = true
           /\ x = (it_header (nb_it r) - it_begin (nb_it r),
                   (nb_generation r, take (nb_len r) (nb_dst r)))
           /\ wf_iterator m (nb_it r)
           /\ pending_at m (nb_it r) = rest
           /\ remaining m (nb_it r) < remaining m it
       end.
Proof.
  intros Hwf.
  destruct (next_buf_pending ndebug m Hm it stack_read_record caller_dst Hwf)
    as (r & E & Hout); [reflexivity | vm_compute; discriminate |].
  exists r. split; [exact E|]. unfold next_buf_outcome in Hout.
  pose proof (pending_at_records m it) as Hmap.
  destruct (pending m it) as [|[g p] rest].
  { destruct (pending_at m it); [|discriminate]. apply Hout. }
  destruct Hout as (Hret & Hg & Hl & Hd & Hwf' & _ & Hrem & _).
  cbn [fst snd] in *.
  unfold crdb_record_stream_iterator_next_buf in E.
  apply bind_Ok in E as ([[ps it'] stack'] & Hnext & E).
  destruct (ps <? 0) eqn:Eneg.
  { assert (nb_ret r = false) by (injection E as <-; reflexivity). congruence. }
  apply bind_Ok in E as (_ & _ & E). apply bind_Ok in E as (g' & _ & E).
  apply bind_Ok in E as (dst' & _ & E).
  assert (Hit : nb_it r = it') by (injection E as <-; reflexivity).
  unfold record_stream_iterator_next in Hnext.
  assert (Hat : exists rec rest',
             pending_at m it = (it_header it' - base m, rec) :: rest'
             /\ pending_at m it' = rest').
  { destruct (it_first_record it) eqn:Hfr.
    - apply (next_loop_first_at (S (S (length buf))) it stack_read_record ps it' stack');
        try assumption; [reflexivity | lia].
    - apply (next_loop_later_at (S (S (length buf))) it stack_read_record ps it' stack');
        try assumption; [reflexivity | lia]. }
  destruct Hat as (rec & rest' & Hp & Hp'). rewrite Hp in Hmap |- *.
  cbn [map snd] in Hmap. injection Hmap as Hrec Hrest.
  rewrite Hit in *. pose proof Hwf' as (_ & Hbeg' & _).
  split; [exact Hret|]. split.
  - rewrite Hbeg', Hg, Hl, Hd, take_app_len. now rewrite Hrec.
  - split; [exact Hwf'|]. split; [exact Hp' | exact Hrem].
Qed.
End IteratorLocated.

Lemma iterate_located_pending ndebug m :
  valid_memory m ->
  forall fuel it,
    wf_iterator m it -> remaining m it < Z.of_nat fuel ->
    iterate_located fuel ndebug m it = Ok (pending_at m it).
Proof.
  intros Hm. induction fuel as [|fuel IH]; intros it Hwf Hfuel.
  { pose proof (remaining_nonneg m it Hwf). lia. }
  cbn [iterate_located].
  destruct (next_buf_pending_at ndebug m Hm it Hwf) as (r & E & Hout).
  rewrite E. cbn [bind].
  destruct (pending_at m it) as [|x rest].
  - rewrite Hout. reflexivity.
  - destruct Hout as (-> & -> & Hwf' & Hpend' & Hrem).
    rewrite IH by (try assumption; lia). cbn [bind]. now rewrite Hpend'.
Qed.

(** An iterator that has not signalled the end yields its pending
    records, each with [header] at the offset of its first byte. *)
Lemma located_records_pending ndebug m it :
  valid_memory m -> wf_iterator m it ->
  located_records ndebug m it = Ok (pending_at m it).
Proof.
  intros Hm Hwf. apply iterate_located_pending; [exact Hm | exact Hwf|].
  pose proof Hwf as (_ & _ & _ & _ & Hcur & _).
  unfold remaining, len. destruct (it_first_record it); lia.
Qed.

Lemma located_records_records ndebug m it l :
  located_records ndebug m it = Ok l -> records ndebug m it = Ok (map snd l).
Proof. apply iterate_located_records. Qed.

Lemma scan_first_at_bounds buf c stop :
  Forall (fun x : located => c <= fst x < stop) (scan_first_at buf c stop).
Proof.
  unfold scan_first_at. destruct (c >=? stop) eqn:E; [constructor|]. cbn zeta.
  pose proof (next_marker_advance buf c) as Hadv.
  assert (Hrest : Forall (fun x : located => c <= fst x < stop)
                         (scan_at buf (next_marker buf c) stop)).
  { eapply Forall_impl; [|apply scan_headers_at_bounds]. cbn beta. intros x Hx. lia. }
  destruct (parse_record _); cbn [option_map cons_opt]; [|exact Hrest].
  constructor; [cbn; lia | exact Hrest].
Qed.

(** C7, amended. Splitting a stream at an offset within the buffer: for
    every buffer and every offset [o] with [0 <= o <= size], [locate_at(o)]
    succeeds on a fresh iterator, and the records yielded under
    [stop_at(o)], followed by the records yielded after [locate_at(o)],
    are the records yielded by iterating the whole buffer, each with the
    same offset of its first byte ([it->header]: the position of its
    header, or the start of the buffer for a first record without
    header).  Each record falls in one half by that offset: it is below
    [o] for every record of the first half, and at least [o] for every
    record of the second. *)
Theorem stop_at_locate_at_partition (ndebug : bool) (m : memory) (o : Z) :
  valid_memory m -> 0 <= o <= len (bytes m) ->
  let it := crdb_record_stream_iterator_init_buf (base m) (len (bytes m)) in
  exists whole first second,
    located_records ndebug m it = Ok whole
    /\ located_records ndebug m (crdb_record_stream_iterator_stop_at it o) = Ok first
    /\ fst (crdb_record_stream_iterator_locate_at it o) = true
    /\ located_records ndebug m (snd (crdb_record_stream_iterator_locate_at it o))
       = Ok second
    /\ first ++ second = whole
    /\ Forall (fun x : located => 0 <= fst x < o) first
    /\ Forall (fun x : located => o <= fst x < len (bytes m)) second
    /\ records ndebug m it = Ok (map snd whole)
    /\ records ndebug m (crdb_record_stream_iterator_stop_at it o) = Ok (map snd first)
    /\ records ndebug m (snd (crdb_record_stream_iterator_locate_at it o))
       = Ok (map snd second).
Proof.
  intros Hm Ho it. pose proof Hm as (Hb0 & Hb1 & _).
  set (buf := bytes m) in *. pose proof (len_nonneg buf) as HL.
  pose proof (wf_init_buf m Hm) as Hwf. fold buf it in Hwf.
  assert (Hstop : wf_iterator m (crdb_record_stream_iterator_stop_at it o))
    by (apply wf_stop_at; [exact Hwf | lia]).
  assert (Hloc : wf_iterator m (snd (crdb_record_stream_iterator_locate_at it o)))
    by (apply wf_locate_at; [exact Hwf | cbn; lia]).
  pose proof (located_records_pending ndebug m _ Hm Hwf) as Ew.
  pose proof (located_records_pending ndebug m _ Hm Hstop) as Ef.
  pose proof (located_records_pending ndebug m _ Hm Hloc) as Es.
  assert (Hfst : fst (crdb_record_stream_iterator_locate_at it o) = true
                 /\ pending_at m it = scan_first_at buf 0 (len buf)
                 /\ pending_at m (crdb_record_stream_iterator_stop_at it o)
                    = scan_first_at buf 0 o
                 /\ pending_at m (snd (crdb_record_stream_iterator_locate_at it o))
                    = if o =? 0 then scan_first_at buf 0 (len buf)
                      else scan_at buf (next_marker buf o) (len buf)).
  { unfold crdb_record_stream_iterator_stop_at, crdb_record_stream_iterator_locate_at.
    cbn [it it_end it_begin it_first_nonzero it_stop_at
         crdb_record_stream_iterator_init_buf].
    replace (base m - base m) with 0 by lia.
    replace (base m + len buf - base m) with (len buf) by lia.
    rewrite !to_size_t_small by lia.
    replace (o <? 0) with false by lia. replace (o >? len buf) with false by lia.
    cbn [orb]. unfold pending_at.
    destruct (o =? 0) eqn:Ezero; cbn [fst snd]; cbn;
      replace (base m - base m) with 0 by lia;
      replace (base m + len buf - base m) with (len buf) by lia;
      replace (base m + o - base m) with o by lia; repeat split; reflexivity. }
  destruct Hfst as (Hfst & Pw & Pf & Ps). rewrite Pw in Ew. rewrite Pf in Ef.
  rewrite Ps in Es.
  eexists. eexists. eexists.
  split; [exact Ew|]. split; [exact Ef|]. split; [exact Hfst|]. split; [exact Es|].
  rewrite (located_records_records _ _ _ _ Ew), (located_records_records _ _ _ _ Ef),
    (located_records_records _ _ _ _ Es).
  assert (Hsplit : scan_first_at buf 0 o
                   ++ (if o =? 0 then scan_first_at buf 0 (len buf)
                       else scan_at buf (next_marker buf o) (len buf))
                   = scan_first_at buf 0 (len buf)).
  { destruct (o =? 0) eqn:Ezero.
    - assert (o = 0) by lia. subst o. unfold scan_first_at at 1.
      now replace (0 >=? 0) with true by lia.
    - unfold scan_first_at.
      replace (0 >=? o) with false by lia.
      replace (0 >=? len buf) with false by lia. cbn zeta.
      rewrite <- cons_opt_app. f_equal.
      pose proof (next_marker_range buf 0 ltac:(lia)) as Hr0.
      assert (Hfix : next_marker buf (next_marker buf 0) = next_marker buf 0)
        by (apply next_marker_fix; lia).
      assert (Hmono : next_marker buf 0 <= next_marker buf o)
        by (apply next_marker_mono; lia).
      assert (Hn : len buf - next_marker buf 0 <= Z.of_nat (S (length buf)))
        by (unfold len; lia).
      symmetry.
      exact (scan_at_split buf o ltac:(lia) (S (length buf)) (next_marker buf 0)
                           ltac:(lia) Hfix Hmono Hn). }
  split; [exact Hsplit|]. split; [apply scan_first_at_bounds|]. split; [|tauto].
  destruct (o =? 0) eqn:Ezero.
  - eapply Forall_impl; [|apply scan_first_at_bounds]. cbn beta. intros x Hx. lia.
  - pose proof (next_marker_advance buf o).
    eapply Forall_impl; [|apply scan_headers_at_bounds]. cbn beta. intros x Hx. lia.
Qed.

Example sample_two_records_split :
  located_records false (mapped_at 4096 sample_two_records)
                  (crdb_record_stream_iterator_stop_at
                     (crdb_record_stream_iterator_init_buf 4096 (len sample_two_records))
                     10)
  = Ok [(0, (7, [x68; x65; x6c; x6c; x6f]))]
  /\ located_records false (mapped_at 4096 sample_two_records)
                     (snd (crdb_record_stream_iterator_locate_at
                             (crdb_record_stream_iterator_init_buf
                                4096 (len sample_two_records))
                             10))
     = Ok [(16, (9, [x68; x69]))].
Proof. split; vm_compute; reflexivity. Qed.

Lemma stop_at_locate_at_partition_witness :
  let m := mapped_at 4096 sample_two_records in
  let it := crdb_record_stream_iterator_init_buf (base m) (len (bytes m)) in
  exists whole first second,
    located_records false m it = Ok whole
    /\ located_records false m (crdb_record_stream_iterator_stop_at it 10) = Ok first
    /\ fst (crdb_record_stream_iterator_locate_at it 10) = true
    /\ located_records false m (snd (crdb_record_stream_iterator_locate_at it 10))
       = Ok second
    /\ first ++ second = whole
    /\ Forall (fun x : located => 0 <= fst x < 10) first
    /\ Forall (fun x : located => 10 <= fst x < len (bytes m)) second
    /\ records false m it = Ok (map snd whole)
    /\ records false m (crdb_record_stream_iterator_stop_at it 10) = Ok (map snd first)
    /\ records false m (snd (crdb_record_stream_iterator_locate_at it 10))
       = Ok (map snd second).
Proof.
  apply (stop_at_locate_at_partition false (mapped_at 4096 sample_two_records) 10).
  - unfold valid_memory, SIZE_MAX. cbn. repeat split; lia.
  - vm_compute. split; discriminate.
Defined.

(** C7 as stated, at an offset beyond the buffer: on the sample stream
    with [o = 19], [stop_at(19)] changes nothing, [locate_at(19)] returns
    false and leaves the iterator where it was, and each of the two
    iterators yields the whole stream: the two sequences together are not
    the sequence of the whole stream. *)
Lemma stop_at_locate_at_beyond_counterexample :
  exists whole first second,
    records false sample_memory sample_iterator = Ok whole
    /\ records false sample_memory
               (crdb_record_stream_iterator_stop_at sample_iterator 19) = Ok first
    /\ crdb_record_stream_iterator_locate_at sample_iterator 19
       = (false, sample_iterator)
    /\ records false sample_memory
               (snd (crdb_record_stream_iterator_locate_at sample_iterator 19))
       = Ok second
    /\ first ++ second <> whole.
Proof.
  exists [(7, [x68; x65; x6c; x6c; x6f])], [(7, [x68; x65; x6c; x6c; x6f])],
    [(7, [x68; x65; x6c; x6c; x6f])].
  split; [vm_compute; reflexivity|]. split; [vm_compute; reflexivity|].
  split; [vm_compute; reflexivity|]. split; [vm_compute; reflexivity|].
  discriminate.
Qed.

(** ** After the end of the stream *)

(** The state [record_stream_iterator_next] leaves when it returns -1 on a
    buffer that is not at [NULL]: [cursor] and [end] are [NULL] and
    [stop_at] still points into the buffer.  The next call enters the loop
    again, finds no header in the empty range, and
    [record_stream_iterator_next_record] fails its assertion
    [encoded_data <= it->end]; without assertions it goes on to scan
    [2^64 - 2] bytes from the address 2. *)
Lemma next_on_ended_iterator (ndebug : bool) (m : memory)
      (it : crdb_record_stream_iterator) (dst : list byte) :
  2 < base m -> base m <= it_stop_at it ->
  it_first_record it = false -> it_cursor it = 0 -> it_end it = 0 ->
  record_stream_iterator_next ndebug m it dst
  = Fault (if ndebug then OutOfBounds else AssertFailed).
Proof.
  intros Hbase Hstop Hfr Hcur Hend.
  unfold record_stream_iterator_next. cbn [iterator_next_loop].
  rewrite Hcur. replace (0 <? it_stop_at it) with true by lia.
  unfold record_stream_iterator_next_record. rewrite Hfr, Hcur, Hend.
  assert (Hv0 : view m 0 = []).
  { unfold view. now replace ((base m <=? 0) && (0 <=? base m + len (bytes m)))
      with false by lia. }
  assert (Hv2 : view m 2 = []).
  { unfold view. now replace ((base m <=? 2) && (2 <=? base m + len (bytes m)))
      with false by lia. }
  rewrite Hv0. change (to_size_t (0 - 0)) with 0.
  change (crdb_word_stuff_header_find [] 0) with (@Ok Z 0). cbn [bind].
  replace (0 + 0 >=? it_stop_at it) with false by lia.
  cbn [it_end set_header]. rewrite Hend.
  change (0 + 0 + CRDB_WORD_STUFF_HEADER_SIZE <=? 0) with false.
  destruct ndebug; [|reflexivity].
  cbn [assert_ bind]. unfold next_record_decode.
  cbn [it_header it_stop_at it_end set_header]. rewrite Hend.
  replace (0 + 0 >=? it_stop_at it) with false by lia.
  change (0 + 0 + CRDB_WORD_STUFF_HEADER_SIZE) with 2. rewrite Hv2.
  reflexivity.
Qed.

(** C6, evaluated. On the sample stream the first call of [next_buf]
    yields the record, the second signals the end of the stream and leaves
    [cursor = end = NULL] with [stop_at] unchanged, and the third call does
    not signal the end again: it fails the assertion of
    [record_stream_iterator_next_record] (without assertions, it reads out
    of bounds). *)
Theorem next_after_end_of_stream (ndebug : bool) :
  exists r1 r2,
    crdb_record_stream_iterator_next_buf ndebug sample_memory sample_iterator
                                         stack_read_record caller_dst = Ok r1
    /\ nb_ret r1 = true
    /\ crdb_record_stream_iterator_next_buf ndebug sample_memory (nb_it r1)
                                            stack_read_record caller_dst = Ok r2
    /\ nb_ret r2 = false
    /\ it_cursor (nb_it r2) = 0 /\ it_end (nb_it r2) = 0
    /\ it_stop_at (nb_it r2) = 4096 + len sample_stream
    /\ crdb_record_stream_iterator_next_buf ndebug sample_memory (nb_it r2)
                                            stack_read_record caller_dst
       = Fault (if ndebug then OutOfBounds else AssertFailed).
Proof.
  destruct ndebug.
  - eexists. eexists. split; [vm_compute; reflexivity|]. split; [reflexivity|].
    split; [vm_compute; reflexivity|]. split; [reflexivity|].
    repeat (split; [reflexivity|]). vm_compute. reflexivity.
  - eexists. eexists. split; [vm_compute; reflexivity|]. split; [reflexivity|].
    split; [vm_compute; reflexivity|]. split; [reflexivity|].
    repeat (split; [reflexivity|]). vm_compute. reflexivity.
Qed.

(** * Further properties of the codec *)

(** ** [crdb_word_stuff_header_find] *)

(** X1. [crdb_word_stuff_header_find(data, num)] returns the offset of the
    first occurrence of the header in [data[0 ... num - 1]], or [num] when
    there is none: no header lies in the range before the returned offset,
    and an offset below [num] is that of a header that lies in the range. *)
Theorem header_find_first_occurrence (data : list byte) (num : Z) :
  0 <= num <= len data ->
  exists r,
    crdb_word_stuff_header_find data num = Ok r
    /\ 0 <= r <= num
    /\ (forall i, 0 <= i < r -> i + 1 < num ->
          ~ (read data i = Ok xfe /\ read data (i + 1) = Ok xfd))
    /\ (r < num ->
        r + 1 < num /\ read data r = Ok xfe /\ read data (r + 1) = Ok xfd).
Proof.
  intros Hnum. rewrite header_find_spec by exact Hnum.
  set (l := take num data). set (r := first_marker l).
  assert (Hl : len l = num) by (apply len_take; exact Hnum).
  pose proof (first_marker_range l) as Hr. fold r in Hr.
  exists r. split; [reflexivity|]. split; [lia|]. split.
  - intros i Hi Hi1 [H1 H2].
    pose proof (marker_free_take l (r + 1) ltac:(unfold r; lia)) as Hfree.
    apply (marker_free_no_occurrence _ Hfree (Z.to_nat i)).
    assert (Hnth : forall j b, 0 <= j <= r -> j < num -> read data j = Ok b ->
                     nth_error (take (r + 1) l) (Z.to_nat j) = Some b).
    { intros j b Hj Hjn Hread. unfold read in Hread.
      replace (j <? 0) with false in Hread by lia.
      destruct (nth_error data (Z.to_nat j)) eqn:E; [|discriminate].
      assert (b0 = b) by congruence. subst b0.
      unfold l, take. rewrite !nth_error_firstn.
      destruct (Nat.ltb_spec (Z.to_nat j) (Z.to_nat (r + 1))); [|lia].
      destruct (Nat.ltb_spec (Z.to_nat j) (Z.to_nat num)); [exact E | lia]. }
    split.
    + apply Hnth; [lia | lia | exact H1].
    + replace (S (Z.to_nat i)) with (Z.to_nat (i + 1)) by lia.
      apply Hnth; [lia | lia | exact H2].
  - intros Hlt. destruct (first_marker_found l) as [rest Hrest]; [fold r; lia|].
    fold r in Hrest.
    assert (Hlr : len (take r l) = r) by (apply len_take; lia).
    assert (Hdata : data = take r l ++ xfe :: xfd :: rest ++ drop num data).
    { rewrite <- (take_drop num data) at 1. fold l. rewrite Hrest at 1.
      rewrite <- app_assoc. reflexivity. }
    assert (Hlen : r + 2 <= num).
    { rewrite <- Hl. rewrite Hrest. rewrite len_app, !len_cons, Hlr.
      pose proof (len_nonneg rest). lia. }
    split; [lia|]. split.
    + apply read_Ok; [lia|]. rewrite Hdata.
      rewrite nth_error_app2 by (unfold len in Hlr; lia).
      replace (Z.to_nat r - length (take r l))%nat with O
        by (unfold len in Hlr; lia).
      reflexivity.
    + apply read_Ok; [lia|]. rewrite Hdata.
      rewrite nth_error_app2 by (unfold len in Hlr; lia).
      replace (Z.to_nat (r + 1) - length (take r l))%nat with 1%nat
        by (unfold len in Hlr; lia).
      reflexivity.
Qed.

Lemma header_find_first_occurrence_witness :
  exists r,
    crdb_word_stuff_header_find [x01; xfe; xfd; xfe; xfd] 5 = Ok r
    /\ 0 <= r <= 5
    /\ (forall i, 0 <= i < r -> i + 1 < 5 ->
          ~ (read [x01; xfe; xfd; xfe; xfd] i = Ok xfe
             /\ read [x01; xfe; xfd; xfe; xfd] (i + 1) = Ok xfd))
    /\ (r < 5 ->
        r + 1 < 5 /\ read [x01; xfe; xfd; xfe; xfd] r = Ok xfe
        /\ read [x01; xfe; xfd; xfe; xfd] (r + 1) = Ok xfd).
Proof.
  apply (header_find_first_occurrence [x01; xfe; xfd; xfe; xfd] 5).
  vm_compute. split; discriminate.
Defined.

(** ** [crdb_word_stuffed_size] *)

(** X2. [crdb_word_stuffed_size] on every [size_t]: its assertions hold (it
    returns with assertions compiled in); beyond [SSIZE_MAX] it returns
    [SIZE_MAX]; otherwise the result is at least [in_size + 1], at most the
    constant bound [CRDB_WORD_STUFFED_BOUND(in_size)], and asking for the
    header adds exactly two bytes. *)
Theorem crdb_word_stuffed_size_total (in_size : Z) :
  0 <= in_size <= SIZE_MAX ->
  exists r r',
    crdb_word_stuffed_size false in_size false = Ok r
    /\ crdb_word_stuffed_size false in_size true = Ok r'
    /\ (in_size > SSIZE_MAX -> r = SIZE_MAX /\ r' = SIZE_MAX)
    /\ (in_size <= SSIZE_MAX ->
        in_size + 1 <= r /\ r' = r + 2
        /\ r' <= CRDB_WORD_STUFFED_BOUND in_size
        /\ CRDB_WORD_STUFFED_BOUND in_size <= SIZE_MAX).
Proof.
  intros Hn. destruct (Z_le_gt_dec in_size SSIZE_MAX) as [Hs|Hs].
  - exists (stuffed_room true in_size), (stuffed_room true in_size + 2).
    rewrite crdb_word_stuffed_size_room, crdb_word_stuffed_size_header by lia.
    split; [reflexivity|]. split; [reflexivity|]. split; [lia|]. intros _.
    unfold stuffed_room, CRDB_WORD_STUFFED_BOUND, CRDB_WORD_STUFF_HEADER_SIZE,
      to_size_t, SIZE_MAX, SSIZE_MAX, MAX_INITIAL_RUN, MAX_REMAINING_RUN, RADIX in *.
    destruct (in_size <? 253 - 1) eqn:E; repeat split; divlia.
  - exists SIZE_MAX, SIZE_MAX. unfold crdb_word_stuffed_size.
    replace (in_size >? SSIZE_MAX) with true by lia.
    repeat split; lia.
Qed.

Lemma crdb_word_stuffed_size_total_witness :
  exists r r',
    crdb_word_stuffed_size false 520 false = Ok r
    /\ crdb_word_stuffed_size false 520 true = Ok r'
    /\ (520 > SSIZE_MAX -> r = SIZE_MAX /\ r' = SIZE_MAX)
    /\ (520 <= SSIZE_MAX ->
        520 + 1 <= r /\ r' = r + 2
        /\ r' <= CRDB_WORD_STUFFED_BOUND 520
        /\ CRDB_WORD_STUFFED_BOUND 520 <= SIZE_MAX).
Proof.
  apply (crdb_word_stuffed_size_total 520). unfold SIZE_MAX. lia.
Defined.

(** ** [short_memcpy] *)

(** X3. [short_memcpy(dst + d, src, n)] has the effect of
    [memcpy(dst + d, src, n)] for every [n]: its overlapping 8-, 4-, 2- and
    1-byte copies stay within the [n] bytes and leave them equal to the
    source. *)
Theorem short_memcpy_is_memcpy (dst : list byte) (d : Z) (src : list byte) (n : Z) :
  0 <= d -> 0 <= n <= len src -> d + n <= len dst ->
  short_memcpy dst d src n = memcpy dst d src 0 n
  /\ short_memcpy dst d src n
     = Ok (take d dst ++ take n src ++ drop (d + n) dst).
Proof.
  intros Hd Hn Hdst. rewrite short_memcpy_copied, memcpy_first by lia.
  split; reflexivity.
Qed.

Lemma short_memcpy_is_memcpy_witness :
  short_memcpy (repeat x00 16) 2 (repeat x2a 13) 13
  = memcpy (repeat x00 16) 2 (repeat x2a 13) 0 13
  /\ short_memcpy (repeat x00 16) 2 (repeat x2a 13) 13
     = Ok (take 2 (repeat x00 16) ++ take 13 (repeat x2a 13)
           ++ drop (2 + 13) (repeat x00 16)).
Proof.
  apply (short_memcpy_is_memcpy (repeat x00 16) 2 (repeat x2a 13) 13).
  - lia.
  - vm_compute. split; discriminate.
  - vm_compute. discriminate.
Defined.

(** ** The size of the encoding *)

Lemma marker_free_suffix a b : marker_free (a ++ b) -> marker_free b.
Proof.
  induction a as [|x a IH]; intros H; [exact H|].
  apply IH. exact (marker_free_cons x _ H).
Qed.

Lemma marker_free_prefix a b : marker_free (a ++ b) -> marker_free a.
Proof.
  intros H. rewrite <- (take_app_len a b).
  apply marker_free_take. unfold marker_free in H. rewrite H, len_app.
  pose proof (len_nonneg b). lia.
Qed.

Lemma marker_free_header a rest : ~ marker_free (a ++ xfe :: xfd :: rest).
Proof.
  intros H. pose proof (marker_free_prefix _ _ H) as Ha.
  unfold marker_free in H. rewrite first_marker_app_header in H by exact Ha.
  rewrite len_app, !len_cons in H. pose proof (len_nonneg rest). lia.
Qed.

Lemma stuffed_len_room fh src out :
  Stuffed fh src out -> marker_free src -> len out = stuffed_room fh (len src).
Proof.
  induction 1 as [fh lit Hlen Hfree | fh lit rest out Hlen Hfree HS IH
                 | fh lit rest out Hlen Hfree HS IH]; intros Hsrc.
  - rewrite len_app, len_run_header. pose proof (len_nonneg lit).
    unfold stuffed_room, max_run, MAX_INITIAL_RUN, MAX_REMAINING_RUN, RADIX in *.
    destruct fh.
    + replace (len lit <? 253 - 1) with true by lia. lia.
    + divlia.
  - now apply marker_free_header in Hsrc.
  - rewrite !len_app, len_run_header, (IH (marker_free_suffix _ _ Hsrc)).
    pose proof (len_nonneg rest).
    unfold stuffed_room, max_run, MAX_INITIAL_RUN, MAX_REMAINING_RUN, RADIX in *.
    destruct fh.
    + replace (len lit + len rest <? 253 - 1) with false by lia. divlia.
    + divlia.
Qed.

Lemma stuffed_short fh src out :
  Stuffed fh src out -> marker_free src -> len src < max_run fh ->
  out = run_header fh (len src) ++ src.
Proof.
  intros HS Hsrc Hlen. destruct HS as [fh lit Hl Hfree | fh lit rest out Hl Hfree HS
                                      | fh lit rest out Hl Hfree HS].
  - reflexivity.
  - now apply marker_free_header in Hsrc.
  - rewrite len_app in Hlen. pose proof (len_nonneg rest). lia.
Qed.

Lemma encode_stuffed_bound ndebug dst s junk :
  stuffed_room true (len s) <= len dst ->
  exists out, Stuffed true s out /\ len out <= stuffed_room true (len s) /\
    crdb_word_stuff_encode ndebug dst (s ++ junk) (len s)
    = Ok (patched dst 0 out, len out).
Proof.
  intros Hroom. unfold crdb_word_stuff_encode.
  destruct (encode_loop_stuffed ndebug (S (length (s ++ junk))) true dst 0 s junk)
    as (out & HS & Hb & E); [rewrite length_app; lia | lia | lia |].
  exists out. split; [exact HS|]. split; [exact Hb|]. rewrite E. now rewrite Z.add_0_l.
Qed.

Lemma header_find_marker_free s :
  crdb_word_stuff_header_find s (len s) = Ok (len s) -> marker_free s.
Proof.
  intros H. rewrite header_find_spec in H by (pose proof (len_nonneg s); lia).
  rewrite take_all in H by lia. unfold marker_free. congruence.
Qed.

(** X4. What the encoder writes: with the documented room
    [crdb_word_stuffed_size(|s|, false)] it returns, having written [n]
    bytes with [|s| + 1 <= n <= crdb_word_stuffed_size(|s|, false)]; the
    capacity of [dst] is unchanged and no byte of [dst] at offset [n] or
    beyond is modified. *)
Theorem encode_size_and_frame (ndebug : bool) (s dst : list byte) (room : Z) :
  len s <= SSIZE_MAX ->
  crdb_word_stuffed_size ndebug (len s) false = Ok room ->
  room <= len dst ->
  exists dst' n,
    crdb_word_stuff_encode ndebug dst s (len s) = Ok (dst', n)
    /\ len s + 1 <= n <= room
    /\ len dst' = len dst
    /\ drop n dst' = drop n dst.
Proof.
  intros Hs Hsize Hroom. pose proof (len_nonneg s) as Hs0.
  rewrite crdb_word_stuffed_size_room in Hsize by lia.
  assert (room = stuffed_room true (len s)) by congruence. subst room.
  destruct (encode_stuffed_bound ndebug dst s [] Hroom) as (out & HS & Hb & E).
  rewrite app_nil_r in E. rewrite E.
  exists (patched dst 0 out), (len out). split; [reflexivity|].
  pose proof (stuffed_len_src _ _ _ HS) as Hlo. cbv iota in Hlo.
  split; [lia|]. split.
  - apply len_patched; lia.
  - apply drop_patched; lia.
Qed.

Lemma encode_size_and_frame_witness :
  exists dst' n,
    crdb_word_stuff_encode false (repeat x00 6) [xfe; xfd; x2a] 3 = Ok (dst', n)
    /\ 3 + 1 <= n <= 4
    /\ len dst' = 6
    /\ drop n dst' = drop n (repeat x00 6).
Proof.
  apply (encode_size_and_frame false [xfe; xfd; x2a] (repeat x00 6) 4).
  - vm_compute. discriminate.
  - reflexivity.
  - vm_compute. discriminate.
Defined.

(** X5. The size bound is attained: on an input without any header
    ([crdb_word_stuff_header_find] finds none in it) the encoder writes
    exactly [crdb_word_stuffed_size(|s|, false)] bytes. *)
Theorem encode_size_tight (ndebug : bool) (s dst : list byte) (room : Z) :
  crdb_word_stuff_header_find s (len s) = Ok (len s) ->
  len s <= SSIZE_MAX ->
  crdb_word_stuffed_size ndebug (len s) false = Ok room ->
  room <= len dst ->
  exists dst', crdb_word_stuff_encode ndebug dst s (len s) = Ok (dst', room).
Proof.
  intros Hfree Hs Hsize Hroom. pose proof (len_nonneg s) as Hs0.
  apply header_find_marker_free in Hfree.
  rewrite crdb_word_stuffed_size_room in Hsize by lia.
  assert (room = stuffed_room true (len s)) by congruence. subst room.
  destruct (encode_stuffed_bound ndebug dst s [] Hroom) as (out & HS & Hb & E).
  rewrite app_nil_r in E. rewrite E.
  rewrite (stuffed_len_room _ _ _ HS Hfree). eexists. reflexivity.
Qed.

Lemma encode_size_tight_witness :
  exists dst',
    crdb_word_stuff_encode false (repeat x00 300) (repeat x2a 260) (len (repeat x2a 260))
    = Ok (dst', 263).
Proof.
  apply (encode_size_tight false (repeat x2a 260) (repeat x00 300) 263).
  - vm_compute. reflexivity.
  - vm_compute. discriminate.
  - vm_compute. reflexivity.
  - vm_compute. discriminate.
Defined.

(** X6. A short input without header is copied verbatim: when [s] has
    fewer than 252 bytes and contains no header, the encoder writes the
    byte [|s|] followed by [s]. *)
Theorem encode_short_literal (ndebug : bool) (s dst : list byte) :
  crdb_word_stuff_header_find s (len s) = Ok (len s) ->
  len s < MAX_INITIAL_RUN ->
  len s + 1 <= len dst ->
  crdb_word_stuff_encode ndebug dst s (len s)
  = Ok (u8 (len s) :: s ++ drop (len s + 1) dst, len s + 1).
Proof.
  intros Hfree Hs Hroom. pose proof (len_nonneg s) as Hs0.
  apply header_find_marker_free in Hfree.
  assert (Hr : stuffed_room true (len s) = len s + 1).
  { unfold stuffed_room. now replace (len s <? MAX_INITIAL_RUN) with true by lia. }
  destruct (encode_stuffed_bound ndebug dst s []) as (out & HS & Hb & E); [lia|].
  rewrite app_nil_r in E. rewrite E.
  rewrite (stuffed_short _ _ _ HS Hfree Hs).
  unfold patched. cbn [run_header]. rewrite take_0.
  rewrite len_app. change (len [u8 (len s)]) with 1.
  cbn [app].
  replace (0 + (1 + len s)) with (len s + 1) by lia.
  replace (1 + len s) with (len s + 1) by lia. reflexivity.
Qed.

Lemma encode_short_literal_witness :
  crdb_word_stuff_encode false (repeat x00 6) [x68; x69] (len [x68; x69])
  = Ok (u8 (len [x68; x69]) :: [x68; x69] ++ drop (len [x68; x69] + 1) (repeat x00 6),
        len [x68; x69] + 1).
Proof.
  apply (encode_short_literal false [x68; x69] (repeat x00 6)).
  - reflexivity.
  - reflexivity.
  - vm_compute. discriminate.
Defined.

(** ** What the checksum detects *)

Lemma crdb_crc32c_all b : crdb_crc32c b (len b) = Ok (castagnoli_crc 0 b).
Proof. rewrite <- (app_nil_r b) at 1. apply crdb_crc32c_spec. Qed.

Lemma crc32_u8_zero : _mm_crc32_u8 0 (byte_val x00) = 0.
Proof. vm_compute. reflexivity. Qed.

Lemma castagnoli_crc_zeros (k : nat) : castagnoli_crc 0 (repeat x00 k) = 0.
Proof.
  induction k as [|k IH]; [reflexivity|].
  cbn [repeat]. rewrite castagnoli_crc_cons, crc32_u8_zero. exact IH.
Qed.

(** X7. The checksum does not see leading zero bytes: for every number [k]
    of zero bytes put in front of a buffer, [crdb_crc32c] returns the
    checksum of the buffer alone.  (This is why the [crc] field holds
    [CRC_INITIAL_VALUE], and not zero, while a record is checksummed.) *)
Theorem crdb_crc32c_zero_prefix (k : nat) (b : list byte) :
  crdb_crc32c (repeat x00 k ++ b) (len (repeat x00 k ++ b)) = crdb_crc32c b (len b)
  /\ exists crc, crdb_crc32c b (len b) = Ok crc.
Proof.
  rewrite !crdb_crc32c_all.
  rewrite castagnoli_crc_app, castagnoli_crc_zeros. split; [reflexivity|].
  eexists. reflexivity.
Qed.

Lemma uint32_high_bit x i : is_uint32 x -> 32 <= i -> Z.testbit x i = false.
Proof.
  unfold is_uint32, UINT32_MAX. intros Hx Hi.
  destruct (Z.eq_dec x 0) as [E|E].
  - rewrite E. apply Z.bits_0.
  - apply Z.bits_above_log2; [lia|].
    assert (Z.log2 x < 32) by (apply Z.log2_lt_pow2; lia). lia.
Qed.

Lemma lxor_cancel_l a x y : Z.lxor a x = Z.lxor a y -> x = y.
Proof.
  intros E. apply (f_equal (Z.lxor a)) in E.
  now rewrite <- !Z.lxor_assoc, Z.lxor_nilpotent, !Z.lxor_0_l in E.
Qed.

Lemma lxor_cancel_r a x y : Z.lxor x a = Z.lxor y a -> x = y.
Proof. rewrite !(Z.lxor_comm _ a). apply lxor_cancel_l. Qed.

Lemma crc32c_shift_bit31 x :
  is_uint32 x -> Z.testbit (crc32c_shift x) 31 = Z.testbit x 0.
Proof.
  intros Hx. unfold crc32c_shift. rewrite Z.lxor_spec, Z.shiftr_spec by lia.
  rewrite (uint32_high_bit x (31 + 1)) by (assumption || lia).
  destruct (Z.testbit x 0); reflexivity.
Qed.

(** One step of the division is injective on 32-bit accumulators. *)
Lemma crc32c_shift_inj x y :
  is_uint32 x -> is_uint32 y -> crc32c_shift x = crc32c_shift y -> x = y.
Proof.
  intros Hx Hy E.
  assert (E0 : Z.testbit x 0 = Z.testbit y 0).
  { rewrite <- (crc32c_shift_bit31 x Hx), <- (crc32c_shift_bit31 y Hy). now rewrite E. }
  unfold crc32c_shift in E. rewrite E0 in E. apply lxor_cancel_r in E.
  apply Z.bits_inj'. intros n Hn.
  destruct (Z.eq_dec n 0) as [->|Hn0]; [exact E0|].
  replace n with (n - 1 + 1) by lia.
  rewrite <- !Z.shiftr_spec by lia. now rewrite E.
Qed.

Lemma crc32c_iter_uint32 n : forall x,
  is_uint32 x -> is_uint32 (Nat.iter n crc32c_shift x).
Proof.
  induction n as [|n IH]; intros x Hx; [exact Hx|].
  cbn [Nat.iter]. apply crc32c_shift_uint32. now apply IH.
Qed.

Lemma crc32c_iter_inj n : forall x y,
  is_uint32 x -> is_uint32 y ->
  Nat.iter n crc32c_shift x = Nat.iter n crc32c_shift y -> x = y.
Proof.
  induction n as [|n IH]; intros x y Hx Hy E; [exact E|].
  cbn [Nat.iter] in E. apply crc32c_shift_inj in E; try now apply crc32c_iter_uint32.
  now apply IH.
Qed.

Lemma byte_val_uint32 b : is_uint32 (byte_val b).
Proof. pose proof (byte_val_range b). unfold is_uint32, UINT32_MAX. lia. Qed.

Lemma crc32_u8_unfold acc v :
  _mm_crc32_u8 acc v = Nat.iter 8 crc32c_shift (Z.lxor acc v).
Proof. unfold _mm_crc32_u8. reflexivity. Qed.

Lemma crc32_u8_inj b x y :
  is_uint32 x -> is_uint32 y ->
  _mm_crc32_u8 x (byte_val b) = _mm_crc32_u8 y (byte_val b) -> x = y.
Proof.
  intros Hx Hy E. rewrite !crc32_u8_unfold in E.
  apply (lxor_cancel_r (byte_val b)).
  revert E. generalize 8%nat. intros n E.
  apply (crc32c_iter_inj n);
    [apply lxor_uint32; [assumption | apply byte_val_uint32] ..| exact E].
Qed.

(** The checksum of the rest of a buffer is an injective function of the
    accumulator. *)
Lemma castagnoli_crc_inj post : forall x y,
  is_uint32 x -> is_uint32 y ->
  castagnoli_crc x post = castagnoli_crc y post -> x = y.
Proof.
  induction post as [|b post IH]; intros x y Hx Hy E; [exact E|].
  rewrite !castagnoli_crc_cons in E.
  apply IH in E; try now apply crc32_u8_uint32.
  now apply crc32_u8_inj in E.
Qed.

Lemma le_val_range w : 0 <= le_val w < 2 ^ (8 * len w).
Proof.
  induction w as [|b w IH].
  - cbn. lia.
  - cbn [le_val]. rewrite len_cons. pose proof (byte_val_range b).
    pose proof (len_nonneg w).
    rewrite Z.shiftl_mul_pow2 by lia.
    replace (8 * (1 + len w)) with (8 * len w + 8) by lia.
    rewrite Z.pow_add_r by lia. change (2 ^ 8) with 256. nia.
Qed.

Lemma le_val_inj : forall w1 w2,
  len w1 = len w2 -> le_val w1 = le_val w2 -> w1 = w2.
Proof.
  induction w1 as [|a w1 IH]; intros [|b w2] Hl E.
  - reflexivity.
  - rewrite len_nil, len_cons in Hl. pose proof (len_nonneg w2). lia.
  - rewrite len_nil, len_cons in Hl. pose proof (len_nonneg w1). lia.
  - rewrite !len_cons in Hl. cbn [le_val] in E.
    rewrite !Z.shiftl_mul_pow2 in E by lia. change (2 ^ 8) with 256 in E.
    pose proof (byte_val_range a). pose proof (byte_val_range b).
    assert (byte_val a = byte_val b /\ le_val w1 = le_val w2) as [Ea Ew] by lia.
    f_equal; [now apply byte_val_inj | apply IH; [lia | exact Ew]].
Qed.

(** The checksum of a window is one division of the accumulator xored with
    the window read as an integer. *)
Lemma castagnoli_crc_le_val w : forall s,
  castagnoli_crc s w = Nat.iter (length w * 8) crc32c_shift (Z.lxor s (le_val w)).
Proof.
  induction w as [|b w IH]; intros s.
  - cbn. now rewrite Z.lxor_0_r.
  - rewrite castagnoli_crc_cons, IH. cbn [le_val length].
    replace (S (length w) * 8)%nat with (length w * 8 + 8)%nat by lia.
    rewrite Nat.iter_add. now rewrite crc32_u8_step.
Qed.

Lemma castagnoli_crc_window s w1 w2 :
  is_uint32 s -> len w1 = len w2 -> len w1 <= 4 ->
  castagnoli_crc s w1 = castagnoli_crc s w2 -> w1 = w2.
Proof.
  intros Hs Hl H4 E. rewrite !castagnoli_crc_le_val in E.
  replace (length w2) with (length w1) in E by (unfold len in Hl; lia).
  assert (Hv : forall w, len w <= 4 -> is_uint32 (le_val w)).
  { intros w Hw. pose proof (le_val_range w) as Hr. pose proof (len_nonneg w).
    assert (2 ^ (8 * len w) <= 2 ^ 32) by (apply Z.pow_le_mono_r; lia).
    unfold is_uint32, UINT32_MAX. lia. }
  apply crc32c_iter_inj in E; try (apply lxor_uint32; [assumption | apply Hv; lia]).
  apply lxor_cancel_l in E. now apply le_val_inj.
Qed.

Lemma is_uint32_0 : is_uint32 0.
Proof. unfold is_uint32, UINT32_MAX. lia. Qed.

Lemma castagnoli_crc_burst pre w1 w2 post s :
  is_uint32 s -> len w1 = len w2 -> len w1 <= 4 -> w1 <> w2 ->
  castagnoli_crc s (pre ++ w1 ++ post) <> castagnoli_crc s (pre ++ w2 ++ post).
Proof.
  intros Hs Hl H4 Hne E. apply Hne. rewrite !castagnoli_crc_app in E.
  assert (Hp : is_uint32 (castagnoli_crc s pre)) by now apply castagnoli_crc_uint32.
  apply castagnoli_crc_inj in E; try now apply castagnoli_crc_uint32.
  now apply (castagnoli_crc_window (castagnoli_crc s pre)).
Qed.

(** X8. The checksum detects every error confined to four consecutive
    bytes: two buffers of the same length that differ, but only within a
    window of at most four bytes, have different checksums. *)
Theorem crdb_crc32c_detects_burst (pre w1 w2 post : list byte) :
  len w1 = len w2 -> len w1 <= 4 -> w1 <> w2 ->
  exists c1 c2,
    crdb_crc32c (pre ++ w1 ++ post) (len (pre ++ w1 ++ post)) = Ok c1
    /\ crdb_crc32c (pre ++ w2 ++ post) (len (pre ++ w2 ++ post)) = Ok c2
    /\ c1 <> c2.
Proof.
  intros Hl H4 Hne.
  rewrite !crdb_crc32c_all. eexists. eexists.
  split; [reflexivity|]. split; [reflexivity|].
  apply castagnoli_crc_burst; [apply is_uint32_0 | assumption..].
Qed.

Lemma crdb_crc32c_detects_burst_witness :
  exists c1 c2,
    crdb_crc32c ([x68] ++ [x65; x6c] ++ [x6c; x6f])
                (len ([x68] ++ [x65; x6c] ++ [x6c; x6f])) = Ok c1
    /\ crdb_crc32c ([x68] ++ [x6c; x65] ++ [x6c; x6f])
                   (len ([x68] ++ [x6c; x65] ++ [x6c; x6f])) = Ok c2
    /\ c1 <> c2.
Proof.
  apply (crdb_crc32c_detects_burst [x68] [x65; x6c] [x6c; x65] [x6c; x6f]).
  - reflexivity.
  - vm_compute. discriminate.
  - discriminate.
Defined.

Lemma crc_matches_body c body junk :
  is_uint32 c ->
  crc_matches (bytes_of_uint32 c ++ body ++ junk) (4 + len body)
  = Ok (c =? castagnoli_crc 0 (bytes_of_uint32 CRC_INITIAL_VALUE ++ body),
        bytes_of_uint32 CRC_INITIAL_VALUE ++ body ++ junk).
Proof.
  intros Hc. unfold crc_matches, OFFSET_crc. rewrite drop_0.
  rewrite uint32_of_bytes_of_uint32 by exact Hc. cbn [bind].
  unfold store_uint32. fold (store_uint32 (bytes_of_uint32 c ++ body ++ junk) 0
                                          CRC_INITIAL_VALUE).
  change 0 with OFFSET_crc at 1. rewrite store_uint32_head. cbn [bind].
  replace (4 + len body) with (len (bytes_of_uint32 CRC_INITIAL_VALUE ++ body))
    by (rewrite len_app, len_bytes_of_uint32; lia).
  rewrite app_assoc. rewrite crdb_crc32c_spec. reflexivity.
Qed.

(** X9. [crc_matches] rejects a record that was altered within four
    consecutive bytes of its generation and payload: when it accepts the
    record [crc || pre || w1 || post], it rejects [crc || pre || w2 || post]
    for every [w2] of the size of [w1], of at most four bytes, other than
    [w1]. *)
Theorem crc_matches_rejects_burst (c : Z) (pre w1 w2 post junk r1 : list byte) :
  is_uint32 c ->
  len w1 = len w2 -> len w1 <= 4 -> w1 <> w2 ->
  crc_matches (bytes_of_uint32 c ++ (pre ++ w1 ++ post) ++ junk)
              (4 + len (pre ++ w1 ++ post)) = Ok (true, r1) ->
  exists r2,
    crc_matches (bytes_of_uint32 c ++ (pre ++ w2 ++ post) ++ junk)
                (4 + len (pre ++ w2 ++ post)) = Ok (false, r2).
Proof.
  intros Hc Hl H4 Hne H1. rewrite crc_matches_body in * by exact Hc.
  eexists. f_equal. f_equal.
  assert (E1 : (c =? castagnoli_crc 0 (bytes_of_uint32 CRC_INITIAL_VALUE
                                         ++ pre ++ w1 ++ post)) = true) by congruence.
  apply Z.eqb_eq in E1. apply Z.eqb_neq. rewrite E1.
  rewrite !(app_assoc (bytes_of_uint32 CRC_INITIAL_VALUE) pre).
  apply castagnoli_crc_burst; [apply is_uint32_0 | assumption..].
Qed.

Lemma crc_matches_rejects_burst_witness :
  exists r2,
    crc_matches (bytes_of_uint32 (uint32_of_bytes x78 x59 xc7 x5b)
                 ++ ([x07; x00; x00; x00] ++ [x68; x69] ++ [x6c; x6c; x6f]) ++ [])
                (4 + len ([x07; x00; x00; x00] ++ [x68; x69] ++ [x6c; x6c; x6f]))
    = Ok (false, r2).
Proof.
  apply (crc_matches_rejects_burst
           (uint32_of_bytes x78 x59 xc7 x5b)
           [x07; x00; x00; x00] [x68; x65] [x68; x69] [x6c; x6c; x6f] []
           (bytes_of_uint32 CRC_INITIAL_VALUE
            ++ [x07; x00; x00; x00; x68; x65; x6c; x6c; x6f])).
  - vm_compute. split; discriminate.
  - reflexivity.
  - vm_compute. discriminate.
  - discriminate.
  - vm_compute. reflexivity.
Defined.

(** * Further properties of the record stream *)

(** ** Streams and their prefixes *)

Lemma valid_mapped_at b c : mappable b c -> valid_memory (mapped_at b c).
Proof. intros [Hb Hc]. unfold valid_memory. cbn. repeat split; lia. Qed.

Lemma stream_records_scan ndebug m :
  valid_memory m ->
  stream_records ndebug m = Ok (scan_first (bytes m) 0 (len (bytes m))).
Proof.
  intros Hm. unfold stream_records.
  rewrite (records_pending ndebug m Hm _ (wf_init_buf m Hm)).
  now rewrite pending_init_buf.
Qed.

Lemma first_marker_before_header a t :
  first_marker (a ++ xfe :: xfd :: t) = first_marker a.
Proof.
  induction a as [|x [|y a] IH].
  - reflexivity.
  - cbn [app]. rewrite first_marker_cons2.
    assert (E : is_header x xfe = false) by (apply is_header_false; intros [_ ?]; discriminate).
    rewrite E. reflexivity.
  - change ((x :: y :: a) ++ xfe :: xfd :: t) with (x :: y :: (a ++ xfe :: xfd :: t)).
    rewrite !first_marker_cons2.
    change (y :: a ++ xfe :: xfd :: t) with ((y :: a) ++ xfe :: xfd :: t).
    now rewrite IH.
Qed.

Lemma next_marker_before_header c t k :
  0 <= k <= len c -> next_marker (c ++ xfe :: xfd :: t) k = next_marker c k.
Proof.
  intros Hk. unfold next_marker. rewrite drop_app_le by lia.
  now rewrite first_marker_before_header.
Qed.

Lemma chunk_app c t a b :
  0 <= a <= b -> b <= len c -> chunk (c ++ t) a b = chunk c a b.
Proof.
  intros Ha Hb. unfold chunk. rewrite drop_app_le by lia.
  apply take_app_le. rewrite len_drop by lia. lia.
Qed.

(** The records with a header before [stop] only depend on the bytes up to
    the first header at or after [stop]. *)
Lemma scan_before_header c t stop :
  stop <= len c ->
  forall (n : nat) h,
    0 <= h <= len c -> next_marker c h = h -> len c - h <= Z.of_nat n ->
    scan (c ++ xfe :: xfd :: t) h stop = scan c h stop.
Proof.
  intros Hstop. pose proof (len_nonneg t) as Ht.
  assert (HL : len (c ++ xfe :: xfd :: t) = len c + 2 + len t)
    by (rewrite len_app, !len_cons; lia).
  induction n as [|n IH]; intros h Hh Hfix Hn.
  - rewrite !scan_past by lia. reflexivity.
  - destruct (Z_le_gt_dec stop h) as [Hs|Hs]; [rewrite !scan_past by lia; reflexivity|].
    pose proof (next_marker_found_len c h ltac:(lia) ltac:(lia)) as H2.
    rewrite Hfix in H2.
    pose proof (next_marker_range c (h + 2) ltac:(lia)) as Hr.
    rewrite (scan_eq (c ++ xfe :: xfd :: t)) by lia.
    rewrite (scan_eq c) by lia.
    replace (h >=? stop) with false by lia.
    rewrite next_marker_before_header by lia.
    rewrite chunk_app by lia. f_equal.
    apply IH; [lia | apply next_marker_fix; lia | lia].
Qed.

Lemma scan_first_before_header c t stop :
  stop <= len c ->
  scan_first (c ++ xfe :: xfd :: t) 0 stop = scan_first c 0 stop.
Proof.
  intros Hstop. pose proof (len_nonneg c) as Hc. unfold scan_first.
  destruct (0 >=? stop) eqn:E; [reflexivity|].
  pose proof (next_marker_range c 0 ltac:(lia)) as Hr.
  rewrite next_marker_before_header by lia.
  rewrite chunk_app by lia. f_equal.
  apply (scan_before_header c t stop Hstop (S (length c)));
    [lia | apply next_marker_fix; lia | unfold len; lia].
Qed.

(** Splitting at [o] the records with a header before [stop]. *)
Lemma scan_split_at buf o stop :
  0 < o <= stop -> stop <= len buf ->
  forall (n : nat) h,
    0 <= h <= len buf -> next_marker buf h = h -> h <= next_marker buf o ->
    len buf - h <= Z.of_nat n ->
    scan buf h stop = scan buf h o ++ scan buf (next_marker buf o) stop.
Proof.
  intros Ho Hstop. induction n as [|n IH]; intros h Hh Hfix Hle Hn.
  - assert (h = len buf) by lia. subst h.
    rewrite (scan_past buf (len buf) o) by lia.
    rewrite (scan_past buf (len buf) stop) by lia.
    rewrite scan_past; [reflexivity | lia].
  - destruct (Z_le_gt_dec o h) as [Hoh|Hoh].
    + rewrite (scan_past buf h o) by lia. cbn [app].
      pose proof (next_marker_mono buf o h ltac:(lia) ltac:(lia)) as Hm.
      rewrite Hfix in Hm. now replace (next_marker buf o) with h by lia.
    + pose proof (next_marker_found_len buf h ltac:(lia) ltac:(lia)) as H2.
      rewrite Hfix in H2.
      pose proof (next_marker_range buf (h + 2) ltac:(lia)) as Hr.
      rewrite (scan_eq buf h stop) by lia.
      rewrite (scan_eq buf h o) by lia.
      replace (h >=? stop) with false by lia.
      replace (h >=? o) with false by lia.
      rewrite <- cons_opt_app. f_equal.
      apply IH; try lia.
      * apply next_marker_fix. lia.
      * destruct (Z_le_gt_dec (h + 2) o).
        -- apply next_marker_mono; lia.
        -- replace o with (h + 1) by lia.
           rewrite (next_marker_skip buf h) by lia. lia.
Qed.

Lemma scan_first_split_at buf o stop :
  0 < o <= stop -> stop <= len buf ->
  scan_first buf 0 stop = scan_first buf 0 o ++ scan buf (next_marker buf o) stop.
Proof.
  intros Ho Hstop. unfold scan_first.
  replace (0 >=? o) with false by lia.
  replace (0 >=? stop) with false by lia.
  rewrite <- cons_opt_app. f_equal.
  pose proof (next_marker_range buf 0 ltac:(lia)) as Hr0.
  apply (scan_split_at buf o stop Ho Hstop (S (length buf)));
    [lia | apply next_marker_fix; lia | apply next_marker_mono; lia | unfold len; lia].
Qed.

Lemma parse_record_nil : parse_record [] = None.
Proof. reflexivity. Qed.

Lemma next_marker_at_header a t : next_marker (a ++ xfe :: xfd :: t) (len a) = len a.
Proof.
  unfold next_marker. rewrite drop_app_len. cbn [first_marker is_header].
  change (is_header xfe xfd) with true. cbn. lia.
Qed.

(** The records of a stream that holds a header: those of the bytes before
    the header, then those from the header on. *)
Lemma scan_first_app_header a t :
  scan_first (a ++ xfe :: xfd :: t) 0 (len (a ++ xfe :: xfd :: t))
  = scan_first a 0 (len a)
    ++ scan (a ++ xfe :: xfd :: t) (len a) (len (a ++ xfe :: xfd :: t)).
Proof.
  pose proof (len_nonneg a) as Ha. pose proof (len_nonneg t) as Ht.
  pose proof (next_marker_at_header a t) as Hnm.
  pose proof (scan_first_before_header a t (len a) ltac:(lia)) as Hpre.
  assert (HL : len (a ++ xfe :: xfd :: t) = len a + 2 + len t)
    by (rewrite len_app, !len_cons; lia).
  set (X := a ++ xfe :: xfd :: t) in *.
  destruct (Z.eq_dec (len a) 0) as [E0|E0].
  - rewrite E0 in *. unfold scan_first.
    replace (0 >=? 0) with true by reflexivity.
    replace (0 >=? len X) with false by lia.
    rewrite Hnm. unfold chunk. rewrite take_0. now rewrite parse_record_nil.
  - rewrite (scan_first_split_at X (len a) (len X)) by lia.
    now rewrite Hnm, Hpre.
Qed.

(** X10. Bytes that follow a header do not change the records found
    before it: for every stream [a] and bytes [t], the records of
    [a || header || t] start with the records of [a].  In particular,
    appending a header alone changes nothing. *)
Theorem records_before_header (ndebug : bool) (a t : list byte) (b b' : Z) :
  mappable b a -> mappable b' (a ++ header ++ t) ->
  exists before after,
    stream_records ndebug (mapped_at b a) = Ok before
    /\ stream_records ndebug (mapped_at b' (a ++ header ++ t)) = Ok (before ++ after)
    /\ (t = [] -> after = []).
Proof.
  intros Ha Hat.
  rewrite !stream_records_scan by now apply valid_mapped_at.
  cbn [bytes mapped_at]. rewrite header_eq. cbn [app].
  rewrite scan_first_app_header.
  eexists. eexists. split; [reflexivity|]. split; [reflexivity|].
  intros ->. pose proof (len_nonneg a).
  assert (HL : len (a ++ [xfe; xfd]) = len a + 2)
    by (rewrite len_app; reflexivity).
  rewrite scan_eq by lia. rewrite HL.
  replace (len a >=? len a + 2) with false by lia.
  assert (E : next_marker (a ++ [xfe; xfd]) (len a + 2) = len a + 2).
  { pose proof (next_marker_range (a ++ [xfe; xfd]) (len a + 2) ltac:(lia)). lia. }
  rewrite E. unfold chunk. rewrite Z.sub_diag, take_0, parse_record_nil.
  cbn [cons_opt]. apply scan_past. lia.
Qed.

Lemma records_before_header_witness :
  exists before after,
    stream_records false (mapped_at 4096 sample_stream) = Ok before
    /\ stream_records false (mapped_at 8192 (sample_stream ++ header ++ [x01; x02]))
       = Ok (before ++ after)
    /\ ([x01; x02] = [] -> after = []).
Proof.
  apply (records_before_header false sample_stream [x01; x02] 4096 8192).
  - unfold mappable, SIZE_MAX. vm_compute. split; [reflexivity | discriminate].
  - unfold mappable, SIZE_MAX. vm_compute. split; [reflexivity | discriminate].
Defined.

(** ** A record between two headers *)

Lemma decode_chunk_stuffed src out :
  Stuffed true src out -> decode_chunk out = Some src.
Proof.
  intros HS. pose proof (stuffed_len_src _ _ _ HS) as Hlen. cbv iota in Hlen.
  set (dst := repeat x00 (length out)).
  assert (Hd : len dst = len out) by (unfold dst; rewrite len_repeat; reflexivity).
  pose proof (decode_stuffed src out dst [] HS ltac:(lia)) as E1.
  destruct (decode_unstuff dst out []) as (dst' & E2 & _ & Hout); [lia|].
  rewrite E1 in E2.
  destruct (decode_chunk out) as [d|] eqn:Ed; cbn [option_map] in E2; [|discriminate].
  assert (Hdl : len src = len d) by congruence.
  assert (Hdst : patched dst 0 src = dst') by congruence.
  specialize (Hout d eq_refl). rewrite <- Hdst, <- Hdl in Hout.
  rewrite take_patched_0 in Hout by lia. now subst d.
Qed.

Lemma envelope_fields c g p :
  is_uint32 c -> is_uint32 g ->
  uint32_of_bytes (nth 0 (envelope c g p) x00) (nth 1 (envelope c g p) x00)
                  (nth 2 (envelope c g p) x00) (nth 3 (envelope c g p) x00) = c
  /\ uint32_of_bytes (nth 4 (envelope c g p) x00) (nth 5 (envelope c g p) x00)
                     (nth 6 (envelope c g p) x00) (nth 7 (envelope c g p) x00) = g
  /\ drop 8 (envelope c g p) = p.
Proof.
  intros Hc Hg.
  pose proof (uint32_of_bytes_of_uint32 c (bytes_of_uint32 g ++ p) Hc) as E1.
  pose proof (uint32_of_bytes_of_uint32 g p Hg) as E2.
  unfold envelope, bytes_of_uint32 in *. cbn [app load_uint32 nth] in *.
  repeat split; congruence.
Qed.

Lemma parse_record_stuffed g p out :
  is_uint32 g ->
  Stuffed true (envelope (castagnoli_crc 0 (envelope CRC_INITIAL_VALUE g p)) g p) out ->
  len out <= CRDB_RECORD_STREAM_BUF_LEN ->
  parse_record out = Some (g, p).
Proof.
  intros Hg HS Hlen. rewrite parse_record_envelope.
  replace (len out >? CRDB_RECORD_STREAM_BUF_LEN) with false by lia.
  rewrite (decode_chunk_stuffed _ _ HS).
  assert (Hcrc : is_uint32 (castagnoli_crc 0 (envelope CRC_INITIAL_VALUE g p)))
    by (apply castagnoli_crc_uint32; unfold is_uint32, UINT32_MAX; lia).
  destruct (envelope_fields _ g p Hcrc Hg) as (E1 & E2 & E3).
  rewrite len_envelope. pose proof (len_nonneg p).
  replace (SIZEOF_record_header + len p <? SIZEOF_record_header) with false
    by (unfold SIZEOF_record_header; lia).
  cbv zeta. rewrite E1, E2, E3. now rewrite Z.eqb_refl.
Qed.

(** A stuffed form between two headers is found as one chunk. *)
Lemma scan_framed a out b rec :
  marker_free out -> parse_record out = Some rec ->
  scan (a ++ xfe :: xfd :: out ++ xfe :: xfd :: b) (len a)
       (len (a ++ xfe :: xfd :: out ++ xfe :: xfd :: b))
  = rec :: scan (a ++ xfe :: xfd :: out ++ xfe :: xfd :: b) (len a + 2 + len out)
                (len (a ++ xfe :: xfd :: out ++ xfe :: xfd :: b)).
Proof.
  intros Hfree Hrec.
  pose proof (len_nonneg a) as Ha. pose proof (len_nonneg out) as Ho.
  pose proof (len_nonneg b) as Hb.
  assert (HX : a ++ xfe :: xfd :: out ++ xfe :: xfd :: b
               = (a ++ [xfe; xfd]) ++ out ++ xfe :: xfd :: b)
    by (rewrite <- app_assoc; reflexivity).
  assert (HL : len (a ++ xfe :: xfd :: out ++ xfe :: xfd :: b)
               = len a + 2 + len out + 2 + len b)
    by (rewrite len_app, !len_cons, len_app, !len_cons; lia).
  assert (Hdrop : drop (len a + 2) (a ++ xfe :: xfd :: out ++ xfe :: xfd :: b)
                  = out ++ xfe :: xfd :: b).
  { rewrite HX. replace (len a + 2) with (len (a ++ [xfe; xfd]))
      by (rewrite len_app; reflexivity).
    apply drop_app_len. }
  set (X := a ++ xfe :: xfd :: out ++ xfe :: xfd :: b) in *.
  rewrite scan_eq by lia.
  replace (len a >=? len X) with false by lia.
  assert (Hnext : next_marker X (len a + 2) = len a + 2 + len out).
  { unfold next_marker. rewrite Hdrop. now rewrite first_marker_app_header. }
  rewrite Hnext. unfold chunk. rewrite Hdrop.
  replace (len a + 2 + len out - (len a + 2)) with (len out) by lia.
  rewrite take_app_len, Hrec. reflexivity.
Qed.

(** After the last header of a stream there is nothing. *)
Lemma scan_last_header c :
  scan (c ++ [xfe; xfd]) (len c) (len (c ++ [xfe; xfd])) = [].
Proof.
  pose proof (len_nonneg c).
  assert (HL : len (c ++ [xfe; xfd]) = len c + 2) by (rewrite len_app; reflexivity).
  rewrite scan_eq by lia. rewrite HL.
  replace (len c >=? len c + 2) with false by lia.
  assert (E : next_marker (c ++ [xfe; xfd]) (len c + 2) = len c + 2).
  { pose proof (next_marker_range (c ++ [xfe; xfd]) (len c + 2) ltac:(lia)). lia. }
  rewrite E. unfold chunk. rewrite Z.sub_diag, take_0, parse_record_nil.
  cbn [cons_opt]. apply scan_past. lia.
Qed.

(** The records of a stream that ends with a header, a stuffed record and a
    header. *)
Lemma scan_first_framed_last a out rec :
  marker_free out -> parse_record out = Some rec ->
  scan_first (a ++ header ++ out ++ header) 0 (len (a ++ header ++ out ++ header))
  = scan_first a 0 (len a) ++ [rec].
Proof.
  intros Hfree Hrec. rewrite header_eq. cbn [app].
  rewrite scan_first_app_header. f_equal.
  rewrite (scan_framed a out [] rec Hfree Hrec). f_equal.
  pose proof (scan_last_header (a ++ xfe :: xfd :: out)) as E.
  rewrite <- !app_assoc in E. cbn [app] in E.
  rewrite len_app, !len_cons in E.
  replace (len a + 2 + len out) with (len a + (1 + (1 + len out))) by lia.
  exact E.
Qed.

(** The records of a stream that starts with a stuffed record and a
    header. *)
Lemma scan_first_only out rec :
  marker_free out -> parse_record out = Some rec ->
  scan_first (out ++ header) 0 (len (out ++ header)) = [rec].
Proof.
  intros Hfree Hrec. rewrite header_eq.
  pose proof (len_nonneg out) as Ho.
  assert (HL : len (out ++ [xfe; xfd]) = len out + 2) by (rewrite len_app; reflexivity).
  unfold scan_first. replace (0 >=? len (out ++ [xfe; xfd])) with false by lia.
  assert (E : next_marker (out ++ [xfe; xfd]) 0 = len out).
  { unfold next_marker. rewrite drop_0, first_marker_app_header by exact Hfree. lia. }
  rewrite E. unfold chunk. rewrite drop_0, Z.sub_0_r, take_app_len, Hrec.
  cbn [cons_opt]. f_equal. apply scan_last_header.
Qed.

Lemma scan_first_header_only a :
  scan_first (a ++ header) 0 (len (a ++ header)) = scan_first a 0 (len a).
Proof.
  rewrite header_eq, scan_first_app_header, scan_last_header. apply app_nil_r.
Qed.

(** ** Appending to a descriptor *)

Lemma write_spec fd data :
  (snd (write fd data) = -1 /\ contents (fst (write fd data)) = contents fd)
  \/ (0 <= snd (write fd data) <= len data
      /\ contents (fst (write fd data))
         = contents fd ++ take (snd (write fd data)) data).
Proof.
  pose proof (len_nonneg data). unfold write.
  destruct (answers fd) as [|[n|e] rest]; cbn [fst snd contents].
  - right. split; [lia|]. now rewrite take_all by lia.
  - right. split; [lia|]. reflexivity.
  - left. split; reflexivity.
Qed.

(** The retry loop of [append_to_fd]: when it ends on a complete write, the
    file holds the buffer at its end, after a header if an earlier write
    was short. *)
Lemma append_to_fd_loop_shape buf count :
  len (take count buf) = count -> count + 2 <= SIZE_MAX ->
  forall tries fd st fd' st',
    (as_iov0 st = [] /\ as_expected st = count)
    \/ (as_iov0 st = header /\ as_expected st = count + 2) ->
    (0 <= as_written st -> to_size_t (as_written st) = as_expected st ->
     as_iov0 st = [] /\ count = 0) ->
    append_to_fd_loop tries fd buf count st = (fd', st') ->
    0 <= as_written st' -> to_size_t (as_written st') = as_expected st' ->
    (as_iov0 st = [] /\ contents fd' = contents fd ++ take count buf)
    \/ (exists junk, contents fd' = contents fd ++ junk ++ header ++ take count buf).
Proof.
  intros Hdata Hmax. set (data := take count buf) in *.
  pose proof (len_nonneg data) as Hd0.
  induction tries as [|tries IH]; intros fd st fd' st' Hmode Hinit E Hw Hexp.
  - cbn in E. assert (fd' = fd /\ st' = st) as [-> ->] by (split; congruence).
    destruct (Hinit Hw Hexp) as [Hi Hc]. left. split; [exact Hi|].
    assert (data = []) by (apply len_zero; lia).
    fold data. rewrite H. now rewrite app_nil_r.
  - cbn [append_to_fd_loop] in E. unfold writev in E. fold data in E.
    pose proof (write_spec fd (as_iov0 st ++ data)) as Hwr.
    destruct (write fd (as_iov0 st ++ data)) as [fd1 w] eqn:Ewr.
    cbn [fst snd] in Hwr. cbn [as_expected as_iov0] in E.
    assert (Hlen : len (as_iov0 st ++ data) = as_expected st).
    { rewrite len_app. destruct Hmode as [[-> ->] | [-> ->]];
        [rewrite len_nil | change (len header) with 2]; lia. }
    assert (Hexp_le : as_expected st <= count + 2)
      by (destruct Hmode as [[_ ->] | [_ ->]]; lia).
    destruct (to_size_t w =? as_expected st) eqn:Eeq.
    + (* the write was complete *)
      assert (fd' = fd1) by congruence. subst fd'.
      assert (Ew' : as_written st' = w) by (inversion E; reflexivity).
      rewrite Ew' in Hw.
      destruct Hwr as [[Hm1 _] | [Hr Hc]]; [lia|].
      assert (w = as_expected st).
      { apply Z.eqb_eq in Eeq. rewrite to_size_t_small in Eeq by lia. exact Eeq. }
      rewrite Hc. rewrite take_all by lia.
      destruct Hmode as [[Hi _] | [Hi _]]; rewrite Hi.
      * left. split; reflexivity.
      * right. exists []. reflexivity.
    + destruct (w <=? 0) eqn:Ew0.
      * (* nothing was written *)
        assert (Hc : contents fd1 = contents fd).
        { destruct Hwr as [[_ Hc] | [Hr Hc]]; [exact Hc|].
          rewrite Hc. rewrite take_neg by lia. apply app_nil_r. }
        rewrite <- Hc.
        refine (IH fd1 _ fd' st' _ _ E Hw Hexp); cbn [as_iov0 as_expected as_written].
        -- exact Hmode.
        -- intros H0 H1. apply Z.eqb_neq in Eeq. contradiction.
      * (* a short write *)
        destruct Hwr as [[Hm1 _] | [Hr Hc]]; [lia|].
        change (len header) with 2 in E.
        assert (Hnew : 0 <= w -> to_size_t w = count + 2 -> header = [] /\ count = 0).
        { intros H0 H1. apply Z.eqb_neq in Eeq.
          rewrite to_size_t_small in H1, Eeq by lia. lia. }
        destruct (IH fd1 {| as_iov0 := header; as_expected := count + 2;
                            as_written := w; as_partial_write := true |}
                     fd' st' (or_intror (conj eq_refl eq_refl)) Hnew E Hw Hexp)
          as [[Hi _] | [junk Hj]].
        -- cbn in Hi. discriminate.
        -- right. exists (take w (as_iov0 st ++ data) ++ junk).
           rewrite Hj, Hc. now rewrite <- !app_assoc.
Qed.

Lemma append_to_fd_shape fd fd' buf count ce ce' :
  0 <= count <= len buf -> count + 2 <= SIZE_MAX ->
  append_to_fd fd buf count ce = (fd', true, ce') ->
  ce' = ce
  /\ (contents fd' = contents fd ++ take count buf
      \/ exists junk, contents fd' = contents fd ++ junk ++ header ++ take count buf).
Proof.
  intros Hcount Hmax E. unfold append_to_fd in E.
  destruct (append_to_fd_loop 3 fd buf count _) as [fd1 st1] eqn:Eloop.
  destruct (as_written st1 <? 0) eqn:Eneg; [discriminate|].
  destruct (to_size_t (as_written st1) =? as_expected st1) eqn:Eeq;
    cbn [negb andb] in E; [|discriminate].
  rewrite andb_false_r in E.
  assert (fd' = fd1 /\ ce' = ce) as [-> ->] by (split; congruence).
  split; [reflexivity|].
  assert (Hdata : len (take count buf) = count) by (apply len_take; lia).
  assert (Hinit : 0 <= 0 -> to_size_t 0 = count -> @nil byte = [] /\ count = 0).
  { intros _ H. rewrite to_size_t_small in H by lia. split; [reflexivity | lia]. }
  destruct (append_to_fd_loop_shape buf count Hdata Hmax 3 fd
              {| as_iov0 := []; as_expected := count; as_written := 0;
                 as_partial_write := false |} fd1 st1
              (or_introl (conj eq_refl eq_refl)) Hinit
              Eloop ltac:(lia) ltac:(now apply Z.eqb_eq))
    as [[_ H] | H]; [left | right]; exact H.
Qed.

(** X11. What a successful [append_to_fd] leaves in the file, whatever the
    kernel answered to its writes: the old contents followed by the
    buffer, or, when a write was short, the old contents, some bytes, a
    header and the buffer.  The error is untouched. *)
Theorem append_to_fd_success (fd fd' : fd_state) (buf : list byte) (count : Z)
        (ce ce' : option crdb_error) :
  0 <= count <= len buf -> count + 2 <= SIZE_MAX ->
  append_to_fd fd buf count ce = (fd', true, ce') ->
  ce' = ce
  /\ (contents fd' = contents fd ++ take count buf
      \/ exists junk, contents fd' = contents fd ++ junk ++ header ++ take count buf).
Proof. apply append_to_fd_shape. Qed.

Lemma append_to_fd_success_witness :
  @None crdb_error = None
  /\ (contents {| contents := [x01; x01; xfe; xfd; x01; x2a]; answers := []; errno := 5 |}
      = contents {| contents := [x01]; answers := [Written 1; Failed 5]; errno := 0 |}
        ++ take 2 [x01; x2a]
      \/ exists junk,
          contents {| contents := [x01; x01; xfe; xfd; x01; x2a]; answers := []; errno := 5 |}
          = contents {| contents := [x01]; answers := [Written 1; Failed 5]; errno := 0 |}
            ++ junk ++ header ++ take 2 [x01; x2a]).
Proof.
  apply (append_to_fd_success
           {| contents := [x01]; answers := [Written 1; Failed 5]; errno := 0 |}
           {| contents := [x01; x01; xfe; xfd; x01; x2a]; answers := []; errno := 5 |}
           [x01; x2a] 2 None None).
  - vm_compute. split; discriminate.
  - vm_compute. discriminate.
  - vm_compute. reflexivity.
Defined.

Lemma append_to_fd_complete fd buf count ce :
  answers fd = [] -> 0 <= count <= len buf -> count <= SIZE_MAX ->
  append_to_fd fd buf count ce
  = ({| contents := contents fd ++ take count buf; answers := []; errno := errno fd |},
     true, ce).
Proof.
  intros Hans Hcount Hmax.
  assert (Hdata : len (take count buf) = count) by (apply len_take; lia).
  unfold append_to_fd. cbn [append_to_fd_loop]. unfold writev, write.
  rewrite Hans. cbn [app as_iov0 as_expected as_written as_partial_write].
  rewrite Hdata, to_size_t_small, Z.eqb_refl by lia.
  cbn [andb negb as_written as_expected as_partial_write errno].
  rewrite ?to_size_t_small, ?Z.eqb_refl by lia. cbn [negb].
  replace (count <? 0) with false by lia. reflexivity.
Qed.

(** X12. [append_to_fd] gives up after three failed writes: when the kernel
    fails the three [writev] calls, the file is left as it was and the
    function returns false with the error "write(2) failed" carrying the
    [errno] of the last failure. *)
Theorem append_to_fd_gives_up (fd : fd_state) (buf : list byte) (count : Z)
        (ce : option crdb_error) (e1 e2 e3 : Z) (rest : list write_answer) :
  0 <= count < SIZE_MAX ->
  answers fd = Failed e1 :: Failed e2 :: Failed e3 :: rest ->
  append_to_fd fd buf count ce
  = ({| contents := contents fd; answers := rest; errno := e3 |}, false,
     _crdb_error_set ce "record_stream write(2) failed."%string e3).
Proof.
  intros Hcount Hans.
  assert (Hne : (to_size_t (-1) =? count) = false)
    by (apply Z.eqb_neq; unfold SIZE_MAX in Hcount; change (to_size_t (-1))
          with 18446744073709551615; lia).
  unfold append_to_fd. cbn [append_to_fd_loop]. unfold writev, write.
  rewrite Hans. cbn [answers contents errno as_iov0 as_expected as_written
                       as_partial_write fst snd app].
  rewrite Hne. cbn [Z.leb Z.ltb Z.compare as_iov0 as_expected as_written
                      as_partial_write answers contents errno andb].
  reflexivity.
Qed.

Lemma append_to_fd_gives_up_witness :
  append_to_fd {| contents := [xfe; xfd];
                  answers := [Failed 5; Failed 28; Failed 122]; errno := 0 |}
               [x01; x2a] 2 None
  = ({| contents := contents {| contents := [xfe; xfd];
                                answers := [Failed 5; Failed 28; Failed 122];
                                errno := 0 |};
        answers := []; errno := 122 |}, false,
     _crdb_error_set None "record_stream write(2) failed."%string 122).
Proof.
  apply (append_to_fd_gives_up
           {| contents := [xfe; xfd]; answers := [Failed 5; Failed 28; Failed 122];
              errno := 0 |} [x01; x2a] 2 None 5 28 122 []).
  - vm_compute. split; [discriminate | reflexivity].
  - reflexivity.
Defined.

(** ** What an append writes *)

(** [crdb_record_stream_append_buf] hands [append_to_fd] the stuffed
    envelope of the record followed by a header. *)
Lemma append_buf_encoded ndebug fd encoded g p ce :
  len p <= CRDB_RECORD_STREAM_MAX_LEN -> MAX_ENCODED <= len encoded ->
  exists out enc,
    Stuffed true (envelope (castagnoli_crc 0 (envelope CRC_INITIAL_VALUE g p)) g p) out
    /\ len out + 2 <= MAX_ENCODED
    /\ len out + 2 <= len enc
    /\ take (len out + 2) enc = out ++ header
    /\ crdb_record_stream_append_buf ndebug fd encoded g p (len p) ce
       = Ok (append_to_fd fd enc (len out + 2) ce).
Proof.
  intros Hp Henc. pose proof (len_nonneg p) as Hp0.
  unfold crdb_record_stream_append_buf.
  replace (len p >? CRDB_RECORD_STREAM_MAX_LEN) with false by lia.
  rewrite write_record_memcpy by exact Hp. cbn [bind].
  unfold record_stream_append_record.
  destruct (encode_record_envelope ndebug encoded 0 0 g p
              (drop (len p) (repeat x00 (Z.to_nat CRDB_RECORD_STREAM_MAX_LEN))) ce Hp Henc)
    as (out & HS & Hlen & E).
  rewrite E. cbn [bind er_ret negb er_encoded er_encoded_size er_ce].
  pose proof (len_nonneg out) as Ho.
  assert (Hoh : len (out ++ header) = len out + 2)
    by (rewrite len_app; reflexivity).
  exists out, (patched encoded 0 (out ++ header)).
  split; [exact HS|]. split; [exact Hlen|]. split.
  - rewrite len_patched by lia. lia.
  - split; [|reflexivity]. rewrite <- Hoh. apply take_patched_0. lia.
Qed.

Lemma max_encoded_value : MAX_ENCODED = 526.
Proof. reflexivity. Qed.

(** ** Preparing a file for appending *)

Lemma bytes_eqb_eq a : forall b, bytes_eqb a b = true <-> a = b.
Proof.
  induction a as [|x a IH]; intros [|y b]; cbn [bytes_eqb];
    try (split; [discriminate | discriminate]); [split; reflexivity|].
  rewrite andb_true_iff, byte_eqb_eq, IH. split.
  - intros [-> ->]. reflexivity.
  - intros E. split; congruence.
Qed.

Lemma read_fd_spec fd pos count a :
  contents (fst (fst (read_fd fd pos count a))) = contents fd
  /\ answers (fst (fst (read_fd fd pos count a))) = answers fd
  /\ (snd (fst (read_fd fd pos count a)) = -1
      \/ (snd (fst (read_fd fd pos count a)) = len (snd (read_fd fd pos count a))
          /\ exists n, snd (read_fd fd pos count a)
                       = take n (take count (drop pos (contents fd))))).
Proof.
  destruct a as [[n|e]|]; cbn.
  - repeat split. right. split; [reflexivity|]. now exists n.
  - repeat split. now left.
  - repeat split. right. split; [reflexivity|].
    exists (len (take count (drop pos (contents fd)))).
    symmetry. apply take_all. lia.
Qed.

Lemma read_retry_spec pos count : forall reads fd,
  let r := read_retry reads fd pos count in
  contents (snd (fst (fst r))) = contents fd
  /\ answers (snd (fst (fst r))) = answers fd
  /\ (snd (fst r) = -1
      \/ (snd (fst r) = len (snd r)
          /\ exists n, snd r = take n (take count (drop pos (contents fd))))).
Proof.
  induction reads as [|a reads IH]; intros fd; cbn [read_retry].
  - pose proof (read_fd_spec fd pos count None) as H.
    destruct (read_fd fd pos count None) as [[fd1 ret] data]. exact H.
  - pose proof (read_fd_spec fd pos count (Some a)) as H.
    destruct (read_fd fd pos count (Some a)) as [[fd1 ret] data].
    cbn [fst snd] in H. destruct H as (Hc & Ha & Hr).
    destruct ((ret =? -1) && (errno fd1 =? EINTR)).
    + specialize (IH fd1). cbv zeta in IH. rewrite Hc, Ha in IH. exact IH.
    + cbn [fst snd]. auto.
Qed.

(** [fd_ends_with_header] only answers true when the file does end with
    the bytes of [hdr], and it never changes the file. *)
Lemma fd_ends_with_header_spec reads fd hdr :
  len hdr = 2 ->
  let r := fd_ends_with_header reads fd hdr in
  contents (snd (fst r)) = contents fd
  /\ answers (snd (fst r)) = answers fd
  /\ (snd r = true -> exists c0, contents fd = c0 ++ hdr).
Proof.
  intros Hh. unfold fd_ends_with_header, lseek_end, CRDB_WORD_STUFF_HEADER_SIZE.
  cbv zeta. change (Z.opp 2) with (-2).
  pose proof (len_nonneg (contents fd)) as Hc0.
  destruct (len (contents fd) + -2 <? 0) eqn:Epos.
  - cbn. repeat split. intros H. discriminate H.
  - replace (len (contents fd) + -2 <? 0) with false by lia.
    pose proof (read_retry_spec (len (contents fd) + -2) 2 reads fd) as H.
    destruct (read_retry reads fd (len (contents fd) + -2) 2) as [[[reads1 fd1] ret] buf].
    cbn [fst snd] in H. destruct H as (Hc & Ha & Hr).
    destruct (to_size_t ret =? 2) eqn:Eret; cbn [negb fst snd].
    + split; [exact Hc|]. split; [exact Ha|]. intros Hcmp.
      destruct Hr as [-> | [Hret [n Hn]]]; [discriminate|].
      set (tail := drop (len (contents fd) + -2) (contents fd)) in *.
      assert (Htl : len tail = 2) by (unfold tail; rewrite len_drop by lia; lia).
      rewrite (take_all 2 tail) in Hn by lia.
      assert (Hbuf : len buf = 2).
      { apply Z.eqb_eq in Eret. rewrite Hret in Eret.
        rewrite to_size_t_small in Eret; [exact Eret|].
        rewrite Hn. pose proof (len_nonneg (take n tail)).
        pose proof (len_take_le n tail). unfold SIZE_MAX. lia. }
      assert (buf = tail).
      { rewrite Hn. apply take_all.
        destruct (Z_le_gt_dec (len tail) n); [assumption|].
        rewrite Hn in Hbuf. destruct (Z_le_gt_dec n 0).
        - rewrite take_neg in Hbuf by lia. rewrite len_nil in Hbuf. lia.
        - rewrite len_take in Hbuf; lia. }
      unfold memcmp_eq in Hcmp. rewrite !take_all in Hcmp by lia.
      apply bytes_eqb_eq in Hcmp.
      exists (take (len (contents fd) + -2) (contents fd)).
      rewrite <- Hcmp, H. unfold tail. symmetry. apply take_drop.
    + split; [exact Hc|]. split; [exact Ha|]. intros H. discriminate H.
Qed.

Lemma fd_ends_with_header_true fd c0 :
  contents fd = c0 ++ header ->
  fd_ends_with_header [] fd header = ([], fd, true).
Proof.
  intros Hc. unfold fd_ends_with_header, lseek_end, CRDB_WORD_STUFF_HEADER_SIZE.
  change (Z.opp 2) with (-2).
  pose proof (len_nonneg c0).
  assert (HL : len (contents fd) = len c0 + 2)
    by (rewrite Hc, len_app; reflexivity).
  replace (len (contents fd) + -2 <? 0) with false by lia.
  replace (len (contents fd) + -2 <? 0) with false by lia.
  cbn [read_retry read_fd].
  replace (len (contents fd) + -2) with (len c0) by lia.
  rewrite Hc, drop_app_len. reflexivity.
Qed.

Lemma store_header hdr :
  len hdr = 2 -> crdb_word_stuff_header hdr 0 = Ok header.
Proof.
  intros Hh. unfold crdb_word_stuff_header.
  rewrite store_Ok by (change (len header) with 2; lia).
  rewrite take_0, drop_all by (change (len header) with 2; lia).
  now rewrite app_nil_r.
Qed.

Lemma append_initial_unfold ndebug reads fd hdr ce :
  len hdr = 2 ->
  crdb_record_stream_append_initial ndebug reads fd hdr ce
  = Ok (let '(reads, fd, ends) := fd_ends_with_header reads fd header in
        if ends then (reads, fd, true, ce)
        else let '(fd, r, ce) := append_to_fd fd header 2 ce in (reads, fd, r, ce)).
Proof.
  intros Hh. unfold crdb_record_stream_append_initial.
  rewrite store_header by exact Hh. cbn [bind].
  change (0 + CRDB_WORD_STUFF_HEADER_SIZE =? 0 + len header) with true.
  rewrite assert_true. cbn [bind]. change (len header) with 2.
  destruct (fd_ends_with_header reads fd header) as [[reads1 fd1] ends].
  destruct ends; [reflexivity|].
  destruct (append_to_fd fd1 header 2 ce) as [[fd2 r] ce2]. reflexivity.
Qed.

(** X15. After a successful [crdb_record_stream_append_initial] the file
    ends with a header, whatever the kernel answered to the reads and
    writes; and the old contents are still there, as a prefix. *)
Theorem append_initial_ends_with_header (ndebug : bool) (reads reads' : list read_answer)
        (fd fd' : fd_state) (hdr : list byte) (ce ce' : option crdb_error) :
  len hdr = 2 ->
  crdb_record_stream_append_initial ndebug reads fd hdr ce = Ok (reads', fd', true, ce') ->
  (exists c0, contents fd' = c0 ++ header)
  /\ (exists added, contents fd' = contents fd ++ added).
Proof.
  intros Hh E. rewrite append_initial_unfold in E by exact Hh.
  pose proof (fd_ends_with_header_spec reads fd header eq_refl) as H.
  destruct (fd_ends_with_header reads fd header) as [[reads1 fd1] ends].
  cbn [fst snd] in H. destruct H as (Hc & Ha & Hends).
  destruct ends.
  - assert (fd' = fd1) by congruence. subst fd'. rewrite Hc.
    split; [now apply Hends|]. exists []. now rewrite app_nil_r.
  - destruct (append_to_fd fd1 header 2 ce) as [[fd2 r] ce2] eqn:Ea.
    assert (fd' = fd2 /\ r = true) as [-> ->] by (split; congruence).
    apply append_to_fd_shape in Ea;
      [|change (len header) with 2; lia | unfold SIZE_MAX; lia].
    destruct Ea as [_ Hs]. rewrite (take_all 2 header) in Hs by reflexivity.
    rewrite Hc in Hs.
    destruct Hs as [Hs | [junk Hs]]; rewrite Hs.
    + split; [now exists (contents fd) | now exists header].
    + split.
      * exists (contents fd ++ junk ++ header). now rewrite <- !app_assoc.
      * now exists (junk ++ header ++ header).
Qed.

Lemma append_initial_ends_with_header_witness :
  (exists c0,
      contents {| contents := [x01; x02; xfe; xfe; xfd; xfe; xfd];
                  answers := []; errno := 5 |} = c0 ++ header)
  /\ (exists added,
         contents {| contents := [x01; x02; xfe; xfe; xfd; xfe; xfd];
                     answers := []; errno := 5 |}
         = contents {| contents := [x01; x02]; answers := [Written 1]; errno := 0 |} ++ added).
Proof.
  apply (append_initial_ends_with_header
           false [ReadFailed 5] []
           {| contents := [x01; x02]; answers := [Written 1]; errno := 0 |}
           {| contents := [x01; x02; xfe; xfe; xfd; xfe; xfd]; answers := []; errno := 5 |}
           [x00; x00] None None).
  - reflexivity.
  - vm_compute. reflexivity.
Defined.

Lemma read_retry_interrupted fd pos count : forall k,
  exists fd',
    read_retry (repeat (ReadFailed EINTR) k) fd pos count
    = ([], fd', len (take count (drop pos (contents fd))),
       take count (drop pos (contents fd)))
    /\ contents fd' = contents fd /\ answers fd' = answers fd.
Proof.
  intros k. revert fd. induction k as [|k IH]; intros fd.
  - exists fd. repeat split.
  - cbn [repeat read_retry read_fd]. cbn [andb Z.eqb set_errno errno EINTR].
    change (-1 =? -1) with true. change (EINTR =? EINTR) with true. cbn [andb].
    destruct (IH (set_errno fd EINTR)) as (fd' & E & Hc & Ha).
    exists fd'. cbn [set_errno contents answers] in *. repeat split; assumption.
Qed.

(** X16. [crdb_record_stream_append_initial] on a file that already ends
    with a header writes nothing: however many times the [read] is
    interrupted ([EINTR]) before it completes, the function returns true,
    the contents are unchanged and no write is issued. *)
Theorem append_initial_noop (ndebug : bool) (k : nat) (fd : fd_state)
        (hdr : list byte) (ce : option crdb_error) (c0 : list byte) :
  len hdr = 2 ->
  contents fd = c0 ++ header ->
  exists fd',
    crdb_record_stream_append_initial ndebug (repeat (ReadFailed EINTR) k) fd hdr ce
    = Ok ([], fd', true, ce)
    /\ contents fd' = contents fd /\ answers fd' = answers fd.
Proof.
  intros Hh Hc. rewrite append_initial_unfold by exact Hh.
  unfold fd_ends_with_header, lseek_end, CRDB_WORD_STUFF_HEADER_SIZE.
  change (Z.opp 2) with (-2). pose proof (len_nonneg c0).
  assert (HL : len (contents fd) = len c0 + 2)
    by (rewrite Hc, len_app; reflexivity).
  replace (len (contents fd) + -2 <? 0) with false by lia.
  replace (len (contents fd) + -2 <? 0) with false by lia.
  destruct (read_retry_interrupted fd (len (contents fd) + -2) 2 k)
    as (fd' & E & Hc' & Ha').
  rewrite E. exists fd'.
  replace (len (contents fd) + -2) with (len c0) by lia.
  rewrite Hc, drop_app_len. split; [reflexivity|]. rewrite <- Hc. now split.
Qed.

Lemma append_initial_noop_witness :
  exists fd',
    crdb_record_stream_append_initial
      false (repeat (ReadFailed EINTR) 2)
      {| contents := sample_stream; answers := [Failed 5]; errno := 0 |}
      [x00; x00] None
    = Ok ([], fd', true, None)
    /\ contents fd'
       = contents {| contents := sample_stream; answers := [Failed 5]; errno := 0 |}
    /\ answers fd'
       = answers {| contents := sample_stream; answers := [Failed 5]; errno := 0 |}.
Proof.
  apply (append_initial_noop
           false 2 {| contents := sample_stream; answers := [Failed 5]; errno := 0 |}
           [x00; x00] None (take 16 sample_stream)).
  - reflexivity.
  - reflexivity.
Defined.

(** With complete writes, [crdb_record_stream_append_initial] leaves the
    file as it was or with one more header. *)
Lemma append_initial_complete ndebug reads fd hdr ce :
  len hdr = 2 -> answers fd = [] ->
  exists reads' fd',
    crdb_record_stream_append_initial ndebug reads fd hdr ce = Ok (reads', fd', true, ce)
    /\ answers fd' = []
    /\ (exists c0, contents fd' = c0 ++ header)
    /\ (contents fd' = contents fd \/ contents fd' = contents fd ++ header).
Proof.
  intros Hh Hans. rewrite append_initial_unfold by exact Hh.
  pose proof (fd_ends_with_header_spec reads fd header eq_refl) as H.
  destruct (fd_ends_with_header reads fd header) as [[reads1 fd1] ends].
  cbn [fst snd] in H. destruct H as (Hc & Ha & Hends).
  destruct ends.
  - exists reads1, fd1. split; [reflexivity|]. split; [congruence|].
    rewrite Hc. split; [now apply Hends | now left].
  - rewrite append_to_fd_complete;
      [|congruence | change (len header) with 2; lia | unfold SIZE_MAX; lia].
    eexists. eexists. split; [reflexivity|]. cbn [answers contents].
    rewrite (take_all 2 header) by reflexivity. rewrite Hc.
    split; [reflexivity|]. split; [now exists (contents fd) | now right].
Qed.

(** X17. [crdb_record_stream_append_initial] does not change the records
    of a file: when the kernel completes the writes, it returns true
    whatever the contents of the file and the answers to the reads, leaves
    a file that ends with a header, and iterating over the new contents
    yields the records of the old contents. *)
Theorem append_initial_keeps_records (ndebug : bool) (reads : list read_answer)
        (fd : fd_state) (hdr : list byte) (ce : option crdb_error) (b b' : Z) :
  len hdr = 2 -> answers fd = [] ->
  mappable b (contents fd) -> mappable b' (contents fd ++ header) ->
  exists reads' fd' old,
    crdb_record_stream_append_initial ndebug reads fd hdr ce = Ok (reads', fd', true, ce)
    /\ (exists c0, contents fd' = c0 ++ header)
    /\ stream_records ndebug (mapped_at b (contents fd)) = Ok old
    /\ stream_records ndebug (mapped_at b' (contents fd')) = Ok old.
Proof.
  intros Hh Hans Hb Hb'.
  destruct (append_initial_complete ndebug reads fd hdr ce Hh Hans)
    as (reads' & fd' & E & _ & Hend & Hc).
  exists reads', fd'. eexists. split; [exact E|]. split; [exact Hend|].
  assert (Hb1 : mappable b' (contents fd)).
  { destruct Hb' as [H1 H2]. split; [exact H1|]. rewrite len_app in H2.
    change (len header) with 2 in H2. lia. }
  rewrite (stream_records_scan ndebug (mapped_at b (contents fd)))
    by now apply valid_mapped_at.
  split; [reflexivity|]. cbn [bytes mapped_at].
  destruct Hc as [-> | ->].
  - now rewrite stream_records_scan by now apply valid_mapped_at.
  - rewrite stream_records_scan by now apply valid_mapped_at.
    cbn [bytes mapped_at]. now rewrite scan_first_header_only.
Qed.

Lemma append_initial_keeps_records_witness :
  exists reads' fd' old,
    crdb_record_stream_append_initial
      false [ReadUpTo 1]
      {| contents := take 17 sample_stream; answers := []; errno := 0 |}
      [x00; x00] None
    = Ok (reads', fd', true, None)
    /\ (exists c0, contents fd' = c0 ++ header)
    /\ stream_records false
         (mapped_at 4096 (contents {| contents := take 17 sample_stream;
                                      answers := []; errno := 0 |})) = Ok old
    /\ stream_records false (mapped_at 8192 (contents fd')) = Ok old.
Proof.
  apply (append_initial_keeps_records
           false [ReadUpTo 1]
           {| contents := take 17 sample_stream; answers := []; errno := 0 |}
           [x00; x00] None 4096 8192).
  - reflexivity.
  - reflexivity.
  - vm_compute. split; [reflexivity | discriminate].
  - vm_compute. split; [reflexivity | discriminate].
Defined.

(** ** Sequences of appends *)

Lemma append_buf_scan ndebug fd encoded g p ce :
  answers fd = [] ->
  is_uint32 g -> len p <= CRDB_RECORD_STREAM_MAX_LEN ->
  MAX_ENCODED <= len encoded ->
  (contents fd = [] \/ exists c0, contents fd = c0 ++ header) ->
  exists fd',
    crdb_record_stream_append_buf ndebug fd encoded g p (len p) ce = Ok (fd', true, ce)
    /\ answers fd' = []
    /\ (exists c0, contents fd' = c0 ++ header)
    /\ len (contents fd') <= len (contents fd) + MAX_ENCODED
    /\ scan_first (contents fd') 0 (len (contents fd'))
       = scan_first (contents fd) 0 (len (contents fd)) ++ [(g, p)].
Proof.
  intros Hans Hg Hp Henc Hc.
  destruct (append_buf_encoded ndebug fd encoded g p ce Hp Henc)
    as (out & enc & HS & Hlen & Hle & Htake & E).
  pose proof (len_nonneg out) as Ho. rewrite max_encoded_value in *.
  rewrite E, append_to_fd_complete by (unfold SIZE_MAX; lia || assumption).
  rewrite Htake.
  assert (Hrec : parse_record out = Some (g, p))
    by (apply parse_record_stuffed; [assumption.. | unfold CRDB_RECORD_STREAM_BUF_LEN,
          CRDB_RECORD_STREAM_MAX_LEN; lia]).
  destruct (stuffed_marker_free _ _ _ HS) as [Hfree _].
  eexists. split; [reflexivity|]. cbn [contents answers].
  split; [reflexivity|]. split.
  - exists (contents fd ++ out). now rewrite <- app_assoc.
  - split.
    + rewrite !len_app. change (len header) with 2. lia.
    + destruct Hc as [-> | [c0 ->]].
      * cbn [app]. rewrite (scan_first_only out (g, p) Hfree Hrec). reflexivity.
      * rewrite <- app_assoc.
        rewrite (scan_first_framed_last c0 out (g, p) Hfree Hrec).
        now rewrite scan_first_header_only.
Qed.

(** X18. Preparing a file and appending to it, whatever the file holds:
    when the kernel completes the writes,
    [crdb_record_stream_append_initial] followed by
    [crdb_record_stream_append_buf] both return true, and iterating over
    the resulting file yields the records of the original contents followed
    by the record appended. *)
Theorem append_initial_then_buf (ndebug : bool) (reads : list read_answer)
        (fd : fd_state) (hdr encoded : list byte) (g : Z) (p : list byte)
        (ce : option crdb_error) (b b' : Z) :
  len hdr = 2 -> answers fd = [] ->
  is_uint32 g -> len p <= CRDB_RECORD_STREAM_MAX_LEN ->
  MAX_ENCODED <= len encoded ->
  mappable b (contents fd) ->
  0 < b' -> b' + len (contents fd) + 2 + MAX_ENCODED <= SIZE_MAX ->
  exists reads' fd1 fd2 old,
    crdb_record_stream_append_initial ndebug reads fd hdr ce = Ok (reads', fd1, true, ce)
    /\ crdb_record_stream_append_buf ndebug fd1 encoded g p (len p) ce
       = Ok (fd2, true, ce)
    /\ stream_records ndebug (mapped_at b (contents fd)) = Ok old
    /\ stream_records ndebug (mapped_at b' (contents fd2)) = Ok (old ++ [(g, p)]).
Proof.
  intros Hh Hans Hg Hp Henc Hb Hb' Hmax.
  destruct (append_initial_complete ndebug reads fd hdr ce Hh Hans)
    as (reads' & fd1 & E1 & Ha1 & Hend & Hc).
  destruct (append_buf_scan ndebug fd1 encoded g p ce Ha1 Hg Hp Henc (or_intror Hend))
    as (fd2 & E2 & _ & _ & Hlen & Hscan).
  exists reads', fd1, fd2. eexists.
  split; [exact E1|]. split; [exact E2|].
  rewrite (stream_records_scan ndebug (mapped_at b (contents fd)))
    by now apply valid_mapped_at.
  split; [reflexivity|].
  assert (Hl1 : len (contents fd1) <= len (contents fd) + 2).
  { destruct Hc as [-> | ->]; [lia|]. rewrite len_app. change (len header) with 2. lia. }
  rewrite stream_records_scan by (apply valid_mapped_at; split; [exact Hb' | lia]).
  cbn [bytes mapped_at]. rewrite Hscan. f_equal. f_equal.
  destruct Hc as [-> | ->]; [reflexivity | apply scan_first_header_only].
Qed.

Lemma append_initial_then_buf_witness :
  exists reads' fd1 fd2 old,
    crdb_record_stream_append_initial
      false [] {| contents := take 15 sample_stream; answers := []; errno := 0 |}
      [x00; x00] None
    = Ok (reads', fd1, true, None)
    /\ crdb_record_stream_append_buf false fd1 (repeat x00 526) 9 [x68; x69]
                                     (len [x68; x69]) None
       = Ok (fd2, true, None)
    /\ stream_records false
         (mapped_at 4096 (contents {| contents := take 15 sample_stream;
                                      answers := []; errno := 0 |})) = Ok old
    /\ stream_records false (mapped_at 8192 (contents fd2))
       = Ok (old ++ [(9, [x68; x69])]).
Proof.
  apply (append_initial_then_buf
           false [] {| contents := take 15 sample_stream; answers := []; errno := 0 |}
           [x00; x00] (repeat x00 526) 9 [x68; x69] None 4096 8192).
  - reflexivity.
  - reflexivity.
  - vm_compute. split; discriminate.
  - vm_compute. discriminate.
  - vm_compute. discriminate.
  - vm_compute. split; [reflexivity | discriminate].
  - reflexivity.
  - vm_compute. discriminate.
Defined.

(** ** Iterating over a file *)

Lemma find_first_nonzero_loop_spec : forall p cursor end_,
  0 <= end_ - cursor <= len p ->
  exists z,
    find_first_nonzero_loop p cursor end_ = Ok (cursor + z)
    /\ 0 <= z <= end_ - cursor
    /\ take z p = repeat x00 (Z.to_nat z)
    /\ (cursor + z < end_ -> exists b tl, drop z p = b :: tl /\ b <> x00).
Proof.
  induction p as [|b p IH]; intros cursor end_ H.
  - change (len (@nil byte)) with 0 in H. exists 0. cbn [find_first_nonzero_loop].
    replace (cursor <? end_) with false by lia.
    split; [f_equal; lia|]. split; [lia|]. split; [reflexivity | lia].
  - rewrite len_cons in H. cbn [find_first_nonzero_loop].
    destruct (cursor <? end_) eqn:E.
    + destruct (byte_val b =? 0) eqn:Eb.
      * destruct (IH (cursor + 1) end_) as (z & Ez & Hz & Hzero & Hnz); [lia|].
        exists (1 + z). split; [rewrite Ez; f_equal; lia|]. split; [lia|].
        assert (b = x00) by (apply byte_val_inj; apply Z.eqb_eq in Eb; rewrite Eb; reflexivity).
        subst b. split.
        -- rewrite take_cons by lia. replace (1 + z - 1) with z by lia.
           rewrite Hzero. replace (Z.to_nat (1 + z)) with (S (Z.to_nat z)) by lia.
           reflexivity.
        -- intros Hlt. rewrite drop_cons by lia. replace (1 + z - 1) with z by lia.
           apply Hnz. lia.
      * exists 0. split; [f_equal; lia|]. split; [lia|]. split; [reflexivity|].
        intros _. exists b, p. split; [reflexivity|].
        intros ->. discriminate.
    + exists 0. split; [f_equal; lia|]. split; [lia|]. split; [reflexivity | lia].
Qed.

(** [find_first_nonzero] on a range of a valid memory. *)
Lemma find_first_nonzero_within (m : memory) (c e : Z) :
  valid_memory m -> 0 <= c <= e -> e <= len (bytes m) ->
  exists z,
    find_first_nonzero m (base m + c) (base m + e) = Ok (base m + z)
    /\ c <= z <= e
    /\ chunk (bytes m) c z = repeat x00 (Z.to_nat (z - c))
    /\ (z < e -> exists b, read (bytes m) z = Ok b /\ b <> x00).
Proof.
  intros Hm Hc He. unfold find_first_nonzero.
  rewrite view_offset by lia. replace (base m + c - base m) with c by lia.
  destruct (find_first_nonzero_loop_spec (drop c (bytes m)) (base m + c) (base m + e))
    as (z & Ez & Hz & Hzero & Hnz); [rewrite len_drop by lia; lia|].
  exists (c + z). split; [rewrite Ez; f_equal; lia|]. split; [lia|]. split.
  - unfold chunk. replace (c + z - c) with z by lia. exact Hzero.
  - intros Hlt. destruct Hnz as (b & tl & Hd & Hb); [lia|].
    exists b. split; [|exact Hb]. apply read_Ok; [lia|].
    rewrite drop_drop in Hd by lia. unfold drop in Hd.
    rewrite <- (firstn_skipn (Z.to_nat (c + z)) (bytes m)).
    rewrite nth_error_app2 by (rewrite length_firstn; unfold len in He; lia).
    rewrite length_firstn. replace (Z.to_nat (c + z) - Nat.min _ _)%nat with O
      by (unfold len in He; lia).
    now rewrite Hd.
Qed.

(** X20. [find_first_nonzero(cursor, end)] within a buffer returns the
    first position at or after [cursor] that holds a non-zero byte, or
    [end]: it does not read outside [cursor ... end - 1], every byte it
    skipped is zero, and a result before [end] points to a non-zero
    byte. *)
Theorem find_first_nonzero_spec (m : memory) (c e : Z) :
  valid_memory m -> 0 <= c <= e -> e <= len (bytes m) ->
  exists z,
    find_first_nonzero m (base m + c) (base m + e) = Ok (base m + z)
    /\ c <= z <= e
    /\ chunk (bytes m) c z = repeat x00 (Z.to_nat (z - c))
    /\ (z < e -> exists b, read (bytes m) z = Ok b /\ b <> x00).
Proof. apply find_first_nonzero_within. Qed.

Lemma find_first_nonzero_spec_witness :
  exists z,
    find_first_nonzero (mapped_at 4096 [x00; x00; x00; xfe; xfd; x00])
                       (base (mapped_at 4096 [x00; x00; x00; xfe; xfd; x00]) + 1)
                       (base (mapped_at 4096 [x00; x00; x00; xfe; xfd; x00]) + 6)
    = Ok (base (mapped_at 4096 [x00; x00; x00; xfe; xfd; x00]) + z)
    /\ 1 <= z <= 6
    /\ chunk (bytes (mapped_at 4096 [x00; x00; x00; xfe; xfd; x00])) 1 z
       = repeat x00 (Z.to_nat (z - 1))
    /\ (z < 6 -> exists b,
           read (bytes (mapped_at 4096 [x00; x00; x00; xfe; xfd; x00])) z = Ok b
           /\ b <> x00).
Proof.
  apply (find_first_nonzero_spec (mapped_at 4096 [x00; x00; x00; xfe; xfd; x00]) 1 6).
  - apply valid_mapped_at. vm_compute. split; [reflexivity | discriminate].
  - lia.
  - vm_compute. discriminate.
Defined.

Lemma init_fd_unfold m k it0 ce :
  valid_memory m -> base m = mmap_ret k ->
  fstat_ret k <> -1 -> st_size k = len (bytes m) -> 0 < st_size k ->
  crdb_record_stream_iterator_init_fd m k it0 ce
  = (p <- find_first_nonzero m (base m + data_start k) (base m + len (bytes m)) ;;
     Ok (true,
         {| fi_it :=
              {| it_cursor := p; it_end := base m + len (bytes m);
                 it_stop_at := base m + len (bytes m); it_begin := base m;
                 it_header := 0; it_first_record := true; it_first_nonzero := p |};
            fi_mapped := base m; fi_map_size := len (bytes m) |}, ce)).
Proof.
  intros (Hb0 & Hb1 & _) Hbase Hfstat Hsize Hpos.
  unfold crdb_record_stream_iterator_init_fd, data_start, MAP_FAILED.
  replace (fstat_ret k =? -1) with false by lia.
  replace (st_size k <=? 0) with false by lia.
  rewrite <- Hbase, Hsize in *.
  replace (base m =? SIZE_MAX) with false by lia.
  destruct (seek_data k >? 0) eqn:Es.
  - destruct (seek_data k >=? len (bytes m)) eqn:Eg; cbn [set_cursor it_cursor it_end].
    + replace (Z.min (seek_data k) (len (bytes m))) with (len (bytes m)) by lia.
      reflexivity.
    + replace (Z.min (seek_data k) (len (bytes m))) with (seek_data k) by lia.
      reflexivity.
  - cbn [it_cursor it_end]. rewrite Z.add_0_r. reflexivity.
Qed.

Lemma data_start_range k : 0 < st_size k -> 0 <= data_start k <= st_size k.
Proof. unfold data_start. destruct (seek_data k >? 0) eqn:E; lia. Qed.

(** X21. [crdb_record_stream_iterator_init_fd] on a non-empty file that
    [mmap] maps: whatever [lseek(SEEK_DATA)] answers, the function returns
    true without reading outside the mapping, and leaves an iterator over
    the whole mapping that has not signalled the end, positioned on its
    first record at [first_nonzero]; the bytes between the start of the
    data and [first_nonzero] are zero, and the byte at [first_nonzero], if
    any, is not; [deinit] then unmaps the whole mapping. *)
Theorem init_fd_mapped (m : memory) (k : map_answers) (it0 : fd_iterator)
        (ce : option crdb_error) :
  valid_memory m -> base m = mmap_ret k -> base m <> 0 ->
  fstat_ret k <> -1 -> st_size k = len (bytes m) -> 0 < st_size k ->
  exists it z,
    crdb_record_stream_iterator_init_fd m k it0 ce = Ok (true, it, ce)
    /\ wf_iterator m (fi_it it)
    /\ it_first_record (fi_it it) = true
    /\ it_cursor (fi_it it) = base m + z
    /\ it_first_nonzero (fi_it it) = base m + z
    /\ it_stop_at (fi_it it) = base m + len (bytes m)
    /\ data_start k <= z <= len (bytes m)
    /\ chunk (bytes m) (data_start k) z = repeat x00 (Z.to_nat (z - data_start k))
    /\ (z < len (bytes m) -> exists b, read (bytes m) z = Ok b /\ b <> x00)
    /\ crdb_record_stream_iterator_deinit it = Some (base m, len (bytes m)).
Proof.
  intros Hm Hbase Hnull Hfstat Hsize Hpos.
  rewrite init_fd_unfold by assumption.
  pose proof (data_start_range k Hpos) as Hs. rewrite Hsize in Hs.
  destruct (find_first_nonzero_within m (data_start k) (len (bytes m)) Hm)
    as (z & Ez & Hz & Hzero & Hnz); [lia | lia |].
  rewrite Ez. cbn [bind]. eexists. exists z. split; [reflexivity|].
  cbn [fi_it it_first_record it_cursor it_first_nonzero it_stop_at].
  split.
  { unfold wf_iterator. cbn. split; [exact Hm|]. repeat split; lia. }
  do 6 (split; [reflexivity || assumption|]). split; [exact Hnz|].
  unfold crdb_record_stream_iterator_deinit. cbn [fi_mapped fi_map_size].
  now replace (base m =? 0) with false by lia.
Qed.

Lemma init_fd_mapped_witness :
  exists it z,
    crdb_record_stream_iterator_init_fd
      (mapped_at 4096 [x00; x00; x00; xfe; xfd; x00])
      {| fstat_ret := 0; fstat_errno := 0; st_size := 6; seek_data := 1;
         mmap_ret := 4096; mmap_errno := 0 |}
      {| fi_it := crdb_record_stream_iterator_init_buf 0 0; fi_mapped := 0;
         fi_map_size := 0 |} None
    = Ok (true, it, None)
    /\ wf_iterator (mapped_at 4096 [x00; x00; x00; xfe; xfd; x00]) (fi_it it)
    /\ it_first_record (fi_it it) = true
    /\ it_cursor (fi_it it) = base (mapped_at 4096 [x00; x00; x00; xfe; xfd; x00]) + z
    /\ it_first_nonzero (fi_it it)
       = base (mapped_at 4096 [x00; x00; x00; xfe; xfd; x00]) + z
    /\ it_stop_at (fi_it it)
       = base (mapped_at 4096 [x00; x00; x00; xfe; xfd; x00])
         + len (bytes (mapped_at 4096 [x00; x00; x00; xfe; xfd; x00]))
    /\ data_start {| fstat_ret := 0; fstat_errno := 0; st_size := 6; seek_data := 1;
                     mmap_ret := 4096; mmap_errno := 0 |} <= z
       <= len (bytes (mapped_at 4096 [x00; x00; x00; xfe; xfd; x00]))
    /\ chunk (bytes (mapped_at 4096 [x00; x00; x00; xfe; xfd; x00]))
             (data_start {| fstat_ret := 0; fstat_errno := 0; st_size := 6;
                            seek_data := 1; mmap_ret := 4096; mmap_errno := 0 |}) z
       = repeat x00
           (Z.to_nat (z - data_start {| fstat_ret := 0; fstat_errno := 0; st_size := 6;
                                        seek_data := 1; mmap_ret := 4096;
                                        mmap_errno := 0 |}))
    /\ (z < len (bytes (mapped_at 4096 [x00; x00; x00; xfe; xfd; x00])) ->
        exists b, read (bytes (mapped_at 4096 [x00; x00; x00; xfe; xfd; x00])) z = Ok b
                  /\ b <> x00)
    /\ crdb_record_stream_iterator_deinit it
       = Some (base (mapped_at 4096 [x00; x00; x00; xfe; xfd; x00]),
               len (bytes (mapped_at 4096 [x00; x00; x00; xfe; xfd; x00]))).
Proof.
  apply (init_fd_mapped
           (mapped_at 4096 [x00; x00; x00; xfe; xfd; x00])
           {| fstat_ret := 0; fstat_errno := 0; st_size := 6; seek_data := 1;
              mmap_ret := 4096; mmap_errno := 0 |}
           {| fi_it := crdb_record_stream_iterator_init_buf 0 0; fi_mapped := 0;
              fi_map_size := 0 |} None).
  - apply valid_mapped_at. vm_compute. split; [reflexivity | discriminate].
  - reflexivity.
  - discriminate.
  - discriminate.
  - reflexivity.
  - reflexivity.
Defined.

(** X22. [crdb_record_stream_iterator_init_fd] on an empty file maps
    nothing: it returns true with an iterator at [NULL] on which
    [crdb_record_stream_iterator_next_buf] returns false without reading any
    memory, and [deinit] unmaps nothing. *)
Theorem init_fd_empty (ndebug : bool) (m m' : memory) (k : map_answers)
        (it0 : fd_iterator) (ce : option crdb_error) (stack dst : list byte) :
  fstat_ret k <> -1 -> st_size k <= 0 ->
  exists it r,
    crdb_record_stream_iterator_init_fd m k it0 ce = Ok (true, it, ce)
    /\ crdb_record_stream_iterator_next_buf ndebug m' (fi_it it) stack dst = Ok r
    /\ nb_ret r = false /\ nb_dst r = dst
    /\ records ndebug m' (fi_it it) = Ok []
    /\ crdb_record_stream_iterator_deinit it = None.
Proof.
  intros Hfstat Hsize. unfold crdb_record_stream_iterator_init_fd.
  replace (fstat_ret k =? -1) with false by lia.
  replace (st_size k <=? 0) with true by lia.
  eexists. eexists. split; [reflexivity|]. cbn [fi_it].
  assert (E : forall st d,
             crdb_record_stream_iterator_next_buf
               ndebug m' (crdb_record_stream_iterator_init_buf 0 0) st d
             = Ok {| nb_ret := false; nb_generation := 0; nb_len := 0; nb_dst := d;
                     nb_it := set_end (set_cursor
                                (crdb_record_stream_iterator_init_buf 0 0) 0) 0 |}).
  { intros st d. unfold crdb_record_stream_iterator_next_buf,
      record_stream_iterator_next. cbn [iterator_next_loop].
    reflexivity. }
  split; [apply E|]. split; [reflexivity|]. split; [reflexivity|]. split.
  - unfold records. cbn [iterate]. rewrite E. reflexivity.
  - reflexivity.
Qed.

Lemma init_fd_empty_witness :
  exists it r,
    crdb_record_stream_iterator_init_fd
      (mapped_at 4096 [])
      {| fstat_ret := 0; fstat_errno := 0; st_size := 0; seek_data := -1;
         mmap_ret := 0; mmap_errno := 0 |}
      {| fi_it := sample_iterator; fi_mapped := 0; fi_map_size := 0 |} None
    = Ok (true, it, None)
    /\ crdb_record_stream_iterator_next_buf false sample_memory (fi_it it)
                                            stack_read_record caller_dst = Ok r
    /\ nb_ret r = false /\ nb_dst r = caller_dst
    /\ records false sample_memory (fi_it it) = Ok []
    /\ crdb_record_stream_iterator_deinit it = None.
Proof.
  apply (init_fd_empty
           false (mapped_at 4096 []) sample_memory
           {| fstat_ret := 0; fstat_errno := 0; st_size := 0; seek_data := -1;
              mmap_ret := 0; mmap_errno := 0 |}
           {| fi_it := sample_iterator; fi_mapped := 0; fi_map_size := 0 |} None
           stack_read_record caller_dst).
  - discriminate.
  - discriminate.
Defined.

Lemma find_first_nonzero_loop_zeros rest :
  (rest = [] \/ exists b tl, rest = b :: tl /\ b <> x00) ->
  forall n cursor end_,
    end_ - cursor = Z.of_nat n + len rest ->
    find_first_nonzero_loop (repeat x00 n ++ rest) cursor end_
    = Ok (cursor + Z.of_nat n).
Proof.
  intros Hrest. induction n as [|n IH]; intros cursor end_ H.
  - cbn [repeat app]. rewrite Z.add_0_r.
    destruct Hrest as [-> | (b & tl & -> & Hb)].
    + change (len (@nil byte)) with 0 in H. cbn [find_first_nonzero_loop].
      now replace (cursor <? end_) with false by lia.
    + rewrite len_cons in H. pose proof (len_nonneg tl).
      cbn [find_first_nonzero_loop]. replace (cursor <? end_) with true by lia.
      replace (byte_val b =? 0) with false; [reflexivity|].
      symmetry. apply Z.eqb_neq. intros E. apply Hb. now apply byte_val_inj.
  - cbn [repeat app find_first_nonzero_loop]. pose proof (len_nonneg rest).
    replace (cursor <? end_) with true by lia.
    change (byte_val x00 =? 0) with true. cbv iota.
    rewrite IH by lia. f_equal. lia.
Qed.

Lemma drop_repeat_app (x : byte) (j n : nat) rest :
  (j <= n)%nat ->
  drop (Z.of_nat j) (repeat x n ++ rest) = repeat x (n - j) ++ rest.
Proof.
  intros Hj. replace n with (j + (n - j))%nat at 1 by lia.
  rewrite repeat_app, <- app_assoc.
  replace (Z.of_nat j) with (len (repeat x j)) by apply len_repeat.
  apply drop_app_len.
Qed.

Lemma drop_zeros s (n : nat) rest :
  0 <= s <= Z.of_nat n ->
  drop s (repeat x00 n ++ rest) = repeat x00 (n - Z.to_nat s) ++ rest.
Proof.
  intros Hs. rewrite <- (drop_repeat_app x00 (Z.to_nat s) n rest) by lia.
  f_equal. lia.
Qed.

(** Shifting a stream by a prefix shifts its records. *)
Lemma next_marker_shift a r k :
  0 <= k -> next_marker (a ++ r) (len a + k) = len a + next_marker r k.
Proof.
  intros Hk. pose proof (len_nonneg a). unfold next_marker.
  rewrite drop_app_ge by lia. replace (len a + k - len a) with k by lia. lia.
Qed.

Lemma chunk_shift a r x y :
  0 <= x -> chunk (a ++ r) (len a + x) (len a + y) = chunk r x y.
Proof.
  intros Hx. pose proof (len_nonneg a). unfold chunk.
  rewrite drop_app_ge by lia. f_equal; [lia | f_equal; lia].
Qed.

Lemma scan_shift a r stop :
  stop <= len r ->
  forall (n : nat) h,
    0 <= h -> stop - h <= Z.of_nat n ->
    scan (a ++ r) (len a + h) (len a + stop) = scan r h stop.
Proof.
  intros Hstop. pose proof (len_nonneg a) as Ha.
  induction n as [|n IH]; intros h Hh Hn.
  - rewrite !scan_past by lia. reflexivity.
  - destruct (Z_le_gt_dec stop h); [rewrite !scan_past by lia; reflexivity|].
    rewrite (scan_eq (a ++ r)) by (rewrite ?len_app; lia).
    rewrite (scan_eq r) by lia.
    replace (len a + h >=? len a + stop) with false by lia.
    replace (h >=? stop) with false by lia.
    replace (len a + h + 2) with (len a + (h + 2)) by lia.
    rewrite next_marker_shift, chunk_shift by lia. f_equal.
    pose proof (next_marker_advance r (h + 2)).
    apply IH; lia.
Qed.

Lemma scan_first_shift a r :
  scan_first (a ++ r) (len a) (len (a ++ r)) = scan_first r 0 (len r).
Proof.
  pose proof (len_nonneg a) as Ha. pose proof (len_nonneg r) as Hr.
  rewrite len_app. unfold scan_first.
  destruct (0 >=? len r) eqn:E.
  - now replace (len a >=? len a + len r) with true by lia.
  - replace (len a >=? len a + len r) with false by lia.
    replace (len a) with (len a + 0) at 1 2 3 by lia.
    rewrite next_marker_shift, chunk_shift by lia. f_equal.
    pose proof (next_marker_advance r 0).
    apply (scan_shift a r (len r) ltac:(lia) (S (length r))); unfold len in *; lia.
Qed.

(** X23. Leading zero bytes are skipped: when the file is a run of zero
    bytes followed by [rest], where [rest] is empty or starts with a
    non-zero byte, and the data start reported by [lseek] lies in the
    zeros, the records yielded by an iterator initialised with
    [crdb_record_stream_iterator_init_fd] are the records of [rest]
    alone. *)
Theorem init_fd_skips_zeros (ndebug : bool) (z : nat) (rest : list byte) (b b' : Z)
        (k : map_answers) (it0 : fd_iterator) (ce : option crdb_error) :
  (rest = [] \/ exists x tl, rest = x :: tl /\ x <> x00) ->
  mappable b (repeat x00 z ++ rest) -> mappable b' rest ->
  mmap_ret k = b -> fstat_ret k <> -1 ->
  st_size k = len (repeat x00 z ++ rest) -> 0 < st_size k ->
  seek_data k <= Z.of_nat z ->
  exists it old,
    crdb_record_stream_iterator_init_fd (mapped_at b (repeat x00 z ++ rest)) k it0 ce
    = Ok (true, it, ce)
    /\ it_first_nonzero (fi_it it) = b + Z.of_nat z
    /\ records ndebug (mapped_at b (repeat x00 z ++ rest)) (fi_it it) = Ok old
    /\ stream_records ndebug (mapped_at b' rest) = Ok old.
Proof.
  intros Hrest Hb Hb' Hmap Hfstat Hsize Hpos Hseek.
  set (m := mapped_at b (repeat x00 z ++ rest)).
  assert (Hm : valid_memory m) by now apply valid_mapped_at.
  rewrite init_fd_unfold; try assumption; [|now rewrite Hmap].
  pose proof (data_start_range k Hpos) as Hs.
  assert (Hsz : data_start k <= Z.of_nat z).
  { unfold data_start. destruct (seek_data k >? 0); lia. }
  assert (HL : len (bytes m) = Z.of_nat z + len rest)
    by (cbn; rewrite len_app, len_repeat; reflexivity).
  assert (Hsize' : st_size k = Z.of_nat z + len rest)
    by (rewrite Hsize, len_app, len_repeat; reflexivity).
  pose proof (len_nonneg rest) as Hr0.
  unfold find_first_nonzero. rewrite view_offset by (rewrite HL; lia).
  replace (base m + data_start k - base m) with (data_start k) by lia.
  cbn [bytes m mapped_at]. rewrite drop_zeros by lia.
  rewrite (find_first_nonzero_loop_zeros rest Hrest)
    by (cbn [base m mapped_at]; rewrite len_app, len_repeat; lia).
  cbn [bind]. change (base m) with b. eexists. eexists. split; [reflexivity|].
  cbn [fi_it it_first_nonzero]. split; [lia|].
  rewrite (stream_records_scan ndebug (mapped_at b' rest)) by now apply valid_mapped_at.
  cbn [bytes mapped_at].
  match goal with |- records _ _ ?it = _ /\ _ =>
    assert (Hwf : wf_iterator m it) end.
  { unfold wf_iterator. cbn. rewrite len_app, len_repeat.
    pose proof (len_nonneg rest). destruct Hb as [H1 H2].
    rewrite len_app, len_repeat in H2.
    split; [exact Hm|]. repeat split; lia. }
  rewrite (records_pending ndebug m Hm _ Hwf). split; [|reflexivity]. f_equal.
  unfold pending. cbn [it_first_record it_cursor it_stop_at].
  change (base m) with b. change (bytes m) with (repeat x00 z ++ rest).
  replace (b + data_start k + Z.of_nat (z - Z.to_nat (data_start k)) - b)
    with (len (repeat x00 z)) by (rewrite len_repeat; lia).
  replace (b + len (repeat x00 z ++ rest) - b) with (len (repeat x00 z ++ rest)) by lia.
  apply scan_first_shift.
Qed.

Lemma init_fd_skips_zeros_witness :
  exists it old,
    crdb_record_stream_iterator_init_fd
      (mapped_at 4096 (repeat x00 3 ++ drop 2 sample_stream))
      {| fstat_ret := 0; fstat_errno := 0; st_size := 19; seek_data := 2;
         mmap_ret := 4096; mmap_errno := 0 |}
      {| fi_it := sample_iterator; fi_mapped := 0; fi_map_size := 0 |} None
    = Ok (true, it, None)
    /\ it_first_nonzero (fi_it it) = 4096 + Z.of_nat 3
    /\ records false (mapped_at 4096 (repeat x00 3 ++ drop 2 sample_stream)) (fi_it it)
       = Ok old
    /\ stream_records false (mapped_at 8192 (drop 2 sample_stream)) = Ok old.
Proof.
  apply (init_fd_skips_zeros
           false 3 (drop 2 sample_stream) 4096 8192
           {| fstat_ret := 0; fstat_errno := 0; st_size := 19; seek_data := 2;
              mmap_ret := 4096; mmap_errno := 0 |}
           {| fi_it := sample_iterator; fi_mapped := 0; fi_map_size := 0 |} None).
  - right. eexists. eexists. split; [reflexivity | discriminate].
  - vm_compute. split; [reflexivity | discriminate].
  - vm_compute. split; [reflexivity | discriminate].
  - reflexivity.
  - discriminate.
  - reflexivity.
  - reflexivity.
  - vm_compute. discriminate.
Defined.

(** ** Ranges of a stream *)

Lemma range_iterator_pending m a c :
  valid_memory m -> 0 <= a <= c -> c <= len (bytes m) ->
  let r := range_iterator
             (crdb_record_stream_iterator_init_buf (base m) (len (bytes m))) a c in
  fst r = true
  /\ wf_iterator m (snd r)
  /\ pending m (snd r)
     = if a =? 0 then scan_first (bytes m) 0 c
       else scan (bytes m) (next_marker (bytes m) a) c.
Proof.
  intros Hm Ha Hc. pose proof Hm as (H0 & H1 & _).
  pose proof (wf_init_buf m Hm) as Hwf.
  pose proof (wf_stop_at m _ c Hwf ltac:(lia)) as Hwf2.
  unfold range_iterator in *.
  assert (Es : crdb_record_stream_iterator_stop_at
                 (crdb_record_stream_iterator_init_buf (base m) (len (bytes m))) c
               = set_stop_at (crdb_record_stream_iterator_init_buf (base m) (len (bytes m)))
                             (base m + c)).
  { unfold crdb_record_stream_iterator_stop_at. cbn [it_end it_begin
      crdb_record_stream_iterator_init_buf].
    replace (base m + len (bytes m) - base m) with (len (bytes m)) by lia.
    rewrite to_size_t_small by lia.
    now replace (c >? len (bytes m)) with false by lia. }
  rewrite Es in *. cbv zeta.
  pose proof (wf_locate_at m _ a Hwf2 ltac:(cbn; lia)) as Hwf3.
  unfold crdb_record_stream_iterator_locate_at in *.
  cbn [it_first_nonzero it_begin it_stop_at set_stop_at
       crdb_record_stream_iterator_init_buf] in *.
  replace (base m - base m) with 0 in * by lia.
  replace (base m + c - base m) with c in * by lia.
  rewrite !to_size_t_small in * by lia.
  replace (a <? 0) with false in * by lia.
  replace (a >? c) with false in * by lia. cbn [orb] in *.
  destruct (a =? 0) eqn:E0; cbn [fst snd] in *.
  - split; [reflexivity|]. split; [exact Hwf3|].
    unfold pending. cbn [it_first_record it_cursor it_stop_at set_cursor
                           set_first_record set_stop_at
                           crdb_record_stream_iterator_init_buf].
    replace (base m - base m) with 0 by lia.
    replace (base m + c - base m) with c by lia. reflexivity.
  - split; [reflexivity|]. split; [exact Hwf3|].
    unfold pending. cbn [it_first_record it_cursor it_stop_at set_cursor
                           set_first_record set_stop_at
                           crdb_record_stream_iterator_init_buf].
    replace (base m + a - base m) with a by lia.
    replace (base m + c - base m) with c by lia. reflexivity.
Qed.

(** X24. Adjacent ranges partition a stream: for offsets
    [a <= b <= c] within the buffer, [stop_at] and [locate_at] succeed for
    the three ranges, and the records an iterator yields for [a ... c - 1]
    are those it yields for [a ... b - 1] followed by those it yields for
    [b ... c - 1]. *)
Theorem ranges_partition (ndebug : bool) (m : memory) (a b c : Z) :
  valid_memory m -> 0 <= a <= b -> b <= c -> c <= len (bytes m) ->
  let it := crdb_record_stream_iterator_init_buf (base m) (len (bytes m)) in
  fst (range_iterator it a b) = true
  /\ fst (range_iterator it b c) = true
  /\ fst (range_iterator it a c) = true
  /\ exists r1 r2,
      records ndebug m (snd (range_iterator it a b)) = Ok r1
      /\ records ndebug m (snd (range_iterator it b c)) = Ok r2
      /\ records ndebug m (snd (range_iterator it a c)) = Ok (r1 ++ r2).
Proof.
  intros Hm Ha Hb Hc it. unfold it.
  destruct (range_iterator_pending m a b Hm) as (E1 & W1 & P1); [lia | lia |].
  destruct (range_iterator_pending m b c Hm) as (E2 & W2 & P2); [lia | lia |].
  destruct (range_iterator_pending m a c Hm) as (E3 & W3 & P3); [lia | lia |].
  split; [exact E1|]. split; [exact E2|]. split; [exact E3|].
  rewrite (records_pending ndebug m Hm _ W1), (records_pending ndebug m Hm _ W2),
    (records_pending ndebug m Hm _ W3).
  eexists. eexists. split; [reflexivity|]. split; [reflexivity|]. f_equal.
  rewrite P1, P2, P3. set (buf := bytes m) in *.
  destruct (a =? 0) eqn:Ea0.
  - assert (a = 0) by lia. subst a.
    destruct (b =? 0) eqn:Eb0.
    + assert (b = 0) by lia. subst b. unfold scan_first at 2.
      now replace (0 >=? 0) with true by reflexivity.
    + apply scan_first_split_at; lia.
  - replace (b =? 0) with false by lia.
    pose proof (next_marker_range buf a ltac:(lia)) as Hra.
    destruct (Z.eq_dec a b) as [<-|Hab].
    + rewrite (scan_past buf (next_marker buf a) a) by lia. reflexivity.
    + apply (scan_split_at buf b c ltac:(lia) ltac:(lia) (S (length buf)));
        [lia | apply next_marker_fix; lia | apply next_marker_mono; lia
         | unfold len; lia].
Qed.

Lemma ranges_partition_witness :
  let it := crdb_record_stream_iterator_init_buf (base sample_memory)
                                                 (len (bytes sample_memory)) in
  fst (range_iterator it 0 1) = true
  /\ fst (range_iterator it 1 18) = true
  /\ fst (range_iterator it 0 18) = true
  /\ exists r1 r2,
      records false sample_memory (snd (range_iterator it 0 1)) = Ok r1
      /\ records false sample_memory (snd (range_iterator it 1 18)) = Ok r2
      /\ records false sample_memory (snd (range_iterator it 0 18)) = Ok (r1 ++ r2).
Proof.
  apply (ranges_partition false sample_memory 0 1 18).
  - unfold valid_memory, SIZE_MAX. cbn. repeat split; lia.
  - lia.
  - lia.
  - vm_compute. discriminate.
Defined.

(** ** The size of a record *)

Lemma parse_record_bound ch g p :
  parse_record ch = Some (g, p) ->
  len p <= CRDB_RECORD_STREAM_BUF_LEN - SIZEOF_record_header - 1 /\ is_uint32 g.
Proof.
  intros H. rewrite parse_record_envelope in H.
  destruct (len ch >? CRDB_RECORD_STREAM_BUF_LEN) eqn:El; [discriminate|].
  destruct (decode_chunk ch) as [d|] eqn:Ed; [|discriminate].
  destruct (len d <? SIZEOF_record_header) eqn:Eh; [discriminate|].
  cbv zeta in H.
  destruct (_ =? _) in H; [|discriminate].
  assert (Hg : g = uint32_of_bytes (nth 4 d x00) (nth 5 d x00) (nth 6 d x00) (nth 7 d x00))
    by congruence.
  assert (Hp : p = drop 8 d) by congruence.
  apply unstuff_len in Ed. cbv iota in Ed.
  split.
  - subst p. rewrite len_drop by (unfold SIZEOF_record_header in *; lia).
    unfold SIZEOF_record_header in *. lia.
  - subst g. apply uint32_of_bytes_uint32.
Qed.

(** X25. Whatever the state of the iterator, a call of
    [crdb_record_stream_iterator_next_buf] that returns reports a length
    of at most 1015 bytes (the 1024 bytes of a chunk, less one byte of
    stuffing and the eight of the record header) and a generation that is
    a [uint32_t], and modifies no byte of [dst] at offset 1015 or
    beyond. *)
Theorem next_buf_payload_bound (ndebug : bool) (m : memory)
        (it : crdb_record_stream_iterator) (stack dst : list byte) (r : next_buf_out) :
  len stack = SIZEOF_read_record ->
  crdb_record_stream_iterator_next_buf ndebug m it stack dst = Ok r ->
  0 <= nb_len r <= 1015
  /\ is_uint32 (nb_generation r)
  /\ drop 1015 (nb_dst r) = drop 1015 dst.
Proof.
  intros Hstack E.
  destruct (nb_ret r) eqn:Hret.
  - destruct (next_buf_inv ndebug m it stack dst r Hstack E Hret)
      as (a & b & _ & _ & _ & Hparse).
    apply parse_record_bound in Hparse as [Hp Hg].
    change (CRDB_RECORD_STREAM_BUF_LEN - SIZEOF_record_header - 1) with 1015 in Hp.
    unfold crdb_record_stream_iterator_next_buf in E.
    apply bind_Ok in E as ([[ps it'] stack'] & _ & E).
    destruct (ps <? 0) eqn:Eneg.
    { assert (nb_ret r = false) by (injection E as <-; reflexivity). congruence. }
    apply bind_Ok in E as (_ & _ & E). apply bind_Ok in E as (g & _ & E).
    apply bind_Ok in E as (dst' & Hcpy & E). injection E as <-.
    cbn [nb_len nb_generation nb_dst] in *.
    apply memcpy_inv in Hcpy as (Hps & Hlen & _ & Hroom & ->).
    set (bs := take ps (drop OFFSET_data stack')) in *.
    assert (Htake : take ps (patched dst 0 bs) = bs).
    { rewrite <- Hlen at 1. apply take_patched_0. lia. }
    rewrite Htake, Hlen in Hp.
    split; [lia|]. split; [exact Hg|]. apply drop_patched; lia.
  - destruct (next_buf_false ndebug m it stack dst r E Hret) as (-> & -> & ->).
    split; [lia|]. split; [unfold is_uint32, UINT32_MAX; lia | reflexivity].
Qed.

Lemma next_buf_payload_bound_witness :
  (0 <= nb_len sample_next <= 1015
   /\ is_uint32 (nb_generation sample_next)
   /\ drop 1015 (nb_dst sample_next) = drop 1015 caller_dst)
  /\ (0 <= nb_len sample_relocated_next <= 1015
      /\ is_uint32 (nb_generation sample_relocated_next)
      /\ drop 1015 (nb_dst sample_relocated_next) = drop 1015 caller_dst).
Proof.
  split.
  - apply (next_buf_payload_bound false sample_memory sample_iterator
                                   stack_read_record caller_dst sample_next);
      reflexivity.
  - apply (next_buf_payload_bound true sample_memory sample_relocated
                                   stack_read_record caller_dst sample_relocated_next);
      reflexivity.
Defined.

(** ** A record amid other bytes *)

(** X26. A record written after a header is found wherever it ends up:
    when [crdb_record_stream_append_buf] has written a record to a file
    that held a header only, the bytes of that file, put between any bytes
    [a] and any bytes [t], still yield the record: iterating over
    [a || file || t] yields a sequence of records that contains it. *)
Theorem record_found_amid_garbage (ndebug : bool) (encoded : list byte) (g : Z)
        (p a t : list byte) (ce : option crdb_error) (b : Z) :
  is_uint32 g -> len p <= CRDB_RECORD_STREAM_MAX_LEN ->
  MAX_ENCODED <= len encoded ->
  0 < b -> b + len a + 2 + MAX_ENCODED + len t <= SIZE_MAX ->
  exists fd' before after,
    crdb_record_stream_append_buf
      ndebug {| contents := header; answers := []; errno := 0 |} encoded g p (len p) ce
    = Ok (fd', true, ce)
    /\ stream_records ndebug (mapped_at b (a ++ contents fd' ++ t))
       = Ok (before ++ (g, p) :: after).
Proof.
  intros Hg Hp Henc Hb Hmax.
  destruct (append_buf_encoded
              ndebug {| contents := header; answers := []; errno := 0 |}
              encoded g p ce Hp Henc)
    as (out & enc & HS & Hlen & Hle & Htake & E).
  pose proof (len_nonneg out) as Ho. rewrite max_encoded_value in *.
  rewrite E, append_to_fd_complete by (unfold SIZE_MAX; lia || reflexivity).
  rewrite Htake. cbn [contents].
  assert (Hrec : parse_record out = Some (g, p))
    by (apply parse_record_stuffed; [assumption.. | unfold CRDB_RECORD_STREAM_BUF_LEN,
          CRDB_RECORD_STREAM_MAX_LEN; lia]).
  destruct (stuffed_marker_free _ _ _ HS) as [Hfree _].
  eexists. eexists. eexists. split; [reflexivity|]. cbn [contents].
  rewrite stream_records_scan
    by (apply valid_mapped_at; split; [exact Hb|]; rewrite !len_app;
        change (len header) with 2; lia).
  cbn [bytes mapped_at]. rewrite header_eq.
  replace (a ++ ([xfe; xfd] ++ out ++ [xfe; xfd]) ++ t)
    with (a ++ xfe :: xfd :: out ++ xfe :: xfd :: t)
    by (rewrite <- !app_assoc; reflexivity).
  rewrite scan_first_app_header, (scan_framed a out t (g, p) Hfree Hrec).
  reflexivity.
Qed.

Lemma record_found_amid_garbage_witness :
  exists fd' before after,
    crdb_record_stream_append_buf
      false {| contents := header; answers := []; errno := 0 |} (repeat x00 526)
      7 [x68; x69] (len [x68; x69]) None
    = Ok (fd', true, None)
    /\ stream_records false (mapped_at 4096 ([x01; xfe] ++ contents fd' ++ [xfd; x00]))
       = Ok (before ++ (7, [x68; x69]) :: after).
Proof.
  apply (record_found_amid_garbage false (repeat x00 526) 7 [x68; x69]
                                   [x01; xfe] [xfd; x00] None 4096).
  - vm_compute. split; discriminate.
  - vm_compute. discriminate.
  - vm_compute. discriminate.
  - reflexivity.
  - vm_compute. discriminate.
Defined.

(** ** Writing to a stream *)

Lemma fwrite_complete stream data :
  answers stream = [] -> 0 < len data ->
  fwrite stream data
  = ({| contents := contents stream ++ data; answers := []; errno := errno stream |}, 1).
Proof.
  intros Hans Hlen. unfold fwrite, write. rewrite Hans.
  replace (len data =? 0) with false by lia. now rewrite Z.eqb_refl.
Qed.

Lemma buf_record_encoded ndebug encoded g p ce :
  len p <= CRDB_RECORD_STREAM_MAX_LEN -> MAX_ENCODED <= len encoded ->
  exists record r out,
    memcpy (write_record_init g) OFFSET_data p 0 (len p) = Ok record
    /\ encode_record ndebug encoded 0 record (len p) ce = Ok r
    /\ er_ret r = true /\ er_ce r = ce
    /\ er_encoded_size r = len out + 2
    /\ len out + 2 <= len (er_encoded r)
    /\ take (len out + 2) (er_encoded r) = out ++ header
    /\ Stuffed true (envelope (castagnoli_crc 0 (envelope CRC_INITIAL_VALUE g p)) g p) out
    /\ len out + 2 <= MAX_ENCODED.
Proof.
  intros Hp Henc. pose proof (len_nonneg p) as Hp0.
  destruct (encode_record_envelope ndebug encoded 0 0 g p
              (drop (len p) (repeat x00 (Z.to_nat CRDB_RECORD_STREAM_MAX_LEN))) ce Hp Henc)
    as (out & HS & Hlen & E).
  pose proof (len_nonneg out) as Ho.
  assert (Hoh : len (out ++ header) = len out + 2)
    by (rewrite len_app; reflexivity).
  eexists. eexists. exists out.
  split; [apply write_record_memcpy; exact Hp|]. split; [exact E|].
  cbn [er_ret er_ce er_encoded_size er_encoded].
  do 3 (split; [reflexivity|]). split.
  - rewrite len_patched by lia. lia.
  - split; [|split; assumption]. rewrite <- Hoh. apply take_patched_0. lia.
Qed.

(** X27. Writing a record to a stream and appending it to a descriptor
    leave the same bytes: when every write is complete,
    [crdb_record_stream_write_buf] and [crdb_record_stream_append_buf]
    return true with the same file; and both refuse a length above 512
    without writing. *)
Theorem write_buf_like_append_buf (ndebug : bool) (fd : fd_state)
        (encoded : list byte) (g : Z) (p : list byte) (ce : option crdb_error) :
  answers fd = [] ->
  len p <= CRDB_RECORD_STREAM_MAX_LEN -> MAX_ENCODED <= len encoded ->
  (exists fd',
      crdb_record_stream_write_buf ndebug fd encoded g p (len p) ce = Ok (fd', true, ce)
      /\ crdb_record_stream_append_buf ndebug fd encoded g p (len p) ce
         = Ok (fd', true, ce))
  /\ forall buf n, n > CRDB_RECORD_STREAM_MAX_LEN ->
       crdb_record_stream_write_buf ndebug fd encoded g buf n ce
       = Ok (fd, false, _crdb_error_set ce "crdb_record_stream data too long"%string 0)
       /\ crdb_record_stream_append_buf ndebug fd encoded g buf n ce
          = Ok (fd, false,
                _crdb_error_set ce "crdb_record_stream data too long"%string 0).
Proof.
  intros Hans Hp Henc. split.
  - destruct (buf_record_encoded ndebug encoded g p ce Hp Henc)
      as (record & r & out & Em & Ee & Hret & Hce & Hsize & Hle & Htake & HS & Hlen).
    pose proof (len_nonneg out) as Ho. rewrite max_encoded_value in *.
    unfold crdb_record_stream_write_buf, crdb_record_stream_append_buf,
      record_stream_write_record, record_stream_append_record.
    replace (len p >? CRDB_RECORD_STREAM_MAX_LEN) with false by lia.
    rewrite Em. cbn [bind]. rewrite Ee. cbn [bind]. rewrite Hret, Hce, Hsize.
    cbn [negb]. rewrite Htake.
    rewrite fwrite_complete by (rewrite ?len_app; change (len header) with 2; lia || assumption).
    rewrite append_to_fd_complete by (unfold SIZE_MAX; lia || assumption).
    rewrite Htake. cbn [Z.eqb negb Pos.eqb]. eexists. split; reflexivity.
  - intros buf n Hn.
    unfold crdb_record_stream_write_buf, crdb_record_stream_append_buf.
    replace (n >? CRDB_RECORD_STREAM_MAX_LEN) with true by lia. split; reflexivity.
Qed.

Lemma write_buf_like_append_buf_witness :
  (exists fd',
      crdb_record_stream_write_buf
        false {| contents := header; answers := []; errno := 0 |} (repeat x00 526)
        7 [x68; x69] (len [x68; x69]) None = Ok (fd', true, None)
      /\ crdb_record_stream_append_buf
           false {| contents := header; answers := []; errno := 0 |} (repeat x00 526)
           7 [x68; x69] (len [x68; x69]) None = Ok (fd', true, None))
  /\ forall buf n, n > CRDB_RECORD_STREAM_MAX_LEN ->
       crdb_record_stream_write_buf
         false {| contents := header; answers := []; errno := 0 |} (repeat x00 526)
         7 buf n None
       = Ok ({| contents := header; answers := []; errno := 0 |}, false,
             _crdb_error_set None "crdb_record_stream data too long"%string 0)
       /\ crdb_record_stream_append_buf
            false {| contents := header; answers := []; errno := 0 |} (repeat x00 526)
            7 buf n None
          = Ok ({| contents := header; answers := []; errno := 0 |}, false,
                _crdb_error_set None "crdb_record_stream data too long"%string 0).
Proof.
  apply (write_buf_like_append_buf
           false {| contents := header; answers := []; errno := 0 |} (repeat x00 526)
           7 [x68; x69] None).
  - reflexivity.
  - vm_compute. discriminate.
  - vm_compute. discriminate.
Defined.

(** X28. A fresh stream, initialised and written to, reads back: when
    every write is complete, [crdb_record_stream_write_initial] on an empty
    stream followed by [crdb_record_stream_write_buf] both return true, the
    stream then holds a header, the stuffed record and a header, and
    iterating over it yields exactly the record written. *)
Theorem write_initial_then_buf (ndebug : bool) (hdr encoded : list byte) (g : Z)
        (p : list byte) (ce : option crdb_error) (e b : Z) :
  len hdr = 2 -> is_uint32 g -> len p <= CRDB_RECORD_STREAM_MAX_LEN ->
  MAX_ENCODED <= len encoded ->
  0 < b -> b + 2 + MAX_ENCODED <= SIZE_MAX ->
  exists s1 s2 out,
    crdb_record_stream_write_initial
      ndebug {| contents := []; answers := []; errno := e |} hdr ce = Ok (s1, true, ce)
    /\ crdb_record_stream_write_buf ndebug s1 encoded g p (len p) ce = Ok (s2, true, ce)
    /\ contents s2 = header ++ out ++ header
    /\ stream_records ndebug (mapped_at b (contents s2)) = Ok [(g, p)].
Proof.
  intros Hh Hg Hp Henc Hb Hmax.
  unfold crdb_record_stream_write_initial.
  rewrite store_header by exact Hh. cbn [bind].
  change (0 + CRDB_WORD_STUFF_HEADER_SIZE =? 0 + len header) with true.
  rewrite assert_true. cbn [bind].
  rewrite (take_all (len header) header) by lia.
  rewrite fwrite_complete by reflexivity.
  cbn [Z.eqb negb Pos.eqb contents errno].
  destruct (buf_record_encoded ndebug encoded g p ce Hp Henc)
    as (record & r & out & Em & Ee & Hret & Hce & Hsize & Hle & Htake & HS & Hlen).
  pose proof (len_nonneg out) as Ho. rewrite max_encoded_value in *.
  eexists. eexists. exists out. split; [reflexivity|].
  unfold crdb_record_stream_write_buf, record_stream_write_record.
  replace (len p >? CRDB_RECORD_STREAM_MAX_LEN) with false by lia.
  rewrite Em. cbn [bind]. rewrite Ee. cbn [bind]. rewrite Hret, Hce, Hsize.
  cbn [negb]. rewrite Htake.
  rewrite fwrite_complete by (rewrite ?len_app; change (len header) with 2; lia || reflexivity).
  cbn [Z.eqb negb Pos.eqb contents]. split; [reflexivity|]. split; [reflexivity|].
  assert (Hrec : parse_record out = Some (g, p))
    by (apply parse_record_stuffed; [assumption.. | unfold CRDB_RECORD_STREAM_BUF_LEN,
          CRDB_RECORD_STREAM_MAX_LEN; lia]).
  destruct (stuffed_marker_free _ _ _ HS) as [Hfree _].
  change (([] ++ header) ++ out ++ header) with ([] ++ header ++ out ++ header).
  cbn [contents].
  rewrite stream_records_scan
    by (apply valid_mapped_at; split; [exact Hb|]; cbn [app]; rewrite !len_app;
        change (len header) with 2; lia).
  cbn [bytes mapped_at].
  now rewrite (scan_first_framed_last [] out (g, p) Hfree Hrec).
Qed.

Lemma write_initial_then_buf_witness :
  exists s1 s2 out,
    crdb_record_stream_write_initial
      false {| contents := []; answers := []; errno := 0 |} [x00; x00] None
    = Ok (s1, true, None)
    /\ crdb_record_stream_write_buf false s1 (repeat x00 526) 7
                                    [x68; x65; x6c; x6c; x6f]
                                    (len [x68; x65; x6c; x6c; x6f]) None
       = Ok (s2, true, None)
    /\ contents s2 = header ++ out ++ header
    /\ stream_records false (mapped_at 4096 (contents s2))
       = Ok [(7, [x68; x65; x6c; x6c; x6f])].
Proof.
  apply (write_initial_then_buf false [x00; x00] (repeat x00 526) 7
                                [x68; x65; x6c; x6c; x6f] None 0 4096).
  - reflexivity.
  - vm_compute. split; discriminate.
  - vm_compute. discriminate.
  - vm_compute. discriminate.
  - reflexivity.
  - vm_compute. discriminate.
Defined.

(** ** A failed append *)

Lemma stuffed_envelope_len g p c out :
  Stuffed true (envelope c g p) out -> 9 + len p <= len out.
Proof.
  intros HS. apply stuffed_len_src in HS. cbv iota in HS.
  rewrite len_envelope in HS. unfold SIZEOF_record_header in HS. lia.
Qed.

(** X29. An append that fails after a short write leaves a header behind:
    when the kernel accepts only the first [k] bytes of the record and
    then fails the two retries, [crdb_record_stream_append_buf] returns
    false with the error "write(2) failed" and the [errno] of the last
    failure, and its last, best-effort write leaves the file ending with a
    header, ready for the next append. *)
Theorem append_buf_short_then_failed (ndebug : bool) (fd : fd_state)
        (encoded : list byte) (g : Z) (p : list byte) (ce : option crdb_error)
        (k e2 e3 : Z) :
  len p <= CRDB_RECORD_STREAM_MAX_LEN -> MAX_ENCODED <= len encoded ->
  0 < k <= 10 ->
  answers fd = [Written k; Failed e2; Failed e3] ->
  exists fd' partial,
    crdb_record_stream_append_buf ndebug fd encoded g p (len p) ce
    = Ok (fd', false, _crdb_error_set ce "record_stream write(2) failed."%string e3)
    /\ len partial = k
    /\ contents fd' = contents fd ++ partial ++ header
    /\ answers fd' = [].
Proof.
  intros Hp Henc Hk Hans.
  destruct (append_buf_encoded ndebug fd encoded g p ce Hp Henc)
    as (out & enc & HS & Hlen & Hle & Htake & E).
  pose proof (stuffed_envelope_len _ _ _ _ HS) as Hout.
  pose proof (len_nonneg p) as Hp0. rewrite max_encoded_value in *.
  rewrite E. exists
    {| contents := (contents fd ++ take k (take (len out + 2) enc)) ++ header;
       answers := []; errno := e3 |}, (take k (take (len out + 2) enc)).
  assert (Hdata : len (take (len out + 2) enc) = len out + 2)
    by (apply len_take; lia).
  split.
  - unfold append_to_fd. cbn [append_to_fd_loop]. unfold writev, write.
    rewrite Hans.
    cbn [answers contents errno as_iov0 as_expected as_written as_partial_write
         fst snd app].
    rewrite Hdata.
    replace (Z.max 0 (Z.min k (len out + 2))) with k by lia.
    replace (to_size_t k =? len out + 2) with false
      by (symmetry; apply Z.eqb_neq; rewrite to_size_t_small by (unfold SIZE_MAX; lia); lia).
    replace (k <=? 0) with false by lia.
    cbn [answers contents errno as_iov0 as_expected as_written as_partial_write
         fst snd].
    change (len header) with 2.
    assert (Hne : (to_size_t (-1) =? len out + 2 + 2) = false)
      by (apply Z.eqb_neq; change (to_size_t (-1)) with 18446744073709551615; lia).
    rewrite Hne.
    cbn [Z.leb Z.ltb Z.compare answers contents errno as_iov0 as_expected as_written
         as_partial_write fst snd andb negb].
    rewrite ?Hne.
    cbn [Z.leb Z.ltb Z.compare answers contents errno as_iov0 as_expected as_written
         as_partial_write fst snd andb negb].
    reflexivity.
  - cbn [contents answers]. split; [apply len_take; lia|].
    split; [now rewrite <- app_assoc | reflexivity].
Qed.

Lemma append_buf_short_then_failed_witness :
  exists fd' partial,
    crdb_record_stream_append_buf
      false {| contents := header; answers := [Written 3; Failed 5; Failed 28];
               errno := 0 |}
      (repeat x00 526) 7 [x68; x69] (len [x68; x69]) None
    = Ok (fd', false, _crdb_error_set None "record_stream write(2) failed."%string 28)
    /\ len partial = 3
    /\ contents fd'
       = contents {| contents := header; answers := [Written 3; Failed 5; Failed 28];
                     errno := 0 |} ++ partial ++ header
    /\ answers fd' = [].
Proof.
  apply (append_buf_short_then_failed
           false {| contents := header; answers := [Written 3; Failed 5; Failed 28];
                    errno := 0 |}
           (repeat x00 526) 7 [x68; x69] None 3 5 28).
  - vm_compute. discriminate.
  - vm_compute. discriminate.
  - lia.
  - reflexivity.
Defined.

(** ** The size of a stream *)

(** X30. [crdb_record_stream_iterator_size] is the number of bytes of the
    buffer for every iterator that has not signalled the end, and
    [stop_at], [locate_at] and a call of [next_buf] that yields a record
    do not change it. *)
Theorem iterator_size_invariant (ndebug : bool) (m : memory)
        (it : crdb_record_stream_iterator) :
  wf_iterator m it ->
  crdb_record_stream_iterator_size it = len (bytes m)
  /\ (forall o,
        crdb_record_stream_iterator_size (crdb_record_stream_iterator_stop_at it o)
        = len (bytes m))
  /\ (forall o,
        crdb_record_stream_iterator_size
          (snd (crdb_record_stream_iterator_locate_at it o))
        = len (bytes m))
  /\ (forall stack dst r,
        len stack = SIZEOF_read_record ->
        crdb_record_stream_iterator_next_buf ndebug m it stack dst = Ok r ->
        nb_ret r = true ->
        crdb_record_stream_iterator_size (nb_it r) = len (bytes m)).
Proof.
  intros Hwf.
  assert (Hsize : forall it', it_end it' = it_end it -> it_begin it' = it_begin it ->
                    crdb_record_stream_iterator_size it' = len (bytes m)).
  { intros it' He Hb. destruct Hwf as ((H0 & H1 & _) & Hbeg & Hend & _).
    unfold crdb_record_stream_iterator_size. rewrite He, Hb, Hbeg, Hend.
    replace (base m + len (bytes m) - base m) with (len (bytes m)) by lia.
    apply to_size_t_small. pose proof (len_nonneg (bytes m)). lia. }
  split; [now apply Hsize|]. split; [|split].
  - intros o. apply Hsize; unfold crdb_record_stream_iterator_stop_at;
      destruct (_ >? _); reflexivity.
  - intros o. apply Hsize; unfold crdb_record_stream_iterator_locate_at;
      destruct (_ || _); try reflexivity; destruct (_ =? _); reflexivity.
  - intros stack dst r Hstack E Hret.
    unfold crdb_record_stream_iterator_next_buf in E.
    apply bind_Ok in E as ([[ps it'] stack'] & Hnext & E).
    destruct (ps <? 0) eqn:Eneg.
    { assert (nb_ret r = false) by (injection E as <-; reflexivity). congruence. }
    apply bind_Ok in E as (_ & _ & E). apply bind_Ok in E as (g & _ & E).
    apply bind_Ok in E as (dst' & _ & E). injection E as <-. cbn [nb_it].
    apply next_loop_keeps in Hnext as [Hb He]; [|exact Hstack|lia].
    now apply Hsize.
Qed.

Lemma iterator_size_invariant_witness :
  crdb_record_stream_iterator_size sample_iterator = len (bytes sample_memory)
  /\ crdb_record_stream_iterator_size
       (crdb_record_stream_iterator_stop_at sample_iterator 5)
     = len (bytes sample_memory)
  /\ crdb_record_stream_iterator_size
       (snd (crdb_record_stream_iterator_locate_at sample_iterator 5))
     = len (bytes sample_memory)
  /\ crdb_record_stream_iterator_size (nb_it sample_next) = len (bytes sample_memory).
Proof.
  assert (Hwf : wf_iterator sample_memory sample_iterator).
  { apply wf_init_buf. unfold valid_memory, SIZE_MAX. cbn. repeat split; lia. }
  destruct (iterator_size_invariant false sample_memory sample_iterator Hwf)
    as (H1 & H2 & H3 & H4).
  split; [exact H1|]. split; [exact (H2 5)|]. split; [exact (H3 5)|].
  apply (H4 stack_read_record caller_dst sample_next); reflexivity.
Defined.

(** ** Reading a file back *)

Lemma leading_zeros_range l : 0 <= leading_zeros l <= len l.
Proof.
  induction l as [|b l IH]; cbn [leading_zeros]; [unfold len; cbn; lia|].
  rewrite len_cons. destruct (byte_val b =? 0); lia.
Qed.

Lemma leading_zeros_before_fe l t :
  leading_zeros (l ++ xfe :: t) = leading_zeros (l ++ [xfe])
  /\ leading_zeros (l ++ [xfe]) <= len l.
Proof.
  induction l as [|b l [IH1 IH2]]; cbn [app leading_zeros].
  - change (byte_val xfe =? 0) with false. cbv iota. unfold len; cbn; lia.
  - rewrite len_cons. destruct (byte_val b =? 0); [|pose proof (len_nonneg l)]; lia.
Qed.

Lemma find_first_nonzero_loop_leading : forall p cursor end_,
  end_ - cursor = len p ->
  find_first_nonzero_loop p cursor end_ = Ok (cursor + leading_zeros p).
Proof.
  induction p as [|b p IH]; intros cursor end_ H; cbn [find_first_nonzero_loop leading_zeros].
  - change (len (@nil byte)) with 0 in H.
    replace (cursor <? end_) with false by lia. f_equal. lia.
  - rewrite len_cons in H. pose proof (len_nonneg p).
    replace (cursor <? end_) with true by lia.
    destruct (byte_val b =? 0); [|f_equal; lia].
    rewrite IH by lia. f_equal. lia.
Qed.

(** The records of a file that holds a header: the iterator starts in the
    bytes before the header, at an offset that does not depend on what
    follows it. *)
Lemma file_records_header ndebug b seek a t :
  mappable b (a ++ header ++ t) -> seek <= len a ->
  0 <= first_data seek a <= len a
  /\ file_records ndebug b seek (a ++ header ++ t)
     = Ok (scan_first (drop (first_data seek a) a ++ header ++ t) 0
                      (len (drop (first_data seek a) a ++ header ++ t))).
Proof.
  intros Hb Hseek. pose proof (len_nonneg a) as Ha. pose proof (len_nonneg t) as Ht.
  set (c := a ++ header ++ t).
  assert (HL : len c = len a + 2 + len t)
    by (subst c; rewrite !len_app; change (len header) with 2; lia).
  set (s := if seek >? 0 then seek else 0).
  assert (Hs : 0 <= s <= len a) by (subst s; destruct (seek >? 0) eqn:E; lia).
  assert (Hds : drop s c = drop s a ++ xfe :: xfd :: t)
    by (subst c; rewrite drop_app_le by lia; now rewrite header_eq).
  destruct (leading_zeros_before_fe (drop s a) (xfd :: t)) as [Hlz Hlzle].
  pose proof (leading_zeros_range (drop s a ++ [xfe])) as Hlz0.
  rewrite len_drop in Hlzle by lia.
  set (z := first_data seek a).
  assert (Hz : z = s + leading_zeros (drop s a ++ [xfe])) by reflexivity.
  split; [lia|].
  set (m := mapped_at b c).
  assert (Hm : valid_memory m) by now apply valid_mapped_at.
  unfold file_records. fold m.
  assert (Hstart : data_start (file_map b seek c) = s).
  { unfold data_start, file_map. cbn [seek_data st_size]. subst s.
    destruct (seek >? 0) eqn:E; [lia | reflexivity]. }
  rewrite init_fd_unfold; try assumption; try reflexivity;
    [|discriminate | cbn [file_map st_size]; lia].
  rewrite Hstart. unfold find_first_nonzero.
  rewrite view_offset by (cbn [m mapped_at base bytes]; lia).
  replace (base m + s - base m) with s by lia.
  change (bytes m) with c. rewrite Hds.
  rewrite find_first_nonzero_loop_leading
    by (rewrite <- Hds, len_drop by lia; lia).
  rewrite Hlz. cbn [bind]. change (base m) with b.
  replace (b + s + leading_zeros (drop s a ++ [xfe])) with (b + z) by lia.
  match goal with |- records _ _ ?it = _ => assert (Hwf : wf_iterator m it) end.
  { unfold wf_iterator. cbn. fold c. destruct Hb as [H1 H2]. fold c in H2.
    split; [exact Hm|]. repeat split; lia. }
  rewrite (records_pending ndebug m Hm _ Hwf). f_equal.
  unfold pending. cbn [fi_it it_first_record it_cursor it_stop_at].
  change (base m) with b. change (bytes m) with c.
  replace (b + z - b) with z by lia. replace (b + len c - b) with (len c) by lia.
  assert (Hdz : drop z c = drop z a ++ header ++ t)
    by (subst c; apply drop_app_le; lia).
  rewrite <- Hdz.
  assert (Hlt : len (take z c) = z) by (apply len_take; lia).
  pose proof (scan_first_shift (take z c) (drop z c)) as Hsh.
  rewrite take_drop, Hlt in Hsh. exact Hsh.
Qed.

(** The bytes that appending a list of records adds to a file, when the
    kernel completes the writes: after any stream that ends with a header
    they read as the records appended. *)
Lemma append_all_added ndebug encoded ce :
  MAX_ENCODED <= len encoded ->
  forall rs fd,
    Forall writable rs -> answers fd = [] ->
    exists fd' added,
      append_all ndebug fd encoded rs ce = Ok (fd', true, ce)
      /\ contents fd' = contents fd ++ added
      /\ len added <= MAX_ENCODED * len rs
      /\ forall a,
          scan_first ((a ++ header) ++ added) 0 (len ((a ++ header) ++ added))
          = scan_first (a ++ header) 0 (len (a ++ header)) ++ rs.
Proof.
  intros Henc. induction rs as [|[g p] rs IH]; intros fd Hrs Hans.
  - exists fd, []. split; [reflexivity|]. rewrite app_nil_r.
    split; [reflexivity|]. split; [unfold len; cbn; lia|].
    intros a. now rewrite !app_nil_r.
  - inversion Hrs as [|r rs' [Hg Hp] Hrs']. subst. cbn [fst snd] in Hg, Hp.
    destruct (append_buf_encoded ndebug fd encoded g p ce Hp Henc)
      as (out & enc & HS & Hlen & Hle & Htake & E).
    pose proof (len_nonneg out) as Ho. rewrite max_encoded_value in *.
    rewrite append_to_fd_complete in E by (unfold SIZE_MAX; lia || assumption).
    rewrite Htake in E.
    assert (Hrec : parse_record out = Some (g, p))
      by (apply parse_record_stuffed; [assumption.. | unfold CRDB_RECORD_STREAM_BUF_LEN,
            CRDB_RECORD_STREAM_MAX_LEN; lia]).
    destruct (stuffed_marker_free _ _ _ HS) as [Hfree _].
    set (fd1 := {| contents := contents fd ++ out ++ header; answers := [];
                   errno := errno fd |}) in *.
    destruct (IH fd1 Hrs' eq_refl) as (fd' & added & E' & Hc' & Hlen' & Hscan').
    exists fd', (out ++ header ++ added). cbn [append_all]. rewrite E. cbn [bind].
    split; [exact E'|]. split.
    { rewrite Hc'. cbn [fd1 contents]. now rewrite <- !app_assoc. }
    split.
    { rewrite !len_app, len_cons. change (len header) with 2.
      pose proof (len_nonneg rs). lia. }
    intros a.
    replace ((a ++ header) ++ out ++ header ++ added)
      with (((a ++ header ++ out) ++ header) ++ added)
      by (rewrite <- !app_assoc; reflexivity).
    rewrite Hscan'.
    replace ((a ++ header ++ out) ++ header) with (a ++ header ++ out ++ header)
      by (rewrite <- !app_assoc; reflexivity).
    rewrite (scan_first_framed_last a out (g, p) Hfree Hrec).
    rewrite scan_first_header_only, <- app_assoc. reflexivity.
Qed.

(** X13. Appending a record to a file and reading the file back with
    [crdb_record_stream_iterator_init_fd]: when the file ends with a
    header (as after [crdb_record_stream_append_initial]), the kernel
    completes the write, and the data start that [lseek] reports is
    unchanged and lies before that header,
    [crdb_record_stream_append_buf] returns true and the iterator of the
    new file yields the records that the iterator of the old file yields,
    followed by the record appended.  The same holds for iterators set up
    with [crdb_record_stream_iterator_init_buf] on the bytes of the two
    files. *)
Theorem append_buf_then_iterate (ndebug : bool) (fd : fd_state)
        (encoded : list byte) (g : Z) (p : list byte) (ce : option crdb_error)
        (c0 : list byte) (seek b b' : Z) :
  answers fd = [] ->
  is_uint32 g -> len p <= CRDB_RECORD_STREAM_MAX_LEN ->
  MAX_ENCODED <= len encoded ->
  contents fd = c0 ++ header -> seek <= len c0 ->
  mappable b (contents fd) ->
  0 < b' -> b' + len (contents fd) + MAX_ENCODED <= SIZE_MAX ->
  exists fd' old old_buf,
    crdb_record_stream_append_buf ndebug fd encoded g p (len p) ce = Ok (fd', true, ce)
    /\ file_records ndebug b seek (contents fd) = Ok old
    /\ file_records ndebug b' seek (contents fd') = Ok (old ++ [(g, p)])
    /\ stream_records ndebug (mapped_at b (contents fd)) = Ok old_buf
    /\ stream_records ndebug (mapped_at b' (contents fd')) = Ok (old_buf ++ [(g, p)]).
Proof.
  intros Hans Hg Hp Henc Hc Hseek Hb Hb' Hmax.
  destruct (append_buf_encoded ndebug fd encoded g p ce Hp Henc)
    as (out & enc & HS & Hlen & Hle & Htake & E).
  pose proof (len_nonneg out) as Ho. rewrite max_encoded_value in *.
  rewrite E, append_to_fd_complete by (unfold SIZE_MAX; lia || assumption).
  rewrite Htake.
  assert (Hrec : parse_record out = Some (g, p))
    by (apply parse_record_stuffed; [assumption.. | unfold CRDB_RECORD_STREAM_BUF_LEN,
          CRDB_RECORD_STREAM_MAX_LEN; lia]).
  destruct (stuffed_marker_free _ _ _ HS) as [Hfree _].
  eexists. eexists. eexists. split; [reflexivity|]. cbn [contents].
  assert (Hb2 : mappable b' (contents fd ++ out ++ header)).
  { split; [exact Hb'|]. rewrite !len_app. change (len header) with 2. lia. }
  rewrite Hc in *.
  assert (Eold : c0 ++ header = c0 ++ header ++ []) by now rewrite app_nil_r.
  assert (Enew : (c0 ++ header) ++ out ++ header = c0 ++ header ++ out ++ header)
    by now rewrite <- app_assoc.
  rewrite Enew in *.
  destruct (file_records_header ndebug b seek c0 [] ltac:(now rewrite <- Eold) Hseek)
    as (Hz & Fold).
  destruct (file_records_header ndebug b' seek c0 (out ++ header) Hb2 Hseek)
    as (_ & Fnew).
  rewrite <- Eold in Fold. rewrite Fold, Fnew.
  rewrite !stream_records_scan by now apply valid_mapped_at.
  cbn [bytes mapped_at].
  rewrite !(scan_first_framed_last _ out (g, p) Hfree Hrec).
  rewrite !scan_first_header_only. repeat split; reflexivity.
Qed.

Lemma append_buf_then_iterate_witness :
  exists fd' old old_buf,
    crdb_record_stream_append_buf
      false {| contents := sample_stream; answers := []; errno := 0 |}
      (repeat x00 526) 82165 [] (len (@nil byte)) None = Ok (fd', true, None)
    /\ file_records false 4096 0
         (contents {| contents := sample_stream; answers := []; errno := 0 |}) = Ok old
    /\ file_records false 8192 0 (contents fd') = Ok (old ++ [(82165, [])])
    /\ stream_records false
         (mapped_at 4096 (contents {| contents := sample_stream; answers := [];
                                      errno := 0 |})) = Ok old_buf
    /\ stream_records false (mapped_at 8192 (contents fd')) = Ok (old_buf ++ [(82165, [])]).
Proof.
  apply (append_buf_then_iterate
           false {| contents := sample_stream; answers := []; errno := 0 |}
           (repeat x00 526) 82165 [] None (take 16 sample_stream) 0 4096 8192).
  - reflexivity.
  - vm_compute. split; discriminate.
  - vm_compute. discriminate.
  - vm_compute. discriminate.
  - reflexivity.
  - vm_compute. discriminate.
  - vm_compute. split; [reflexivity | discriminate].
  - reflexivity.
  - vm_compute. discriminate.
Defined.

(** X14. A record whose append succeeded is the last record read back
    from the file, whatever the kernel answered to the writes (failures
    and short writes included): when the file ended with a header, the
    data start that [lseek] reports lies before that header and
    [crdb_record_stream_append_buf] returns true, the iterator that
    [crdb_record_stream_iterator_init_fd] sets up on the new file yields a
    sequence of records that ends with the record appended; and so does an
    iterator set up with [crdb_record_stream_iterator_init_buf] on its
    bytes. *)
Theorem append_buf_durable (ndebug : bool) (fd fd' : fd_state)
        (encoded : list byte) (g : Z) (p : list byte) (ce ce' : option crdb_error)
        (c0 : list byte) (seek b' : Z) :
  is_uint32 g -> len p <= CRDB_RECORD_STREAM_MAX_LEN ->
  MAX_ENCODED <= len encoded ->
  contents fd = c0 ++ header -> seek <= len c0 ->
  crdb_record_stream_append_buf ndebug fd encoded g p (len p) ce = Ok (fd', true, ce') ->
  mappable b' (contents fd') ->
  (exists earlier,
      file_records ndebug b' seek (contents fd') = Ok (earlier ++ [(g, p)]))
  /\ (exists earlier,
         stream_records ndebug (mapped_at b' (contents fd')) = Ok (earlier ++ [(g, p)])).
Proof.
  intros Hg Hp Henc Hc Hseek E Hb.
  destruct (append_buf_encoded ndebug fd encoded g p ce Hp Henc)
    as (out & enc & HS & Hlen & Hle & Htake & E').
  pose proof (len_nonneg out) as Ho. rewrite max_encoded_value in *.
  rewrite E' in E.
  assert (Ea : append_to_fd fd enc (len out + 2) ce = (fd', true, ce')) by congruence.
  apply append_to_fd_shape in Ea; [|lia | unfold SIZE_MAX; lia].
  destruct Ea as [_ Hshape]. rewrite Htake in Hshape.
  assert (Hrec : parse_record out = Some (g, p))
    by (apply parse_record_stuffed; [assumption.. | unfold CRDB_RECORD_STREAM_BUF_LEN,
          CRDB_RECORD_STREAM_MAX_LEN; lia]).
  destruct (stuffed_marker_free _ _ _ HS) as [Hfree _].
  rewrite stream_records_scan by now apply valid_mapped_at.
  cbn [bytes mapped_at]. rewrite Hc in Hshape.
  assert (Hnew : exists mid, contents fd' = c0 ++ header ++ mid ++ header ++ out ++ header
                             \/ contents fd' = c0 ++ header ++ out ++ header).
  { destruct Hshape as [Hs | [junk Hs]].
    - exists []. right. rewrite Hs, <- app_assoc. reflexivity.
    - exists junk. left. rewrite Hs, <- !app_assoc. reflexivity. }
  destruct Hnew as (mid & [Hs|Hs]); rewrite Hs in *.
  - destruct (file_records_header ndebug b' seek c0 (mid ++ header ++ out ++ header)
                                  Hb Hseek) as (_ & F).
    rewrite F. split.
    + eexists.
      replace (drop (first_data seek c0) c0 ++ header ++ mid ++ header ++ out ++ header)
        with ((drop (first_data seek c0) c0 ++ header ++ mid) ++ header ++ out ++ header)
        by (rewrite <- !app_assoc; reflexivity).
      now rewrite (scan_first_framed_last _ out (g, p) Hfree Hrec).
    + eexists.
      replace (c0 ++ header ++ mid ++ header ++ out ++ header)
        with ((c0 ++ header ++ mid) ++ header ++ out ++ header)
        by (rewrite <- !app_assoc; reflexivity).
      now rewrite (scan_first_framed_last _ out (g, p) Hfree Hrec).
  - destruct (file_records_header ndebug b' seek c0 (out ++ header) Hb Hseek) as (_ & F).
    rewrite F. split; eexists;
      now rewrite (scan_first_framed_last _ out (g, p) Hfree Hrec).
Qed.

Lemma append_buf_durable_witness :
  (exists earlier,
      file_records false 8192 0 (contents sample_short_append)
      = Ok (earlier ++ [(9, [x68; x69])]))
  /\ (exists earlier,
         stream_records false (mapped_at 8192 (contents sample_short_append))
         = Ok (earlier ++ [(9, [x68; x69])])).
Proof.
  apply (append_buf_durable
           false {| contents := sample_stream; answers := [Written 3]; errno := 0 |}
           sample_short_append (repeat x00 526) 9 [x68; x69] None None
           (take 16 sample_stream) 0 8192).
  - vm_compute. split; discriminate.
  - vm_compute. discriminate.
  - vm_compute. discriminate.
  - reflexivity.
  - vm_compute. discriminate.
  - vm_compute. reflexivity.
  - vm_compute. split; [reflexivity | discriminate].
Defined.

(** X19. Appending a list of records to a file and reading the file back
    with [crdb_record_stream_iterator_init_fd]: starting from a file that
    ends with a header, when the kernel completes the writes and the data
    start that [lseek] reports is unchanged and lies before that header,
    appending records of at most 512 bytes one after the other succeeds,
    and the iterator of the resulting file yields the records that the
    iterator of the original file yields, followed by the appended
    records, in order.  The same holds for iterators set up with
    [crdb_record_stream_iterator_init_buf] on the bytes of the two
    files. *)
Theorem append_all_then_iterate (ndebug : bool) (fd : fd_state)
        (encoded : list byte) (rs : list record) (ce : option crdb_error)
        (c0 : list byte) (seek b b' : Z) :
  Forall writable rs -> answers fd = [] ->
  MAX_ENCODED <= len encoded ->
  contents fd = c0 ++ header -> seek <= len c0 ->
  mappable b (contents fd) ->
  0 < b' -> b' + len (contents fd) + MAX_ENCODED * len rs <= SIZE_MAX ->
  exists fd' old old_buf,
    append_all ndebug fd encoded rs ce = Ok (fd', true, ce)
    /\ file_records ndebug b seek (contents fd) = Ok old
    /\ file_records ndebug b' seek (contents fd') = Ok (old ++ rs)
    /\ stream_records ndebug (mapped_at b (contents fd)) = Ok old_buf
    /\ stream_records ndebug (mapped_at b' (contents fd')) = Ok (old_buf ++ rs).
Proof.
  intros Hrs Hans Henc Hc Hseek Hb Hb' Hmax.
  destruct (append_all_added ndebug encoded ce Henc rs fd Hrs Hans)
    as (fd' & added & E & Hc' & Hlen & Hscan).
  exists fd'. eexists. eexists. split; [exact E|].
  rewrite Hc', Hc in *.
  assert (Hb2 : mappable b' ((c0 ++ header) ++ added))
    by (split; [exact Hb'|]; rewrite len_app; lia).
  assert (Eold : c0 ++ header = c0 ++ header ++ []) by now rewrite app_nil_r.
  assert (Enew : (c0 ++ header) ++ added = c0 ++ header ++ added)
    by now rewrite <- app_assoc.
  destruct (file_records_header ndebug b seek c0 [] ltac:(now rewrite <- Eold) Hseek)
    as (Hz & Fold).
  destruct (file_records_header ndebug b' seek c0 added ltac:(now rewrite <- Enew) Hseek)
    as (_ & Fnew).
  rewrite <- Eold in Fold. rewrite <- Enew in Fnew. rewrite Fold, Fnew.
  rewrite !stream_records_scan by now apply valid_mapped_at.
  cbn [bytes mapped_at].
  replace (drop (first_data seek c0) c0 ++ header ++ added)
    with ((drop (first_data seek c0) c0 ++ header) ++ added)
    by (rewrite <- app_assoc; reflexivity).
  replace (drop (first_data seek c0) c0 ++ header ++ [])
    with (drop (first_data seek c0) c0 ++ header) by now rewrite app_nil_r.
  rewrite !Hscan. repeat split; reflexivity.
Qed.

Lemma append_all_then_iterate_witness :
  exists fd' old old_buf,
    append_all false {| contents := header; answers := []; errno := 0 |}
               (repeat x00 526) [(82165, []); (8, [x68; x69]); (9, [xfe; xfd])] None
    = Ok (fd', true, None)
    /\ file_records false 4096 0
         (contents {| contents := header; answers := []; errno := 0 |}) = Ok old
    /\ file_records false 8192 0 (contents fd')
       = Ok (old ++ [(82165, []); (8, [x68; x69]); (9, [xfe; xfd])])
    /\ stream_records false
         (mapped_at 4096 (contents {| contents := header; answers := []; errno := 0 |}))
       = Ok old_buf
    /\ stream_records false (mapped_at 8192 (contents fd'))
       = Ok (old_buf ++ [(82165, []); (8, [x68; x69]); (9, [xfe; xfd])]).
Proof.
  apply (append_all_then_iterate
           false {| contents := header; answers := []; errno := 0 |}
           (repeat x00 526) [(82165, []); (8, [x68; x69]); (9, [xfe; xfd])] None
           [] 0 4096 8192).
  - repeat constructor; vm_compute; discriminate.
  - reflexivity.
  - vm_compute. discriminate.
  - reflexivity.
  - vm_compute. discriminate.
  - vm_compute. split; [reflexivity | discriminate].
  - reflexivity.
  - vm_compute. discriminate.
Defined.
